(** * ASMesh simulation framework: a shallow embedding of the simulator core

    The development follows the JavaScript sources:
    - [AdversaryLP.js]    (module [AdversaryLP]),
    - [socialGraph.js]    (module [SocialGraph]),
    - [temporal.js]       (module [Temporal]),
    - [networkTemporal.js] with [PoissonCoverTraffic.js] (module [Network]),
    - the metrics of the experiment driver (module [Driver]).

    Conventions used throughout.
    - A JavaScript number that holds an integer (node ids, epochs, counters)
      is a [nat] or a [Z]; any other number is the rational it denotes ([Q]),
      with exact arithmetic.
    - A JavaScript [Map] is an association list in insertion order
      ([map_get], [map_set]); a [Set] is a duplicate-free list in insertion
      order ([set_add]).
    - A function that can throw returns a [Result]. *)

From Stdlib Require Import String Ascii DecimalString DecimalFacts DecimalNat.
From Stdlib Require Import ZArith QArith Qround Lqa.
From Stdlib Require Import Lia Bool Arith Permutation Sorted List.
Import ListNotations.

Set Implicit Arguments.
Close Scope Q_scope.
Open Scope string_scope.
Open Scope list_scope.
Open Scope nat_scope.

(** ** Outcomes of a JavaScript computation *)

Inductive Result (A : Type) : Type :=
| Ok (a : A)                (* normal completion *)
| Throw (msg : string)      (* an exception escapes *)
| OutOfFuel.                (* the model's step budget ran out *)

Arguments Ok {A} a.
Arguments Throw {A} msg.
Arguments OutOfFuel {A}.

Definition bind {A B} (r : Result A) (k : A -> Result B) : Result B :=
  match r with
  | Ok a => k a
  | Throw m => Throw m
  | OutOfFuel => OutOfFuel
  end.

Notation "x <- c ;; k" := (bind c (fun x => k))
  (at level 61, c at next level, right associativity).

(** ** Numbers *)

Definition Qltb (x y : Q) : bool := negb (Qle_bool y x).
Definition Qgeb (x y : Q) : bool := Qle_bool y x.
Definition Qmax (x y : Q) : Q := if Qle_bool x y then y else x.
Definition Qmin (x y : Q) : Q := if Qle_bool x y then x else y.

(** [Math.floor] and [Math.round] (round half up). *)
Definition Math_floor (x : Q) : Z := Qfloor x.
Definition Math_round (x : Q) : Z := Qfloor (x + (1 # 2))%Q.

(** Decimal rendering of a number inside a template string. *)
Definition str (n : nat) : string := NilZero.string_of_uint (Nat.to_uint n).

(** [Number(s)] / [parseInt(s, 10)] on a string of digits. *)
Definition Number_of (s : string) : nat :=
  match NilZero.uint_of_string s with
  | Some u => Nat.of_uint u
  | None => 0
  end.

(** ** Maps and sets in insertion order *)

Section JsMap.
Variables K V : Type.
Variable eqb : K -> K -> bool.

Fixpoint map_get (m : list (K * V)) (k : K) : option V :=
  match m with
  | [] => None
  | (k', v) :: m' => if eqb k' k then Some v else map_get m' k
  end.

(** [Map.prototype.set]: an existing key keeps its position. *)
Fixpoint map_set (m : list (K * V)) (k : K) (v : V) : list (K * V) :=
  match m with
  | [] => [(k, v)]
  | (k', v') :: m' =>
      if eqb k' k then (k', v) :: m' else (k', v') :: map_set m' k v
  end.

Definition map_has (m : list (K * V)) (k : K) : bool :=
  match map_get m k with Some _ => true | None => false end.
End JsMap.

Section JsSet.
Variable A : Type.
Variable eqb : A -> A -> bool.

Definition set_has (s : list A) (x : A) : bool := existsb (eqb x) s.

Definition set_add (s : list A) (x : A) : list A :=
  if set_has s x then s else s ++ [x].
End JsSet.

Definition nat_has := set_has Nat.eqb.
Definition nat_add := set_add Nat.eqb.

(** A stable sort, as [Array.prototype.sort] with a consistent comparator:
    [before x y] holds when the comparator puts [x] strictly before [y]. *)
Section JsSort.
Variable A : Type.
Variable before : A -> A -> bool.

(** [x] precedes every element of [l] in the input, so it is placed in
    front of the first element that is not strictly before it. *)
Fixpoint sort_insert (x : A) (l : list A) : list A :=
  match l with
  | [] => [x]
  | y :: l' => if before y x then y :: sort_insert x l' else x :: y :: l'
  end.

Fixpoint js_sort (l : list A) : list A :=
  match l with
  | [] => []
  | x :: l' => sort_insert x (js_sort l')
  end.
End JsSort.

(** ** Option and list helpers *)

Definition or_else {A} (o : option A) (d : A) : A :=
  match o with Some a => a | None => d end.

Fixpoint seq_from (a : nat) (len : nat) : list nat :=
  match len with
  | O => []
  | S len' => a :: seq_from (S a) len'
  end.

Definition Zsum (l : list Z) : Z := fold_left Z.add l 0%Z.
Definition Qsum (l : list Q) : Q := fold_left Qplus l 0%Q.

(** * The local-passive adversary ([AdversaryLP.js]) *)

Module AdversaryLP.

Inductive EstTier := intimate | friend | acquaintance | weak | unknown.

Record Guess := mkGuess {
  g_t : nat;
  g_sender : nat;
  guessRecipient : nat
}.

Record ContactRec := mkContact {
  c_t : nat;
  c_a : nat;
  c_b : nat;
  c_count : Z
}.

(** The fields of the class.  [communityStructure] is written by
    [_detectCommunities] and read by nothing in the inference path; it is
    left out. *)
Record Adv := mkAdv {
  observed : list nat;
  delta : nat;
  linkCounts : list (string * Z);
  sendEvents : list (nat * list nat);
  guesses : list Guess;
  contactLog : list ContactRec;
  recipientHistory : list (nat * list (nat * Z));
  activityLog : list (nat * list nat);
  estimatedGraph : list (nat * list nat);
  relationshipStrengths : list (string * Q);
  relationshipTiers : list (string * EstTier);
  confidenceScores : list (string * Q)
}.

(** [constructor(observedNodeIds, opts)]: [delta = opts.delta || 1]. *)
Definition create (observedNodeIds : list nat) (opt_delta : nat) : Adv :=
  mkAdv (fold_left nat_add observedNodeIds [])
        (if Nat.eqb opt_delta 0 then 1 else opt_delta)
        [] [] [] [] [] [] [] [] [] [].

Definition _edgeKey (a b : nat) : string :=
  if a <? b then (str a ++ "-" ++ str b)%string
  else (str b ++ "-" ++ str a)%string.

Definition _timeKey (a b t : nat) : string :=
  (_edgeKey a b ++ "-" ++ str t)%string.

Definition count_of (lc : list (string * Z)) (k : string) : Z :=
  or_else (map_get String.eqb lc k) 0%Z.

Definition activity_add (al : list (nat * list nat)) (t x : nat)
  : list (nat * list nat) :=
  map_set Nat.eqb al t (nat_add (or_else (map_get Nat.eqb al t) []) x).

Definition noteContact (A : Adv) (t aId bId : nat) (count : Z) : Adv :=
  if negb (nat_has (observed A) aId) && negb (nat_has (observed A) bId)
  then A
  else
    let tk := _timeKey aId bId t in
    mkAdv (observed A) (delta A)
          (map_set String.eqb (linkCounts A) tk
                   (count_of (linkCounts A) tk + count)%Z)
          (sendEvents A) (guesses A)
          (contactLog A ++ [mkContact t (Nat.min aId bId) (Nat.max aId bId) count])
          (recipientHistory A)
          (activity_add (activity_add (activityLog A) t aId) t bId)
          (estimatedGraph A) (relationshipStrengths A)
          (relationshipTiers A) (confidenceScores A).

Definition noteSend (A : Adv) (t senderId : nat) : Adv :=
  mkAdv (observed A) (delta A) (linkCounts A)
        (activity_add (sendEvents A) t senderId)
        (guesses A) (contactLog A) (recipientHistory A) (activityLog A)
        (estimatedGraph A) (relationshipStrengths A)
        (relationshipTiers A) (confidenceScores A).

Definition in_log (log : list (nat * list nat)) (t x : nat) : bool :=
  match map_get Nat.eqb log t with
  | Some s => nat_has s x
  | None => false
  end.

(** [_computeIntersectionScore]: [tt] runs over [max(0, t - window) .. t-1]. *)
Definition _computeIntersectionScore (A : Adv) (sender recipient t window : nat)
  : Q :=
  let lo := t - window in
  let tts := seq_from lo (t - lo) in
  let hits := filter (fun tt => in_log (sendEvents A) tt sender) tts in
  let overlaps :=
    filter (fun tt => in_log (activityLog A) tt recipient
                      || in_log (activityLog A) (tt + 1) recipient) hits in
  if 0 <? length hits
  then (inject_Z (Z.of_nat (length overlaps)) / inject_Z (Z.of_nat (length hits)))%Q
  else 0%Q.

(** [_sumCountsOverWindow]: [tt] runs over [t0 .. t0 + delta]. *)
Definition _sumCountsOverWindow (A : Adv) (a b t0 dlt : nat) : Z :=
  Zsum (map (fun tt => count_of (linkCounts A) (_timeKey a b tt))
            (seq_from t0 (S dlt))).

Definition _countDirectedTraffic (A : Adv) (sender recipient : nat) : Z :=
  Z.of_nat (length (filter (fun g => Nat.eqb (g_sender g) sender
                                     && Nat.eqb (guessRecipient g) recipient)
                           (guesses A))).

Record Strength := mkStrength {
  totalVolume : Z;
  coActivityRate : Q;
  reciprocity : Q;
  consistency : Q;
  overallScore : Q
}.

Record Analysis := mkAnalysis {
  strength : Strength;
  tier : EstTier;
  confidence : Q
}.

(** The entries of [linkCounts] that the volume loop of
    [_analyzeRelationship] selects: [tk.startsWith(key)]. *)
Definition volumeByEpoch (A : Adv) (nodeA nodeB : nat) : list Z :=
  map snd (filter (fun e => String.prefix (_edgeKey nodeA nodeB) (fst e))
                  (linkCounts A)).

Definition estimateTier (vol : Z) : EstTier * Q :=
  if (100 <=? vol)%Z then (intimate, Qmin (9 # 10) (inject_Z vol / 200)%Q)
  else if (30 <=? vol)%Z then (friend, Qmin (8 # 10) (inject_Z vol / 60)%Q)
  else if (5 <=? vol)%Z then (acquaintance, Qmin (7 # 10) (inject_Z vol / 15)%Q)
  else if (0 <? vol)%Z then (weak, (4 # 10)%Q)
  else (unknown, 0%Q).

(** The regular expression [/^(\d+)-(\d+)/] of [buildSocialGraphEstimate]. *)
Definition is_digit (c : ascii) : bool :=
  let n := nat_of_ascii c in (48 <=? n) && (n <=? 57).

Fixpoint take_digits (s : string) : string * string :=
  match s with
  | EmptyString => (EmptyString, EmptyString)
  | String c s' =>
      if is_digit c
      then let '(d, r) := take_digits s' in (String c d, r)
      else (EmptyString, s)
  end.

Definition match_pair (tk : string) : option (string * string) :=
  let '(a, r) := take_digits tk in
  match a, r with
  | String _ _, String "-"%char r' =>
      let '(b, _) := take_digits r' in
      match b with
      | String _ _ => Some (a, b)
      | EmptyString => None
      end
  | _, _ => None
  end.

(** [s.split('-')]. *)
Fixpoint split_dash (s : string) : list string :=
  match s with
  | EmptyString => [EmptyString]
  | String c s' =>
      match split_dash s' with
      | [] => [String c EmptyString]
      | w :: ws =>
          if Ascii.eqb c "-"%char then EmptyString :: w :: ws
          else String c w :: ws
      end
  end.

Definition nodePairs (A : Adv) : list string :=
  fold_left
    (fun acc e =>
       match match_pair (fst e) with
       | Some (a, b) => set_add String.eqb acc (a ++ "-" ++ b)%string
       | None => acc
       end)
    (linkCounts A) [].

Definition graph_link (g : list (nat * list nat)) (a b : nat)
  : list (nat * list nat) :=
  let g1 := if map_has Nat.eqb g a then g else map_set Nat.eqb g a [] in
  let g2 := if map_has Nat.eqb g1 b then g1 else map_set Nat.eqb g1 b [] in
  let g3 := map_set Nat.eqb g2 a (nat_add (or_else (map_get Nat.eqb g2 a) []) b) in
  map_set Nat.eqb g3 b (nat_add (or_else (map_get Nat.eqb g3 b) []) a).

Definition _getTierBonus (tr : option EstTier) : Q :=
  match tr with
  | Some intimate => 10
  | Some friend => 5
  | Some acquaintance => 2
  | Some weak => 1 # 2
  | _ => 0
  end%Q.

(** [_updateHistory]. *)
Definition _updateHistory (h : list (nat * list (nat * Z))) (sender g : nat)
  : list (nat * list (nat * Z)) :=
  let hs := or_else (map_get Nat.eqb h sender) [] in
  map_set Nat.eqb h sender
          (map_set Nat.eqb hs g (or_else (map_get Nat.eqb hs g) 0 + 1)%Z).

(** The candidates of [inferEpoch] for sender [s] with true neighbours
    [nbrs]. *)
Definition candidateSet (A : Adv) (nbrs : list nat) (s : nat) : list nat :=
  match map_get Nat.eqb (estimatedGraph A) s with
  | Some est =>
      if 0 <? length est then filter (fun n => nat_has nbrs n) est else nbrs
  | None => nbrs
  end.

Definition scoreOf (A : Adv) (t s v : nat) : Q :=
  let immediateScore := inject_Z (_sumCountsOverWindow A s v t (delta A)) in
  let historicalScore :=
    match map_get Nat.eqb (recipientHistory A) s with
    | Some h => inject_Z (or_else (map_get Nat.eqb h v) 0%Z)
    | None => 0%Q
    end in
  let intersectionScore := _computeIntersectionScore A s v t 10 in
  let edgeKey := _edgeKey s v in
  let relationshipBonus :=
    or_else (map_get String.eqb (relationshipStrengths A) edgeKey) 0%Q in
  let tierBonus :=
    _getTierBonus (map_get String.eqb (relationshipTiers A) edgeKey) in
  ((immediateScore * (5 # 10) + historicalScore * (2 # 10)
    + intersectionScore * (1 # 10)) * (7 # 10)
   + (relationshipBonus * (1 # 1000) + tierBonus) * (3 # 10))%Q.

(** The entries of the [scores] map, sorted by decreasing score. *)
Definition rankedScores (A : Adv) (t s : nat) (cands : list nat)
  : list (nat * Q) :=
  js_sort (fun x y => Qltb (snd y) (snd x))
          (fold_left (fun m v => map_set Nat.eqb m v (scoreOf A t s v)) cands []).

(** The body of the loop over the senders of epoch [t]. *)
Definition inferSender (adjacencyLookup : nat -> list nat) (t : nat)
           (A : Adv) (s : nat) : Adv :=
  let nbrs := adjacencyLookup s in
  if length nbrs =? 0 then A
  else
    let cands := candidateSet A nbrs s in
    if length cands =? 0 then A
    else
      match rankedScores A t s cands with
      | best :: _ =>
          mkAdv (observed A) (delta A) (linkCounts A) (sendEvents A)
                (guesses A ++ [mkGuess t s (fst best)])
                (contactLog A)
                (_updateHistory (recipientHistory A) s (fst best))
                (activityLog A) (estimatedGraph A) (relationshipStrengths A)
                (relationshipTiers A) (confidenceScores A)
      | [] => A
      end.

Section WithSqrt.
(** [Math.sqrt] on doubles, seen as a function on the rationals. *)
Variable Math_sqrt : Q -> Q.

Definition _analyzeRelationship (A : Adv) (nodeA nodeB : nat) : Analysis :=
  let vols := volumeByEpoch A nodeA nodeB in
  let total := Zsum vols in
  let totalEpochs := length (activityLog A) in
  let coActive :=
    length (filter (fun e => nat_has (snd e) nodeA && nat_has (snd e) nodeB)
                   (activityLog A)) in
  let coRate :=
    if 0 <? totalEpochs
    then (inject_Z (Z.of_nat coActive) / inject_Z (Z.of_nat totalEpochs))%Q
    else 0%Q in
  let aToB := _countDirectedTraffic A nodeA nodeB in
  let bToA := _countDirectedTraffic A nodeB nodeA in
  let recip :=
    (inject_Z (Z.min aToB bToA) / inject_Z (Z.max aToB bToA + 1))%Q in
  let len := inject_Z (Z.of_nat (length vols)) in
  let avg := if 0 <? length vols then (inject_Z total / len)%Q else 0%Q in
  let variance :=
    if 0 <? length vols
    then (Qsum (map (fun v => (inject_Z v - avg) * (inject_Z v - avg)) vols)
          / len)%Q
    else 0%Q in
  let consist := (1 / (1 + Math_sqrt variance))%Q in
  let st := mkStrength total coRate recip consist
              (inject_Z total * (4 # 10) + coRate * 100 * (2 # 10)
               + recip * 50 * (2 # 10) + consist * 50 * (2 # 10))%Q in
  let '(tr, conf) := estimateTier total in
  mkAnalysis st tr
    (conf * ((7 # 10) + (3 # 10) * recip) * ((8 # 10) + (2 # 10) * consist))%Q.

(** The loop body of [buildSocialGraphEstimate] for one pair key. *)
Definition estimatePair (A : Adv) (acc : Adv) (pairKey : string) : Adv :=
  let ns := map Number_of (split_dash pairKey) in
  let a := nth 0 ns 0 in
  let b := nth 1 ns 0 in
  let analysis := _analyzeRelationship A a b in
  if Qgeb (confidence analysis) (3 # 10)
  then mkAdv (observed acc) (delta acc) (linkCounts acc) (sendEvents acc)
             (guesses acc) (contactLog acc) (recipientHistory acc)
             (activityLog acc)
             (graph_link (estimatedGraph acc) a b)
             (map_set String.eqb (relationshipStrengths acc) pairKey
                      (overallScore (strength analysis)))
             (map_set String.eqb (relationshipTiers acc) pairKey
                      (tier analysis))
             (map_set String.eqb (confidenceScores acc) pairKey
                      (confidence analysis))
  else acc.

Definition buildSocialGraphEstimate (A : Adv) : Adv :=
  let cleared :=
    mkAdv (observed A) (delta A) (linkCounts A) (sendEvents A) (guesses A)
          (contactLog A) (recipientHistory A) (activityLog A) [] [] [] [] in
  fold_left (estimatePair A) (nodePairs A) cleared.

Definition inferEpoch (A : Adv) (t : nat) (adjacencyLookup : nat -> list nat)
  : Adv :=
  let senders := or_else (map_get Nat.eqb (sendEvents A) t) [] in
  let A' := fold_left (inferSender adjacencyLookup t) senders A in
  if (t mod 20 =? 0) && (0 <? t) then buildSocialGraphEstimate A' else A'.
End WithSqrt.

(** The sum of the counts recorded for the pair [(a, b)] itself, over all
    epochs: the entries whose key parses to the pair's own edge key. *)
Definition recordedVolume (A : Adv) (a b : nat) : Z :=
  Zsum (map snd
            (filter (fun e =>
                       match match_pair (fst e) with
                       | Some (x, y) =>
                           String.eqb (x ++ "-" ++ y)%string (_edgeKey a b)
                       | None => false
                       end)
                    (linkCounts A))).

End AdversaryLP.

(** * The seeded generator shared by the sources

    [x <- (x * 16807) % 2147483647], output [(x - 1) / 2147483646].  The
    products stay below [2^53], so the state is computed exactly. *)

Module Rng.

Definition next (x : Z) : Q * Z :=
  let x' := Z.rem (x * 16807) 2147483647 in
  (Qmake (x' - 1) 2147483646, x').

(** [makeRNG(seed)] of [socialGraph.js] and [temporal.js]. *)
Definition makeRNG (seed : Z) : Z :=
  let x := Z.rem seed 2147483647 in
  if (x <=? 0)%Z then (x + 2147483646)%Z else x.

(** The states of the generator: [1 .. 2^31 - 2]. *)
Definition valid (x : Z) : Prop := (0 < x < 2147483647)%Z.

(** The state after [n] draws. *)
Fixpoint skip (n : nat) (x : Z) : Z :=
  match n with
  | O => x
  | S k => skip k (snd (next x))
  end.

End Rng.

(** * The tiered social graph ([socialGraph.js]) *)

Module SocialGraph.

Inductive Tier := intimate | friend | acquaintance.

Definition order (t : Tier) : nat :=
  match t with intimate => 3 | friend => 2 | acquaintance => 1 end.

Definition stronger (t1 t2 : Tier) : Tier :=
  if order t2 <=? order t1 then t1 else t2.

(** A user: its [id] and, when present, its [row] and [col]. *)
Record User := mkUser {
  id : nat;
  position : option (Q * Q)
}.

Record Options := mkOptions {
  pIntimate : Q;
  pFriend : Q;
  pAcquaintance : Q;
  pBridge : Q;
  seed : Z;
  bandMultiplier : Q;
  bridgeSample : Z
}.

Definition defaults : Options :=
  mkOptions (2 # 100) (8 # 100) (2 # 10) (1 # 100) 42 2 3.

Definition Adj := list (nat * list nat).
Definition TierMap := list (nat * list (nat * Tier)).

Definition adj_get (adj : Adj) (u : nat) : list nat :=
  or_else (map_get Nat.eqb adj u) [].

(** [adj.get(u).add(v)]; the maps are initialised on every user id. *)
Definition adj_add (adj : Adj) (u v : nat) : Adj :=
  map_set Nat.eqb adj u (nat_add (adj_get adj u) v).

Definition tier_get (tm : TierMap) (u v : nat) : option Tier :=
  match map_get Nat.eqb tm u with
  | Some m => map_get Nat.eqb m v
  | None => None
  end.

Definition tier_set (tm : TierMap) (u v : nat) (t : Tier) : TierMap :=
  map_set Nat.eqb tm u
          (map_set Nat.eqb (or_else (map_get Nat.eqb tm u) []) v t).

Definition kInt (o : Options) (n : nat) : Z :=
  Z.max 1 (Math_floor (pIntimate o * inject_Z (Z.of_nat n - 1))%Q).

Definition kFri (o : Options) (n : nat) : Z :=
  Z.max (kInt o n + 2) (Math_floor (pFriend o * inject_Z (Z.of_nat n - 1))%Q).

Definition kAcq (o : Options) (n : nat) : Z :=
  Z.max (kFri o n + 3)
        (Math_floor (pAcquaintance o * inject_Z (Z.of_nat n - 1))%Q).

(** [dists[i][j]] for [i <> j]. *)
Definition dist (users : list User) (i j : nat) : Q :=
  let hasCoordinates :=
    match users with
    | u0 :: _ => match position u0 with Some _ => true | None => false end
    | [] => false
    end in
  if hasCoordinates then
    match nth_error users i, nth_error users j with
    | Some ui, Some uj =>
        match position ui, position uj with
        | Some (ri, ci), Some (rj, cj) =>
            ((ri - rj) * (ri - rj) + (ci - cj) * (ci - cj))%Q
        | _, _ => 0%Q
        end
    | _, _ => 0%Q
    end
  else
    let hash :=
      ((Z.of_nat i * 2654435761 + Z.of_nat j * 2246822519) mod 4294967296)%Z in
    let normalizedHash := Qmake hash 4294967295 in
    (normalizedHash * normalizedHash * inject_Z (Z.of_nat (length users)))%Q.

(** A candidate of the band: a user id with its weight. *)
Definition Cand := (nat * Q)%type.

(** The sorted candidate list of user number [i]: every other user, by
    increasing distance. *)
Definition candidates (users : list User) (i : nat) : list (nat * Q) :=
  js_sort (fun a b => Qltb (snd a) (snd b))
    (flat_map
       (fun j => if i =? j then []
                 else match nth_error users j with
                      | Some uj => [(id uj, dist users i j)]
                      | None => []
                      end)
       (seq_from 0 (length users))).

(** The band loop of [pickTier]: the nearest unpicked candidates, until the
    band holds [m] of them. *)
Fixpoint formBand (picked : list nat) (m : Z) (cands : list (nat * Q))
         (band : list Cand) : list Cand :=
  match cands with
  | [] => band
  | c :: cs =>
      if nat_has picked (fst c) then formBand picked m cs band
      else
        let band' := band ++ [(fst c, (1 / (snd c + (1 # 1000000000)))%Q)] in
        if (m <=? Z.of_nat (length band'))%Z then band'
        else formBand picked m cs band'
  end.

Section WithPow.
(** [Math.pow] on doubles, seen as a function on the rationals. *)
Variable Math_pow : Q -> Q -> Q.

(** The [map] of [weightedSample]: one draw per candidate, in order. *)
Fixpoint assignKeys (cs : list Cand) (rng : Z) : list (Cand * Q) * Z :=
  match cs with
  | [] => ([], rng)
  | c :: cs' =>
      let '(u, rng1) := Rng.next rng in
      let w := if Qltb 0 (snd c) then snd c else (1 # 1000000000000)%Q in
      let '(ks, rng2) := assignKeys cs' rng1 in
      ((c, Math_pow u (1 / w)%Q) :: ks, rng2)
  end.

Definition weightedSample (cs : list Cand) (k : Z) (rng : Z)
  : list Cand * Z :=
  if (k <=? 0)%Z || (length cs =? 0) then ([], rng)
  else
    let '(keys, rng') := assignKeys cs rng in
    (map fst (firstn (Z.to_nat k)
                     (js_sort (fun a b => Qltb (snd b) (snd a)) keys)),
     rng').

(** The state threaded through the selection of one user's neighbours. *)
Record Sel := mkSel {
  picked : list nat;
  adj : Adj;
  tierMap : TierMap;
  rng : Z
}.

Definition pickOne (uId : nat) (tierName : Tier) (s : Sel) (c : Cand) : Sel :=
  mkSel (nat_add (picked s) (fst c))
        (adj_add (adj s) uId (fst c))
        (tier_set (tierMap s) uId (fst c) tierName)
        (rng s).

Definition pickTier (o : Options) (cands : list (nat * Q)) (uId : nat)
           (kTier : Z) (tierName : Tier) (s : Sel) : Sel :=
  if (kTier <=? 0)%Z then s
  else
    let m := Z.max kTier (Math_floor (bandMultiplier o * inject_Z kTier)%Q) in
    let band := formBand (picked s) m cands [] in
    let '(selected, rng') := weightedSample band kTier (rng s) in
    fold_left (pickOne uId tierName) selected
              (mkSel (picked s) (adj s) (tierMap s) rng').

(** One iteration of the loop "for each user, select neighbors by tier". *)
Definition selectFor (o : Options) (users : list User)
           (st : Adj * TierMap * Z) (i : nat) : Adj * TierMap * Z :=
  match nth_error users i with
  | None => st
  | Some u =>
      let '(a, tm, r) := st in
      let n := length users in
      let cands := candidates users i in
      let s0 := mkSel [] a tm r in
      let s1 := pickTier o cands (id u) (kInt o n) intimate s0 in
      let s2 := pickTier o cands (id u) (kFri o n - kInt o n) friend s1 in
      let s3 := pickTier o cands (id u) (kAcq o n - kFri o n) acquaintance s2 in
      (adj s3, tierMap s3, rng s3)
  end.

(** One step of "enforce symmetry and reconcile tier conflicts". *)
Definition reconcile (uId : nat) (st : Adj * TierMap) (vId : nat)
  : Adj * TierMap :=
  let '(a, tm) := st in
  let a' := adj_add a vId uId in
  match tier_get tm uId vId, tier_get tm vId uId with
  | Some tUV, Some tVU =>
      let strongerTier := stronger tUV tVU in
      (a', tier_set (tier_set tm uId vId strongerTier) vId uId strongerTier)
  | Some tUV, None => (a', tier_set tm vId uId tUV)
  | None, Some tVU => (a', tier_set tm uId vId tVU)
  | None, None => (a', tm)
  end.

Definition symmetrize (st : Adj * TierMap) (u : User) : Adj * TierMap :=
  fold_left (reconcile (id u)) (adj_get (fst st) (id u)) st.

(** The [while] loop over [farCandidates]; [len] is
    [farCandidates.length] and [index] the position of the head of
    [far]. *)
Fixpoint bridgeLoop (sample : Z) (uId : nat) (len : nat) (far : list nat)
         (index : nat) (toAdd : Z) (st : Adj * TierMap * Z)
  : Adj * TierMap * Z :=
  match far with
  | [] => st
  | vId :: far' =>
      if (toAdd <? sample)%Z then
        let '(a, tm, r0) := st in
        let '(r, r1) := Rng.next r0 in
        if Qltb r (inject_Z (sample - toAdd)
                   / inject_Z (Z.of_nat len - Z.of_nat index))%Q
        then
          let a' := adj_add (adj_add a uId vId) vId uId in
          let tm1 := match tier_get tm uId vId with
                     | Some _ => tm
                     | None => tier_set tm uId vId acquaintance
                     end in
          let tm2 := match tier_get tm1 vId uId with
                     | Some _ => tm1
                     | None => tier_set tm1 vId uId acquaintance
                     end in
          bridgeLoop sample uId len far' (S index) (toAdd + 1)%Z (a', tm2, r1)
        else bridgeLoop sample uId len far' (S index) toAdd (a, tm, r1)
      else st
  end.

Definition bridgeFor (o : Options) (users : list User)
           (st : Adj * TierMap * Z) (u : User) : Adj * TierMap * Z :=
  let '(a, tm, r0) := st in
  let '(r, r1) := Rng.next r0 in
  if Qltb r (pBridge o) then
    let farCandidates :=
      map id (filter (fun v => negb (id v =? id u)
                               && negb (nat_has (adj_get a (id u)) (id v)))
                     users) in
    bridgeLoop (bridgeSample o) (id u) (length farCandidates) farCandidates
               0 0%Z (a, tm, r1)
  else (a, tm, r1).

(** [getTieredMeshGraph(users, options)]: the graph (each adjacency set
    as an array) and the tier map. *)
Definition getTieredMeshGraph (users : list User) (o : Options)
  : Adj * TierMap :=
  let n := length users in
  let adj0 : Adj := fold_left (fun a u => map_set Nat.eqb a (id u) []) users [] in
  let tm0 : TierMap :=
    fold_left (fun m u => map_set Nat.eqb m (id u) []) users [] in
  let '(a1, tm1, r1) :=
    fold_left (selectFor o users) (seq_from 0 n)
              (adj0, tm0, Rng.makeRNG (seed o)) in
  let '(a2, tm2) := fold_left symmetrize users (a1, tm1) in
  let '(a3, tm3, _) :=
    if Qltb 0 (pBridge o) && (0 <? bridgeSample o)%Z
    then fold_left (bridgeFor o users) users (a2, tm2, r1)
    else (a2, tm2, r1) in
  (a3, tm3).
End WithPow.

End SocialGraph.

(** * Temporal activity patterns ([temporal.js]) *)

Module Temporal.

Record Event := mkEvent {
  userId : nat;
  t : Q
}.

Definition campusActivityPattern : list Q :=
  [ 1 # 10; 1 # 10; 1 # 10; 1 # 10; 1 # 10; 1 # 10; 1 # 10; 2 # 10;
    4 # 10; 8 # 10; 1; 12 # 10; 1; 6 # 10;
    14 # 10; 13 # 10; 11 # 10; 9 # 10; 7 # 10; 5 # 10;
    4 # 10; 3 # 10; 2 # 10; 1 # 10 ]%Q.

Record MeanOpts := mkMeanOpts {
  minPerDay : Q;
  maxPerDay : Q;
  skew : Q;
  heavyUserFraction : Q
}.

Section WithPow.
Variable Math_pow : Q -> Q -> Q.

(** [sampleUserMeans(numUsers, opts)], threading the model's generator. *)
Fixpoint sampleUserMeans (numUsers : nat) (o : MeanOpts) (rng : Z)
  : list Z * Z :=
  match numUsers with
  | O => ([], rng)
  | S k =>
      let '(u, rng1) := Rng.next rng in
      let '(v, rng2) := Rng.next rng1 in
      let rate :=
        if Qltb u (heavyUserFraction o)
        then (minPerDay o + v * (maxPerDay o - minPerDay o) * (8 # 10))%Q
        else (minPerDay o
              + Math_pow v (skew o) * (maxPerDay o - minPerDay o) * (4 # 10))%Q in
      let '(rest, rng3) := sampleUserMeans k o rng2 in
      (Math_round rate :: rest, rng3)
  end.
End WithPow.

(** The inner loop "for msg < numMessages". *)
Fixpoint emitMessages (numMessages : nat) (uid : nat) (hourStart hourLengthMs : Q)
         (rng : Z) : list Event * Z :=
  match numMessages with
  | O => ([], rng)
  | S k =>
      let '(u, rng1) := Rng.next rng in
      let timeOffset := (u * hourLengthMs)%Q in
      let '(rest, rng2) := emitMessages k uid hourStart hourLengthMs rng1 in
      (mkEvent uid (hourStart + timeOffset)%Q :: rest, rng2)
  end.

(** The loop over the users within one hour; [uid] is the index of the head
    of [rates]. *)
Fixpoint eventsForUsers (rates : list Z) (uid : nat)
         (activityMultiplier hourStart hourLengthMs : Q) (rng : Z)
  : list Event * Z :=
  match rates with
  | [] => ([], rng)
  | rate :: rates' =>
      let baseRate := (inject_Z rate / 24)%Q in
      let adjustedRate := (baseRate * activityMultiplier)%Q in
      let '(u, rng1) := Rng.next rng in
      let '(mine, rng3) :=
        if Qltb u (Qmin (8 # 10) adjustedRate)
        then
          let '(v, rng2) := Rng.next rng1 in
          let numMessages := (1 + Math_floor (v * 3)%Q)%Z in
          emitMessages (Z.to_nat numMessages) uid hourStart hourLengthMs rng2
        else ([], rng1) in
      let '(rest, rng4) :=
        eventsForUsers rates' (S uid) activityMultiplier hourStart
                       hourLengthMs rng3 in
      (mine ++ rest, rng4)
  end.

(** The loop over the hours [hour .. hour + count - 1]. *)
Fixpoint eventsForHours (count hour : nat) (rates : list Z)
         (epochStartMs hourLengthMs : Q) (rng : Z) : list Event * Z :=
  match count with
  | O => ([], rng)
  | S k =>
      let hourStart :=
        (epochStartMs + inject_Z (Z.of_nat hour) * hourLengthMs)%Q in
      let currentHour := (8 + hour) mod 24 in
      let activityMultiplier := nth currentHour campusActivityPattern 0%Q in
      let '(evs, rng1) :=
        eventsForUsers rates 0 activityMultiplier hourStart hourLengthMs rng in
      let '(rest, rng2) :=
        eventsForHours k (S hour) rates epochStartMs hourLengthMs rng1 in
      (evs ++ rest, rng2)
  end.

(** [generateEventsForHours(userRates, hours, {epochStartMs, hourLengthMs})];
    [epochStartMs] defaults to [Date.now()] in the source. *)
Definition generateEventsForHours (userRates : list Z) (hours : nat)
           (epochStartMs hourLengthMs : Q) (rng : Z) : list Event * Z :=
  let '(events, rng') :=
    eventsForHours hours 0 userRates epochStartMs hourLengthMs rng in
  (js_sort (fun a b => Qltb (t a) (t b)) events, rng').

End Temporal.

(** * The simulator ([networkTemporal.js]) *)

Module Network.

Export SocialGraph(Tier, intimate, friend, acquaintance).

(** The social graph handed over by the ground-truth manager: a [Map] from
    a user id to the array of its neighbours. *)
Definition Graph := list (nat * list nat).

(** [graph.get(u) || []]. *)
Definition graph_get (g : Graph) (u : nat) : list nat :=
  or_else (map_get Nat.eqb g u) [].

(** Every id that occurs in the graph, as a key or as a neighbour. *)
Definition universe (g : Graph) : list nat :=
  flat_map (fun e => fst e :: snd e) g.

(** ** Path diversity tracker *)

Record Tracker := mkTracker {
  nodeUsage : list (nat * nat);
  edgeUsage : list (string * nat)
}.

(** [[a, b].sort().join('-')]: the default sort compares the decimal
    renderings as strings. *)
Definition sortedPairKey (a b : nat) : string :=
  if String.ltb (str b) (str a) then (str b ++ "-" ++ str a)%string
  else (str a ++ "-" ++ str b)%string.

Fixpoint recordEdges (path : list nat) (eu : list (string * nat))
  : list (string * nat) :=
  match path with
  | a :: (b :: _) as rest =>
      let edge := sortedPairKey a b in
      recordEdges rest
        (map_set String.eqb eu edge (or_else (map_get String.eqb eu edge) 0 + 1))
  | _ => eu
  end.

Definition recordPath (tr : Tracker) (path : list nat) : Tracker :=
  mkTracker
    (fold_left
       (fun nu node =>
          map_set Nat.eqb nu node (or_else (map_get Nat.eqb nu node) 0 + 1))
       path (nodeUsage tr))
    (recordEdges path (edgeUsage tr)).

Definition usageScore (usage : nat) : Q :=
  (1 / (1 + inject_Z (Z.of_nat usage) * (1 # 10)))%Q.

Definition getNodeScore (tr : Tracker) (nodeId : nat) : Q :=
  usageScore (or_else (map_get Nat.eqb (nodeUsage tr) nodeId) 0).

Definition getEdgeScore (tr : Tracker) (nodeA nodeB : nat) : Q :=
  usageScore (or_else (map_get String.eqb (edgeUsage tr)
                               (sortedPairKey nodeA nodeB)) 0).

(** ** Shortest path (breadth-first search) *)

(** The loop over the neighbours of the last node of [path]: either the
    destination is reached, or the queue and the seen set grow. *)
Fixpoint scanShortest (ns : list nat) (path : list nat) (dst : nat)
         (q : list (list nat)) (seen : list nat)
  : list nat + (list (list nat) * list nat) :=
  match ns with
  | [] => inr (q, seen)
  | n :: ns' =>
      if nat_has seen n then scanShortest ns' path dst q seen
      else
        let newPath := path ++ [n] in
        if n =? dst then inl newPath
        else scanShortest ns' path dst (q ++ [newPath]) (nat_add seen n)
  end.

Fixpoint bfsShortest (fuel : nat) (g : Graph) (dst : nat) (Hmax : Z)
         (q : list (list nat)) (seen : list nat) : Result (option (list nat)) :=
  match fuel with
  | O => OutOfFuel
  | S fuel' =>
      match q with
      | [] => Ok None
      | path :: q' =>
          if (Hmax + 1 <? Z.of_nat (length path))%Z
          then bfsShortest fuel' g dst Hmax q' seen
          else
            match scanShortest (graph_get g (last path 0)) path dst q' seen with
            | inl newPath => Ok (Some newPath)
            | inr (q'', seen') => bfsShortest fuel' g dst Hmax q'' seen'
            end
      end
  end.

(** [shortestPath(graph, src, dst, Hmax)]; [None] is [null].  Each turn of
    the [while] loop removes a queued path, and a path is queued only for a
    node not seen before, so the loop makes at most one turn per node of
    the graph plus one. *)
Definition shortestPath (g : Graph) (src dst : nat) (Hmax : Z)
  : Result (option (list nat)) :=
  if src =? dst then Ok (Some [src])
  else bfsShortest (2 + length (universe g)) g dst Hmax [[src]] [src].

(** ** Diverse path *)

Fixpoint scanDiverse (ns : list nat) (path : list nat) (dst : nat)
         (q found : list (list nat)) (seen : list nat)
  : list (list nat) * list (list nat) * list nat :=
  match ns with
  | [] => (q, found, seen)
  | n :: ns' =>
      if nat_has seen n && negb (n =? dst)
      then scanDiverse ns' path dst q found seen
      else
        let newPath := path ++ [n] in
        if n =? dst then
          let found' := found ++ [newPath] in
          if 20 <=? length found' then (q, found', seen)
          else scanDiverse ns' path dst q found' seen
        else scanDiverse ns' path dst (q ++ [newPath]) found (nat_add seen n)
  end.

Fixpoint bfsDiverse (fuel : nat) (g : Graph) (dst : nat) (Hmax : Z)
         (q found : list (list nat)) (seen : list nat)
  : Result (list (list nat)) :=
  match fuel with
  | O => OutOfFuel
  | S fuel' =>
      match q with
      | [] => Ok found
      | path :: q' =>
          if 20 <=? length found then Ok found
          else if (Hmax + 1 <? Z.of_nat (length path))%Z
          then bfsDiverse fuel' g dst Hmax q' found seen
          else
            let '(q'', found', seen') :=
              scanDiverse (graph_get g (last path 0)) path dst q' found seen in
            bfsDiverse fuel' g dst Hmax q'' found' seen'
      end
  end.

Fixpoint edgeScores (tr : Tracker) (path : list nat) : Q :=
  match path with
  | a :: (b :: _) as rest => (getEdgeScore tr a b + edgeScores tr rest)%Q
  | _ => 0%Q
  end.

Definition pathScore (tr : Tracker) (path : list nat) : Q :=
  ((Qsum (map (getNodeScore tr) path) + edgeScores tr path)
   * Qpower (95 # 100) (Z.of_nat (length path)))%Q.

(** The roulette loop: [r -= score; if (r <= 0) return path]. *)
Fixpoint roulette (scored : list (list nat * Q)) (r : Q) : option (list nat) :=
  match scored with
  | [] => None
  | (p, score) :: rest =>
      let r' := (r - score)%Q in
      if Qle_bool r' 0 then Some p else roulette rest r'
  end.

(** [findDiversePath(graph, src, dst, Hmax, diversityTracker, rng)]. *)
Definition findDiversePath (g : Graph) (src dst : nat) (Hmax : Z)
           (tr : Tracker) (rng : Z) : Result (option (list nat) * Z) :=
  if src =? dst then Ok (Some [src], rng)
  else
    pathsFound <- bfsDiverse (2 + length (universe g)) g dst Hmax [[src]] [] [src] ;;
    match pathsFound with
    | [] => Ok (None, rng)
    | first :: _ =>
        let scoredPaths := map (fun p => (p, pathScore tr p)) pathsFound in
        let totalScore := Qsum (map snd scoredPaths) in
        let '(u, rng') := Rng.next rng in
        match roulette scoredPaths (u * totalScore)%Q with
        | Some p => Ok (Some p, rng')
        | None => Ok (Some first, rng')
        end
    end.

(** ** Random walk *)

(** [arr[Math.floor(x)]] for an index computed from a draw. *)
Definition at_index {A} (l : list A) (i : Z) : option A :=
  if (i <? 0)%Z then None else nth_error l (Z.to_nat i).

(** The [for] loop of [randomWalkPath]: [inl] when the function returns from
    inside the loop, [inr] with the path and the current node when the loop
    ends or breaks.  An index outside the candidates (possible only for a
    draw outside [0, 1)) would yield [undefined]; the model stops there. *)
Fixpoint walkLoop (iters : nat) (g : Graph) (dst : nat) (path : list nat)
         (current : nat) (seen : list nat) (rng : Z)
  : Result ((list nat + list nat * nat) * Z) :=
  match iters with
  | O => Ok (inr (path, current), rng)
  | S k =>
      let neighbors := graph_get g current in
      if length neighbors =? 0 then Ok (inr (path, current), rng)
      else
        let dstIsNeighbor := existsb (Nat.eqb dst) neighbors in
        let '(stop, rng1) :=
          if dstIsNeighbor
          then let '(u, r) := Rng.next rng in (Qltb u (3 # 10), r)
          else (false, rng) in
        if stop then Ok (inl (path ++ [dst]), rng1)
        else
          let unvisited := filter (fun n => negb (nat_has seen n)) neighbors in
          let candidates := if 0 <? length unvisited then unvisited else neighbors in
          let '(u, rng2) := Rng.next rng1 in
          match at_index candidates
                         (Math_floor (u * inject_Z (Z.of_nat (length candidates)))%Q)
          with
          | None => Throw "randomWalkPath: undefined node"
          | Some next =>
              let path' := path ++ [next] in
              if next =? dst then Ok (inl path', rng2)
              else walkLoop k g dst path' next (nat_add seen next) rng2
          end
  end.

Definition randomWalkPath (g : Graph) (src dst : nat) (maxLength : nat)
           (rng : Z) : Result (list nat * Z) :=
  w <- walkLoop (maxLength - 1) g dst [src] src [src] rng ;;
  match w with
  | (inl p, rng') => Ok (p, rng')
  | (inr (path, current), rng') =>
      fp <- shortestPath g current dst
                         (Z.of_nat maxLength - Z.of_nat (length path)) ;;
      match fp with
      | Some finalPath => Ok (path ++ tl finalPath, rng')
      | None => Ok ([src; dst], rng')
      end
  end.

(** ** Main path selection *)

Definition selectPath (g : Graph) (src dst : nat) (Hmax : Z) (tr : Tracker)
           (rng : Z) : Result (option (list nat) * Z) :=
  let '(r, rng1) := Rng.next rng in
  sp <- shortestPath g src dst Hmax ;;
  match sp with
  | None => Ok (None, rng1)
  | Some shortestPathResult =>
      let shortestLength := length shortestPathResult in
      let maxLength :=
        Z.to_nat (Math_floor (inject_Z (Z.of_nat shortestLength) * (15 # 10))%Q) in
      if Qltb r (4 # 10) then Ok (Some shortestPathResult, rng1)
      else if Qltb r ((4 # 10) + (35 # 100))%Q then
        let '(u, rng2) := Rng.next rng1 in
        let targetLength :=
          (Z.of_nat shortestLength + 1 + Math_floor (u * 2)%Q)%Z in
        d <- findDiversePath g src dst (Z.min targetLength (Z.of_nat maxLength))
                             tr rng2 ;;
        Ok (Some (or_else (fst d) shortestPathResult), snd d)
      else if Qltb r (1 - (5 # 100))%Q then
        d <- findDiversePath g src dst (Z.of_nat maxLength) tr rng1 ;;
        Ok (Some (or_else (fst d) shortestPathResult), snd d)
      else
        w <- randomWalkPath g src dst maxLength rng1 ;;
        Ok (Some (fst w), snd w)
  end.

(** ** Replies *)

Inductive ReplyType := instant | delayed | eventual.

Definition tierMultiplier (t : Tier) : Q :=
  match t with
  | intimate => 15 # 10
  | friend => 1
  | acquaintance => 6 # 10
  end%Q.

(** [scheduleReply(recipient, sender, t, tierMap, rng)]: the kind of reply
    and its epoch, or [None] for [null]. *)
Definition scheduleReply (recipientId senderId : nat) (t : nat)
           (tierMap : SocialGraph.TierMap) (rng : Z)
  : option (ReplyType * Z) * Z :=
  let tier := or_else (SocialGraph.tier_get tierMap recipientId senderId)
                      acquaintance in
  let tierMult := tierMultiplier tier in
  let '(r, rng1) := Rng.next rng in
  let adjustedInstant := ((25 # 100) * tierMult)%Q in
  let adjustedDelayed := ((60 # 100) * tierMult)%Q in
  let adjustedEventual := ((10 # 100) * tierMult)%Q in
  let total :=
    (adjustedInstant + adjustedDelayed + adjustedEventual + (5 # 100))%Q in
  if Qltb r (adjustedInstant / total)%Q then
    (Some (instant, Z.of_nat t), rng1)
  else if Qltb r ((adjustedInstant + adjustedDelayed) / total)%Q then
    let '(u, rng2) := Rng.next rng1 in
    (Some (delayed, (Z.of_nat t + (1 + Math_floor (u * 5)%Q))%Z), rng2)
  else if Qltb r ((adjustedInstant + adjustedDelayed + adjustedEventual)
                  / total)%Q then
    let '(u, rng2) := Rng.next rng1 in
    (Some (eventual, (Z.of_nat t + (5 + Math_floor (u * 15)%Q))%Z), rng2)
  else (None, rng1).

(** ** Sub-epochs and bursts *)

Definition subEpochsPerHour : nat := 6.
Definition dayMs : Q := 86400000.

(** [buckets[i].push(x)]; [None] when [buckets[i]] is [undefined]. *)
Fixpoint push_at {A} (i : nat) (x : A) (buckets : list (list A))
  : option (list (list A)) :=
  match buckets, i with
  | [], _ => None
  | b :: bs, O => Some ((b ++ [x]) :: bs)
  | b :: bs, S i' =>
      match push_at i' x bs with
      | Some bs' => Some (b :: bs')
      | None => None
      end
  end.

Definition push_atZ {A} (i : Z) (x : A) (buckets : list (list A))
  : option (list (list A)) :=
  if (i <? 0)%Z then None else push_at (Z.to_nat i) x buckets.

(** The bucket that [distributeEventsToSubEpochs] computes for an event at
    time [t] when the draw is [u]. *)
Definition subEpochOf (totalSubEpochs : nat) (t u : Q) : Z :=
  let baseSubEpoch :=
    Math_floor ((t / dayMs) * inject_Z (Z.of_nat totalSubEpochs))%Q in
  let jitter := Math_floor ((u - (1 # 2)) * 2)%Q in
  Z.max 0 (Z.min (Z.of_nat totalSubEpochs - 1) (baseSubEpoch + jitter)).

Fixpoint distributeLoop (events : list Temporal.Event) (totalSubEpochs : nat)
         (buckets : list (list nat)) (rng : Z) : Result (list (list nat) * Z) :=
  match events with
  | [] => Ok (buckets, rng)
  | ev :: events' =>
      let '(u, rng1) := Rng.next rng in
      match push_atZ (subEpochOf totalSubEpochs (Temporal.t ev) u)
                     (Temporal.userId ev) buckets with
      | Some buckets' => distributeLoop events' totalSubEpochs buckets' rng1
      | None => Throw "TypeError: subEpochEvents[subEpoch] is undefined"
      end
  end.

Definition distributeEventsToSubEpochs (events : list Temporal.Event)
           (T sph : nat) (rng : Z) : Result (list (list nat) * Z) :=
  let totalSubEpochs := T * sph in
  distributeLoop events totalSubEpochs (repeat [] totalSubEpochs) rng.

(** The loop "for b = 1 .. burstSize - 1" of [addMessageBursts]. *)
Fixpoint burstCopies (count : nat) (se : nat) (userId : nat)
         (buckets : list (list nat)) (rng : Z) : Result (list (list nat) * Z) :=
  match count with
  | O => Ok (buckets, rng)
  | S k =>
      let '(u, rng1) := Rng.next rng in
      let targetSE := (Z.of_nat se + Math_floor (u * 2)%Q)%Z in
      if (targetSE <? Z.of_nat (length buckets))%Z then
        match push_atZ targetSE userId buckets with
        | Some buckets' => burstCopies k se userId buckets' rng1
        | None => Throw "TypeError: subEpochEvents[targetSE] is undefined"
        end
      else burstCopies k se userId buckets rng1
  end.

(** The loop over the bucket [se], which can grow while it is traversed;
    [j] is the position of the next element. *)
Fixpoint burstBucket (fuel : nat) (se j : nat) (buckets : list (list nat))
         (rng : Z) : Result (list (list nat) * Z) :=
  match fuel with
  | O => OutOfFuel
  | S fuel' =>
      match nth_error (nth se buckets []) j with
      | None => Ok (buckets, rng)
      | Some userId =>
          let '(u, rng1) := Rng.next rng in
          if Qltb u (2 # 10) then
            let '(v, rng2) := Rng.next rng1 in
            let burstSize := (2 + Math_floor (v * 4)%Q)%Z in
            r <- burstCopies (Z.to_nat (burstSize - 1)) se userId buckets rng2 ;;
            burstBucket fuel' se (S j) (fst r) (snd r)
          else burstBucket fuel' se (S j) buckets rng1
      end
  end.

Fixpoint burstsFrom (fuel : nat) (count se : nat) (buckets : list (list nat))
         (rng : Z) : Result (list (list nat) * Z) :=
  match count with
  | O => Ok (buckets, rng)
  | S k =>
      r <- burstBucket fuel se 0 buckets rng ;;
      burstsFrom fuel k (S se) (fst r) (snd r)
  end.

(** [addMessageBursts]; [fuel] bounds the traversal of one bucket. *)
Definition addMessageBursts (fuel : nat) (subEpochEvents : list (list nat))
           (rng : Z) : Result (list (list nat) * Z) :=
  burstsFrom fuel (length subEpochEvents) 0 subEpochEvents rng.

(** ** Link-level cover traffic ([PoissonCoverTraffic.js]) *)

Record LinkEntry := mkEntry {
  epoch : nat;
  realCount : nat;
  coverCount : nat
}.

Record CoverMgr := mkCover {
  targetMultiplier : Q;
  minTarget : Q;
  maxTarget : Q;
  windowSize : nat;
  noiseStddev : Q;
  probabilityThreshold : Q;
  adaptiveBaseline : Q;
  linkHistory : list (string * list LinkEntry);
  currentEpoch : nat;
  coverTrafficGenerated : nat;
  realTrafficCounted : nat
}.

Definition with_history (c : CoverMgr) (h : list (string * list LinkEntry))
           (generated counted : nat) : CoverMgr :=
  mkCover (targetMultiplier c) (minTarget c) (maxTarget c) (windowSize c)
          (noiseStddev c) (probabilityThreshold c) (adaptiveBaseline c)
          h (currentEpoch c) generated counted.

Definition _getLinkKey (a b : nat) : string :=
  if a <? b then (str a ++ "-" ++ str b)%string
  else (str b ++ "-" ++ str a)%string.

(** "Find or create entry for this epoch", then apply [f] to it. *)
Fixpoint bumpEntry (f : LinkEntry -> LinkEntry) (ep : nat)
         (history : list LinkEntry) : list LinkEntry :=
  match history with
  | [] => [f (mkEntry ep 0 0)]
  | e :: rest =>
      if epoch e =? ep then f e :: rest else e :: bumpEntry f ep rest
  end.

Definition history_of (c : CoverMgr) (linkKey : string) : list LinkEntry :=
  or_else (map_get String.eqb (linkHistory c) linkKey) [].

Definition recordRealMessage (c : CoverMgr) (senderId recipientId ep : nat)
  : CoverMgr :=
  let linkKey := _getLinkKey senderId recipientId in
  let history :=
    bumpEntry (fun e => mkEntry (epoch e) (S (realCount e)) (coverCount e))
              ep (history_of c linkKey) in
  let cutoff :=
    (Z.of_nat (currentEpoch c) - Z.of_nat (windowSize c) - 10)%Z in
  let filtered := filter (fun e => (cutoff <=? Z.of_nat (epoch e))%Z) history in
  with_history c (map_set String.eqb (linkHistory c) linkKey filtered)
               (coverTrafficGenerated c) (S (realTrafficCounted c)).

Definition _recordCoverMessage (c : CoverMgr) (linkKey : string) (ep : nat)
  : CoverMgr :=
  let history :=
    bumpEntry (fun e => mkEntry (epoch e) (realCount e) (S (coverCount e)))
              ep (history_of c linkKey) in
  with_history c (map_set String.eqb (linkHistory c) linkKey history)
               (coverTrafficGenerated c) (realTrafficCounted c).

Definition in_window (c : CoverMgr) (ep : nat) (e : LinkEntry) : bool :=
  ((Z.of_nat ep - Z.of_nat (windowSize c) <=? Z.of_nat (epoch e))%Z
   && (epoch e <? ep))%bool.

Definition _countRecentTotal (c : CoverMgr) (linkKey : string) (ep : nat) : nat :=
  list_sum (map (fun e => realCount e + coverCount e)
                (filter (in_window c ep) (history_of c linkKey))).

Definition _updateAdaptiveBaseline (c : CoverMgr) (ep : nat) : CoverMgr :=
  let totals :=
    filter (fun n => 0 <? n)
           (map (fun kh => list_sum (map realCount
                                         (filter (in_window c ep) (snd kh))))
                (linkHistory c)) in
  if 0 <? length totals then
    let avgPerActiveLink :=
      (inject_Z (Z.of_nat (list_sum totals))
       / inject_Z (Z.of_nat (length totals)))%Q in
    mkCover (targetMultiplier c) (minTarget c) (maxTarget c) (windowSize c)
            (noiseStddev c) (probabilityThreshold c)
            (Qmax (minTarget c)
                  (Qmin (maxTarget c) (avgPerActiveLink * targetMultiplier c)%Q))
            (linkHistory c) (currentEpoch c) (coverTrafficGenerated c)
            (realTrafficCounted c)
  else c.

Section WithHost.
(** What the host supplies.  [Math_random n] is the value returned by the
    [n]-th call of [Math.random()] in a run; [gaussian u1 u2] is
    [Math.sqrt(-2 * Math.log(u1)) * Math.cos(2 * Math.PI * u2)];
    [Math_exp] and [Math_sqrt] are the library functions on doubles, seen
    as functions on the rationals. *)
Variable Math_random : nat -> Q.
Variable gaussian : Q -> Q -> Q.
Variable Math_exp : Q -> Q.
Variable Math_sqrt : Q -> Q.

(** Knuth's loop of [poissonSample]: [do { k++; p *= Math.random(); }
    while (p > L)]; the result is [k - 1] and the number of calls made. *)
Fixpoint knuth (fuel : nat) (L p : Q) (k : Z) (draws : nat) : Result (Z * nat) :=
  match fuel with
  | O => OutOfFuel
  | S fuel' =>
      let k' := (k + 1)%Z in
      let p' := (p * Math_random draws)%Q in
      if Qltb L p' then knuth fuel' L p' k' (S draws)
      else Ok ((k' - 1)%Z, S draws)
  end.

Definition poissonSample (fuel : nat) (lambda : Z) (draws : nat)
  : Result (Z * nat) :=
  if (lambda <=? 0)%Z then Ok (0%Z, draws)
  else if (lambda <? 30)%Z then
    knuth fuel (Math_exp (- inject_Z lambda)%Q) 1 0 draws
  else
    let mean := inject_Z lambda in
    let stddev := Math_sqrt (inject_Z lambda) in
    let u1 := Math_random draws in
    let u2 := Math_random (S draws) in
    let z := gaussian u1 u2 in
    Ok (Z.max 0 (Math_round (mean + z * stddev)%Q), S (S draws)).

Definition _sampleTarget (c : CoverMgr) (rng : Z) : Z * Z :=
  let baseTarget :=
    if Qeq_bool (adaptiveBaseline c) 0 then minTarget c
    else adaptiveBaseline c in
  let '(u1, rng1) := Rng.next rng in
  let '(u2, rng2) := Rng.next rng1 in
  let z := gaussian u1 u2 in
  let noisyTarget := (baseTarget + z * noiseStddev c)%Q in
  let target := Qmax (minTarget c) (Qmin (maxTarget c) noisyTarget) in
  (Math_floor target, rng2).

Definition _calculateCoverAmount (fuel : nat) (recentTotal : nat)
           (target : Z) (draws : nat) : Result (Z * nat) :=
  let deficit := Z.max 0 (target - Z.of_nat recentTotal) in
  if (deficit =? 0)%Z then Ok (0%Z, draws)
  else poissonSample fuel deficit draws.

(** What [generateCoverTraffic] threads: the messages so far, the
    manager, the seeded generator and the count of host draws. *)
Definition CoverAcc := (list (nat * nat) * CoverMgr * Z * nat)%type.

(** "Add cover messages with probability". *)
Fixpoint addCover (count : nat) (nodeId neighborId ep : nat) (acc : CoverAcc)
  : CoverAcc :=
  match count with
  | O => acc
  | S k =>
      let '(msgs, c, rng, draws) := acc in
      let '(u, rng1) := Rng.next rng in
      if Qltb u (probabilityThreshold c) then
        let c1 := _recordCoverMessage c (_getLinkKey nodeId neighborId) ep in
        let c2 := with_history c1 (linkHistory c1)
                               (S (coverTrafficGenerated c1))
                               (realTrafficCounted c1) in
        addCover k nodeId neighborId ep
                 (msgs ++ [(nodeId, neighborId)], c2, rng1, draws)
      else addCover k nodeId neighborId ep (msgs, c, rng1, draws)
  end.

Definition coverLink (fuel : nat) (ep nodeId : nat) (acc : CoverAcc)
           (neighborId : nat) : Result CoverAcc :=
  if nodeId <? neighborId then
    let '(msgs, c, rng, draws) := acc in
    let linkKey := _getLinkKey nodeId neighborId in
    let recentTotal := _countRecentTotal c linkKey ep in
    let '(target, rng1) := _sampleTarget c rng in
    amt <- _calculateCoverAmount fuel recentTotal target draws ;;
    Ok (addCover (Z.to_nat (fst amt)) nodeId neighborId ep
                 (msgs, c, rng1, snd amt))
  else Ok acc.

Fixpoint foldM {S A} (f : S -> A -> Result S) (l : list A) (s : S)
  : Result S :=
  match l with
  | [] => Ok s
  | x :: l' => s' <- f s x ;; foldM f l' s'
  end.

Definition generateCoverTraffic (fuel : nat) (g : Graph) (c : CoverMgr)
           (ep : nat) (rng : Z) (draws : nat) : Result CoverAcc :=
  let c0 := mkCover (targetMultiplier c) (minTarget c) (maxTarget c)
                    (windowSize c) (noiseStddev c) (probabilityThreshold c)
                    (adaptiveBaseline c) (linkHistory c) ep
                    (coverTrafficGenerated c) (realTrafficCounted c) in
  let c1 := if windowSize c0 <=? ep then _updateAdaptiveBaseline c0 ep else c0 in
  foldM (fun acc e => foldM (coverLink fuel ep (fst e)) (snd e) acc)
        g ([], c1, rng, draws).
End WithHost.

(** ** The state of a run *)

Record ReplyEntry := mkReply {
  subEpoch : Z;
  to : nat;
  kind : ReplyType
}.

(** A conversation thread; [participants] and [isActive] are never read. *)
Record Thread := mkThread {
  messageCount : nat;
  lastActive : nat
}.

(** A record of [sentLog].  [id_draw] is the [Math.random()] value from
    which the source derives the random suffix of the message id. *)
Record Message := mkMessage {
  m_t : nat;
  sender : nat;
  recipient : nat;
  id_draw : Q;
  path : list nat;
  hopTimes : list nat;
  dummy : bool;
  isReply : bool
}.

(** Calls made on the adversary's interface. *)
Inductive Call :=
| NoteSend (t senderId : nat)
| NoteContact (t a b : nat) (count : nat)
| InferEpoch (t : nat).

(** Bookkeeping of the reply path, kept beside the program state: a thread
    is created, [shouldContinue] accepts or declines, an accepted reply is
    skipped for want of a path. *)
Inductive Note :=
| ThreadCreated (key : string) (t : nat)
| Accepted (key : string) (t : nat)
| Declined (key : string) (t : nat)
| Skipped (key : string) (t : nat).

Record TierWeights := mkWeights {
  w_intimate : Q;
  w_friend : Q;
  w_acquaintance : Q
}.

Record Options := mkOptions {
  T : nat;
  seed : Z;
  Hmax : Z;
  tierWeights : TierWeights;
  noiseEdgesPerEpoch : nat;
  cover : option CoverMgr       (* the manager built from [opt.cover], if enabled *)
}.

Definition defaultWeights : TierWeights := mkWeights 3 (15 # 10) 1.

Record State := mkState {
  rng : Z;                                   (* the closure variable [seed] *)
  draws : nat;                               (* calls of [Math.random()] so far *)
  replyQueues : list (list ReplyEntry);      (* [users[i].replyQueue] *)
  activeThreads : list (string * Thread);
  tracker : Tracker;
  futureLinkCounts : list (list (string * nat));
  sentLog : list (list Message);
  coverMgr : option CoverMgr;
  adv : option AdversaryLP.Adv;
  calls : list Call;
  notes : list Note
}.

Definition set_rng (s : State) (r : Z) : State :=
  mkState r (draws s) (replyQueues s) (activeThreads s) (tracker s)
          (futureLinkCounts s) (sentLog s) (coverMgr s) (adv s) (calls s)
          (notes s).

Definition set_draws (s : State) (d : nat) : State :=
  mkState (rng s) d (replyQueues s) (activeThreads s) (tracker s)
          (futureLinkCounts s) (sentLog s) (coverMgr s) (adv s) (calls s)
          (notes s).

Definition set_queues (s : State) (q : list (list ReplyEntry)) : State :=
  mkState (rng s) (draws s) q (activeThreads s) (tracker s)
          (futureLinkCounts s) (sentLog s) (coverMgr s) (adv s) (calls s)
          (notes s).

Definition set_threads (s : State) (th : list (string * Thread)) : State :=
  mkState (rng s) (draws s) (replyQueues s) th (tracker s)
          (futureLinkCounts s) (sentLog s) (coverMgr s) (adv s) (calls s)
          (notes s).

Definition set_cover (s : State) (c : option CoverMgr) : State :=
  mkState (rng s) (draws s) (replyQueues s) (activeThreads s) (tracker s)
          (futureLinkCounts s) (sentLog s) c (adv s) (calls s) (notes s).

Definition add_note (s : State) (n : Note) : State :=
  mkState (rng s) (draws s) (replyQueues s) (activeThreads s) (tracker s)
          (futureLinkCounts s) (sentLog s) (coverMgr s) (adv s) (calls s)
          (notes s ++ [n]).

(** A call on the adversary, when one is attached ([adv?.f]). *)
Definition call_adv (s : State) (c : Call)
           (f : AdversaryLP.Adv -> AdversaryLP.Adv) : State :=
  match adv s with
  | Some a =>
      mkState (rng s) (draws s) (replyQueues s) (activeThreads s) (tracker s)
              (futureLinkCounts s) (sentLog s) (coverMgr s) (Some (f a))
              (calls s ++ [c]) (notes s)
  | None => s
  end.

(** [map.set(key, (map.get(key) || 0) + 1)] on [futureLinkCounts[epochIdx]]. *)
Fixpoint bumpLink (flc : list (list (string * nat))) (epochIdx : nat)
         (key : string) : list (list (string * nat)) :=
  match flc, epochIdx with
  | [], _ => []
  | m :: rest, O =>
      map_set String.eqb m key (or_else (map_get String.eqb m key) 0 + 1) :: rest
  | m :: rest, S i => m :: bumpLink rest i key
  end.

Definition linkKey (a b : nat) : string :=
  (str (Nat.min a b) ++ "-" ++ str (Nat.max a b))%string.

(** The hop loop: hop [i] of the path is scheduled at epoch [t + i] and
    dropped from [T] on. *)
Fixpoint recordHops (T epochIdx : nat) (path : list nat)
         (flc : list (list (string * nat))) (hopTimes : list nat)
  : list (list (string * nat)) * list nat :=
  match path with
  | a :: (b :: _) as rest =>
      if T <=? epochIdx then (flc, hopTimes)
      else recordHops T (S epochIdx) rest (bumpLink flc epochIdx (linkKey a b))
                      (hopTimes ++ [epochIdx])
  | _ => (flc, hopTimes)
  end.

(** [pathDiversityTracker.recordPath(path)], the hop loop, and
    [sentLog[t].push(msg)]. *)
Definition logMessage (T t : nat) (s : State) (snd_ rcp : nat) (idd : Q)
           (p : list nat) (isDummy isRep : bool) : Result State :=
  let tr := recordPath (tracker s) p in
  let '(flc, hops) := recordHops T t p (futureLinkCounts s) [] in
  match push_at t (mkMessage t snd_ rcp idd p hops isDummy isRep) (sentLog s) with
  | Some log =>
      Ok (mkState (rng s) (draws s) (replyQueues s) (activeThreads s) tr flc
                  log (coverMgr s) (adv s) (calls s) (notes s))
  | None => Throw "TypeError: sentLog[t] is undefined"
  end.

Definition noteSend (s : State) (t senderId : nat) : State :=
  call_adv s (NoteSend t senderId)
           (fun a => AdversaryLP.noteSend a t senderId).

Definition recordReal (s : State) (senderId recipientId t : nat) : State :=
  match coverMgr s with
  | Some c => set_cover s (Some (recordRealMessage c senderId recipientId t))
  | None => s
  end.

(** Schedule the reply of [replier] to [other] and queue it on [replier]. *)
Definition queueReply (tm : SocialGraph.TierMap) (t : nat) (s : State)
           (replier other : nat) : Result State :=
  let '(reply, rng1) := scheduleReply replier other t tm (rng s) in
  match reply with
  | None => Ok (set_rng s rng1)
  | Some (ty, ep) =>
      let '(u, rng2) := Rng.next rng1 in
      let replySubEpoch :=
        (ep * Z.of_nat subEpochsPerHour
         + Math_floor (u * inject_Z (Z.of_nat subEpochsPerHour))%Q)%Z in
      match push_at replier (mkReply replySubEpoch other ty)
                    (replyQueues s) with
      | Some q => Ok (set_queues (set_rng s rng2) q)
      | None => Throw "TypeError: recipient is undefined"
      end
  end.

(** [ConversationThread.shouldContinue(t, rng)]. *)
Definition shouldContinue (th : Thread) (t : nat) (rng : Z) : bool * Z :=
  if 5 <=? messageCount th then (false, rng)
  else if (10 <? Z.of_nat t - Z.of_nat (lastActive th))%Z then (false, rng)
  else
    let '(u, rng1) := Rng.next rng in
    (Qltb u (Qpower (7 # 10) (Z.of_nat (messageCount th))), rng1).

(** [pickWeighted(items, weights)] for the draw [u]. *)
Fixpoint pickLoop (items : list nat) (weights : list Q) (r : Q) : option nat :=
  match items, weights with
  | x :: items', w :: weights' =>
      let r' := (r - w)%Q in
      if Qle_bool r' 0 then Some x else pickLoop items' weights' r'
  | _, _ => None
  end.

Definition pickWeighted (items : list nat) (weights : list Q) (u : Q)
  : option nat :=
  match pickLoop items weights (u * Qsum weights)%Q with
  | Some x => Some x
  | None => nth_error items (length items - 1)
  end.

(** [activeThreads.get(threadKey)], or the thread that is constructed when
    there is none: [messageCount = 0], [lastActive = 0]. *)
Definition threadOf (s : State) (key : string) : Thread :=
  or_else (map_get String.eqb (activeThreads s) key) (mkThread 0 0).

(** The state once the thread has been looked up, and stored if new. *)
Definition lookupThread (s : State) (key : string) (t : nat) : State :=
  match map_get String.eqb (activeThreads s) key with
  | Some _ => s
  | None =>
      add_note (set_threads s (map_set String.eqb (activeThreads s) key
                                       (mkThread 0 0)))
               (ThreadCreated key t)
  end.

(** [this.users.length]. *)
Definition userCount (s : State) : nat := length (replyQueues s).

Definition weightOf (w : TierWeights) (t : Tier) : Q :=
  let x := match t with
           | intimate => w_intimate w
           | friend => w_friend w
           | acquaintance => w_acquaintance w
           end in
  if Qeq_bool x 0 then w_acquaintance w else x.

(** ** What is read off a finished run *)

Definition allMessages (s : State) : list Message := concat (sentLog s).

(** The number of records with [isReply = true]. *)
Definition countReplies (s : State) : nat :=
  length (filter isReply (allMessages s)).

Definition isAccepted (n : Note) : bool :=
  match n with Accepted _ _ => true | _ => false end.

Definition isSkipped (n : Note) : bool :=
  match n with Skipped _ _ => true | _ => false end.

(** The number of reply-queue entries for which [shouldContinue] returned
    true, and the number of those left without a path. *)
Definition countAccepted (s : State) : nat :=
  length (filter isAccepted (notes s)).

Definition countSkipped (s : State) : nat :=
  length (filter isSkipped (notes s)).

(** Every consecutive pair of [p] is an edge of the graph: the second is
    listed among the neighbours of the first. *)
Fixpoint isWalk (g : Graph) (p : list nat) : bool :=
  match p with
  | a :: (b :: _) as rest => nat_has (graph_get g a) b && isWalk g rest
  | _ => true
  end.

(** [p] starts at [src], ends at [dst] and follows edges of the graph. *)
Definition isRoute (g : Graph) (src dst : nat) (p : list nat) : bool :=
  match p with
  | [] => false
  | a :: _ => (a =? src) && (last p a =? dst) && isWalk g p
  end.


(** The key of the thread that a record belongs to. *)
Definition threadKeyOf (m : Message) : string :=
  sortedPairKey (sender m) (recipient m).

Section Run.
Variable Math_random : nat -> Q.
Variable gaussian : Q -> Q -> Q.
Variable Math_exp : Q -> Q.
Variable Math_sqrt : Q -> Q.

(** The run's fixed data: the step budget of the model, the social graph
    and tier map, the options. *)
Variable fuel : nat.
Variable g : Graph.
Variable tm : SocialGraph.TierMap.
Variable opt : Options.

(** One entry of [repliesForThisSubEpoch] of user [uid], at epoch [t]. *)
Definition processReply (t uid : nat) (s0 : State) (reply : ReplyEntry)
  : Result State :=
  let recipientId := to reply in
  let idd := Math_random (draws s0) in
  let s1 := set_draws s0 (S (draws s0)) in
  let threadKey := sortedPairKey uid recipientId in
  let thread := threadOf s1 threadKey in
  let s2 := lookupThread s1 threadKey t in
  let '(continue, rng1) := shouldContinue thread t (rng s2) in
  if continue then
    let s3 := add_note (set_rng s2 rng1) (Accepted threadKey t) in
    if userCount s3 <=? recipientId
    then Throw "TypeError: recipient is undefined"
    else
      sel <- selectPath g uid recipientId (Hmax opt) (tracker s3) (rng s3) ;;
      match fst sel with
      | None => Ok (add_note (set_rng s3 (snd sel)) (Skipped threadKey t))
      | Some p =>
          s4 <- logMessage (T opt) t (set_rng s3 (snd sel)) uid recipientId
                           idd p false true ;;
          let s5 := recordReal (noteSend s4 t uid) uid recipientId t in
          let s6 :=
            set_threads s5 (map_set String.eqb (activeThreads s5) threadKey
                                    (mkThread (S (messageCount thread)) t)) in
          queueReply tm t s6 recipientId uid
      end
  else Ok (add_note (set_rng s2 rng1) (Declined threadKey t)).

Definition queue_of (s : State) (uid : nat) : list ReplyEntry :=
  nth uid (replyQueues s) [].

Fixpoint set_nth {A} (i : nat) (x : A) (l : list A) : list A :=
  match l, i with
  | [], _ => []
  | _ :: l', O => x :: l'
  | y :: l', S i' => y :: set_nth i' x l'
  end.

(** The body of "for (const user of this.users)" at sub-epoch [se]. *)
Definition processUser (se t : nat) (s : State) (uid : nat) : Result State :=
  let repliesForThisSubEpoch :=
    filter (fun r => (subEpoch r =? Z.of_nat se)%Z) (queue_of s uid) in
  s' <- foldM (processReply t uid) repliesForThisSubEpoch s ;;
  Ok (set_queues s'
        (set_nth uid
                 (filter (fun r => (Z.of_nat se <? subEpoch r)%Z)
                         (queue_of s' uid))
                 (replyQueues s'))).

(** The body of "for (const uId of subEpochEvents[se])". *)
Definition processNewSend (t : nat) (s0 : State) (uId : nat) : Result State :=
  if userCount s0 <=? uId then Ok s0
  else
    let neighbors := graph_get g uId in
    if length neighbors =? 0 then Ok s0
    else
      let weights :=
        map (fun nId =>
               weightOf (tierWeights opt)
                        (or_else (SocialGraph.tier_get tm uId nId) acquaintance))
            neighbors in
      let picked := pickWeighted neighbors weights (Math_random (draws s0)) in
      let s1 := set_draws s0 (S (draws s0)) in
      match picked with
      | None => Ok s1
      | Some recipientId =>
          let idd := Math_random (draws s1) in
          let s2 := set_draws s1 (S (draws s1)) in
          if userCount s2 <=? recipientId
          then Throw "TypeError: recipient is undefined"
          else
            sel <- selectPath g uId recipientId (Hmax opt) (tracker s2)
                              (rng s2) ;;
            match fst sel with
            | None => Throw "TypeError: path is not iterable"
            | Some p =>
                s3 <- logMessage (T opt) t (set_rng s2 (snd sel)) uId
                                 recipientId idd p false false ;;
                let s4 := recordReal (noteSend s3 t uId) uId recipientId t in
                queueReply tm t s4 recipientId uId
            end
      end.

(** The body of "for (const coverMsg of coverMessages)". *)
Definition injectCover (t : nat) (s0 : State) (coverMsg : nat * nat)
  : Result State :=
  let '(senderId, recipientId) := coverMsg in
  sel <- selectPath g senderId recipientId (Hmax opt) (tracker s0) (rng s0) ;;
  match fst sel with
  | None => Throw "TypeError: path is not iterable"
  | Some p =>
      let s1 := set_rng s0 (snd sel) in
      let idd := Math_random (draws s1) in
      s2 <- logMessage (T opt) t (set_draws s1 (S (draws s1))) senderId
                       recipientId idd p true false ;;
      Ok (noteSend s2 t senderId)
  end.

Definition coverPhase (t : nat) (s : State) : Result State :=
  match coverMgr s with
  | None => Ok s
  | Some c =>
      gen <- generateCoverTraffic Math_random gaussian Math_exp Math_sqrt
                                  fuel g c t (rng s) (draws s) ;;
      let '(coverMessages, c', rng', draws') := gen in
      foldM (injectCover t) coverMessages
            (set_cover (set_draws (set_rng s rng') draws') (Some c'))
  end.

(** The noise loop of the materialization. *)
Fixpoint noiseEdges (n : nat) (count : nat) (perLink : list (string * nat))
         (rng : Z) : Result (list (string * nat) * Z) :=
  match count with
  | O => Ok (perLink, rng)
  | S k =>
      let '(u, rng1) := Rng.next rng in
      let a := Math_floor (u * inject_Z (Z.of_nat n))%Q in
      let nbrs := if (a <? 0)%Z then [] else graph_get g (Z.to_nat a) in
      if length nbrs =? 0 then noiseEdges n k perLink rng1
      else
        let '(v, rng2) := Rng.next rng1 in
        match at_index nbrs (Math_floor (v * inject_Z (Z.of_nat (length nbrs)))%Q)
        with
        | None => Throw "noise edge: undefined node"
        | Some b =>
            let k' := linkKey (Z.to_nat a) b in
            noiseEdges n k
              (map_set String.eqb perLink k'
                       (or_else (map_get String.eqb perLink k') 0 + 1))
              rng2
        end
  end.

(** "for (const [k, cnt] of perLinkPacketCounts.entries())". *)
Definition contactOf (t : nat) (s : State) (e : string * nat) : State :=
  let ab := map Number_of (AdversaryLP.split_dash (fst e)) in
  let a := nth 0 ab 0 in
  let b := nth 1 ab 0 in
  call_adv s (NoteContact t a b (snd e))
           (fun A => AdversaryLP.noteContact A t a b (Z.of_nat (snd e))).

Definition materialize (t : nat) (s : State) : Result State :=
  n <- noiseEdges (userCount s) (noiseEdgesPerEpoch opt)
                  (nth t (futureLinkCounts s) []) (rng s) ;;
  let s1 := fold_left (contactOf t) (fst n) (set_rng s (snd n)) in
  Ok (call_adv s1 (InferEpoch t)
               (fun A => AdversaryLP.inferEpoch Math_sqrt A t (graph_get g))).

(** One turn of the main simulation loop. *)
Definition subEpochStep (subEpochEvents : list (list nat)) (s0 : State)
           (se : nat) : Result State :=
  let totalSubEpochs := T opt * subEpochsPerHour in
  let t := se / subEpochsPerHour in
  s1 <- foldM (processUser se t) (seq_from 0 (userCount s0)) s0 ;;
  s2 <- foldM (processNewSend t) (nth se subEpochEvents []) s1 ;;
  s3 <- (if se mod subEpochsPerHour =? 0 then coverPhase t s2 else Ok s2) ;;
  if (se mod subEpochsPerHour =? subEpochsPerHour - 1)
     || (se =? totalSubEpochs - 1)
  then materialize t s3
  else Ok s3.

Definition initialState (users : list (list ReplyEntry))
           (a : option AdversaryLP.Adv) (rng0 : Z) : State :=
  mkState rng0 0 users [] (mkTracker [] []) (repeat [] (T opt))
          (repeat [] (T opt)) (cover opt) a [] [].

(** [run(protocol, options, adv)] from the point where the event list of
    the temporal model is at hand.  [users] holds the reply queue that
    each user carries into the run; no protocol hooks are attached. *)
Definition simulate (users : list (list ReplyEntry))
           (events : list Temporal.Event) (a : option AdversaryLP.Adv)
  : Result State :=
  d <- distributeEventsToSubEpochs events (T opt) subEpochsPerHour (seed opt) ;;
  b <- addMessageBursts fuel (fst d) (snd d) ;;
  foldM (subEpochStep (fst b)) (seq_from 0 (T opt * subEpochsPerHour))
        (initialState users a (snd b)).
End Run.

End Network.

(** * The evaluation of a run (the experiment driver) *)

Module Driver.

Record Cost := mkCost {
  totalMessages : nat;
  dummyMessages : nat;
  dummyFraction : Q
}.

(** [computeCost(sentLog)]: [dummyFraction] is [total ? dummy / total : 0]. *)
Definition computeCost (sentLog : list (list Network.Message)) : Cost :=
  let '(total, dummy) :=
    fold_left
      (fun acc epoch =>
         fold_left
           (fun acc' msg =>
              (S (fst acc'),
               if Network.dummy msg then S (snd acc') else snd acc'))
           epoch acc)
      sentLog (0, 0) in
  mkCost total dummy
         (if total =? 0 then 0%Q
          else (inject_Z (Z.of_nat dummy) / inject_Z (Z.of_nat total))%Q).

(** [pickHighDegreeObservers(graph, count)]: the nodes sorted by decreasing
    degree, the first [count] of them. *)
Definition pickHighDegreeObservers (graph : Network.Graph) (count : nat)
  : list nat :=
  let degrees := map (fun e => (fst e, length (snd e))) graph in
  map fst (firstn count (js_sort (fun a b => snd b <? snd a) degrees)).

Record GraphScore := mkScore {
  truePositives : nat;
  falsePositives : nat;
  falseNegatives : nat;
  precision : Q;
  recall : Q;
  f1Score : Q
}.

(** The set of keys [node-neighbor] with [node < neighbor]. *)
Definition edgeSet (graph : list (nat * list nat)) : list string :=
  fold_left
    (fun acc e =>
       fold_left
         (fun acc' neighbor =>
            if fst e <? neighbor
            then set_add String.eqb acc'
                         (str (fst e) ++ "-" ++ str neighbor)%string
            else acc')
         (snd e) acc)
    graph [].

(** [a / b || 0]: the quotient, and 0 when it is [NaN] or 0. *)
Definition ratio (a b : nat) : Q :=
  if b =? 0 then 0%Q
  else (inject_Z (Z.of_nat a) / inject_Z (Z.of_nat b))%Q.

(** [compareGraphs(estimatedGraph, actualGraph)]. *)
Definition compareGraphs (estimatedGraph actualGraph : list (nat * list nat))
  : GraphScore :=
  let estimatedEdges := edgeSet estimatedGraph in
  let actualEdges := edgeSet actualGraph in
  let tp :=
    length (filter (fun edge => set_has String.eqb actualEdges edge)
                   estimatedEdges) in
  let fp :=
    length (filter (fun edge => negb (set_has String.eqb actualEdges edge))
                   estimatedEdges) in
  let fn :=
    length (filter (fun edge => negb (set_has String.eqb estimatedEdges edge))
                   actualEdges) in
  let p := ratio tp (tp + fp) in
  let r := ratio tp (tp + fn) in
  let f1 :=
    if Qltb 0 (p + r) then (2 * (p * r) / (p + r))%Q else 0%Q in
  mkScore tp fp fn p r f1.

Record ConversationMetrics := mkConversationMetrics {
  totalReplies : nat;
  avgReplyDelay : Q;
  conversationThreads : nat;
  avgMessagesPerThread : Q
}.

(** The map [conversations]: the records grouped by
    [[msg.sender, msg.recipient].sort().join('-')], in order of first
    appearance. *)
Definition conversationsOf (msgs : list Network.Message)
  : list (string * list Network.Message) :=
  fold_left
    (fun conversations msg =>
       let key := Network.threadKeyOf msg in
       map_set String.eqb conversations key
               (or_else (map_get String.eqb conversations key) [] ++ [msg]))
    msgs [].

(** The loop "for (let i = 1; i < msgs.length; i++)": the delays of the
    replies after [prev]. *)
Fixpoint replyDelays (prev : Network.Message) (msgs : list Network.Message)
  : list Z :=
  match msgs with
  | [] => []
  | m :: rest =>
      (if Network.isReply m
       then [(Z.of_nat (Network.m_t m) - Z.of_nat (Network.m_t prev))%Z]
       else [])
      ++ replyDelays m rest
  end.

(** The delays counted for one conversation, its records sorted by [t]. *)
Definition delaysOf (messages : list Network.Message) : list Z :=
  match js_sort (fun a b => Network.m_t a <? Network.m_t b) messages with
  | [] => []
  | m :: rest => replyDelays m rest
  end.

(** [calculateConversationMetrics(sentLog)]. *)
Definition calculateConversationMetrics (sentLog : list (list Network.Message))
  : ConversationMetrics :=
  let flat := concat sentLog in
  let replies := filter Network.isReply flat in
  let conversations := conversationsOf flat in
  let delays := flat_map (fun conv => delaysOf (snd conv)) conversations in
  let totalReplyDelay := Zsum delays in
  let replyCount := length delays in
  mkConversationMetrics
    (length replies)
    (if 0 <? replyCount
     then (inject_Z totalReplyDelay / inject_Z (Z.of_nat replyCount))%Q
     else 0%Q)
    (length conversations)
    (if 0 <? length conversations
     then (inject_Z (Z.of_nat (length flat))
           / inject_Z (Z.of_nat (length conversations)))%Q
     else 0%Q).

(** A quotient of two counts as JavaScript computes it: a number,
    [Infinity], or [NaN] for [0 / 0]. *)
Inductive Quotient := Finite (q : Q) | Infinity | NaN.

Definition js_div (a b : nat) : Quotient :=
  if b =? 0 then (if a =? 0 then NaN else Infinity)
  else Finite (inject_Z (Z.of_nat a) / inject_Z (Z.of_nat b))%Q.

(** [path.join('-')]. *)
Fixpoint join_dash (p : list nat) : string :=
  match p with
  | [] => EmptyString
  | [x] => str x
  | x :: rest => (str x ++ "-" ++ join_dash rest)%string
  end.

Record RoutingMetrics := mkRoutingMetrics {
  avgPathLength : Quotient;
  pathDiversity : Quotient;
  shortestPathUsage : Quotient;
  totalPaths : nat
}.

(** [calculateRoutingMetrics(sentLog)]. *)
Definition calculateRoutingMetrics (sentLog : list (list Network.Message))
  : RoutingMetrics :=
  let allMessages := concat sentLog in
  let pathLengths := map (fun m => length (Network.path m)) allMessages in
  let pathSet :=
    fold_left (set_add String.eqb)
              (map (fun m => join_dash (Network.path m)) allMessages) [] in
  let shortestPathCount :=
    length (filter (fun m => length (Network.path m) <=? 3) allMessages) in
  mkRoutingMetrics
    (js_div (fold_left Nat.add pathLengths 0) (length pathLengths))
    (js_div (length pathSet) (length allMessages))
    (js_div shortestPathCount (length allMessages))
    (length pathSet).

End Driver.

(** * Scenarios

    Concrete inputs used by the examples below. *)

Module Scenario.

(** An adversary observing node 1 that saw one packet on the link 1-2 and a
    hundred packets on the link 1-20, both at epoch 0. *)
Definition collidingContacts : AdversaryLP.Adv :=
  AdversaryLP.noteContact
    (AdversaryLP.noteContact (AdversaryLP.create [1] 1) 0 1 2 1%Z)
    0 1 20 100%Z.

(** One event of user 0, stamped like [Date.now()]. *)
Definition lateEvent : list Temporal.Event :=
  [Temporal.mkEvent 0 1700000000000].

(** An adversary whose estimated graph links node 1 to node 2 only, and
    that has recorded a send of node 1 at epoch 0. *)
Definition strayEstimate : AdversaryLP.Adv :=
  AdversaryLP.mkAdv [1] 1 [] [(0, [1])] [] [] [] [] [(1, [2]); (2, [1])]
                    [] [] [].

(** Four users in a line, 0 - 1 - 2 - 3. *)
Definition line4 : Network.Graph :=
  [(0, [1]); (1, [0; 2]); (2, [1; 3]); (3, [2])].

(** Three users, all linked. *)
Definition triangle : Network.Graph :=
  [(0, [1; 2]); (1, [0; 2]); (2, [0; 1])].

(** Options of a run without cover traffic. *)
Definition plain (T : nat) (seed Hmax : Z) : Network.Options :=
  Network.mkOptions T seed Hmax Network.defaultWeights 0 None.

(** Host functions for runs that reach neither the cover manager nor a
    graph rebuild: their values play no part. *)
Definition noGaussian (u1 u2 : Q) : Q := 0.
Definition noMath (x : Q) : Q := 0.

(** A run of one hour with [Hmax = 1] on the line, in which user 0 carries
    a reply to user 3, three hops away, due at sub-epoch 0; an adversary
    observes node 0. *)
Definition farReply : Result Network.State :=
  Network.simulate (fun _ => 0%Q) noGaussian noMath noMath 100 line4 []
                   (plain 1 42 1)
                   [[Network.mkReply 0 3 Network.instant]; []; []; []] []
                   (Some (AdversaryLP.create [0] 1)).

(** A run of twelve hours on the line in which user 0 carries a reply to
    its neighbour 1 due at sub-epoch [due]. *)
Definition pendingReply (due : Z) : Result Network.State :=
  Network.simulate (fun _ => 0%Q) noGaussian noMath noMath 100 line4 []
                   (plain 12 42 1)
                   [[Network.mkReply due 1 Network.instant]; []; []; []] []
                   None.

(** A run of twelve hours on the line in which user 0 carries a reply to
    user 1 due at sub-epoch 6 and user 2 carries a reply to user 3 due at
    sub-epoch 66, in the twelfth hour. *)
Definition twoThreads : Result Network.State :=
  Network.simulate (fun _ => 0%Q) noGaussian noMath noMath 100 line4 []
                   (plain 12 42 1)
                   [[Network.mkReply 6 1 Network.instant]; [];
                    [Network.mkReply 66 3 Network.instant]; []] []
                   None.

(** The run of one hour on the triangle with one event of user 0, seed 42,
    [Math.random()] always 0, watched by an adversary at node 0. *)
Definition watchedSend : Result Network.State :=
  Network.simulate (fun _ => 0%Q) noGaussian noMath noMath 100 triangle []
                   (plain 1 42 1) [[]; []; []] lateEvent
                   (Some (AdversaryLP.create [0] 1)).

(** A run of one hour on the triangle with one event of user 0; the host's
    [Math.random()] always returns [u]. *)
Definition oneSend (u : Q) (seed Hmax : Z) : Result Network.State :=
  Network.simulate (fun _ => u) noGaussian noMath noMath 100 triangle []
                   (plain 1 seed Hmax) [[]; []; []] lateEvent None.

(** A true adjacency in which node 1 has the single neighbour 3. *)
Definition adjacencyOf3 (s : nat) : list nat := [3].

(** The manager that [run] builds from [cover: {enabled: true}]. *)
Definition lightCover : Network.CoverMgr :=
  Network.mkCover (3 # 10) (2 # 10) 1 20 (3 # 10) (6 # 10) 0 [] 0 0 0.

(** A run of one hour on the triangle with cover traffic and one event of
    user 0; the host's [Math.random()] always returns 0.9, the Gaussian
    noise is 3 and [Math.exp] gives 1/3. *)
Definition coveredHour : Result Network.State :=
  Network.simulate (fun _ => (9 # 10)%Q) (fun _ _ => 3%Q) (fun _ => (1 # 3)%Q)
                   noMath 100 triangle []
                   (Network.mkOptions 1 42 1 Network.defaultWeights 0
                                      (Some lightCover))
                   [[]; []; []] lateEvent None.

End Scenario.

(** * Facts about the helpers *)

Lemma map_set_keys_nat : forall (V : Type) (m : list (nat * V)) k v k',
  In k' (map fst (map_set Nat.eqb m k v)) <-> In k' (map fst m) \/ k' = k.
Proof.
  induction m as [|[k0 v0] m IH]; intros k v k'; simpl.
  - intuition.
  - destruct (Nat.eqb_spec k0 k) as [->|Hne]; simpl.
    + intuition.
    + rewrite IH. intuition.
Qed.

Lemma map_set_nonempty : forall (K V : Type) (eqb : K -> K -> bool)
    (m : list (K * V)) k v, map_set eqb m k v <> [].
Proof.
  intros K V eqb [|[k0 v0] m] k v; simpl; [discriminate|].
  destruct (eqb k0 k); discriminate.
Qed.

Lemma sort_insert_perm : forall (A : Type) (before : A -> A -> bool) x l,
  Permutation (sort_insert before x l) (x :: l).
Proof.
  induction l as [|y l IH]; simpl; [reflexivity|].
  destruct (before y x); [|reflexivity].
  rewrite IH. apply perm_swap.
Qed.

Lemma js_sort_perm : forall (A : Type) (before : A -> A -> bool) l,
  Permutation (js_sort before l) l.
Proof.
  induction l as [|x l IH]; simpl; [reflexivity|].
  rewrite sort_insert_perm. now constructor.
Qed.

Lemma nat_has_In : forall s x, nat_has s x = true <-> In x s.
Proof.
  intros s x. unfold nat_has, set_has. rewrite existsb_exists. split.
  - intros [y [Hy He]]. apply Nat.eqb_eq in He. now subst.
  - intros H. exists x. split; [assumption|apply Nat.eqb_refl].
Qed.

(** * The adversary *)

Section AdversaryFacts.
Import AdversaryLP.

Lemma scores_keys : forall (f : nat -> Q) cands m k,
  In k (map fst (fold_left (fun m v => map_set Nat.eqb m v (f v)) cands m))
  <-> In k (map fst m) \/ In k cands.
Proof.
  induction cands as [|c cands IH]; intros m k; simpl.
  - intuition.
  - rewrite IH, map_set_keys_nat. intuition.
Qed.

Lemma scores_nonempty : forall (f : nat -> Q) cands m,
  cands <> [] ->
  fold_left (fun m v => map_set Nat.eqb m v (f v)) cands m <> [].
Proof.
  intros f cands m Hne Hnil.
  destruct cands as [|c cands]; [congruence|].
  assert (H : In c (map fst (fold_left (fun m v => map_set Nat.eqb m v (f v))
                                       (c :: cands) m))).
  { apply scores_keys. right. now left. }
  rewrite Hnil in H. inversion H.
Qed.

(** The head of the ranking is one of the candidates. *)
Lemma rankedScores_head : forall A t s cands,
  cands <> [] ->
  exists best rest, rankedScores A t s cands = best :: rest
                    /\ In (fst best) cands.
Proof.
  intros A t s cands Hne. unfold rankedScores.
  set (m := fold_left _ cands []).
  assert (Hm : m <> []) by (apply scores_nonempty; assumption).
  pose proof (js_sort_perm (fun x y : nat * Q => Qltb (snd y) (snd x)) m) as Hp.
  destruct (js_sort _ m) as [|best rest] eqn:Hs.
  - apply Permutation_nil in Hp. congruence.
  - exists best, rest. split; [reflexivity|].
    assert (Hin : In best m).
    { eapply Permutation_in; [exact Hp|now left]. }
    assert (Hk : In (fst best) (map fst m)) by (now apply in_map).
    apply scores_keys in Hk. destruct Hk as [[]|Hk]. exact Hk.
Qed.

Lemma inferSender_guess : forall adjacency t A s,
  adjacency s <> [] ->
  candidateSet A (adjacency s) s <> [] ->
  exists v, In v (candidateSet A (adjacency s) s)
            /\ guesses (inferSender adjacency t A s)
               = guesses A ++ [mkGuess t s v].
Proof.
  intros adjacency t A s Hn Hc. unfold inferSender.
  destruct (adjacency s) as [|n0 nbrs] eqn:Hadj; [congruence|].
  cbn [length Nat.eqb].
  destruct (candidateSet A (n0 :: nbrs) s) as [|c0 cands] eqn:Hcs; [congruence|].
  cbn [length Nat.eqb].
  destruct (rankedScores_head A t s (cands := c0 :: cands)) as [best [rest [Hr Hin]]];
    [discriminate|].
  rewrite Hr. exists (fst best). split; [assumption|reflexivity].
Qed.

(** C6 (code at the failing input): the volume loop of
    [_analyzeRelationship] selects the keys that start with the pair's edge
    key, so for the pair (1, 2) it also adds the hundred packets recorded
    for the pair (1, 20).  The recorded volume of (1, 2) is 1, a weak tie;
    the volume used is 101, an intimate one. *)
Theorem C6_volume_includes_other_pairs : forall Math_sqrt : Q -> Q,
  let A := Scenario.collidingContacts in
  linkCounts A = [("1-2-0", 1%Z); ("1-20-0", 100%Z)]
  /\ In "1-2" (nodePairs A)
  /\ recordedVolume A 1 2 = 1%Z
  /\ totalVolume (strength (_analyzeRelationship Math_sqrt A 1 2)) = 101%Z
  /\ tier (_analyzeRelationship Math_sqrt A 1 2) = intimate
  /\ fst (estimateTier (recordedVolume A 1 2)) = weak.
Proof.
  intros Math_sqrt A. repeat split; try reflexivity.
  vm_compute. now left.
Qed.

(** C7 (counterexample): node 1 sent at epoch 0, its estimated neighbours
    [{2}] do not meet its true neighbours [[3]], which are not empty; the
    candidate set is empty instead of [[3]] and no guess is recorded. *)
Lemma C7_disjoint_estimate_gives_no_guess :
  let A := Scenario.strayEstimate in
  let nbrs := Scenario.adjacencyOf3 1 in
  filter (fun n => nat_has nbrs n)
         (or_else (map_get Nat.eqb (estimatedGraph A) 1) []) = []
  /\ nbrs = [3]
  /\ candidateSet A nbrs 1 = []
  /\ guesses (inferEpoch (fun x => x) A 0 Scenario.adjacencyOf3) = [].
Proof. repeat split. Qed.

(** C7 (amended): for a send of [s] at the epoch of [inferEpoch], with
    [est] the estimated neighbours of [s] and [nbrs] its true ones: when
    [est] is not empty the candidates are the members of [est] that are in
    [nbrs], and a guess among them is recorded if there is one and none
    otherwise; when [est] is empty the candidates are [nbrs]. *)
Theorem C7_candidates_and_guess : forall (adjacency : nat -> list nat) t A s,
  let nbrs := adjacency s in
  let est := or_else (map_get Nat.eqb (estimatedGraph A) s) [] in
  let common := filter (fun n => nat_has nbrs n) est in
  (est <> [] -> candidateSet A nbrs s = common)
  /\ (est = [] -> candidateSet A nbrs s = nbrs)
  /\ (est <> [] -> common <> [] ->
      exists v, In v est /\ In v nbrs
                /\ guesses (inferSender adjacency t A s)
                   = guesses A ++ [mkGuess t s v])
  /\ (est = [] -> nbrs <> [] ->
      exists v, In v nbrs
                /\ guesses (inferSender adjacency t A s)
                   = guesses A ++ [mkGuess t s v])
  /\ (est <> [] -> common = [] -> inferSender adjacency t A s = A).
Proof.
  intros adjacency t A s nbrs est common.
  assert (Hc1 : est <> [] -> candidateSet A nbrs s = common).
  { unfold candidateSet, common, est.
    destruct (map_get Nat.eqb (estimatedGraph A) s) as [[|e0 e]|]; simpl;
      intros H; congruence. }
  assert (Hc2 : est = [] -> candidateSet A nbrs s = nbrs).
  { unfold candidateSet, est.
    destruct (map_get Nat.eqb (estimatedGraph A) s) as [[|e0 e]|]; simpl;
      intros H; congruence. }
  split; [exact Hc1|]. split; [exact Hc2|]. split; [|split].
  - intros He Hne.
    assert (Hn : adjacency s <> []).
    { fold nbrs. intros Hnil. apply Hne. unfold common. rewrite Hnil.
      clear. induction est; simpl; auto. }
    destruct (inferSender_guess adjacency t A s Hn) as [v [Hv Hg]].
    + fold nbrs. rewrite (Hc1 He). exact Hne.
    + fold nbrs in Hv. rewrite (Hc1 He) in Hv. unfold common in Hv.
      apply filter_In in Hv. destruct Hv as [Hv1 Hv2].
      exists v. repeat split; [assumption|now apply nat_has_In|assumption].
  - intros He Hne.
    destruct (inferSender_guess adjacency t A s Hne) as [v [Hv Hg]].
    + fold nbrs. rewrite (Hc2 He). exact Hne.
    + fold nbrs in Hv. rewrite (Hc2 He) in Hv. exists v. now split.
  - intros He Hnil. unfold inferSender. fold nbrs.
    destruct (length nbrs =? 0); [reflexivity|].
    rewrite (Hc1 He), Hnil. reflexivity.
Qed.

End AdversaryFacts.

(** * The seeded generator *)

Lemma rng_next_valid : forall x,
  Rng.valid x ->
  Rng.valid (snd (Rng.next x))
  /\ (0 <= fst (Rng.next x))%Q /\ (fst (Rng.next x) < 1)%Q.
Proof.
  intros x [Hlo Hhi]. unfold Rng.next. cbn [fst snd].
  set (M := 2147483647%Z).
  assert (Hrem : Z.rem (x * 16807) M = ((x * 16807) mod M)%Z).
  { apply Z.rem_mod_nonneg; unfold M; lia. }
  rewrite Hrem.
  assert (Hb : (0 <= (x * 16807) mod M < M)%Z)
    by (apply Z.mod_pos_bound; unfold M; lia).
  assert (Hnz : ((x * 16807) mod M <> 0)%Z).
  { intros Hz. apply Z.mod_divide in Hz; [|unfold M; lia].
    rewrite Z.mul_comm in Hz.
    apply Z.gauss in Hz; [|reflexivity].
    apply Z.divide_pos_le in Hz; unfold M in *; lia. }
  repeat split; unfold Rng.valid, Qle, Qlt; fold M; cbn; try lia.
Qed.

Lemma rng_skip_valid : forall n x, Rng.valid x -> Rng.valid (Rng.skip n x).
Proof.
  induction n as [|n IH]; intros x Hx; simpl; [assumption|].
  apply IH. now apply rng_next_valid.
Qed.

(** * Sub-epoch distribution *)

Section DistributionFacts.
Import Network.

Lemma floor_jitter : forall u : Q,
  (0 <= u)%Q -> (-1 <= Math_floor ((u - (1 # 2)) * 2)%Q)%Z.
Proof.
  intros u Hu. unfold Math_floor.
  rewrite <- (Qfloor_Z (-1)). apply Qfloor_resp_le.
  unfold Qle in *. destruct u as [n d]. cbn in *. lia.
Qed.

Lemma floor_base : forall (t : Q) (total : nat),
  (dayMs <= t)%Q ->
  (Z.of_nat total
   <= Math_floor ((t / dayMs) * inject_Z (Z.of_nat total))%Q)%Z.
Proof.
  intros t total Ht. unfold Math_floor.
  rewrite <- (Qfloor_Z (Z.of_nat total)) at 1.
  apply Qfloor_resp_le.
  assert (H1 : (1 <= t / dayMs)%Q).
  { apply Qle_shift_div_l; [reflexivity|]. now rewrite Qmult_1_l. }
  rewrite <- (Qmult_1_l (inject_Z (Z.of_nat total))) at 1.
  apply Qmult_le_compat_r; [exact H1|].
  unfold Qle. cbn. lia.
Qed.

Lemma subEpochOf_last : forall (total : nat) (t u : Q),
  0 < total -> (dayMs <= t)%Q -> (0 <= u)%Q ->
  subEpochOf total t u = (Z.of_nat total - 1)%Z.
Proof.
  intros total t u Hpos Ht Hu. unfold subEpochOf.
  pose proof (floor_base total Ht). pose proof (floor_jitter Hu). lia.
Qed.

Lemma push_at_last : forall (A : Type) (pre : list (list A)) b (x : A),
  push_at (length pre) x (pre ++ [b]) = Some (pre ++ [b ++ [x]]).
Proof.
  induction pre as [|p pre IH]; intros b x; simpl; [reflexivity|].
  now rewrite IH.
Qed.

Lemma distributeLoop_last : forall events (pre : list (list nat)) b rng,
  Rng.valid rng ->
  (forall ev, In ev events -> (dayMs <= Temporal.t ev)%Q) ->
  distributeLoop events (S (length pre)) (pre ++ [b]) rng
  = Ok (pre ++ [b ++ map Temporal.userId events],
        Rng.skip (length events) rng).
Proof.
  induction events as [|ev events IH]; intros pre b rng Hv Hall.
  - simpl. now rewrite app_nil_r.
  - cbn [distributeLoop].
    destruct (Rng.next rng) as [u rng1] eqn:Hn.
    pose proof (rng_next_valid Hv) as [Hv1 [Hu0 _]].
    rewrite Hn in Hv1, Hu0. cbn [fst snd] in Hv1, Hu0.
    rewrite subEpochOf_last; [|lia|apply Hall; now left|assumption].
    unfold push_atZ.
    replace (Z.of_nat (S (length pre)) - 1)%Z with (Z.of_nat (length pre)) by lia.
    destruct (Z.ltb_spec (Z.of_nat (length pre)) 0) as [Hneg|_]; [lia|].
    rewrite Nat2Z.id, push_at_last.
    rewrite IH; [|assumption|intros; apply Hall; now right].
    cbn [map length Rng.skip]. rewrite Hn. cbn [snd].
    now rewrite <- app_assoc.
Qed.

Lemma distribute_last : forall T rng events,
  0 < T -> Rng.valid rng ->
  (forall ev, In ev events -> (dayMs <= Temporal.t ev)%Q) ->
  distributeEventsToSubEpochs events T subEpochsPerHour rng
  = Ok (repeat [] (T * subEpochsPerHour - 1) ++ [map Temporal.userId events],
        Rng.skip (length events) rng).
Proof.
  intros T rng events HT Hv Hall. unfold distributeEventsToSubEpochs.
  remember (T * subEpochsPerHour - 1) as k eqn:Hk.
  replace (T * subEpochsPerHour) with (S k)
    by (unfold subEpochsPerHour in *; lia).
  cbn [repeat]. rewrite repeat_cons.
  pose proof (distributeLoop_last events (repeat [] k) [] Hv Hall) as H.
  rewrite repeat_length in H. exact H.
Qed.

Lemma Qle_plus_nonneg : forall a b c : Q,
  (a <= b)%Q -> (0 <= c)%Q -> (a <= b + c)%Q.
Proof.
  intros a b c Hab Hc. rewrite <- (Qplus_0_r a).
  now apply Qplus_le_compat.
Qed.

Lemma emitMessages_late : forall n uid (lo hourStart hourLengthMs : Q) rng,
  Rng.valid rng -> (0 <= hourLengthMs)%Q -> (lo <= hourStart)%Q ->
  Rng.valid (snd (Temporal.emitMessages n uid hourStart hourLengthMs rng))
  /\ forall ev,
       In ev (fst (Temporal.emitMessages n uid hourStart hourLengthMs rng)) ->
       (lo <= Temporal.t ev)%Q.
Proof.
  induction n as [|n IH]; intros uid lo hourStart hourLengthMs rng Hv Hl Hs.
  - simpl. split; [assumption|intros ev []].
  - cbn [Temporal.emitMessages].
    destruct (Rng.next rng) as [u rng1] eqn:Hn.
    pose proof (rng_next_valid Hv) as [Hv1 [Hu0 _]].
    rewrite Hn in Hv1, Hu0. cbn [fst snd] in Hv1, Hu0.
    specialize (IH uid lo hourStart hourLengthMs rng1 Hv1 Hl Hs).
    destruct (Temporal.emitMessages n uid hourStart hourLengthMs rng1)
      as [rest rng2].
    cbn [fst snd] in *. destruct IH as [IHv IHe]. split; [assumption|].
    intros ev [<-|Hin]; [|now apply IHe].
    cbn. apply Qle_plus_nonneg; [assumption|].
    now apply Qmult_le_0_compat.
Qed.

Lemma eventsForUsers_late : forall rates uid (mult lo hourStart hourLengthMs : Q) rng,
  Rng.valid rng -> (0 <= hourLengthMs)%Q -> (lo <= hourStart)%Q ->
  Rng.valid (snd (Temporal.eventsForUsers rates uid mult hourStart
                                          hourLengthMs rng))
  /\ forall ev,
       In ev (fst (Temporal.eventsForUsers rates uid mult hourStart
                                           hourLengthMs rng)) ->
       (lo <= Temporal.t ev)%Q.
Proof.
  induction rates as [|rate rates IH];
    intros uid mult lo hourStart hourLengthMs rng Hv Hl Hs.
  - simpl. split; [assumption|intros ev []].
  - cbn [Temporal.eventsForUsers].
    destruct (Rng.next rng) as [u rng1] eqn:Hn.
    pose proof (rng_next_valid Hv) as [Hv1 _].
    rewrite Hn in Hv1. cbn [snd] in Hv1.
    match goal with
    | |- context [if ?c then _ else _] => destruct c
    end.
    + destruct (Rng.next rng1) as [v rng2] eqn:Hn2.
      pose proof (rng_next_valid Hv1) as [Hv2 _].
      rewrite Hn2 in Hv2. cbn [snd] in Hv2.
      pose proof (emitMessages_late
                    (Z.to_nat (1 + Math_floor (v * 3)%Q)) uid Hv2 Hl Hs)
        as [Hv3 He].
      destruct (Temporal.emitMessages _ uid hourStart hourLengthMs rng2)
        as [mine rng3].
      cbn [fst snd] in *.
      specialize (IH (S uid) mult lo hourStart hourLengthMs rng3 Hv3 Hl Hs).
      destruct (Temporal.eventsForUsers rates (S uid) mult hourStart
                                        hourLengthMs rng3) as [rest rng4].
      cbn [fst snd] in *. destruct IH as [IHv IHe]. split; [assumption|].
      intros ev Hin. apply in_app_or in Hin. destruct Hin; auto.
    + specialize (IH (S uid) mult lo hourStart hourLengthMs rng1 Hv1 Hl Hs).
      destruct (Temporal.eventsForUsers rates (S uid) mult hourStart
                                        hourLengthMs rng1) as [rest rng4].
      cbn [fst snd app] in *. exact IH.
Qed.

Lemma eventsForHours_late : forall count hour rates (epochStartMs hourLengthMs : Q) rng,
  Rng.valid rng -> (0 <= hourLengthMs)%Q ->
  Rng.valid (snd (Temporal.eventsForHours count hour rates epochStartMs
                                          hourLengthMs rng))
  /\ forall ev,
       In ev (fst (Temporal.eventsForHours count hour rates epochStartMs
                                           hourLengthMs rng)) ->
       (epochStartMs <= Temporal.t ev)%Q.
Proof.
  induction count as [|count IH];
    intros hour rates epochStartMs hourLengthMs rng Hv Hl.
  - simpl. split; [assumption|intros ev []].
  - cbn [Temporal.eventsForHours].
    assert (Hs : (epochStartMs
                  <= epochStartMs + inject_Z (Z.of_nat hour) * hourLengthMs)%Q).
    { apply Qle_plus_nonneg; [apply Qle_refl|].
      apply Qmult_le_0_compat; [|assumption].
      unfold Qle. cbn. lia. }
    pose proof (eventsForUsers_late rates 0
                  (nth ((8 + hour) mod 24) Temporal.campusActivityPattern 0%Q)
                  Hv Hl Hs) as [Hv1 He].
    destruct (Temporal.eventsForUsers rates 0 _ _ hourLengthMs rng)
      as [evs rng1].
    cbn [fst snd] in *.
    specialize (IH (S hour) rates epochStartMs hourLengthMs rng1 Hv1 Hl).
    destruct (Temporal.eventsForHours count (S hour) rates epochStartMs
                                      hourLengthMs rng1) as [rest rng2].
    cbn [fst snd] in *. destruct IH as [IHv IHe]. split; [assumption|].
    intros ev Hin. apply in_app_or in Hin. destruct Hin; auto.
Qed.

(** Every generated event is stamped at or after [epochStartMs]. *)
Lemma generated_events_late : forall rates hours (epochStartMs hourLengthMs : Q) rng ev,
  Rng.valid rng -> (0 <= hourLengthMs)%Q ->
  In ev (fst (Temporal.generateEventsForHours rates hours epochStartMs
                                              hourLengthMs rng)) ->
  (epochStartMs <= Temporal.t ev)%Q.
Proof.
  intros rates hours epochStartMs hourLengthMs rng ev Hv Hl.
  unfold Temporal.generateEventsForHours.
  pose proof (eventsForHours_late hours 0 rates epochStartMs Hv Hl) as [_ He].
  destruct (Temporal.eventsForHours hours 0 rates epochStartMs hourLengthMs rng)
    as [events rng'].
  cbn [fst snd] in *. intros Hin. apply He.
  eapply Permutation_in; [apply js_sort_perm|exact Hin].
Qed.

Lemma nth_concentrated : forall (k se : nat) (b : list nat),
  se <> k -> nth se (repeat [] k ++ [b]) [] = [].
Proof.
  intros k se b Hne. destruct (Nat.lt_ge_cases se k) as [Hlt|Hge].
  - rewrite app_nth1 by (now rewrite repeat_length).
    apply nth_repeat.
  - rewrite app_nth2 by (now rewrite repeat_length).
    rewrite repeat_length.
    destruct (se - k) as [|[|d]] eqn:Hd; [lia|reflexivity|reflexivity].
Qed.

Lemma floor_offset : forall u : Q,
  (0 <= u)%Q -> (0 <= Math_floor (u * 2)%Q)%Z.
Proof.
  intros u Hu. unfold Math_floor.
  rewrite <- (Qfloor_Z 0). apply Qfloor_resp_le.
  unfold Qle in *. destruct u as [n d]. cbn in *. lia.
Qed.

(** Copies of a burst in the last bucket stay in the last bucket. *)
Lemma burstCopies_last : forall count (k userId : nat) (b : list nat) rng,
  Rng.valid rng ->
  exists b' rng',
    burstCopies count k userId (repeat [] k ++ [b]) rng
    = Ok (repeat [] k ++ [b'], rng')
    /\ Rng.valid rng'.
Proof.
  induction count as [|count IH]; intros k userId b rng Hv.
  - exists b, rng. now split.
  - cbn [burstCopies].
    destruct (Rng.next rng) as [u rng1] eqn:Hn.
    pose proof (rng_next_valid Hv) as [Hv1 [Hu0 _]].
    rewrite Hn in Hv1, Hu0. cbn [fst snd] in Hv1, Hu0.
    pose proof (floor_offset Hu0) as Hoff.
    rewrite length_app, repeat_length. cbn [length].
    destruct (Z.ltb_spec (Z.of_nat k + Math_floor (u * 2)%Q)
                         (Z.of_nat (k + 1))) as [Hlt|Hge].
    + replace (Z.of_nat k + Math_floor (u * 2)%Q)%Z with (Z.of_nat k) by lia.
      unfold push_atZ.
      destruct (Z.ltb_spec (Z.of_nat k) 0) as [Hneg|_]; [lia|].
      rewrite Nat2Z.id.
      pose proof (push_at_last (repeat [] k) b userId) as Hp.
      rewrite repeat_length in Hp. rewrite Hp.
      apply IH. assumption.
    + apply IH. assumption.
Qed.

Lemma burstBucket_last : forall fuel (k se j : nat) (b : list nat) rng bk rng',
  Rng.valid rng ->
  burstBucket fuel se j (repeat [] k ++ [b]) rng = Ok (bk, rng') ->
  (exists b', bk = repeat [] k ++ [b']) /\ Rng.valid rng'.
Proof.
  induction fuel as [|fuel IH]; intros k se j b rng bk rng' Hv Hrun;
    [discriminate|].
  cbn [burstBucket] in Hrun.
  destruct (nth_error (nth se (repeat [] k ++ [b]) []) j) as [userId|] eqn:Hj.
  - assert (Hse : se = k).
    { destruct (Nat.eq_dec se k) as [|Hne]; [assumption|].
      rewrite nth_concentrated in Hj by assumption.
      destruct j; discriminate. }
    subst se.
    destruct (Rng.next rng) as [u rng1] eqn:Hn.
    pose proof (rng_next_valid Hv) as [Hv1 _].
    rewrite Hn in Hv1. cbn [snd] in Hv1.
    destruct (Qltb u (2 # 10)).
    + destruct (Rng.next rng1) as [v rng2] eqn:Hn2.
      pose proof (rng_next_valid Hv1) as [Hv2 _].
      rewrite Hn2 in Hv2. cbn [snd] in Hv2.
      destruct (burstCopies_last (Z.to_nat (2 + Math_floor (v * 4)%Q - 1))
                                 k userId b Hv2) as [b1 [rng3 [Hc Hv3]]].
      rewrite Hc in Hrun. cbn [bind fst snd] in Hrun.
      eapply IH; eassumption.
    + eapply IH; eassumption.
  - inversion Hrun; subst. split; [now exists b|assumption].
Qed.

Lemma burstsFrom_last : forall fuel count (k se : nat) (b : list nat) rng bk rng',
  Rng.valid rng ->
  burstsFrom fuel count se (repeat [] k ++ [b]) rng = Ok (bk, rng') ->
  (exists b', bk = repeat [] k ++ [b']) /\ Rng.valid rng'.
Proof.
  induction count as [|count IH]; intros k se b rng bk rng' Hv Hrun.
  - inversion Hrun; subst. split; [now exists b|assumption].
  - cbn [burstsFrom] in Hrun.
    destruct (burstBucket fuel se 0 (repeat [] k ++ [b]) rng)
      as [[bk1 rng1]| |] eqn:Hb; try discriminate.
    apply burstBucket_last in Hb; [|assumption].
    destruct Hb as [[b1 ->] Hv1]. cbn [bind fst snd] in Hrun.
    eapply IH; eassumption.
Qed.

(** C4: an event stamped at or after one day falls into the final bucket
    [totalSubEpochs - 1] whatever the jitter; so does every event of
    [generateEventsForHours] when [epochStartMs] (by default [Date.now()])
    is at least one day; and the bursts added afterwards stay in that
    bucket.  The generator is in one of its states [1 .. 2^31 - 2], whose
    draws lie in [0, 1). *)
Theorem C4_late_events_fill_last_bucket :
  forall (T : nat) (rng : Z) (events : list Temporal.Event),
  0 < T -> Rng.valid rng ->
  (forall ev, In ev events -> (dayMs <= Temporal.t ev)%Q) ->
  let total := T * subEpochsPerHour in
  let last := repeat [] (total - 1) ++ [map Temporal.userId events] in
  (forall ev u, In ev events -> (0 <= u)%Q ->
     subEpochOf total (Temporal.t ev) u = (Z.of_nat total - 1)%Z)
  /\ distributeEventsToSubEpochs events T subEpochsPerHour rng
     = Ok (last, Rng.skip (length events) rng)
  /\ (forall fuel bk rng',
        addMessageBursts fuel last (Rng.skip (length events) rng)
        = Ok (bk, rng') ->
        exists b', bk = repeat [] (total - 1) ++ [b'])
  /\ (forall rates hours (epochStartMs hourLengthMs : Q) rngT ev,
        Rng.valid rngT -> (0 <= hourLengthMs)%Q -> (dayMs <= epochStartMs)%Q ->
        In ev (fst (Temporal.generateEventsForHours rates hours epochStartMs
                                                    hourLengthMs rngT)) ->
        (dayMs <= Temporal.t ev)%Q).
Proof.
  intros T rng events HT Hv Hall total last. repeat split.
  - intros ev u Hin Hu. apply subEpochOf_last; auto.
    unfold total, subEpochsPerHour. lia.
  - apply distribute_last; assumption.
  - intros fuel bk rng' Hrun. unfold addMessageBursts in Hrun.
    apply burstsFrom_last in Hrun; [tauto|].
    now apply rng_skip_valid.
  - intros rates hours epochStartMs hourLengthMs rngT ev HvT Hl Hs Hin.
    eapply Qle_trans; [exact Hs|].
    eapply generated_events_late; eassumption.
Qed.

(** C4 at a run of one hour with seed 42 and one event stamped like
    [Date.now()]. *)
Lemma C4_late_events_witness :
  distributeEventsToSubEpochs Scenario.lateEvent 1 subEpochsPerHour 42
  = Ok ([[]; []; []; []; []; [0]], Rng.skip 1 42).
Proof.
  refine (proj1 (proj2 (C4_late_events_fill_last_bucket
                          (T := 1) (rng := 42) Scenario.lateEvent _ _ _))).
  - lia.
  - unfold Rng.valid. lia.
  - intros ev [<-|[]]. unfold dayMs, Qle. cbn. lia.
Defined.

End DistributionFacts.

(** * The social graph: symmetry of adjacency and tiers *)

Lemma map_get_set_same_nat : forall (V : Type) (m : list (nat * V)) k v,
  map_get Nat.eqb (map_set Nat.eqb m k v) k = Some v.
Proof.
  induction m as [|[k0 v0] m IH]; intros k v; simpl.
  - now rewrite Nat.eqb_refl.
  - destruct (Nat.eqb_spec k0 k) as [->|Hne]; simpl.
    + now rewrite Nat.eqb_refl.
    + destruct (Nat.eqb_spec k0 k); [contradiction|apply IH].
Qed.

Lemma map_get_set_other_nat : forall (V : Type) (m : list (nat * V)) k k' v,
  k' <> k -> map_get Nat.eqb (map_set Nat.eqb m k v) k' = map_get Nat.eqb m k'.
Proof.
  induction m as [|[k0 v0] m IH]; intros k k' v Hne; simpl.
  - destruct (Nat.eqb_spec k k'); [congruence|reflexivity].
  - destruct (Nat.eqb_spec k0 k) as [->|Hne0]; simpl.
    + destruct (Nat.eqb_spec k k'); [congruence|reflexivity].
    + destruct (Nat.eqb_spec k0 k'); [reflexivity|now apply IH].
Qed.

Lemma nat_add_In : forall s x y, In x (nat_add s y) <-> In x s \/ x = y.
Proof.
  intros s x y. unfold nat_add, set_add.
  destruct (set_has Nat.eqb s y) eqn:Hh.
  - apply (nat_has_In s y) in Hh. split; [auto|].
    intros [H | ->]; assumption.
  - rewrite in_app_iff. simpl. intuition.
Qed.

Lemma nat_add_length : forall s y, length s <= length (nat_add s y).
Proof.
  intros s y. unfold nat_add, set_add.
  destruct (set_has Nat.eqb s y); [lia|].
  rewrite length_app. simpl. lia.
Qed.

Section GraphFacts.
Import SocialGraph.

Definition edge (a : Adj) (u v : nat) : Prop := In v (adj_get a u).

Lemma adj_get_add : forall a x y u,
  adj_get (adj_add a x y) u
  = if u =? x then nat_add (adj_get a x) y else adj_get a u.
Proof.
  intros a x y u. unfold adj_add, adj_get at 1.
  destruct (Nat.eqb_spec u x) as [->|Hne].
  - now rewrite map_get_set_same_nat.
  - now rewrite map_get_set_other_nat.
Qed.

Lemma edge_add : forall a x y u v,
  edge (adj_add a x y) u v <-> edge a u v \/ (u = x /\ v = y).
Proof.
  intros a x y u v. unfold edge. rewrite adj_get_add.
  destruct (Nat.eqb_spec u x) as [->|Hne].
  - rewrite nat_add_In. intuition.
  - intuition.
Qed.

Lemma adj_add_length : forall a x y u,
  length (adj_get a u) <= length (adj_get (adj_add a x y) u).
Proof.
  intros a x y u. rewrite adj_get_add.
  destruct (Nat.eqb_spec u x) as [->|Hne]; [apply nat_add_length|lia].
Qed.

Lemma tier_get_set : forall tm x y t u v,
  tier_get (tier_set tm x y t) u v
  = if (u =? x) && (v =? y) then Some t else tier_get tm u v.
Proof.
  intros tm x y t u v. unfold tier_set, tier_get.
  destruct (Nat.eqb_spec u x) as [->|Hne]; simpl.
  - rewrite map_get_set_same_nat.
    destruct (Nat.eqb_spec v y) as [->|Hne].
    + now rewrite map_get_set_same_nat.
    + rewrite map_get_set_other_nat by assumption.
      destruct (map_get Nat.eqb tm x); reflexivity.
  - now rewrite map_get_set_other_nat.
Qed.

(** An edge is settled when it is present with one tier in both
    directions. *)
Definition settled (a : Adj) (tm : TierMap) (u v : nat) : Prop :=
  edge a u v /\ edge a v u
  /\ exists t, tier_get tm u v = Some t /\ tier_get tm v u = Some t.

(** A tier is recorded exactly for the edges. *)
Definition labelled (a : Adj) (tm : TierMap) : Prop :=
  forall u v, edge a u v <-> tier_get tm u v <> None.

Lemma settled_sym : forall a tm u v, settled a tm u v -> settled a tm v u.
Proof.
  intros a tm u v [H1 [H2 [t [H3 H4]]]]. repeat split; auto. now exists t.
Qed.

Ltac eqb_cases :=
  repeat match goal with
         | |- context [Nat.eqb ?x ?y] => destruct (Nat.eqb_spec x y); subst
         | H : context [Nat.eqb ?x ?y] |- _ =>
             destruct (Nat.eqb_spec x y); subst
         end; cbn [andb] in *.

Lemma reconcile_keeps : forall u v a tm a' tm',
  labelled a tm -> edge a u v ->
  reconcile u (a, tm) v = (a', tm') ->
  labelled a' tm' /\ settled a' tm' u v
  /\ (forall x y, settled a tm x y -> settled a' tm' x y)
  /\ (forall x y, edge a' x y <-> edge a x y \/ (x = v /\ y = u)).
Proof.
  intros u v a tm a' tm' Hl He Hr. unfold reconcile in Hr.
  assert (Huv : tier_get tm u v <> None) by (now apply Hl).
  destruct (tier_get tm u v) as [tUV|] eqn:Euv; [clear Huv|congruence].
  assert (Hedge : forall x y, edge a' x y <-> edge a x y \/ (x = v /\ y = u)).
  { intros x y.
    destruct (tier_get tm v u); inversion Hr; subst; apply edge_add. }
  assert (Htier : exists t,
             tier_get tm' u v = Some t /\ tier_get tm' v u = Some t
             /\ forall x y, ~ (x = u /\ y = v) -> ~ (x = v /\ y = u) ->
                            tier_get tm' x y = tier_get tm x y).
  { destruct (tier_get tm v u) as [tVU|] eqn:Evu; inversion Hr; subst.
    - exists (stronger tUV tVU). repeat split.
      + rewrite !tier_get_set. eqb_cases; congruence.
      + rewrite !tier_get_set. eqb_cases; congruence.
      + intros x y H1 H2. rewrite !tier_get_set.
        eqb_cases; try congruence; tauto.
    - exists tUV. repeat split.
      + rewrite tier_get_set. eqb_cases; congruence.
      + rewrite tier_get_set. eqb_cases; congruence.
      + intros x y H1 H2. rewrite tier_get_set.
        eqb_cases; try congruence; tauto. }
  destruct Htier as [t [Ht1 [Ht2 Hother]]].
  assert (Hset : settled a' tm' u v).
  { repeat split.
    - apply Hedge. now left.
    - apply Hedge. now right.
    - now exists t. }
  split; [|split; [exact Hset|split; [|exact Hedge]]].
  - intros x y. rewrite Hedge. pose proof (Hl x y) as Hxy.
    destruct (Nat.eq_dec x u) as [->|Hxu];
      [destruct (Nat.eq_dec y v) as [->|Hyv]|].
    + rewrite Ht1. split; [discriminate|auto].
    + destruct (Nat.eq_dec u v) as [->|Huv].
      * rewrite Hother by tauto. intuition congruence.
      * rewrite Hother by tauto. intuition congruence.
    + destruct (Nat.eq_dec x v) as [->|Hxv];
        [destruct (Nat.eq_dec y u) as [->|Hyu]|].
      * rewrite Ht2. split; [discriminate|auto].
      * rewrite Hother by tauto. intuition congruence.
      * rewrite Hother by tauto. intuition congruence.
  - intros x y [Hx1 [Hx2 [t0 [Hx3 Hx4]]]].
    destruct (Nat.eq_dec x u) as [->|Hxu];
      [destruct (Nat.eq_dec y v) as [->|Hyv]; [exact Hset|]|].
    + destruct (Nat.eq_dec u v) as [->|Huv].
      * repeat split; try (apply Hedge; now left).
        exists t0. rewrite !Hother by tauto. now split.
      * destruct (Nat.eq_dec y u) as [->|Hyu].
        -- repeat split; try (apply Hedge; now left).
           exists t0. rewrite !Hother by tauto. now split.
        -- repeat split; try (apply Hedge; now left).
           exists t0. rewrite !Hother by tauto. now split.
    + destruct (Nat.eq_dec x v) as [->|Hxv].
      * destruct (Nat.eq_dec y u) as [->|Hyu];
          [now apply settled_sym|].
        repeat split; try (apply Hedge; now left).
        exists t0. rewrite !Hother by tauto. now split.
      * repeat split; try (apply Hedge; now left).
        exists t0. rewrite !Hother by tauto. now split.
Qed.

Lemma reconcile_all : forall u vs a tm a' tm',
  labelled a tm -> (forall v, In v vs -> edge a u v) ->
  fold_left (reconcile u) vs (a, tm) = (a', tm') ->
  labelled a' tm'
  /\ (forall v, In v vs -> settled a' tm' u v)
  /\ (forall x y, settled a tm x y -> settled a' tm' x y)
  /\ (forall x y, edge a' x y -> edge a x y \/ (In x vs /\ y = u))
  /\ (forall x y, edge a x y -> edge a' x y).
Proof.
  induction vs as [|v vs IH]; intros a tm a' tm' Hl Hvs Hf.
  - inversion Hf; subst.
    split; [assumption|]. split; [intros w []|].
    split; [auto|]. split; auto.
  - cbn [fold_left] in Hf.
    destruct (reconcile u (a, tm) v) as [a1 tm1] eqn:Hr.
    destruct (@reconcile_keeps u v a tm a1 tm1 Hl (Hvs v (or_introl eq_refl)) Hr)
      as [Hl1 [Hs1 [Hk1 He1]]].
    destruct (IH a1 tm1 a' tm' Hl1) as [Hl2 [Hs2 [Hk2 [He2 Hm2]]]];
      [|exact Hf|].
    + intros w Hw. apply He1. left. apply Hvs. now right.
    + split; [exact Hl2|]. split; [|split; [|split]].
      * intros w [<-|Hw]; [now apply Hk2|now apply Hs2].
      * intros x y Hxy. now apply Hk2, Hk1.
      * intros x y Hxy. destruct (He2 x y Hxy) as [H|[H1 H2]].
        -- apply He1 in H. destruct H as [H|[-> ->]]; [now left|].
           right. split; [now left|reflexivity].
        -- right. split; [now right|assumption].
      * intros x y Hxy. apply Hm2, He1. now left.
Qed.

(** During the symmetry pass every edge is settled or leaves a user that is
    still to be processed. *)
Lemma symmetrize_all : forall users a tm a' tm',
  labelled a tm ->
  (forall x y, edge a x y -> settled a tm x y \/ In x (map id users)) ->
  fold_left symmetrize users (a, tm) = (a', tm') ->
  labelled a' tm' /\ (forall x y, edge a' x y -> settled a' tm' x y).
Proof.
  induction users as [|u users IH]; intros a tm a' tm' Hl Hinv Hf.
  - inversion Hf; subst. split; [assumption|].
    intros x y Hxy. destruct (Hinv x y Hxy) as [H|[]]. exact H.
  - cbn [fold_left] in Hf.
    change (symmetrize (a, tm) u)
      with (fold_left (reconcile (id u)) (adj_get a (id u)) (a, tm)) in Hf.
    destruct (fold_left (reconcile (id u)) (adj_get a (id u)) (a, tm))
      as [a1 tm1] eqn:Hr.
    destruct (@reconcile_all (id u) (adj_get a (id u)) a tm a1 tm1 Hl
                             (fun v H => H) Hr)
      as [Hl1 [Hs1 [Hk1 [He1 Hm1]]]].
    apply (IH a1 tm1 a' tm' Hl1); [|exact Hf].
    intros x y Hxy. destruct (He1 x y Hxy) as [H|[H1 H2]].
    + destruct (Hinv x y H) as [Hs|[Hx|Hx]].
      * left. now apply Hk1.
      * left. subst x. now apply Hs1.
      * now right.
    + left. subst y. apply settled_sym. now apply Hs1.
Qed.

(** Every edge is settled and tiers are recorded exactly for the edges. *)
Definition symmetric (a : Adj) (tm : TierMap) : Prop :=
  labelled a tm /\ forall x y, edge a x y -> settled a tm x y.

Lemma bridge_keeps : forall a tm u v,
  symmetric a tm ->
  let a' := adj_add (adj_add a u v) v u in
  let tm1 := match tier_get tm u v with
             | Some _ => tm
             | None => tier_set tm u v acquaintance
             end in
  let tm2 := match tier_get tm1 v u with
             | Some _ => tm1
             | None => tier_set tm1 v u acquaintance
             end in
  symmetric a' tm2.
Proof.
  intros a tm u v [Hl Hs] a' tm1 tm2. unfold labelled in Hl.
  assert (Hedge : forall x y,
             edge a' x y <-> edge a x y \/ (x = u /\ y = v) \/ (x = v /\ y = u)).
  { intros x y. unfold a'. rewrite !edge_add. tauto. }
  destruct (tier_get tm u v) as [t|] eqn:Euv.
  - (* the pair is an edge already *)
    assert (He : edge a u v) by (apply Hl; congruence).
    destruct (Hs u v He) as [_ [He' [t0 [H1 H2]]]].
    assert (Htm : tm2 = tm).
    { unfold tm2, tm1. now rewrite H2. }
    rewrite Htm. clear Htm. clear tm2. clear tm1.
    assert (Hsame : forall x y, edge a' x y <-> edge a x y).
    { intros x y. rewrite Hedge. intuition (subst; assumption). }
    split.
    + intros x y. rewrite Hsame. apply Hl.
    + intros x y Hxy. apply Hsame in Hxy.
      destruct (Hs x y Hxy) as [Ha [Hb Hc]].
      repeat split; try (now apply Hsame). exact Hc.
  - (* a new pair: neither direction carries a tier *)
    assert (Hnuv : ~ edge a u v) by (rewrite Hl; congruence).
    assert (Hnvu : ~ edge a v u).
    { intros H. apply Hnuv. now destruct (Hs v u H) as [_ [H' _]]. }
    assert (Evu : tier_get tm v u = None).
    { destruct (tier_get tm v u) eqn:E; [|reflexivity].
      exfalso. apply Hnvu, Hl. congruence. }
    assert (Ht : forall x y,
               tier_get tm2 x y
               = if ((x =? u) && (y =? v)) || ((x =? v) && (y =? u))
                 then Some acquaintance else tier_get tm x y).
    { intros x y. unfold tm2, tm1.
      rewrite tier_get_set.
      destruct (Nat.eqb_spec v u) as [->|Hvu].
      - rewrite Nat.eqb_refl. cbn [andb].
        rewrite tier_get_set.
        destruct ((x =? u) && (y =? u)); reflexivity.
      - cbn [andb]. rewrite Evu, !tier_get_set.
        eqb_cases; cbn [orb]; congruence. }
    split.
    + intros x y. rewrite Hedge, Ht. pose proof (Hl x y) as Hxy.
      eqb_cases; cbn [orb]; intuition congruence.
    + intros x y Hxy. unfold settled. rewrite !Hedge, !Ht.
      apply Hedge in Hxy. destruct Hxy as [Hxy|[[-> ->]|[-> ->]]].
      * destruct (Hs x y Hxy) as [Ha [Hb [t0 [Hc Hd]]]].
        repeat split; [tauto|tauto|].
        exists t0.
        assert (Hx : ((x =? u) && (y =? v)) || ((x =? v) && (y =? u)) = false).
        { eqb_cases; cbn [orb]; try reflexivity; contradiction. }
        assert (Hy : ((y =? u) && (x =? v)) || ((y =? v) && (x =? u)) = false).
        { eqb_cases; cbn [orb]; try reflexivity; contradiction. }
        rewrite Hx, Hy. now split.
      * repeat split; [tauto|tauto|]. exists acquaintance.
        rewrite !Nat.eqb_refl. cbn [andb orb].
        split; [reflexivity|]. now rewrite orb_true_r.
      * repeat split; [tauto|tauto|]. exists acquaintance.
        rewrite !Nat.eqb_refl. cbn [andb orb].
        split; [now rewrite orb_true_r|reflexivity].
Qed.

Lemma bridgeLoop_keeps : forall sample uId len far index toAdd a tm r a' tm' r',
  symmetric a tm ->
  bridgeLoop sample uId len far index toAdd (a, tm, r) = (a', tm', r') ->
  symmetric a' tm'.
Proof.
  induction far as [|vId far IH];
    intros index toAdd a tm r a' tm' r' Hs Hb; cbn [bridgeLoop] in Hb.
  - inversion Hb; subst. exact Hs.
  - destruct (toAdd <? sample)%Z; [|inversion Hb; subst; exact Hs].
    destruct (Rng.next r) as [u r1].
    match type of Hb with
    | (if ?c then _ else _) = _ => destruct c
    end.
    + eapply IH; [|exact Hb]. apply bridge_keeps. exact Hs.
    + eapply IH; [exact Hs|exact Hb].
Qed.

Lemma bridges_keep : forall o users us a tm r a' tm' r',
  symmetric a tm ->
  fold_left (bridgeFor o users) us (a, tm, r) = (a', tm', r') ->
  symmetric a' tm'.
Proof.
  induction us as [|u us IH]; intros a tm r a' tm' r' Hs Hf;
    cbn [fold_left] in Hf.
  - inversion Hf; subst. exact Hs.
  - destruct (bridgeFor o users (a, tm, r) u) as [[a1 tm1] r1] eqn:Hb.
    eapply IH; [|exact Hf].
    unfold bridgeFor in Hb. destruct (Rng.next r) as [x r0].
    destruct (Qltb x (pBridge o)).
    + eapply bridgeLoop_keeps; [exact Hs|exact Hb].
    + inversion Hb; subst. exact Hs.
Qed.

(** After the selection loop: tiers are recorded exactly for the edges,
    and every edge leaves a user of the input. *)
Definition selected_from (ids : list nat) (a : Adj) (tm : TierMap) : Prop :=
  labelled a tm /\ forall x y, edge a x y -> In x ids.

Lemma pickOne_keeps : forall ids uId tierName s c,
  In uId ids ->
  selected_from ids (adj s) (tierMap s) ->
  selected_from ids (adj (pickOne uId tierName s c))
                (tierMap (pickOne uId tierName s c)).
Proof.
  intros ids uId tierName s c Hu [Hl Hi]. unfold pickOne. cbn [adj tierMap].
  split.
  - intros x y. rewrite edge_add, tier_get_set. pose proof (Hl x y) as Hxy.
    eqb_cases; intuition congruence.
  - intros x y Hxy. apply edge_add in Hxy.
    destruct Hxy as [H|[-> _]]; [now apply (Hi x y)|assumption].
Qed.

Lemma pickAll_keeps : forall ids uId tierName sel s,
  In uId ids ->
  selected_from ids (adj s) (tierMap s) ->
  selected_from ids (adj (fold_left (pickOne uId tierName) sel s))
                (tierMap (fold_left (pickOne uId tierName) sel s)).
Proof.
  induction sel as [|c sel IH]; intros s Hu Hs; cbn [fold_left];
    [exact Hs|].
  apply IH; [exact Hu|]. now apply pickOne_keeps.
Qed.

Section WithPow.
Variable Math_pow : Q -> Q -> Q.

Lemma pickTier_keeps : forall ids o cands uId kTier tierName s,
  In uId ids ->
  selected_from ids (adj s) (tierMap s) ->
  selected_from ids (adj (pickTier Math_pow o cands uId kTier tierName s))
                (tierMap (pickTier Math_pow o cands uId kTier tierName s)).
Proof.
  intros ids o cands uId kTier tierName s Hu Hs. unfold pickTier.
  destruct (kTier <=? 0)%Z; [exact Hs|].
  destruct (weightedSample Math_pow _ kTier (rng s)) as [sel rng'].
  now apply pickAll_keeps.
Qed.

Lemma selectFor_keeps : forall o users a tm r i a' tm' r',
  selected_from (map id users) a tm ->
  selectFor Math_pow o users (a, tm, r) i = (a', tm', r') ->
  selected_from (map id users) a' tm'.
Proof.
  intros o users a tm r i a' tm' r' Hs Hsel. unfold selectFor in Hsel.
  destruct (nth_error users i) as [u|] eqn:Hu;
    [|inversion Hsel; subst; exact Hs].
  assert (Hin : In (id u) (map id users)).
  { apply in_map. eapply nth_error_In. exact Hu. }
  inversion Hsel; subst; clear Hsel.
  repeat apply pickTier_keeps; try assumption.
Qed.

Lemma selection_keeps : forall o users idx a tm r a' tm' r',
  selected_from (map id users) a tm ->
  fold_left (selectFor Math_pow o users) idx (a, tm, r) = (a', tm', r') ->
  selected_from (map id users) a' tm'.
Proof.
  induction idx as [|i idx IH]; intros a tm r a' tm' r' Hs Hf;
    cbn [fold_left] in Hf.
  - inversion Hf; subst. exact Hs.
  - destruct (selectFor Math_pow o users (a, tm, r) i) as [[a1 tm1] r1] eqn:H1.
    eapply IH; [|exact Hf]. eapply selectFor_keeps; eassumption.
Qed.

Lemma empty_adj : forall (users : list User) (a : Adj),
  (forall k, adj_get a k = []) ->
  forall k, adj_get (fold_left (fun a u => map_set Nat.eqb a (id u) []) users a) k = [].
Proof.
  induction users as [|u users IH]; intros a Ha k; cbn [fold_left];
    [apply Ha|].
  apply IH. intros k'. unfold adj_get.
  destruct (Nat.eq_dec k' (id u)) as [->|Hne].
  - now rewrite map_get_set_same_nat.
  - rewrite map_get_set_other_nat by assumption. apply Ha.
Qed.

Lemma empty_tiers : forall (users : list User) (tm : TierMap),
  (forall u v, tier_get tm u v = None) ->
  forall u v,
    tier_get (fold_left (fun m u => map_set Nat.eqb m (id u) []) users tm) u v
    = None.
Proof.
  induction users as [|w users IH]; intros tm Ht u v; cbn [fold_left];
    [apply Ht|].
  apply IH. intros u' v'. unfold tier_get.
  destruct (Nat.eq_dec u' (id w)) as [->|Hne].
  - now rewrite map_get_set_same_nat.
  - rewrite map_get_set_other_nat by assumption. apply Ht.
Qed.

(** The graph and tier map that [getTieredMeshGraph] returns are
    symmetric. *)
Lemma mesh_symmetric : forall users o,
  symmetric (fst (getTieredMeshGraph Math_pow users o))
            (snd (getTieredMeshGraph Math_pow users o)).
Proof.
  intros users o. unfold getTieredMeshGraph. cbv zeta.
  assert (H0 : selected_from (map id users)
                 (fold_left (fun a u => map_set Nat.eqb a (id u) []) users [])
                 (fold_left (fun m u => map_set Nat.eqb m (id u) []) users [])).
  { split.
    - intros x y. unfold edge. rewrite empty_adj by reflexivity.
      rewrite empty_tiers by reflexivity. split; [intros []|congruence].
    - intros x y. unfold edge. rewrite empty_adj by reflexivity. intros []. }
  match goal with
  | |- context [@fold_left ?A ?B (selectFor Math_pow o users) ?l ?s0] =>
      destruct (@fold_left A B (selectFor Math_pow o users) l s0)
        as [[a1 tm1] r1] eqn:H1
  end.
  apply selection_keeps in H1; [|exact H0]. destruct H1 as [Hl1 Hi1].
  match goal with
  | |- context [@fold_left ?A ?B symmetrize users ?s0] =>
      destruct (@fold_left A B symmetrize users s0) as [a2 tm2] eqn:H2
  end.
  apply symmetrize_all in H2; [|exact Hl1|intros x y Hxy; right; eauto].
  destruct (Qltb 0 (pBridge o) && (0 <? bridgeSample o)%Z).
  - match goal with
    | |- context [@fold_left ?A ?B (bridgeFor o users) users ?s0] =>
        destruct (@fold_left A B (bridgeFor o users) users s0)
          as [[a3 tm3] r3] eqn:H3
    end.
    cbn [fst snd]. eapply bridges_keep; [exact H2|exact H3].
  - exact H2.
Qed.

End WithPow.

(** C8: in the graph returned by [getTieredMeshGraph], [v] is a neighbour
    of [u] exactly when [u] is a neighbour of [v], and for every edge both
    directions carry a tier, the same one; when the two directions were
    selected with different tiers the symmetry pass writes the stronger one
    in both. *)
Theorem C8_graph_and_tiers_symmetric :
  forall (Math_pow : Q -> Q -> Q) (users : list User) (o : Options),
  let graph := fst (getTieredMeshGraph Math_pow users o) in
  let tiers := snd (getTieredMeshGraph Math_pow users o) in
  (forall u v, In v (adj_get graph u) <-> In u (adj_get graph v))
  /\ (forall u v, In v (adj_get graph u) ->
        exists t, tier_get tiers u v = Some t /\ tier_get tiers v u = Some t)
  /\ (forall a tm u v tUV tVU,
        tier_get tm u v = Some tUV -> tier_get tm v u = Some tVU ->
        let tm' := snd (reconcile u (a, tm) v) in
        tier_get tm' u v = Some (stronger tUV tVU)
        /\ tier_get tm' v u = Some (stronger tUV tVU)
        /\ order (stronger tUV tVU) = Nat.max (order tUV) (order tVU)).
Proof.
  intros Math_pow users o graph tiers.
  destruct (mesh_symmetric Math_pow users o) as [Hl Hs].
  fold graph in Hl, Hs. fold tiers in Hl, Hs.
  split; [|split].
  - intros u v. split; intros H.
    + now destruct (Hs u v H) as [_ [H' _]].
    + now destruct (Hs v u H) as [_ [H' _]].
  - intros u v H. now destruct (Hs u v H) as [_ [_ H']].
  - intros a tm u v tUV tVU H1 H2 tm'. unfold tm', reconcile.
    rewrite H1, H2. cbn [snd]. rewrite !tier_get_set.
    repeat split.
    + eqb_cases; congruence.
    + eqb_cases; congruence.
    + unfold stronger. destruct tUV, tVU; reflexivity.
Qed.

(** ** Degrees *)

Lemma firstn_NoDup : forall (n : nat) (l : list nat),
  NoDup l -> NoDup (firstn n l).
Proof.
  intros n l H. rewrite <- (firstn_skipn n l) in H.
  now apply NoDup_app_remove_r in H.
Qed.

Lemma firstn_In : forall (n : nat) (l : list nat) x,
  In x (firstn n l) -> In x l.
Proof.
  intros n l x H. rewrite <- (firstn_skipn n l).
  apply in_or_app. now left.
Qed.

Lemma count_unpicked : forall l p : list nat,
  NoDup l -> NoDup p -> incl p l ->
  length (filter (fun x => negb (nat_has p x)) l) = length l - length p.
Proof.
  intros l p Hl Hp Hi.
  pose proof (filter_length (nat_has p) l) as Hlen.
  assert (Hperm : Permutation (filter (nat_has p) l) p).
  { apply NoDup_Permutation; [now apply NoDup_filter|assumption|].
    intros x. rewrite filter_In, nat_has_In. split; [tauto|].
    intros Hx. split; [now apply Hi|assumption]. }
  apply Permutation_length in Hperm. lia.
Qed.

Lemma fold_nat_add_fresh : forall l s : list nat,
  NoDup l -> (forall x, In x l -> ~ In x s) ->
  fold_left nat_add l s = s ++ l.
Proof.
  induction l as [|x l IH]; intros s Hl Hf; cbn [fold_left].
  - now rewrite app_nil_r.
  - inversion Hl as [|? ? Hx Hl']; subst.
    assert (Hadd : nat_add s x = s ++ [x]).
    { unfold nat_add, set_add. destruct (set_has Nat.eqb s x) eqn:Hh;
        [|reflexivity].
      apply (nat_has_In s x) in Hh. exfalso. apply (Hf x); [now left|assumption]. }
    rewrite Hadd, IH; [now rewrite <- app_assoc|assumption|].
    intros y Hy Hin. apply in_app_or in Hin. destruct Hin as [Hin|[<-|[]]].
    + apply (Hf y); [now right|assumption].
    + contradiction.
Qed.

Definition weigh (c : nat * Q) : Cand :=
  (fst c, (1 / (snd c + (1 # 1000000000)))%Q).

Lemma formBand_firstn : forall cands picked m band,
  (Z.of_nat (length band) < m)%Z ->
  formBand picked m cands band
  = band ++ firstn (Z.to_nat m - length band)
                   (map weigh (filter (fun c => negb (nat_has picked (fst c)))
                                      cands)).
Proof.
  induction cands as [|c cands IH]; intros picked m band Hm;
    cbn [formBand filter].
  - cbn [map]. now rewrite firstn_nil, app_nil_r.
  - destruct (nat_has picked (fst c)); cbn [negb]; [now apply IH|].
    cbn [map]. rewrite length_app. cbn [length].
    destruct (Z.leb_spec m (Z.of_nat (length band + 1))) as [Hle|Hgt].
    + replace (Z.to_nat m - length band) with 1 by lia. reflexivity.
    + rewrite IH by (rewrite length_app; cbn [length]; lia).
      rewrite length_app. cbn [length].
      replace (Z.to_nat m - length band)
        with (S (Z.to_nat m - (length band + 1))) by lia.
      cbn [firstn]. now rewrite <- app_assoc.
Qed.

Lemma band_ids : forall cands picked m,
  (0 < m)%Z ->
  map fst (formBand picked m cands [])
  = firstn (Z.to_nat m)
           (filter (fun x => negb (nat_has picked x)) (map fst cands)).
Proof.
  intros cands picked m Hm. rewrite formBand_firstn by (cbn; lia).
  cbn [app length]. rewrite Nat.sub_0_r, <- firstn_map. f_equal.
  induction cands as [|c cands IH]; [reflexivity|].
  cbn [filter map]. destruct (nat_has picked (fst c)); cbn [negb map];
    now rewrite IH.
Qed.

Lemma picked_fold : forall uId tierName sel s,
  picked (fold_left (pickOne uId tierName) sel s)
  = fold_left nat_add (map fst sel) (picked s).
Proof.
  induction sel as [|c sel IH]; intros s; cbn [fold_left map];
    [reflexivity|].
  now rewrite IH.
Qed.

Lemma adj_fold_incl : forall uId tierName sel s,
  incl (picked s) (adj_get (adj s) uId) ->
  incl (picked (fold_left (pickOne uId tierName) sel s))
       (adj_get (adj (fold_left (pickOne uId tierName) sel s)) uId).
Proof.
  induction sel as [|c sel IH]; intros s Hs; cbn [fold_left];
    [exact Hs|].
  apply IH. unfold pickOne. cbn [picked adj]. intros x Hx.
  apply nat_add_In in Hx. change (edge (adj_add (adj s) uId (fst c)) uId x).
  apply edge_add. destruct Hx as [Hx | ->]; [left; now apply Hs|now right].
Qed.

Lemma adj_fold_length : forall uId tierName sel s x,
  length (adj_get (adj s) x)
  <= length (adj_get (adj (fold_left (pickOne uId tierName) sel s)) x).
Proof.
  induction sel as [|c sel IH]; intros s x; cbn [fold_left]; [lia|].
  etransitivity; [|apply IH]. unfold pickOne. cbn [adj].
  apply adj_add_length.
Qed.

Section Degrees.
Variable Math_pow : Q -> Q -> Q.

Lemma assignKeys_fst : forall cs r,
  map fst (fst (assignKeys Math_pow cs r)) = cs.
Proof.
  induction cs as [|c cs IH]; intros r; cbn [assignKeys]; [reflexivity|].
  destruct (Rng.next r) as [u r1].
  specialize (IH r1). destruct (assignKeys Math_pow cs r1) as [ks r2].
  cbn [fst map] in *. now rewrite IH.
Qed.

(** The sample is a prefix of a rearrangement of the band. *)
Lemma weightedSample_prefix : forall band k r,
  (0 < k)%Z ->
  exists l, Permutation l band
            /\ fst (weightedSample Math_pow band k r) = firstn (Z.to_nat k) l.
Proof.
  intros band k r Hk. unfold weightedSample.
  destruct (Z.leb_spec k 0) as [Hle|_]; [lia|]. cbn [orb].
  destruct band as [|c band].
  - exists []. cbn. split; [constructor|now rewrite firstn_nil].
  - cbn [length Nat.eqb].
    pose proof (assignKeys_fst (c :: band) r) as Hfst.
    destruct (assignKeys Math_pow (c :: band) r) as [keys r'].
    cbn [fst] in *.
    exists (map fst (js_sort (fun a b => Qltb (snd b) (snd a)) keys)).
    split.
    + rewrite <- Hfst. apply Permutation_map, js_sort_perm.
    + now rewrite firstn_map.
Qed.

Lemma pickTier_count : forall o cands uId k tierName s,
  (0 < k)%Z ->
  NoDup (map fst cands) -> NoDup (picked s) ->
  incl (picked s) (map fst cands) ->
  incl (picked s) (adj_get (adj s) uId) ->
  let s' := pickTier Math_pow o cands uId k tierName s in
  NoDup (picked s') /\ incl (picked s') (map fst cands)
  /\ incl (picked s') (adj_get (adj s') uId)
  /\ length (picked s')
     = length (picked s)
       + Nat.min (Z.to_nat k) (length cands - length (picked s)).
Proof.
  intros o cands uId k tierName s Hk Hc Hp Hpc Hpa s'. unfold s', pickTier.
  destruct (Z.leb_spec k 0) as [Hle|_]; [lia|].
  set (m := Z.max k (Math_floor (bandMultiplier o * inject_Z k)%Q)).
  assert (Hm : (k <= m)%Z) by (unfold m; lia).
  set (band := formBand (picked s) m cands []).
  set (free := filter (fun x => negb (nat_has (picked s) x)) (map fst cands)).
  assert (Hband : map fst band = firstn (Z.to_nat m) free)
    by (apply band_ids; lia).
  assert (Hfree : length free = length cands - length (picked s)).
  { unfold free. rewrite count_unpicked by assumption. now rewrite length_map. }
  assert (HfreeND : NoDup free) by (now apply NoDup_filter).
  destruct (weightedSample_prefix band (rng s) Hk) as [l [Hperm Hsel]].
  destruct (weightedSample Math_pow band k (rng s)) as [sel r'].
  cbn [fst] in Hsel. subst sel.
  assert (HlND : NoDup (map fst l)).
  { eapply Permutation_NoDup; [apply Permutation_sym, Permutation_map, Hperm|].
    rewrite Hband. now apply firstn_NoDup. }
  assert (Hlin : forall x, In x (map fst l) -> In x free).
  { intros x Hx.
    eapply Permutation_in in Hx; [|apply Permutation_map, Hperm].
    rewrite Hband in Hx. eapply firstn_In, Hx. }
  assert (Hids : map fst (firstn (Z.to_nat k) l)
                 = firstn (Z.to_nat k) (map fst l))
    by (now rewrite firstn_map).
  set (ids := firstn (Z.to_nat k) (map fst l)) in *.
  assert (HidsND : NoDup ids) by (now apply firstn_NoDup).
  assert (Hidsin : forall x, In x ids -> In x free).
  { intros x Hx. apply Hlin. eapply firstn_In, Hx. }
  assert (Hfresh : forall x, In x ids -> ~ In x (picked s)).
  { intros x Hx Hin. apply Hidsin in Hx. unfold free in Hx.
    apply filter_In in Hx. destruct Hx as [_ Hx].
    apply (nat_has_In (picked s) x) in Hin. rewrite Hin in Hx. discriminate. }
  assert (Hpk : picked (fold_left (pickOne uId tierName)
                                  (firstn (Z.to_nat k) l)
                                  (mkSel (picked s) (adj s) (tierMap s) r'))
                = picked s ++ ids).
  { rewrite picked_fold, Hids. cbn [picked].
    now apply fold_nat_add_fresh. }
  rewrite Hpk. repeat split.
  - apply NoDup_app; try assumption.
    intros x Hx Hin. now apply (Hfresh x Hin).
  - intros x Hx. apply in_app_or in Hx. destruct Hx as [Hx|Hx]; [now apply Hpc|].
    apply Hidsin in Hx. unfold free in Hx. apply filter_In in Hx. tauto.
  - rewrite <- Hpk. apply adj_fold_incl. exact Hpa.
  - rewrite length_app. f_equal. unfold ids.
    rewrite length_firstn, length_map. unfold Cand in *.
    assert (Hlen : length l = length band)
      by (apply Permutation_length, Hperm).
    assert (Hlen' : length band = length (map fst band))
      by (symmetry; apply length_map).
    rewrite Hlen, Hlen', Hband, length_firstn, Hfree. lia.
Qed.

Lemma pickTier_length : forall o cands uId k tierName s x,
  length (adj_get (adj s) x)
  <= length (adj_get (adj (pickTier Math_pow o cands uId k tierName s)) x).
Proof.
  intros o cands uId k tierName s x. unfold pickTier.
  destruct (k <=? 0)%Z; [lia|].
  destruct (weightedSample Math_pow _ k (rng s)) as [sel r'].
  apply (adj_fold_length uId tierName sel
                         (mkSel (picked s) (adj s) (tierMap s) r') x).
Qed.

Lemma selectFor_length : forall o users a tm r i a' tm' r' x,
  selectFor Math_pow o users (a, tm, r) i = (a', tm', r') ->
  length (adj_get a x) <= length (adj_get a' x).
Proof.
  intros o users a tm r i a' tm' r' x H. unfold selectFor in H.
  destruct (nth_error users i) as [u|]; [|inversion H; subst; lia].
  inversion H; subst; clear H.
  etransitivity; [|apply pickTier_length].
  etransitivity; [|apply pickTier_length].
  etransitivity; [|apply pickTier_length].
  cbn [adj]. lia.
Qed.

(** The pairs [(id, dist)] collected for user number [i], before sorting. *)
Definition rawCandidates (users : list User) (i : nat) : nat -> list (nat * Q) :=
  fun j => if i =? j then []
           else match nth_error users j with
                | Some uj => [(id uj, dist users i j)]
                | None => []
                end.

Lemma seq_from_app : forall b a c,
  seq_from a (b + c) = seq_from a b ++ seq_from (a + b) c.
Proof.
  induction b as [|b IH]; intros a c; cbn [Nat.add seq_from app].
  - now rewrite Nat.add_0_r.
  - rewrite IH. now rewrite Nat.add_succ_r.
Qed.

Lemma raw_segment : forall users i us off,
  (forall j, j < length us -> nth_error users (off + j) = nth_error us j) ->
  i < off \/ off + length us <= i ->
  map fst (flat_map (rawCandidates users i) (seq_from off (length us)))
  = map id us.
Proof.
  intros users i. induction us as [|x us IH]; intros off Hnth Hi;
    [reflexivity|].
  cbn [length seq_from flat_map]. rewrite map_app.
  rewrite IH.
  - unfold rawCandidates at 1.
    destruct (Nat.eqb_spec i off) as [->|_]; [cbn [length] in Hi; lia|].
    specialize (Hnth 0 (Nat.lt_0_succ _)). rewrite Nat.add_0_r in Hnth.
    rewrite Hnth. reflexivity.
  - intros j Hj. specialize (Hnth (S j)). cbn [length nth_error] in Hnth.
    rewrite <- Hnth by lia. f_equal. lia.
  - cbn [length] in Hi. lia.
Qed.

Lemma candidates_facts : forall users i u,
  NoDup (map id users) -> nth_error users i = Some u ->
  NoDup (map fst (candidates users i))
  /\ length (candidates users i) = length users - 1.
Proof.
  intros users i u Hnd Hu.
  destruct (nth_error_split users i Hu) as [l1 [l2 [Hsplit Hlen]]].
  assert (Hraw : map fst (flat_map (rawCandidates users i)
                                   (seq_from 0 (length users)))
                 = map id (l1 ++ l2)).
  { rewrite Hsplit at 2. rewrite length_app. cbn [length].
    rewrite seq_from_app, flat_map_app, map_app. cbn [Nat.add seq_from flat_map].
    rewrite map_app.
    rewrite (@raw_segment users i l1 0).
    - unfold rawCandidates at 1. rewrite Hlen, Nat.eqb_refl. cbn [map app].
      rewrite (@raw_segment users i l2 (S i)).
      + now rewrite map_app.
      + intros j Hj. rewrite Hsplit.
        rewrite nth_error_app2 by lia.
        replace (S i + j - length l1) with (S j) by lia. reflexivity.
      + left. lia.
    - intros j Hj. rewrite Hsplit. cbn [Nat.add].
      now rewrite nth_error_app1.
    - right. lia. }
  assert (Hperm : Permutation (map fst (candidates users i)) (map id (l1 ++ l2))).
  { rewrite <- Hraw. apply Permutation_map. unfold candidates.
    apply js_sort_perm. }
  split.
  - eapply Permutation_NoDup; [apply Permutation_sym, Hperm|].
    rewrite Hsplit, map_app in Hnd. cbn [map] in Hnd.
    apply NoDup_remove_1 in Hnd. now rewrite map_app.
  - apply Permutation_length in Hperm.
    rewrite !length_map in Hperm. rewrite Hperm, Hsplit, !length_app.
    cbn [length]. lia.
Qed.

Lemma tier_counts_positive : forall o n,
  (0 < kInt o n)%Z /\ (0 < kFri o n - kInt o n)%Z
  /\ (0 < kAcq o n - kFri o n)%Z.
Proof.
  intros o n. unfold kAcq, kFri, kInt. lia.
Qed.

(** The three passes for one user pick [min(kAcq, n - 1)] distinct peers. *)
Lemma selectFor_degree : forall o users a tm r i u a' tm' r',
  NoDup (map id users) -> nth_error users i = Some u ->
  selectFor Math_pow o users (a, tm, r) i = (a', tm', r') ->
  Nat.min (Z.to_nat (kAcq o (length users))) (length users - 1)
  <= length (adj_get a' (id u)).
Proof.
  intros o users a tm r i u a' tm' r' Hnd Hu H. unfold selectFor in H.
  rewrite Hu in H. inversion H; subst; clear H.
  destruct (candidates_facts users i Hnd Hu) as [Hc Hlen].
  destruct (tier_counts_positive o (length users)) as [H1 [H2 H3]].
  set (n := length users) in *. set (cands := candidates users i) in *.
  set (s0 := mkSel [] a tm r).
  destruct (pickTier_count o cands (id u) intimate s0 H1 Hc)
    as [Ha1 [Hb1 [Hc1 Hd1]]];
    [constructor|intros x []|intros x []|].
  set (s1 := pickTier Math_pow o cands (id u) (kInt o n) intimate s0) in *.
  destruct (pickTier_count o cands (id u) friend s1 H2 Hc Ha1 Hb1 Hc1)
    as [Ha2 [Hb2 [Hc2 Hd2]]].
  set (s2 := pickTier Math_pow o cands (id u) (kFri o n - kInt o n) friend s1)
    in *.
  destruct (pickTier_count o cands (id u) acquaintance s2 H3 Hc Ha2 Hb2 Hc2)
    as [Ha3 [Hb3 [Hc3 Hd3]]].
  set (s3 := pickTier Math_pow o cands (id u) (kAcq o n - kFri o n)
                      acquaintance s2) in *.
  pose proof (NoDup_incl_length Ha3 Hc3) as Hle.
  cbn [picked length] in Hd1. lia.
Qed.

Lemma selection_degree : forall o users idx a tm r a' tm' r' i u,
  NoDup (map id users) -> nth_error users i = Some u ->
  fold_left (selectFor Math_pow o users) idx (a, tm, r) = (a', tm', r') ->
  In i idx
  \/ Nat.min (Z.to_nat (kAcq o (length users))) (length users - 1)
     <= length (adj_get a (id u)) ->
  Nat.min (Z.to_nat (kAcq o (length users))) (length users - 1)
  <= length (adj_get a' (id u)).
Proof.
  induction idx as [|j idx IH]; intros a tm r a' tm' r' i u Hnd Hu Hf Hi;
    cbn [fold_left] in Hf.
  - inversion Hf; subst. destruct Hi as [[]|Hi]. exact Hi.
  - destruct (selectFor Math_pow o users (a, tm, r) j) as [[a1 tm1] r1] eqn:H1.
    apply (IH a1 tm1 r1 a' tm' r' i u Hnd Hu Hf).
    destruct Hi as [[->|Hi]|Hi].
    + right. eapply selectFor_degree; eassumption.
    + now left.
    + right. etransitivity; [exact Hi|].
      eapply selectFor_length; eassumption.
Qed.

End Degrees.

Lemma reconcile_length : forall u vs a tm x,
  length (adj_get a x)
  <= length (adj_get (fst (fold_left (reconcile u) vs (a, tm))) x).
Proof.
  induction vs as [|v vs IH]; intros a tm x; cbn [fold_left fst]; [lia|].
  destruct (reconcile u (a, tm) v) as [a1 tm1] eqn:Hr.
  etransitivity; [|apply IH].
  unfold reconcile in Hr.
  destruct (tier_get tm u v), (tier_get tm v u); inversion Hr; subst;
    apply adj_add_length.
Qed.

Lemma symmetrize_length : forall users a tm x,
  length (adj_get a x)
  <= length (adj_get (fst (fold_left symmetrize users (a, tm))) x).
Proof.
  induction users as [|u users IH]; intros a tm x; cbn [fold_left fst]; [lia|].
  destruct (symmetrize (a, tm) u) as [a1 tm1] eqn:Hs.
  etransitivity; [|apply IH].
  unfold symmetrize in Hs. cbn [fst] in Hs.
  pose proof (reconcile_length (id u) (adj_get a (id u)) a tm x) as H.
  rewrite Hs in H. exact H.
Qed.

Lemma bridgeLoop_length : forall sample uId len far index toAdd a tm r x,
  length (adj_get a x)
  <= length (adj_get (fst (fst (bridgeLoop sample uId len far index toAdd
                                           (a, tm, r)))) x).
Proof.
  induction far as [|vId far IH]; intros index toAdd a tm r x;
    cbn [bridgeLoop]; [cbn; lia|].
  destruct (toAdd <? sample)%Z; [|cbn; lia].
  destruct (Rng.next r) as [u r1].
  match goal with
  | |- context [if ?c then _ else _] => destruct c
  end.
  - etransitivity; [|apply IH].
    etransitivity; [|apply adj_add_length]. apply adj_add_length.
  - apply IH.
Qed.

Lemma bridges_length : forall o users us a tm r x,
  length (adj_get a x)
  <= length (adj_get (fst (fst (fold_left (bridgeFor o users) us (a, tm, r)))) x).
Proof.
  induction us as [|u us IH]; intros a tm r x; cbn [fold_left]; [cbn; lia|].
  destruct (bridgeFor o users (a, tm, r) u) as [[a1 tm1] r1] eqn:Hb.
  etransitivity; [|apply IH].
  unfold bridgeFor in Hb. destruct (Rng.next r) as [y r0].
  destruct (Qltb y (pBridge o)).
  - match type of Hb with
    | bridgeLoop ?s ?u0 ?len ?far ?i ?t (?a0, ?t0, ?r2) = _ =>
        pose proof (bridgeLoop_length s u0 len far i t a0 t0 r2 x) as H
    end.
    rewrite Hb in H. exact H.
  - inversion Hb; subst. lia.
Qed.

Lemma seq_from_In : forall len a i, a <= i < a + len -> In i (seq_from a len).
Proof.
  induction len as [|len IH]; intros a i Hi; [lia|].
  cbn [seq_from]. destruct (Nat.eq_dec a i) as [->|Hne]; [now left|].
  right. apply IH. lia.
Qed.

(** C10: with at least two users carrying distinct ids, every user has at
    least [min(kAcq, n - 1)] neighbours in the graph that
    [getTieredMeshGraph] returns, and that number is at least 1: no node is
    isolated. *)
Theorem C10_minimum_degree :
  forall (Math_pow : Q -> Q -> Q) (users : list User) (o : Options) (u : User),
  2 <= length users -> NoDup (map id users) -> In u users ->
  let n := length users in
  let graph := fst (getTieredMeshGraph Math_pow users o) in
  (1 <= Z.min (kAcq o n) (Z.of_nat n - 1))%Z
  /\ (Z.min (kAcq o n) (Z.of_nat n - 1)
      <= Z.of_nat (length (adj_get graph (id u))))%Z
  /\ adj_get graph (id u) <> [].
Proof.
  intros Math_pow users o u Hn Hnd Hin n graph.
  destruct (tier_counts_positive o n) as [H1 [H2 H3]].
  assert (Hmin : (1 <= Z.min (kAcq o n) (Z.of_nat n - 1))%Z)
    by (unfold n in *; lia).
  assert (Hdeg : Nat.min (Z.to_nat (kAcq o n)) (n - 1)
                 <= length (adj_get graph (id u))).
  { destruct (In_nth_error users u Hin) as [i Hi].
    assert (Hlt : i < n) by (apply nth_error_Some; congruence).
    unfold graph, getTieredMeshGraph. cbv zeta.
    match goal with
    | |- context [@fold_left ?A ?B (selectFor Math_pow o users) ?l ?s0] =>
        destruct (@fold_left A B (selectFor Math_pow o users) l s0)
          as [[a1 tm1] r1] eqn:E1
    end.
    apply (@selection_degree Math_pow o users _ _ _ _ _ _ _ i u Hnd Hi) in E1;
      [|left; apply seq_from_In; fold n; lia].
    pose proof (symmetrize_length users a1 tm1 (id u)) as E2.
    destruct (fold_left symmetrize users (a1, tm1)) as [a2 tm2].
    cbn [fst] in E2.
    destruct (Qltb 0 (pBridge o) && (0 <? bridgeSample o)%Z).
    - pose proof (bridges_length o users users a2 tm2 r1 (id u)) as E3.
      destruct (fold_left (bridgeFor o users) users (a2, tm2, r1))
        as [[a3 tm3] r3].
      cbn [fst] in *. fold n in E1. lia.
    - cbn [fst]. fold n in E1. lia. }
  split; [exact Hmin|]. split; [lia|].
  intros Hnil. rewrite Hnil in Hdeg. cbn [length] in Hdeg. lia.
Qed.

(** C10 on three users with ids 0, 1, 2 and the default options. *)
Lemma C10_minimum_degree_witness :
  let users := [mkUser 0 None; mkUser 1 None; mkUser 2 None] in
  adj_get (fst (getTieredMeshGraph (fun u _ => u) users defaults)) 0 <> [].
Proof.
  intros users.
  refine (proj2 (proj2 (C10_minimum_degree (fun u _ => u) users defaults
                                           (mkUser 0 None) _ _ _))).
  - cbn. lia.
  - cbn. repeat constructor; cbn; intuition discriminate.
  - now left.
Defined.

End GraphFacts.

(** * The simulator: what each step does to the log, the threads, the
      queues and the bookkeeping *)

Lemma foldM_invariant : forall (S A : Type) (P : S -> Prop)
    (f : S -> A -> Result S) (l : list A) (s s' : S),
  (forall s1 x s2, In x l -> P s1 -> f s1 x = Ok s2 -> P s2) ->
  P s -> Network.foldM f l s = Ok s' -> P s'.
Proof.
  intros S A P f. induction l as [|x l IH]; intros s s' Hstep Hs Hf;
    cbn [Network.foldM] in Hf.
  - inversion Hf; subst. exact Hs.
  - destruct (f s x) as [s1| |] eqn:Hx; cbn [bind] in Hf; try discriminate.
    apply (IH s1 s'); [|eapply Hstep; [now left|exact Hs|exact Hx]|exact Hf].
    intros s2 y s3 Hy. apply Hstep. now right.
Qed.

Lemma push_at_perm : forall (A : Type) (i : nat) (x : A) (l l' : list (list A)),
  Network.push_at i x l = Some l' ->
  Permutation (concat l') (x :: concat l) /\ length l' = length l.
Proof.
  intros A i x l. revert i. induction l as [|b l IH]; intros i l' H;
    [destruct i; discriminate|].
  destruct i as [|i]; cbn [Network.push_at] in H.
  - inversion H; subst. cbn [concat length]. split; [|reflexivity].
    rewrite <- app_assoc. cbn [app].
    apply Permutation_sym, Permutation_middle.
  - destruct (Network.push_at i x l) as [l1|] eqn:Hp; [|discriminate].
    inversion H; subst. destruct (IH i l1 Hp) as [Hperm Hlen].
    cbn [concat length]. split; [|now rewrite Hlen].
    rewrite Hperm. apply Permutation_sym, Permutation_middle.
Qed.

Lemma push_at_inj : forall (A : Type) (i : nat) (x y : A) (l l' : list (list A)),
  Network.push_at i x l = Some l' -> Network.push_at i y l = Some l' -> x = y.
Proof.
  intros A i x y l. revert i. induction l as [|b l IH]; intros i l' Hx Hy;
    [destruct i; discriminate|].
  destruct i as [|i]; cbn [Network.push_at] in Hx, Hy.
  - inversion Hx; subst. inversion Hy as [Heq].
    apply app_inv_head in Heq. now inversion Heq.
  - destruct (Network.push_at i x l) as [lx|] eqn:Ex; [|discriminate].
    destruct (Network.push_at i y l) as [ly|] eqn:Ey; [|discriminate].
    inversion Hx; subst. inversion Hy; subst. eapply IH; eassumption.
Qed.

Lemma map_get_set_same_str : forall (V : Type) (m : list (string * V)) k v,
  map_get String.eqb (map_set String.eqb m k v) k = Some v.
Proof.
  induction m as [|[k0 v0] m IH]; intros k v; simpl.
  - now rewrite String.eqb_refl.
  - destruct (String.eqb_spec k0 k) as [->|Hne]; simpl.
    + now rewrite String.eqb_refl.
    + destruct (String.eqb_spec k0 k); [contradiction|apply IH].
Qed.

Lemma map_get_set_other_str : forall (V : Type) (m : list (string * V)) k k' v,
  k' <> k ->
  map_get String.eqb (map_set String.eqb m k v) k' = map_get String.eqb m k'.
Proof.
  induction m as [|[k0 v0] m IH]; intros k k' v Hne; simpl.
  - destruct (String.eqb_spec k k'); [congruence|reflexivity].
  - destruct (String.eqb_spec k0 k) as [->|Hne0]; simpl.
    + destruct (String.eqb_spec k k'); [congruence|reflexivity].
    + destruct (String.eqb_spec k0 k'); [reflexivity|now apply IH].
Qed.

(** * Path selection: what a selected path looks like *)

Section PathFacts.
Import Network.
Variable g : Graph.

Lemma last_any : forall (p : list nat) d d', p <> [] -> last p d = last p d'.
Proof.
  induction p as [|a p IH]; intros d d' Hne; [contradiction|].
  destruct p as [|b p]; [reflexivity|].
  cbn [last]. apply IH. discriminate.
Qed.


Lemma isWalk_snoc : forall p d n,
  p <> [] -> isWalk g p = true -> In n (graph_get g (last p d)) ->
  isWalk g (p ++ [n]) = true.
Proof.
  induction p as [|a p IH]; intros d n Hne Hw Hn; [contradiction|].
  destruct p as [|b p].
  - cbn in *. rewrite andb_true_r. now apply nat_has_In.
  - cbn [app isWalk] in *. apply andb_prop in Hw. destruct Hw as [Hab Hw].
    rewrite Hab. cbn [andb]. apply (IH d); [discriminate|exact Hw|exact Hn].
Qed.


(** [p] is a route from [src] to [c], as a proposition. *)
Definition route (src c : nat) (p : list nat) : Prop :=
  isRoute g src c p = true.

Lemma route_parts : forall src c p,
  route src c p <->
  hd_error p = Some src /\ last p 0 = c /\ isWalk g p = true.
Proof.
  intros src c [|a p]; unfold route, isRoute.
  - split; [discriminate|]. intros [H _]. discriminate.
  - rewrite !andb_true_iff, !Nat.eqb_eq.
    rewrite (@last_any (a :: p) a 0) by discriminate. cbn [hd_error].
    split.
    + intros [[-> <-] Hw]. auto.
    + intros [Hh [Hl Hw]]. inversion Hh; subst. auto.
Qed.

Lemma route_snoc : forall src c p n,
  route src c p -> In n (graph_get g c) -> route src n (p ++ [n]).
Proof.
  intros src c p n Hr Hn. apply route_parts in Hr.
  destruct Hr as [Hh [Hl Hw]]. apply route_parts.
  destruct p as [|a p]; [discriminate|]. split; [exact Hh|].
  split; [apply last_last|].
  apply (@isWalk_snoc (a :: p) 0 n); [discriminate|exact Hw|].
  now rewrite Hl.
Qed.


Lemma route_single : forall src, route src src [src].
Proof.
  intros src. unfold route, isRoute. cbn. now rewrite Nat.eqb_refl.
Qed.


(** Every queued path is a route from [src] to its own last node. *)
Definition routes_from (src : nat) (q : list (list nat)) : Prop :=
  forall p, In p q -> route src (last p 0) p.

Lemma routes_from_snoc : forall src q p,
  routes_from src q -> route src (last p 0) p -> routes_from src (q ++ [p]).
Proof.
  intros src q p Hq Hp p' Hin. apply in_app_or in Hin.
  destruct Hin as [Hin|[<-|[]]]; auto.
Qed.

Lemma route_snoc_last : forall src c p n,
  route src c p -> In n (graph_get g c) ->
  route src (last (p ++ [n]) 0) (p ++ [n]).
Proof.
  intros src c p n Hr Hn. rewrite last_last. eapply route_snoc; eassumption.
Qed.

Lemma scanShortest_route : forall src c path dst ns q seen,
  route src c path -> incl ns (graph_get g c) -> routes_from src q ->
  match scanShortest ns path dst q seen with
  | inl p => route src dst p
  | inr (q', _) => routes_from src q'
  end.
Proof.
  intros src c path dst. induction ns as [|n ns IH]; intros q seen Hp Hns Hq;
    cbn [scanShortest]; [exact Hq|].
  assert (Hn : In n (graph_get g c)) by (apply Hns; now left).
  assert (Hns' : incl ns (graph_get g c))
    by (intros x Hx; apply Hns; now right).
  destruct (nat_has seen n); [now apply IH|].
  destruct (Nat.eqb_spec n dst) as [<-|Hne].
  - eapply route_snoc; eassumption.
  - apply IH; auto. apply routes_from_snoc; [exact Hq|].
    eapply route_snoc_last; eassumption.
Qed.

Lemma bfsShortest_route : forall src dst Hmax fuel q seen p,
  routes_from src q ->
  bfsShortest fuel g dst Hmax q seen = Ok (Some p) -> route src dst p.
Proof.
  intros src dst Hmax. induction fuel as [|fuel IH]; intros q seen p Hq H;
    cbn [bfsShortest] in H; [discriminate|].
  destruct q as [|path q]; [discriminate|].
  assert (Hq' : routes_from src q) by (intros x Hx; apply Hq; now right).
  destruct (Hmax + 1 <? Z.of_nat (length path))%Z; [now apply (IH q seen)|].
  pose proof (@scanShortest_route src (last path 0) path dst
                (graph_get g (last path 0)) q seen
                (Hq path (or_introl eq_refl)) (incl_refl _) Hq') as Hs.
  destruct (scanShortest (graph_get g (last path 0)) path dst q seen)
    as [newPath|[q'' seen']].
  - inversion H; subst. exact Hs.
  - now apply (IH q'' seen').
Qed.

Lemma routes_from_start : forall src, routes_from src [[src]].
Proof.
  intros src p [<-|[]]. cbn. apply route_single.
Qed.

Lemma shortestPath_route : forall src dst Hmax p,
  shortestPath g src dst Hmax = Ok (Some p) -> route src dst p.
Proof.
  intros src dst Hmax p H. unfold shortestPath in H.
  destruct (Nat.eqb_spec src dst) as [<-|Hne].
  - inversion H; subst. apply route_single.
  - eapply bfsShortest_route; [apply routes_from_start|exact H].
Qed.










(** *** When no path is found *)

Lemma scanShortest_finds : forall dst path ns q seen,
  In dst ns -> ~ In dst seen ->
  scanShortest ns path dst q seen = inl (path ++ [dst]).
Proof.
  intros dst path. induction ns as [|n ns IH]; intros q seen Hin Hnot;
    [contradiction|].
  cbn [scanShortest]. destruct (nat_has seen n) eqn:Hs.
  - apply nat_has_In in Hs. destruct Hin as [->|Hin]; [contradiction|].
    now apply IH.
  - destruct (Nat.eqb_spec n dst) as [->|Hne]; [reflexivity|].
    destruct Hin as [Heq|Hin]; [contradiction|]. apply IH; [exact Hin|].
    intros Hd. apply nat_add_In in Hd. destruct Hd as [Hd|Hd]; auto.
Qed.

(** With [Hmax >= 0] a neighbour is always reached, in one hop. *)
Lemma shortestPath_neighbour : forall src dst Hmax,
  (0 <= Hmax)%Z -> In dst (graph_get g src) ->
  shortestPath g src dst Hmax
  = Ok (Some (if src =? dst then [src] else [src; dst])).
Proof.
  intros src dst Hmax Hh Hin. unfold shortestPath.
  destruct (Nat.eqb_spec src dst) as [<-|Hne]; [reflexivity|].
  cbn [Nat.add bfsShortest length last].
  destruct (Z.ltb_spec (Hmax + 1) (Z.of_nat 1)); [lia|].
  rewrite (@scanShortest_finds dst [src] (graph_get g src) [] [src] Hin).
  - reflexivity.
  - intros [Heq|[]]. congruence.
Qed.

(** With [Hmax < 0] the start path is dropped and nothing is found. *)
Lemma shortestPath_negative : forall src dst Hmax,
  (Hmax < 0)%Z -> src <> dst -> shortestPath g src dst Hmax = Ok None.
Proof.
  intros src dst Hmax Hh Hne. unfold shortestPath.
  destruct (Nat.eqb_spec src dst) as [|_]; [contradiction|].
  cbn [Nat.add bfsShortest length].
  destruct (Z.ltb_spec (Hmax + 1) (Z.of_nat 1)); [reflexivity|lia].
Qed.

(** [selectPath] returns [null] exactly when [shortestPath] does. *)
Lemma selectPath_none : forall src dst Hmax tr rng rng',
  selectPath g src dst Hmax tr rng = Ok (None, rng') ->
  shortestPath g src dst Hmax = Ok None.
Proof.
  intros src dst Hmax tr rng rng' H. unfold selectPath in H.
  destruct (Rng.next rng) as [r rng1].
  destruct (shortestPath g src dst Hmax) as [[sp|]| |];
    cbn [bind] in H; try discriminate; [exfalso|reflexivity].
  cbv zeta in H.
  destruct (Qltb r (4 # 10)); [discriminate|].
  destruct (Qltb r _).
  { destruct (Rng.next rng1) as [u rng2].
    match type of H with
    | bind ?c _ = _ => destruct c as [d| |]
    end; cbn [bind] in H; discriminate. }
  destruct (Qltb r _).
  { match type of H with
    | bind ?c _ = _ => destruct c as [d| |]
    end; cbn [bind] in H; discriminate. }
  match type of H with
  | bind ?c _ = _ => destruct c as [w| |]
  end; cbn [bind] in H; discriminate.
Qed.

Lemma shortestPath_none_select : forall src dst Hmax tr rng,
  shortestPath g src dst Hmax = Ok None ->
  selectPath g src dst Hmax tr rng = Ok (None, snd (Rng.next rng)).
Proof.
  intros src dst Hmax tr rng H. unfold selectPath.
  destruct (Rng.next rng) as [r rng1]. rewrite H. reflexivity.
Qed.

(** A neighbour is never without a path when [Hmax >= 0]. *)
Lemma selectPath_neighbour : forall src dst Hmax tr rng rng',
  (0 <= Hmax)%Z -> In dst (graph_get g src) ->
  selectPath g src dst Hmax tr rng <> Ok (None, rng').
Proof.
  intros src dst Hmax tr rng rng' Hh Hin H. apply selectPath_none in H.
  rewrite (shortestPath_neighbour _ _ Hh Hin) in H. discriminate.
Qed.

(** *** The searches end within their fuel

    A queued path stands for a node that was not seen before, and every
    turn of the loop removes one queued path: the number of queued paths
    plus the number of listed ids not yet seen goes down at every turn. *)

Definition unseen (seen : list nat) : nat :=
  length (filter (fun x => negb (nat_has seen x)) (universe g)).

Lemma filter_length_lt : forall (f f' : nat -> bool) (l : list nat) n,
  (forall x, f' x = true -> f x = true) ->
  In n l -> f n = true -> f' n = false ->
  length (filter f' l) < length (filter f l).
Proof.
  intros f f' l n Himp. induction l as [|x l IH]; intros Hin Hf Hf';
    [contradiction|].
  assert (Hle : length (filter f' l) <= length (filter f l)).
  { clear IH Hin. induction l as [|y l IHl]; [apply Nat.le_refl|].
    cbn [filter]. destruct (f' y) eqn:E.
    - rewrite (Himp y E). cbn [length]. lia.
    - destruct (f y); cbn [length]; lia. }
  cbn [filter]. destruct Hin as [->|Hin].
  - rewrite Hf, Hf'. cbn [length]. lia.
  - specialize (IH Hin Hf Hf'). destruct (f' x) eqn:E.
    + rewrite (Himp x E). cbn [length]. lia.
    + destruct (f x); cbn [length]; lia.
Qed.

Lemma unseen_add : forall seen n,
  In n (universe g) -> nat_has seen n = false ->
  unseen (nat_add seen n) < unseen seen.
Proof.
  intros seen n Hin Hn. unfold unseen.
  apply filter_length_lt with (n := n); [|exact Hin| |].
  - intros x Hx. apply negb_true_iff in Hx. apply negb_true_iff.
    destruct (nat_has seen x) eqn:E; [|reflexivity].
    apply nat_has_In in E.
    assert (Hc : nat_has (nat_add seen n) x = true)
      by (apply nat_has_In, nat_add_In; now left).
    congruence.
  - now rewrite Hn.
  - apply negb_false_iff. apply nat_has_In, nat_add_In. now right.
Qed.

Lemma graph_get_universe : forall u n,
  In n (graph_get g u) -> In n (universe g).
Proof.
  intros u n H. unfold graph_get in H.
  destruct (map_get Nat.eqb g u) as [ns|] eqn:E; [|contradiction].
  unfold universe. apply in_flat_map. exists (u, ns).
  split; [|now right].
  clear H. induction g as [|[k v] g' IH]; cbn [map_get] in E; [discriminate|].
  destruct (Nat.eqb_spec k u) as [->|Hne].
  - inversion E; subst. now left.
  - right. now apply IH.
Qed.

Lemma scanShortest_measure : forall path dst ns q seen q' seen',
  incl ns (universe g) ->
  scanShortest ns path dst q seen = inr (q', seen') ->
  length q' + unseen seen' <= length q + unseen seen.
Proof.
  intros path dst. induction ns as [|n ns IH]; intros q seen q' seen' Hns H;
    cbn [scanShortest] in H.
  - inversion H; subst. lia.
  - assert (Hn : In n (universe g)) by (apply Hns; now left).
    assert (Hns' : incl ns (universe g))
      by (intros x Hx; apply Hns; now right).
    destruct (nat_has seen n) eqn:Hs; [now apply IH|].
    destruct (n =? dst); [discriminate|].
    apply IH in H; [|exact Hns'].
    rewrite length_app in H. cbn [length] in H.
    pose proof (@unseen_add seen n Hn Hs). lia.
Qed.

Lemma bfsShortest_total : forall dst Hmax fuel q seen,
  length q + unseen seen < fuel ->
  bfsShortest fuel g dst Hmax q seen <> OutOfFuel.
Proof.
  intros dst Hmax. induction fuel as [|fuel IH]; intros q seen Hm; [lia|].
  cbn [bfsShortest]. destruct q as [|path q]; [discriminate|].
  cbn [length] in Hm.
  destruct (Hmax + 1 <? Z.of_nat (length path))%Z; [apply IH; lia|].
  destruct (scanShortest (graph_get g (last path 0)) path dst q seen)
    as [newPath|[q'' seen']] eqn:E; [discriminate|].
  apply scanShortest_measure in E;
    [|intros x Hx; eapply graph_get_universe; exact Hx].
  apply IH. lia.
Qed.

Lemma unseen_bound : forall seen, unseen seen <= length (universe g).
Proof.
  intros seen. unfold unseen. apply filter_length_le.
Qed.

(** [shortestPath] returns a path or [null]. *)
Lemma shortestPath_total : forall src dst Hmax,
  shortestPath g src dst Hmax <> OutOfFuel.
Proof.
  intros src dst Hmax. unfold shortestPath.
  destruct (src =? dst); [discriminate|].
  apply bfsShortest_total. cbn [length]. pose proof (unseen_bound [src]). lia.
Qed.

Lemma scanDiverse_measure : forall path dst ns q found seen q' found' seen',
  incl ns (universe g) ->
  scanDiverse ns path dst q found seen = (q', found', seen') ->
  length q' + unseen seen' <= length q + unseen seen.
Proof.
  intros path dst. induction ns as [|n ns IH];
    intros q found seen q' found' seen' Hns H; cbn [scanDiverse] in H.
  - inversion H; subst. lia.
  - assert (Hn : In n (universe g)) by (apply Hns; now left).
    assert (Hns' : incl ns (universe g))
      by (intros x Hx; apply Hns; now right).
    destruct (nat_has seen n) eqn:Hs; cbn [andb] in H.
    + destruct (n =? dst); cbn [negb] in H; [|now apply IH in H].
      destruct (20 <=? length (found ++ [path ++ [n]]));
        [inversion H; subst; lia|now apply IH in H].
    + destruct (n =? dst).
      * destruct (20 <=? length (found ++ [path ++ [n]]));
          [inversion H; subst; lia|now apply IH in H].
      * apply IH in H; [|exact Hns'].
        rewrite length_app in H. cbn [length] in H.
        pose proof (@unseen_add seen n Hn Hs). lia.
Qed.

Lemma bfsDiverse_total : forall dst Hmax fuel q found seen,
  length q + unseen seen < fuel ->
  bfsDiverse fuel g dst Hmax q found seen <> OutOfFuel.
Proof.
  intros dst Hmax. induction fuel as [|fuel IH]; intros q found seen Hm;
    [lia|].
  cbn [bfsDiverse]. destruct q as [|path q]; [discriminate|].
  cbn [length] in Hm.
  destruct (20 <=? length found); [discriminate|].
  destruct (Hmax + 1 <? Z.of_nat (length path))%Z; [apply IH; lia|].
  destruct (scanDiverse (graph_get g (last path 0)) path dst q found seen)
    as [[q'' found'] seen'] eqn:E.
  apply scanDiverse_measure in E;
    [|intros x Hx; eapply graph_get_universe; exact Hx].
  apply IH. lia.
Qed.

Lemma findDiversePath_total : forall src dst Hmax tr rng,
  findDiversePath g src dst Hmax tr rng <> OutOfFuel.
Proof.
  intros src dst Hmax tr rng. unfold findDiversePath.
  destruct (src =? dst); [discriminate|].
  destruct (bfsDiverse _ g dst Hmax [[src]] [] [src]) as [ps| |] eqn:E;
    cbn [bind]; [|discriminate|].
  - destruct ps as [|first ps]; [discriminate|]. cbv zeta.
    destruct (Rng.next rng) as [u r1]. destruct (roulette _ _); discriminate.
  - exfalso. revert E. apply bfsDiverse_total. cbn [length].
    pose proof (unseen_bound [src]). lia.
Qed.

Lemma walkLoop_total : forall dst iters path current seen rng,
  walkLoop iters g dst path current seen rng <> OutOfFuel.
Proof.
  intros dst. induction iters as [|k IH]; intros path current seen rng;
    cbn [walkLoop]; [discriminate|].
  cbv zeta. destruct (length (graph_get g current) =? 0); [discriminate|].
  destruct (existsb (Nat.eqb dst) (graph_get g current)).
  - destruct (Rng.next rng) as [u r1]. destruct (Qltb u (3 # 10));
      [discriminate|].
    destruct (Rng.next r1) as [u2 r2]. destruct (at_index _ _) as [next|];
      [|discriminate].
    destruct (next =? dst); [discriminate|apply IH].
  - destruct (Rng.next rng) as [u2 r2]. destruct (at_index _ _) as [next|];
      [|discriminate].
    destruct (next =? dst); [discriminate|apply IH].
Qed.

(** [selectPath] returns a path or [null] (or stops at an [undefined]
    node of the random walk): the fuel of the searches is never used up. *)
Lemma selectPath_total : forall src dst Hmax tr rng,
  selectPath g src dst Hmax tr rng <> OutOfFuel.
Proof.
  intros src dst Hmax tr rng. unfold selectPath.
  destruct (Rng.next rng) as [r rng1].
  pose proof (shortestPath_total src dst Hmax) as Hs.
  destruct (shortestPath g src dst Hmax) as [[sp|]| |]; cbn [bind];
    try discriminate; [|contradiction].
  cbv zeta. destruct (Qltb r (4 # 10)); [discriminate|].
  destruct (Qltb r _).
  { destruct (Rng.next rng1) as [u rng2].
    match goal with
    | |- bind ?c _ <> _ =>
        pose proof (findDiversePath_total src dst
                      (Z.min (Z.of_nat (length sp) + 1 + Math_floor (u * 2))
                             (Z.of_nat (Z.to_nat (Math_floor
                                (inject_Z (Z.of_nat (length sp)) * (15 # 10))))))
                      tr rng2) as Hd;
        destruct c as [d| |]
    end; cbn [bind]; try discriminate. contradiction. }
  destruct (Qltb r _).
  { match goal with
    | |- bind ?c _ <> _ =>
        pose proof (findDiversePath_total src dst
                      (Z.of_nat (Z.to_nat (Math_floor
                         (inject_Z (Z.of_nat (length sp)) * (15 # 10)))))
                      tr rng1) as Hd;
        destruct c as [d| |]
    end; cbn [bind]; try discriminate. contradiction. }
  unfold randomWalkPath.
  match goal with
  | |- bind (bind ?c _) _ <> _ =>
      destruct c as [[[p|[p cur]] rw]| |] eqn:Hw
  end; cbn [bind]; try discriminate.
  - match goal with
    | |- bind (bind ?c _) _ <> _ =>
        pose proof (shortestPath_total cur dst
                      (Z.of_nat (Z.to_nat (Math_floor
                         (inject_Z (Z.of_nat (length sp)) * (15 # 10))))
                       - Z.of_nat (length p))) as Hf;
        destruct c as [[fp|]| |]
    end; cbn [bind]; try discriminate. contradiction.
  - exfalso. revert Hw. apply walkLoop_total.
Qed.


End PathFacts.

Section RunFacts.
Import Network.

Variable Math_random : nat -> Q.
Variable gaussian : Q -> Q -> Q.
Variable Math_exp : Q -> Q.
Variable Math_sqrt : Q -> Q.
Variable fuel : nat.
Variable g : Graph.
Variable tm : SocialGraph.TierMap.
Variable opt : Options.

(** Everything but the adversary, the cover manager, the tracker, the link
    counts and the generator is left alone. *)
Definition same_core (s s' : State) : Prop :=
  sentLog s' = sentLog s /\ notes s' = notes s
  /\ activeThreads s' = activeThreads s /\ replyQueues s' = replyQueues s
  /\ draws s' = draws s.

Lemma same_core_refl : forall s, same_core s s.
Proof. intros s. repeat split. Qed.

Lemma same_core_trans : forall s1 s2 s3,
  same_core s1 s2 -> same_core s2 s3 -> same_core s1 s3.
Proof.
  intros s1 s2 s3 [A1 [A2 [A3 [A4 A5]]]] [B1 [B2 [B3 [B4 B5]]]].
  repeat split; congruence.
Qed.

Lemma call_adv_core : forall s c f, same_core s (call_adv s c f).
Proof.
  intros s c f. unfold call_adv. destruct (adv s); repeat split.
Qed.

Lemma call_adv_calls : forall s c f,
  calls (call_adv s c f) = calls s \/ calls (call_adv s c f) = calls s ++ [c].
Proof.
  intros s c f. unfold call_adv. destruct (adv s); cbn; auto.
Qed.

Lemma recordReal_core : forall s a b t,
  same_core s (recordReal s a b t) /\ calls (recordReal s a b t) = calls s.
Proof.
  intros s a b t. unfold recordReal. destruct (coverMgr s); repeat split.
Qed.

Lemma logMessage_ok : forall T t s a b idd p d r s',
  logMessage T t s a b idd p d r = Ok s' ->
  (exists hops,
      push_at t (mkMessage t a b idd p hops d r) (sentLog s)
      = Some (sentLog s'))
  /\ notes s' = notes s /\ activeThreads s' = activeThreads s
  /\ replyQueues s' = replyQueues s /\ draws s' = draws s
  /\ calls s' = calls s /\ rng s' = rng s.
Proof.
  intros T t s a b idd p d r s' H. unfold logMessage in H.
  destruct (recordHops T t p (futureLinkCounts s) []) as [flc hops].
  destruct (push_at t _ (sentLog s)) as [log|] eqn:Hp; [|discriminate].
  inversion H; subst. cbn. repeat split. now exists hops.
Qed.

Lemma queueReply_ok : forall t s a b s',
  queueReply tm t s a b = Ok s' ->
  sentLog s' = sentLog s /\ notes s' = notes s
  /\ activeThreads s' = activeThreads s /\ draws s' = draws s
  /\ calls s' = calls s
  /\ (replyQueues s' = replyQueues s
      \/ exists e, to e = b
                   /\ push_at a e (replyQueues s) = Some (replyQueues s')).
Proof.
  intros t s a b s' H. unfold queueReply in H.
  destruct (scheduleReply a b t tm (rng s)) as [[[ty ep]|] rng1].
  - destruct (Rng.next rng1) as [u rng2].
    destruct (push_at a _ (replyQueues s)) as [q|] eqn:Hp; [|discriminate].
    inversion H; subst. cbn. repeat split. right.
    eexists. split; [|exact Hp]. reflexivity.
  - inversion H; subst. cbn. repeat split. now left.
Qed.

Lemma lookupThread_core : forall s key t,
  sentLog (lookupThread s key t) = sentLog s
  /\ calls (lookupThread s key t) = calls s
  /\ replyQueues (lookupThread s key t) = replyQueues s
  /\ rng (lookupThread s key t) = rng s
  /\ draws (lookupThread s key t) = draws s
  /\ tracker (lookupThread s key t) = tracker s.
Proof.
  intros s key t. unfold lookupThread.
  destruct (map_get String.eqb (activeThreads s) key); repeat split.
Qed.

(** The three ways in which [processReply] completes. *)
Inductive ReplyOutcome (t uid : nat) (reply : ReplyEntry) (s s' : State)
  : Prop :=
| ReplyDeclined :
    fst (shouldContinue (threadOf s (sortedPairKey uid (to reply))) t (rng s))
    = false ->
    notes s' = notes (lookupThread s (sortedPairKey uid (to reply)) t)
               ++ [Declined (sortedPairKey uid (to reply)) t] ->
    activeThreads s'
    = activeThreads (lookupThread s (sortedPairKey uid (to reply)) t) ->
    sentLog s' = sentLog s -> calls s' = calls s ->
    replyQueues s' = replyQueues s ->
    ReplyOutcome t uid reply s s'
| ReplySkipped :
    fst (shouldContinue (threadOf s (sortedPairKey uid (to reply))) t (rng s))
    = true ->
    notes s' = notes (lookupThread s (sortedPairKey uid (to reply)) t)
               ++ [Accepted (sortedPairKey uid (to reply)) t;
                   Skipped (sortedPairKey uid (to reply)) t] ->
    activeThreads s'
    = activeThreads (lookupThread s (sortedPairKey uid (to reply)) t) ->
    sentLog s' = sentLog s -> calls s' = calls s ->
    replyQueues s' = replyQueues s ->
    (exists tr r r',
        selectPath g uid (to reply) (Hmax opt) tr r = Ok (None, r')) ->
    ReplyOutcome t uid reply s s'
| ReplyEmitted : forall m,
    fst (shouldContinue (threadOf s (sortedPairKey uid (to reply))) t (rng s))
    = true ->
    notes s' = notes (lookupThread s (sortedPairKey uid (to reply)) t)
               ++ [Accepted (sortedPairKey uid (to reply)) t] ->
    activeThreads s'
    = map_set String.eqb
        (activeThreads (lookupThread s (sortedPairKey uid (to reply)) t))
        (sortedPairKey uid (to reply))
        (mkThread (S (messageCount (threadOf s (sortedPairKey uid (to reply)))))
                  t) ->
    push_at t m (sentLog s) = Some (sentLog s') ->
    sender m = uid -> recipient m = to reply -> isReply m = true ->
    dummy m = false -> m_t m = t ->
    (exists tr r r',
        selectPath g uid (to reply) (Hmax opt) tr r = Ok (Some (path m), r')) ->
    (replyQueues s' = replyQueues s
     \/ exists e, to e = uid
                  /\ push_at (to reply) e (replyQueues s)
                     = Some (replyQueues s')) ->
    ReplyOutcome t uid reply s s'.

Lemma processReply_outcome : forall t uid s reply s',
  processReply Math_random g tm opt t uid s reply = Ok s' ->
  ReplyOutcome t uid reply s s' /\ draws s' = S (draws s).
Proof.
  intros t uid s reply s' H. unfold processReply in H.
  set (key := sortedPairKey uid (to reply)) in *.
  set (s1 := set_draws s (S (draws s))) in *.
  change (threadOf s1 key) with (threadOf s key) in H.
  destruct (lookupThread_core s1 key t) as [Hl2 [Hc2 [Hq2 [Hr2 [Hd2 Htr2]]]]].
  assert (Hn2 : notes (lookupThread s1 key t) = notes (lookupThread s key t)).
  { unfold lookupThread. cbn.
    destruct (map_get String.eqb (activeThreads s) key); reflexivity. }
  assert (Ht2 : activeThreads (lookupThread s1 key t)
                = activeThreads (lookupThread s key t)).
  { unfold lookupThread. cbn.
    destruct (map_get String.eqb (activeThreads s) key); reflexivity. }
  set (s2 := lookupThread s1 key t) in *.
  cbn [sentLog calls replyQueues rng draws s1 set_draws] in Hl2, Hc2, Hq2, Hr2, Hd2.
  rewrite Hr2 in H.
  remember (shouldContinue (threadOf s key) t (rng s)) as sc eqn:Hsc.
  destruct sc as [cont rng1]. symmetry in Hsc.
  destruct cont.
  - (* accepted *)
    match type of H with
    | (if ?c then _ else _) = _ => destruct c; [discriminate|]
    end.
    cbn [tracker rng add_note set_rng] in H.
    destruct (selectPath g uid (to reply) (Hmax opt) (tracker s2) rng1)
      as [[[p|] rng2]| |] eqn:Hsel; cbn [bind fst snd] in H;
      try discriminate.
    + (* a path *)
      destruct (logMessage (T opt) t _ uid (to reply) _ p false true)
        as [s4| |] eqn:Hlog; cbn [bind] in H; try discriminate.
      apply logMessage_ok in Hlog.
      destruct Hlog as [[hops Hpush] [Hn4 [Ht4 [Hq4 [Hd4 [Hc4 Hr4]]]]]].
      cbn in Hpush, Hn4, Ht4, Hq4, Hd4, Hc4.
      apply queueReply_ok in H.
      destruct H as [Hl6 [Hn6 [Ht6 [Hd6 [Hc6 Hq6]]]]].
      destruct (recordReal_core (noteSend s4 t uid) uid (to reply) t)
        as [[R1 [R2 [R3 [R4 R5]]]] R6].
      destruct (call_adv_core s4 (NoteSend t uid)
                  (fun a => AdversaryLP.noteSend a t uid))
        as [N1 [N2 [N3 [N4 N5]]]].
      fold (noteSend s4 t uid) in N1, N2, N3, N4, N5.
      cbn [sentLog notes activeThreads replyQueues draws calls set_threads]
        in Hl6, Hn6, Ht6, Hd6, Hc6, Hq6.
      split.
      * eapply ReplyEmitted
          with (m := mkMessage t uid (to reply) _ p hops false true);
          try reflexivity.
        -- change (fst (shouldContinue (threadOf s key) t (rng s)) = true).
           now rewrite Hsc.
        -- rewrite Hn6, R2, N2, Hn4, Hn2. reflexivity.
        -- rewrite Ht6, R3, N3, Ht4, Ht2. reflexivity.
        -- rewrite Hl6, R1, N1, <- Hl2. exact Hpush.
        -- cbn [path]. eauto.
        -- rewrite R4, N4, Hq4, Hq2 in Hq6. exact Hq6.
      * rewrite Hd6, R5, N5, Hd4. exact Hd2.
    + (* no path *)
      inversion H; subst. cbn. split; [|exact Hd2].
      eapply ReplySkipped; cbn; try assumption.
      * change (fst (shouldContinue (threadOf s key) t (rng s)) = true).
        now rewrite Hsc.
      * fold s2. rewrite Hn2, <- app_assoc. reflexivity.
      * exists (tracker s2), rng1, rng2. exact Hsel.
  - (* declined *)
    inversion H; subst. cbn. split; [|exact Hd2].
    eapply ReplyDeclined; cbn; try assumption.
    + change (fst (shouldContinue (threadOf s key) t (rng s)) = false).
      now rewrite Hsc.
    + fold s2. now rewrite Hn2.
Qed.

Lemma pickLoop_In : forall items weights r x,
  pickLoop items weights r = Some x -> In x items.
Proof.
  induction items as [|y items IH]; intros weights r x H;
    cbn [pickLoop] in H; [discriminate|].
  destruct weights as [|w weights]; [discriminate|].
  destruct (Qle_bool (r - w) 0).
  - inversion H; subst. now left.
  - right. eapply IH. exact H.
Qed.

Lemma pickWeighted_In : forall items weights u x,
  pickWeighted items weights u = Some x -> In x items.
Proof.
  intros items weights u x H. unfold pickWeighted in H.
  destruct (pickLoop items weights (u * Qsum weights)%Q) as [y|] eqn:Hp.
  - inversion H; subst. eapply pickLoop_In. exact Hp.
  - eapply nth_error_In. exact H.
Qed.

(** [b] is listed among the neighbours of [a] in some entry of the graph. *)
Definition linked (a b : nat) : Prop :=
  exists ns, In (a, ns) g /\ In b ns.

Lemma map_get_In_nat : forall (V : Type) (m : list (nat * V)) k v,
  map_get Nat.eqb m k = Some v -> In (k, v) m.
Proof.
  induction m as [|[k0 v0] m IH]; intros k v H; cbn [map_get] in H;
    [discriminate|].
  destruct (Nat.eqb_spec k0 k) as [->|Hne].
  - inversion H; subst. now left.
  - right. now apply IH.
Qed.

Lemma graph_get_linked : forall a b, In b (graph_get g a) -> linked a b.
Proof.
  intros a b H. unfold graph_get in H.
  destruct (map_get Nat.eqb g a) as [ns|] eqn:Hg; [|inversion H].
  exists ns. split; [now apply map_get_In_nat|exact H].
Qed.

(** What a new send or a cover message leaves behind: nothing, or one
    record that is not a reply. *)
Inductive SendOutcome (t src : nat) (s s' : State) : Prop :=
| SendNothing :
    sentLog s' = sentLog s -> notes s' = notes s ->
    activeThreads s' = activeThreads s -> replyQueues s' = replyQueues s ->
    SendOutcome t src s s'
| SendLogged : forall m,
    push_at t m (sentLog s) = Some (sentLog s') ->
    sender m = src -> isReply m = false -> m_t m = t ->
    linked src (recipient m) ->
    notes s' = notes s -> activeThreads s' = activeThreads s ->
    (exists tr r r',
        selectPath g src (recipient m) (Hmax opt) tr r
        = Ok (Some (path m), r')) ->
    (replyQueues s' = replyQueues s
     \/ exists e, to e = src
                  /\ push_at (recipient m) e (replyQueues s)
                     = Some (replyQueues s')) ->
    SendOutcome t src s s'.

Lemma processNewSend_outcome : forall t s uId s',
  processNewSend Math_random g tm opt t s uId = Ok s' ->
  SendOutcome t uId s s'.
Proof.
  intros t s uId s' H. unfold processNewSend in H.
  destruct (userCount s <=? uId).
  { inversion H; subst. now apply SendNothing. }
  destruct (length (graph_get g uId) =? 0).
  { inversion H; subst. now apply SendNothing. }
  destruct (pickWeighted (graph_get g uId) _ (Math_random (draws s)))
    as [recipientId|] eqn:Hpick.
  2:{ inversion H; subst. now apply SendNothing. }
  apply pickWeighted_In, graph_get_linked in Hpick.
  match type of H with
  | (if ?c then _ else _) = _ => destruct c; [discriminate|]
  end.
  cbn [tracker rng set_draws] in H.
  destruct (selectPath g uId recipientId (Hmax opt) (tracker s) (rng s))
    as [[[p|] rng2]| |] eqn:Hsel; cbn [bind fst snd] in H; try discriminate.
  destruct (logMessage (T opt) t _ uId recipientId _ p false false)
    as [s3| |] eqn:Hlog; cbn [bind] in H; try discriminate.
  apply logMessage_ok in Hlog.
  destruct Hlog as [[hops Hpush] [Hn3 [Ht3 [Hq3 [Hd3 [Hc3 Hr3]]]]]].
  cbn in Hpush, Hn3, Ht3, Hq3, Hd3, Hc3.
  apply queueReply_ok in H.
  destruct H as [Hl5 [Hn5 [Ht5 [Hd5 [Hc5 Hq5]]]]].
  destruct (recordReal_core (noteSend s3 t uId) uId recipientId t)
    as [[R1 [R2 [R3 [R4 R5]]]] R6].
  destruct (call_adv_core s3 (NoteSend t uId)
              (fun a => AdversaryLP.noteSend a t uId))
    as [N1 [N2 [N3 [N4 N5]]]].
  fold (noteSend s3 t uId) in N1, N2, N3, N4, N5.
  eapply SendLogged
    with (m := mkMessage t uId recipientId _ p hops false false);
    try reflexivity.
  - rewrite Hl5, R1, N1. exact Hpush.
  - exact Hpick.
  - now rewrite Hn5, R2, N2, Hn3.
  - now rewrite Ht5, R3, N3, Ht3.
  - cbn [path recipient]. eauto.
  - cbn [recipient]. rewrite R4, N4, Hq3 in Hq5. exact Hq5.
Qed.

Lemma injectCover_outcome : forall t s cm s',
  linked (fst cm) (snd cm) ->
  injectCover Math_random g opt t s cm = Ok s' ->
  SendOutcome t (fst cm) s s'.
Proof.
  intros t s [senderId recipientId] s' Hlink H. unfold injectCover in H.
  cbn [fst snd] in *.
  destruct (selectPath g senderId recipientId (Hmax opt) (tracker s) (rng s))
    as [[[p|] rng2]| |] eqn:Hsel; cbn [bind fst snd] in H; try discriminate.
  destruct (logMessage (T opt) t _ senderId recipientId _ p true false)
    as [s2| |] eqn:Hlog; cbn [bind] in H; try discriminate.
  apply logMessage_ok in Hlog.
  destruct Hlog as [[hops Hpush] [Hn2 [Ht2 [Hq2 [Hd2 [Hc2 Hr2]]]]]].
  cbn in Hpush, Hn2, Ht2, Hq2, Hd2, Hc2.
  inversion H; subst; clear H.
  destruct (call_adv_core s2 (NoteSend t senderId)
              (fun a => AdversaryLP.noteSend a t senderId))
    as [N1 [N2 [N3 [N4 N5]]]].
  fold (noteSend s2 t senderId) in N1, N2, N3, N4, N5.
  eapply SendLogged
    with (m := mkMessage t senderId recipientId _ p hops true false);
    try reflexivity.
  - rewrite N1. exact Hpush.
  - exact Hlink.
  - now rewrite N2.
  - now rewrite N3.
  - cbn [path recipient]. eauto.
  - left. now rewrite N4.
Qed.

(** Every cover message runs along a listed link. *)
Lemma addCover_linked : forall count nodeId neighborId ep acc,
  linked nodeId neighborId ->
  (forall cm, In cm (fst (fst (fst acc))) -> linked (fst cm) (snd cm)) ->
  forall cm,
    In cm (fst (fst (fst (addCover count nodeId neighborId ep acc)))) ->
    linked (fst cm) (snd cm).
Proof.
  induction count as [|count IH]; intros nodeId neighborId ep acc Hl Hacc;
    cbn [addCover]; [exact Hacc|].
  destruct acc as [[[msgs c] r] d].
  destruct (Rng.next r) as [u r1].
  destruct (Qltb u (probabilityThreshold c)).
  - apply IH; [exact Hl|]. cbn [fst]. intros cm Hin.
    apply in_app_or in Hin. destruct Hin as [Hin|[<-|[]]].
    + now apply Hacc.
    + exact Hl.
  - apply IH; [exact Hl|]. exact Hacc.
Qed.

Lemma generateCoverTraffic_linked : forall c ep r d msgs c' r' d',
  generateCoverTraffic Math_random gaussian Math_exp Math_sqrt fuel g c ep r d
  = Ok (msgs, c', r', d') ->
  forall cm, In cm msgs -> linked (fst cm) (snd cm).
Proof.
  intros c ep r d msgs c' r' d' H. unfold generateCoverTraffic in H.
  match type of H with
  | foldM ?f g ?a0 = _ =>
      pose proof (@foldM_invariant _ _
                    (fun acc : CoverAcc =>
                       forall cm, In cm (fst (fst (fst acc))) ->
                                  linked (fst cm) (snd cm))
                    f g a0 (msgs, c', r', d')) as Hinv
  end.
  cbn [fst] in Hinv. apply Hinv; [|intros cm []|exact H].
  intros acc1 e acc2 He Hacc1 Hstep.
  eapply (@foldM_invariant _ _
            (fun acc : CoverAcc =>
               forall cm, In cm (fst (fst (fst acc))) ->
                          linked (fst cm) (snd cm)));
    [|exact Hacc1|exact Hstep].
  intros a1 nb a2 Hnb Ha1 Hlink. unfold coverLink in Hlink.
  destruct (fst e <? nb); [|inversion Hlink; subst; exact Ha1].
  destruct a1 as [[[msgs1 c1] r1] d1].
  destruct (_sampleTarget gaussian c1 r1) as [target r2].
  destruct (_calculateCoverAmount Math_random gaussian Math_exp Math_sqrt fuel
                                  _ target d1) as [amt| |];
    cbn [bind] in Hlink; try discriminate.
  inversion Hlink; subst.
  apply addCover_linked; [|exact Ha1].
  exists (snd e). split; [|exact Hnb]. now destruct e.
Qed.

Lemma contacts_core : forall t es s,
  same_core s (fold_left (contactOf t) es s).
Proof.
  induction es as [|e es IH]; intros s; cbn [fold_left];
    [apply same_core_refl|].
  eapply same_core_trans; [|apply IH]. apply call_adv_core.
Qed.

Lemma materialize_core : forall t s s',
  materialize Math_sqrt g opt t s = Ok s' -> same_core s s'.
Proof.
  intros t s s' H. unfold materialize in H.
  destruct (noiseEdges g (userCount s) (noiseEdgesPerEpoch opt) _ (rng s))
    as [[pl r]| |]; cbn [bind] in H; try discriminate.
  inversion H; subst; clear H.
  eapply same_core_trans; [|apply call_adv_core].
  eapply same_core_trans; [|apply contacts_core].
  repeat split.
Qed.

(** ** A scheme for properties kept by a whole run *)

Section Invariant.

(** [P t s]: the property, at epoch [t]; [E uid e]: what it grants about an
    entry [e] waiting in the queue of user [uid]. *)
Variable P : nat -> State -> Prop.
Variable E : nat -> ReplyEntry -> Prop.

Hypothesis P_core : forall t s s',
  sentLog s' = sentLog s -> notes s' = notes s ->
  activeThreads s' = activeThreads s -> replyQueues s' = replyQueues s ->
  P t s -> P t s'.
Hypothesis P_later : forall t t' s, t <= t' -> P t s -> P t' s.
Hypothesis P_queue : forall t s uid e,
  P t s -> In e (queue_of s uid) -> E uid e.
Hypothesis P_purge : forall t s uid q,
  (forall e, In e q -> In e (queue_of s uid)) ->
  P t s -> P t (set_queues s (set_nth uid q (replyQueues s))).
Hypothesis P_reply : forall t uid reply s s',
  P t s -> E uid reply -> ReplyOutcome t uid reply s s' -> P t s'.
Hypothesis P_send : forall t src s s',
  P t s -> SendOutcome t src s s' -> P t s'.

Lemma processUser_keeps : forall se t s uid s',
  P t s -> processUser Math_random g tm opt se t s uid = Ok s' -> P t s'.
Proof.
  intros se t s uid s' Hs H. unfold processUser in H.
  destruct (foldM (processReply Math_random g tm opt t uid) _ s)
    as [s1| |] eqn:Hf; cbn [bind] in H; try discriminate.
  inversion H; subst; clear H.
  apply P_purge; [intros e He; apply filter_In in He; tauto|].
  eapply (@foldM_invariant _ _ (P t)); [|exact Hs|exact Hf].
  intros s2 reply s3 Hin Hs2 Hstep.
  apply processReply_outcome in Hstep. destruct Hstep as [Hout _].
  eapply P_reply; [exact Hs2| |exact Hout].
  apply filter_In in Hin. destruct Hin as [Hin _].
  eapply P_queue; [exact Hs|exact Hin].
Qed.

Lemma coverPhase_keeps : forall t s s',
  P t s ->
  coverPhase Math_random gaussian Math_exp Math_sqrt fuel g opt t s = Ok s' ->
  P t s'.
Proof.
  intros t s s' Hs H. unfold coverPhase in H.
  destruct (coverMgr s) as [c|]; [|inversion H; subst; exact Hs].
  destruct (generateCoverTraffic Math_random gaussian Math_exp Math_sqrt fuel
                                 g c t (rng s) (draws s))
    as [[[[msgs c'] r'] d']| |] eqn:Hgen; cbn [bind] in H; try discriminate.
  pose proof (generateCoverTraffic_linked _ _ _ _ Hgen) as Hlinked.
  eapply (@foldM_invariant _ _ (P t)); [| |exact H].
  - intros s1 cm s2 Hin Hs1 Hstep.
    eapply P_send; [exact Hs1|].
    eapply injectCover_outcome; [|exact Hstep]. now apply Hlinked.
  - eapply P_core; [| | | |exact Hs]; reflexivity.
Qed.

Lemma subEpochStep_keeps : forall evs s se s',
  P (se / subEpochsPerHour) s ->
  subEpochStep Math_random gaussian Math_exp Math_sqrt fuel g tm opt evs s se
  = Ok s' ->
  P (se / subEpochsPerHour) s'.
Proof.
  intros evs s se s' Hs H. unfold subEpochStep in H.
  set (t := se / subEpochsPerHour) in *.
  destruct (foldM (processUser Math_random g tm opt se t) _ s)
    as [s1| |] eqn:H1; cbn [bind] in H; try discriminate.
  assert (Hs1 : P t s1).
  { eapply (@foldM_invariant _ _ (P t)); [|exact Hs|exact H1].
    intros s2 uid s3 _ Hs2 Hstep. eapply processUser_keeps; eassumption. }
  destruct (foldM (processNewSend Math_random g tm opt t) _ s1)
    as [s2| |] eqn:H2; cbn [bind] in H; try discriminate.
  assert (Hs2 : P t s2).
  { eapply (@foldM_invariant _ _ (P t)); [|exact Hs1|exact H2].
    intros s3 uId s4 _ Hs3 Hstep. eapply P_send; [exact Hs3|].
    eapply processNewSend_outcome. exact Hstep. }
  assert (Hs3 : forall s3,
             (if se mod subEpochsPerHour =? 0
              then coverPhase Math_random gaussian Math_exp Math_sqrt fuel g
                              opt t s2
              else Ok s2) = Ok s3 -> P t s3).
  { intros s3 H3. destruct (se mod subEpochsPerHour =? 0).
    - eapply coverPhase_keeps; eassumption.
    - inversion H3; subst. exact Hs2. }
  destruct (if se mod subEpochsPerHour =? 0 then _ else Ok s2)
    as [s3| |] eqn:H3; cbn [bind] in H; try discriminate.
  specialize (Hs3 s3 eq_refl).
  match type of H with
  | (if ?c then _ else _) = _ => destruct c
  end.
  - apply materialize_core in H. destruct H as [A1 [A2 [A3 [A4 A5]]]].
    eapply P_core; eassumption.
  - inversion H; subst. exact Hs3.
Qed.

Lemma loop_keeps : forall evs n a s s',
  P (a / subEpochsPerHour) s ->
  foldM (subEpochStep Math_random gaussian Math_exp Math_sqrt fuel g tm opt evs)
        (seq_from a n) s = Ok s' ->
  exists t, P t s'.
Proof.
  intros evs. induction n as [|n IH]; intros a s s' Hs H;
    cbn [seq_from foldM] in H.
  - inversion H; subst. eauto.
  - destruct (subEpochStep _ _ _ _ _ _ _ _ evs s a) as [s1| |] eqn:H1;
      cbn [bind] in H; try discriminate.
    apply (IH (S a) s1 s'); [|exact H].
    eapply P_later; [|eapply subEpochStep_keeps; eassumption].
    apply Nat.Div0.div_le_mono. lia.
Qed.

(** A property with these closure conditions that holds of every initial
    state holds at the end of the run. *)
Lemma simulate_keeps : forall users events a s',
  (forall rng0, P 0 (initialState opt users a rng0)) ->
  simulate Math_random gaussian Math_exp Math_sqrt fuel g tm opt users events a
  = Ok s' ->
  exists t, P t s'.
Proof.
  intros users events a s' H0 H. unfold simulate in H.
  destruct (distributeEventsToSubEpochs events (T opt) subEpochsPerHour
                                        (seed opt))
    as [[bk r]| |]; cbn [bind] in H; try discriminate.
  destruct (addMessageBursts fuel _ _) as [[bk' r']| |];
    cbn [bind] in H; try discriminate.
  eapply loop_keeps; [|exact H]. apply H0.
Qed.

End Invariant.

(** ** Replies in the log and accepted entries *)

Lemma filter_length_perm : forall (A : Type) (f : A -> bool) (l l' : list A),
  Permutation l l' -> length (filter f l) = length (filter f l').
Proof.
  intros A f l l' H. induction H; cbn [filter].
  - reflexivity.
  - destruct (f x); cbn [length]; now rewrite IHPermutation.
  - destruct (f x), (f y); reflexivity.
  - congruence.
Qed.

Lemma concat_repeat_nil : forall (A : Type) (n : nat),
  concat (repeat (@nil A) n) = [].
Proof. intros A. induction n as [|n IH]; [reflexivity|exact IH]. Qed.

Lemma lookupThread_notes : forall s key t,
  notes (lookupThread s key t) = notes s
  \/ notes (lookupThread s key t) = notes s ++ [ThreadCreated key t].
Proof.
  intros s key t. unfold lookupThread.
  destruct (map_get String.eqb (activeThreads s) key); cbn; auto.
Qed.

Lemma lookupThread_count : forall (f : Note -> bool) s key t,
  f (ThreadCreated key t) = false ->
  length (filter f (notes (lookupThread s key t)))
  = length (filter f (notes s)).
Proof.
  intros f s key t Hf.
  destruct (lookupThread_notes s key t) as [->| ->]; [reflexivity|].
  rewrite filter_app. cbn [filter]. rewrite Hf, app_nil_r. reflexivity.
Qed.

Lemma push_count : forall t m (s s' : State),
  push_at t m (sentLog s) = Some (sentLog s') ->
  countReplies s' = countReplies s + (if isReply m then 1 else 0).
Proof.
  intros t m s s' H. apply push_at_perm in H. destruct H as [H _].
  unfold countReplies, allMessages.
  rewrite (filter_length_perm isReply H). cbn [filter].
  destruct (isReply m); cbn [length]; lia.
Qed.

Definition balanced (t : nat) (s : State) : Prop :=
  countReplies s + countSkipped s = countAccepted s.

Lemma balanced_run : forall users events a s,
  simulate Math_random gaussian Math_exp Math_sqrt fuel g tm opt users events a
  = Ok s ->
  countReplies s + countSkipped s = countAccepted s.
Proof.
  intros users events a s H.
  cut (exists t, balanced t s); [intros [t Ht]; exact Ht|].
  eapply (@simulate_keeps balanced (fun _ _ => True)); [| | | | | | |exact H].
  - intros t s1 s2 Hl Hn _ _. unfold balanced, countReplies, allMessages,
      countSkipped, countAccepted. now rewrite Hl, Hn.
  - intros t t' s1 _ Hb. exact Hb.
  - intros; exact I.
  - intros t s1 uid q _ Hb. exact Hb.
  - intros t uid reply s1 s2 Hb _ Hout. unfold balanced in *.
    unfold countSkipped, countAccepted in *.
    destruct Hout as [Hsc Hn Ht Hl Hc Hq|Hsc Hn Ht Hl Hc Hq Hsel
                      |m Hsc Hn Ht Hl Hs Hr Hi Hd Hmt Hsel Hq].
    + rewrite Hn, !filter_app, !length_app, !lookupThread_count by reflexivity.
      unfold countReplies, allMessages in *. rewrite Hl. cbn. lia.
    + rewrite Hn, !filter_app, !length_app, !lookupThread_count by reflexivity.
      unfold countReplies, allMessages in *. rewrite Hl. cbn. lia.
    + rewrite Hn, !filter_app, !length_app, !lookupThread_count by reflexivity.
      rewrite (push_count _ _ _ _ Hl), Hi. cbn. lia.
  - intros t src s1 s2 Hb Hout. unfold balanced in *.
    unfold countSkipped, countAccepted in *.
    destruct Hout as [Hl Hn Ht Hq|m Hl Hs Hi Hmt Hlk Hn Ht Hsel Hq].
    + unfold countReplies, allMessages in *. now rewrite Hl, Hn.
    + rewrite (push_count _ _ _ _ Hl), Hi, Hn. lia.
  - intros rng0. unfold balanced, countReplies, allMessages, countSkipped,
      countAccepted. cbn. now rewrite concat_repeat_nil.
Qed.

(** ** Threads created late *)

Lemma shouldContinue_stale : forall th t r,
  (10 < Z.of_nat t - Z.of_nat (lastActive th))%Z ->
  fst (shouldContinue th t r) = false.
Proof.
  intros th t r H. unfold shouldContinue.
  destruct (5 <=? messageCount th); [reflexivity|].
  destruct (Z.ltb_spec 10 (Z.of_nat t - Z.of_nat (lastActive th)));
    [reflexivity|lia].
Qed.

Definition threadAt (s : State) (key : string) : option Thread :=
  map_get String.eqb (activeThreads s) key.

(** At epoch [t]: a reply in the log belongs to a thread that has counted
    a message; a thread created after epoch 10 is still as constructed;
    no thread was created after [t]. *)
Definition stale_threads_silent (t : nat) (s : State) : Prop :=
  (forall m, In m (allMessages s) -> isReply m = true ->
             exists th, threadAt s (threadKeyOf m) = Some th
                        /\ 1 <= messageCount th)
  /\ (forall k t0, In (ThreadCreated k t0) (notes s) -> 10 < t0 ->
                   threadAt s k = Some (mkThread 0 0))
  /\ (forall k t0, In (ThreadCreated k t0) (notes s) -> t0 <= t).

Lemma lookupThread_threads : forall s key t,
  threadAt (lookupThread s key t) key = Some (threadOf s key)
  /\ (forall k th, threadAt s k = Some th ->
                   threadAt (lookupThread s key t) k = Some th)
  /\ (forall k, k <> key ->
                threadAt (lookupThread s key t) k = threadAt s k)
  /\ (forall n, In n (notes (lookupThread s key t)) ->
                In n (notes s)
                \/ (n = ThreadCreated key t /\ threadAt s key = None)).
Proof.
  intros s key t. unfold lookupThread, threadAt, threadOf.
  destruct (map_get String.eqb (activeThreads s) key) as [th|] eqn:Hg.
  - repeat split; auto.
  - cbn [activeThreads notes add_note set_threads or_else].
    split; [apply map_get_set_same_str|]. split; [|split].
    + intros k th Hk. destruct (string_dec k key) as [->|Hne];
        [congruence|].
      now rewrite map_get_set_other_str.
    + intros k Hne. now rewrite map_get_set_other_str.
    + intros n Hn. apply in_app_or in Hn.
      destruct Hn as [Hn|[<-|[]]]; auto.
Qed.

Lemma lookup_keeps_silent : forall t s key,
  stale_threads_silent t s ->
  stale_threads_silent t (lookupThread s key t).
Proof.
  intros t s key [HA [HB HC]].
  destruct (lookupThread_threads s key t) as [L1 [L2 [L3 L4]]].
  destruct (lookupThread_core s key t) as [Hl _].
  split; [|split].
  - intros m Hm Hr. unfold allMessages in Hm. rewrite Hl in Hm.
    destruct (HA m Hm Hr) as [th [Hth Hc]]. exists th. split; auto.
  - intros k t0 Hn Ht0. destruct (L4 _ Hn) as [Hold|[Heq Hnone]].
    + apply L2. now apply (HB k t0).
    + inversion Heq; subst. rewrite L1. unfold threadOf, threadAt in *.
      now rewrite Hnone.
  - intros k t0 Hn. destruct (L4 _ Hn) as [Hold|[Heq _]].
    + now apply (HC k t0).
    + inversion Heq; subst. lia.
Qed.

Lemma silent_run : forall users events a s,
  simulate Math_random gaussian Math_exp Math_sqrt fuel g tm opt users events a
  = Ok s ->
  exists t, stale_threads_silent t s.
Proof.
  intros users events a s H.
  eapply (@simulate_keeps stale_threads_silent (fun _ _ => True));
    [| | | | | | |exact H].
  - intros t s1 s2 Hl Hn Ht _ [HA [HB HC]].
    unfold stale_threads_silent, allMessages, threadAt.
    rewrite Hl, Hn, Ht. auto.
  - intros t t' s1 Hle [HA [HB HC]]. split; [exact HA|]. split; [exact HB|].
    intros k t0 Hn. specialize (HC k t0 Hn). lia.
  - intros; exact I.
  - intros t s1 uid q _ Hs. exact Hs.
  - intros t uid reply s1 s2 Hs _ Hout.
    set (key := sortedPairKey uid (to reply)) in *.
    pose proof (lookup_keeps_silent key Hs) as [HA [HB HC]].
    destruct (lookupThread_threads s1 key t) as [L1 _].
    destruct (lookupThread_core s1 key t) as [Hl0 _].
    unfold allMessages in HA. rewrite Hl0 in HA.
    destruct Hout as [Hsc Hn Ht Hl Hc Hq|Hsc Hn Ht Hl Hc Hq Hsel
                      |m Hsc Hn Ht Hl Hsd Hr Hi Hd Hmt Hsel Hq];
      fold key in Hn, Ht, Hsc.
    + (* declined *)
      unfold stale_threads_silent, allMessages, threadAt in *.
      rewrite Hl, Hn, Ht. split; [exact HA|]. split.
      * intros k t0 Hin. apply in_app_or in Hin.
        destruct Hin as [Hin|[Hin|[]]]; [now apply (HB k t0)|discriminate].
      * intros k t0 Hin. apply in_app_or in Hin.
        destruct Hin as [Hin|[Hin|[]]]; [now apply (HC k t0)|discriminate].
    + (* skipped *)
      unfold stale_threads_silent, allMessages, threadAt in *.
      rewrite Hl, Hn, Ht. split; [exact HA|]. split.
      * intros k t0 Hin. apply in_app_or in Hin.
        destruct Hin as [Hin|[Hin|[Hin|[]]]];
          [now apply (HB k t0)|discriminate|discriminate].
      * intros k t0 Hin. apply in_app_or in Hin.
        destruct Hin as [Hin|[Hin|[Hin|[]]]];
          [now apply (HC k t0)|discriminate|discriminate].
    + (* emitted *)
      assert (Hfresh : forall t0, In (ThreadCreated key t0)
                                     (notes (lookupThread s1 key t)) ->
                                  10 < t0 -> False).
      { intros t0 Hin Ht0. pose proof (HB key t0 Hin Ht0) as Hth.
        pose proof (HC key t0 Hin) as Hle.
        rewrite L1 in Hth. inversion Hth as [Heq].
        rewrite (@shouldContinue_stale (threadOf s1 key) t (rng s1)) in Hsc;
          [discriminate|].
        rewrite Heq. cbn [lastActive]. lia. }
      apply push_at_perm in Hl. destruct Hl as [Hperm _].
      unfold stale_threads_silent, allMessages, threadAt in *.
      rewrite Hn, Ht. split; [|split].
      * intros m' Hm' Hr'.
        destruct (string_dec (threadKeyOf m') key) as [Hk|Hk].
        -- rewrite Hk, map_get_set_same_str. eexists. split; [reflexivity|].
           cbn [messageCount]. lia.
        -- rewrite map_get_set_other_str by assumption.
           eapply Permutation_in in Hm'; [|exact Hperm].
           destruct Hm' as [<-|Hm']; [|now apply HA].
           exfalso. apply Hk. unfold threadKeyOf, key. now rewrite Hsd, Hr.
      * intros k t0 Hin Ht0. apply in_app_or in Hin.
        destruct Hin as [Hin|[Hin|[]]]; [|discriminate].
        destruct (string_dec k key) as [->|Hk].
        -- exfalso. eapply Hfresh; eassumption.
        -- rewrite map_get_set_other_str by assumption. now apply (HB k t0).
      * intros k t0 Hin. apply in_app_or in Hin.
        destruct Hin as [Hin|[Hin|[]]]; [now apply (HC k t0)|discriminate].
  - intros t src s1 s2 [HA [HB HC]] Hout.
    destruct Hout as [Hl Hn Ht Hq|m Hl Hsd Hi Hmt Hlk Hn Ht Hsel Hq].
    + unfold stale_threads_silent, allMessages, threadAt in *.
      rewrite Hl, Hn, Ht. auto.
    + apply push_at_perm in Hl. destruct Hl as [Hperm _].
      unfold stale_threads_silent, allMessages, threadAt in *.
      rewrite Hn, Ht. split; [|split]; auto.
      intros m' Hm' Hr'. eapply Permutation_in in Hm'; [|exact Hperm].
      destruct Hm' as [<-|Hm']; [congruence|now apply HA].
  - intros rng0. unfold stale_threads_silent, allMessages, threadAt. cbn.
    rewrite concat_repeat_nil. repeat split; intros; contradiction.
Qed.

(** ** Paths of the logged messages *)

Lemma map_get_NoDup_nat : forall (V : Type) (m : list (nat * V)) k v,
  NoDup (map fst m) -> In (k, v) m -> map_get Nat.eqb m k = Some v.
Proof.
  induction m as [|[k0 v0] m IH]; intros k v Hnd Hin; [contradiction|].
  cbn [map fst] in Hnd. inversion Hnd as [|x l Hnot Hnd']; subst.
  cbn [map_get]. destruct Hin as [Heq|Hin].
  - inversion Heq; subst. now rewrite Nat.eqb_refl.
  - destruct (Nat.eqb_spec k0 k) as [->|Hne]; [|now apply IH].
    exfalso. apply Hnot. change k with (fst (k, v)). now apply in_map.
Qed.


Lemma push_at_nth : forall (A : Type) (l l' : list (list A)) i x u e,
  push_at i x l = Some l' ->
  In e (nth u l' []) -> In e (nth u l []) \/ (u = i /\ e = x).
Proof.
  induction l as [|b l IH]; intros l' i x u e H Hin;
    [destruct i; discriminate|].
  destruct i as [|i]; cbn [push_at] in H.
  - inversion H; subst. destruct u as [|u]; cbn [nth] in *; auto.
    apply in_app_or in Hin. destruct Hin as [Hin|[<-|[]]]; auto.
  - destruct (push_at i x l) as [l1|] eqn:E; [|discriminate].
    inversion H; subst. destruct u as [|u]; cbn [nth] in *; auto.
    destruct (IH l1 i x u e E Hin) as [Hold|[-> ->]]; auto.
Qed.

Section ValidPaths.
Hypothesis keys_unique : NoDup (map fst g).
Hypothesis graph_symmetric :
  forall a b, In b (graph_get g a) -> In a (graph_get g b).




End ValidPaths.

(** ** A send for which no path is found *)

(** In the reply branch the entry is dropped: the run goes on, nothing is
    logged and the adversary is not told. *)
Lemma processReply_without_path : forall t uid s reply,
  to reply < userCount s ->
  shortestPath g uid (to reply) (Hmax opt) = Ok None ->
  exists s', processReply Math_random g tm opt t uid s reply = Ok s'
             /\ sentLog s' = sentLog s /\ calls s' = calls s.
Proof.
  intros t uid s reply Hu Hsp. unfold processReply.
  set (key := sortedPairKey uid (to reply)).
  set (s1 := set_draws s (S (draws s))).
  destruct (lookupThread_core s1 key t) as [Hl2 [Hc2 [Hq2 _]]].
  set (s2 := lookupThread s1 key t) in *.
  destruct (shouldContinue (threadOf s1 key) t (rng s2)) as [cont rng1].
  destruct cont.
  - assert (Hc : (userCount (add_note (set_rng s2 rng1) (Accepted key t))
                  <=? to reply) = false).
    { apply Nat.leb_gt. unfold userCount in *.
      cbn [replyQueues add_note set_rng]. rewrite Hq2. exact Hu. }
    rewrite Hc, (@shortestPath_none_select g _ _ _ _ _ Hsp). cbn [bind fst snd].
    eexists. split; [reflexivity|].
    cbn [sentLog calls add_note set_rng]. now rewrite Hl2, Hc2.
  - eexists. split; [reflexivity|].
    cbn [sentLog calls add_note set_rng]. now rewrite Hl2, Hc2.
Qed.

(** In the branch of new sends the missing path reaches [recordPath]. *)
Lemma processNewSend_without_path : forall t s uId rcp,
  uId < userCount s ->
  pickWeighted (graph_get g uId)
    (map (fun nId =>
            weightOf (tierWeights opt)
                     (or_else (SocialGraph.tier_get tm uId nId) acquaintance))
         (graph_get g uId))
    (Math_random (draws s)) = Some rcp ->
  rcp < userCount s ->
  shortestPath g uId rcp (Hmax opt) = Ok None ->
  processNewSend Math_random g tm opt t s uId
  = Throw "TypeError: path is not iterable".
Proof.
  intros t s uId rcp Hu Hpick Hr Hsp. unfold processNewSend.
  apply Nat.leb_gt in Hu. rewrite Hu.
  pose proof (@pickWeighted_In _ _ _ _ Hpick) as Hin.
  destruct (graph_get g uId) as [|n ns] eqn:Hg; [contradiction|].
  cbn [length Nat.eqb]. rewrite Hpick. cbv zeta.
  assert (Hc : (userCount (set_draws (set_draws s (S (draws s)))
                                     (S (draws (set_draws s (S (draws s))))))
                <=? rcp) = false).
  { apply Nat.leb_gt. exact Hr. }
  rewrite Hc, (@shortestPath_none_select g _ _ _ _ _ Hsp). reflexivity.
Qed.

(** So it does for a cover message. *)
Lemma injectCover_without_path : forall t s senderId recipientId,
  shortestPath g senderId recipientId (Hmax opt) = Ok None ->
  injectCover Math_random g opt t s (senderId, recipientId)
  = Throw "TypeError: path is not iterable".
Proof.
  intros t s senderId recipientId Hsp. unfold injectCover.
  rewrite (@shortestPath_none_select g _ _ _ _ _ Hsp). reflexivity.
Qed.

(** With [Hmax >= 0] the recipient of a new send, a neighbour of the
    sender, always has a path. *)
Lemma new_send_has_path : forall uId weights u rcp tr r r',
  (0 <= Hmax opt)%Z ->
  pickWeighted (graph_get g uId) weights u = Some rcp ->
  selectPath g uId rcp (Hmax opt) tr r <> Ok (None, r').
Proof.
  intros uId weights u rcp tr r r' Hh Hpick.
  apply selectPath_neighbour; [exact Hh|].
  eapply pickWeighted_In; eassumption.
Qed.

End RunFacts.

(** * Host draws: a run depends only on the values it reads *)

Section DrawFacts.
Import Network.
Variables mr1 mr2 : nat -> Q.
Variable gaussian : Q -> Q -> Q.
Variables Math_exp Math_sqrt : Q -> Q.
Variable fuel : nat.
Variable g : Graph.
Variable tm : SocialGraph.TierMap.
Variable opt : Options.

(** The two hosts return the same values at the calls [lo], ..., [hi - 1]. *)
Definition agree (lo hi : nat) : Prop :=
  forall i, lo <= i < hi -> mr1 i = mr2 i.

(** [f1] and [f2] are one step under either host, [dr] counts the calls
    made so far: a result of [f1] is the result of [f2] as soon as the hosts
    agree on the calls that the step made. *)
Definition local (S : Type) (dr : S -> nat) (f1 f2 : S -> Result S) : Prop :=
  forall s s', f1 s = Ok s' ->
    dr s <= dr s' /\ (agree (dr s) (dr s') -> f2 s = Ok s').



Lemma local_same : forall (S : Type) (dr : S -> nat) (f : S -> Result S),
  (forall s s', f s = Ok s' -> dr s <= dr s') -> local dr f f.
Proof.
  intros S dr f Hf s s' H. split; [now apply Hf|]. intros _. exact H.
Qed.

(** ** The cover manager *)







(** ** The steps of a run *)








End DrawFacts.

(** * Reply threads over a run *)

Section ThreadResults.
Import Network.

(** C5: a thread is constructed with [lastActive = 0] (and no message
    counted); [shouldContinue] answers [false] whenever
    [t - lastActive > 10]; hence in every run that returns, a thread that
    was created at an epoch after 10 has no reply record in the log. *)
Theorem C5_late_threads_never_reply :
  forall Math_random gaussian Math_exp Math_sqrt fuel g tm opt users events
         a s key t0,
  simulate Math_random gaussian Math_exp Math_sqrt fuel g tm opt users events a
  = Ok s ->
  In (ThreadCreated key t0) (notes s) -> 10 < t0 ->
  (forall s0 k t, threadAt s0 k = None ->
                  threadAt (lookupThread s0 k t) k = Some (mkThread 0 0)
                  /\ lastActive (threadOf s0 k) = 0)
  /\ (forall th t r, (Z.of_nat t - Z.of_nat (lastActive th) > 10)%Z ->
                     fst (shouldContinue th t r) = false)
  /\ (forall m, In m (allMessages s) -> isReply m = true ->
                threadKeyOf m <> key).
Proof.
  intros Math_random gaussian Math_exp Math_sqrt fuel g tm opt users events
         a s key t0 Hrun Hnote Hlate.
  split; [|split].
  - intros s0 k t Hnone. unfold threadAt, lookupThread, threadOf in *.
    rewrite Hnone. cbn [activeThreads add_note set_threads or_else lastActive].
    split; [apply map_get_set_same_str|reflexivity].
  - intros th t r Ht. apply shouldContinue_stale. lia.
  - intros m Hm Hr Hkey.
    destruct (silent_run _ _ _ _ _ _ _ _ _ _ _ Hrun) as [t [HA [HB _]]].
    destruct (HA m Hm Hr) as [th [Hth Hc]].
    rewrite Hkey, (HB key t0 Hnote Hlate) in Hth.
    inversion Hth; subst. cbn in Hc. lia.
Qed.

(** C5 on the line: the thread of users 2 and 3 is created in the twelfth
    hour and the three replies of the log are those of users 0 and 1. *)
Lemma C5_late_threads_witness :
  exists s, Scenario.twoThreads = Ok s
            /\ In (ThreadCreated "2-3" 11) (notes s)
            /\ map threadKeyOf (filter isReply (allMessages s))
               = ["0-1"; "0-1"; "0-1"]
            /\ forall m, In m (allMessages s) -> isReply m = true ->
                         threadKeyOf m <> "2-3".
Proof.
  eexists. split; [vm_compute; reflexivity|].
  split; [vm_compute; tauto|]. split; [vm_compute; reflexivity|].
  refine (proj2 (proj2 (@C5_late_threads_never_reply
                          (fun _ => 0%Q) Scenario.noGaussian Scenario.noMath
                          Scenario.noMath 100 Scenario.line4 []
                          (Scenario.plain 12 42 1)
                          [[mkReply 6 1 instant]; []; [mkReply 66 3 instant]; []]
                          [] None _ "2-3" 11 _ _ _))).
  - vm_compute. reflexivity.
  - vm_compute. tauto.
  - lia.
Defined.

(** C9 (counterexample): user 0 carries a reply to user 3, who is three
    hops away while [Hmax = 1].  [shouldContinue] accepts the entry, no path
    is found, and the log holds no reply record. *)
Lemma C9_accepted_reply_without_record :
  exists s, Scenario.farReply = Ok s
            /\ notes s = [ThreadCreated "0-3" 0; Accepted "0-3" 0;
                          Skipped "0-3" 0]
            /\ countAccepted s = 1
            /\ countReplies s = 0.
Proof.
  eexists. split; [vm_compute; reflexivity|].
  split; [|split]; vm_compute; reflexivity.
Qed.

(** C9 (amended): in every run that returns, the number of records with
    [isReply = true] is the number of reply-queue entries that
    [shouldContinue] accepted, less those accepted entries for which
    [selectPath] found no path. *)
Theorem C9_replies_are_accepts_with_a_path :
  forall Math_random gaussian Math_exp Math_sqrt fuel g tm opt users events
         a s,
  simulate Math_random gaussian Math_exp Math_sqrt fuel g tm opt users events a
  = Ok s ->
  countReplies s = countAccepted s - countSkipped s
  /\ countSkipped s <= countAccepted s.
Proof.
  intros Math_random gaussian Math_exp Math_sqrt fuel g tm opt users events
         a s Hrun.
  pose proof (balanced_run _ _ _ _ _ _ _ _ _ _ _ Hrun) as H. lia.
Qed.

(** C9 (amended) on the line of twelve hours: three accepts, no skip and
    three replies. *)
Lemma C9_replies_witness :
  exists s, Scenario.twoThreads = Ok s
            /\ countAccepted s = 3 /\ countSkipped s = 0
            /\ countReplies s = countAccepted s - countSkipped s
            /\ countSkipped s <= countAccepted s.
Proof.
  eexists. split; [vm_compute; reflexivity|].
  split; [vm_compute; reflexivity|]. split; [vm_compute; reflexivity|].
  refine (@C9_replies_are_accepts_with_a_path
            (fun _ => 0%Q) Scenario.noGaussian Scenario.noMath
            Scenario.noMath 100 Scenario.line4 []
            (Scenario.plain 12 42 1)
            [[mkReply 6 1 instant]; []; [mkReply 66 3 instant]; []]
            [] None _ _).
  vm_compute. reflexivity.
Defined.

End ThreadResults.

(** * Paths of the logged messages *)

Section PathResults.
Import Network.





End PathResults.

(** * Two runs of one configuration *)

Section DeterminismResults.
Import Network.




End DeterminismResults.

(** * A send without a path *)

Section SkipResults.
Import Network.


End SkipResults.

(** * Further properties of a run *)

Section LogShape.
Import Network.

Lemma nth_repeat_nil : forall (A : Type) n i, nth i (repeat (@nil A) n) [] = [].
Proof.
  intros A. induction n as [|n IH]; intros [|i]; cbn; auto.
Qed.

(** X1: in every run that returns, the log has one bucket for each of the
    [T] epochs, and a record stands in the bucket of the epoch in which it
    was sent. *)
Theorem X1_log_is_indexed_by_epoch :
  forall Math_random gaussian Math_exp Math_sqrt fuel g tm opt users events
         a s,
  simulate Math_random gaussian Math_exp Math_sqrt fuel g tm opt users events a
  = Ok s ->
  length (sentLog s) = T opt
  /\ forall i m, In m (nth i (sentLog s) []) -> m_t m = i /\ i < T opt.
Proof.
  intros Math_random gaussian Math_exp Math_sqrt fuel g tm opt users events
         a s H.
  cut (exists t : nat,
          length (sentLog s) = T opt
          /\ forall i m, In m (nth i (sentLog s) []) -> m_t m = i).
  { intros [_ [Hlen Hm]]. split; [exact Hlen|]. intros i m Hin.
    split; [now apply Hm|].
    destruct (Nat.lt_ge_cases i (T opt)) as [Hlt|Hge]; [exact Hlt|].
    rewrite nth_overflow in Hin by lia. contradiction. }
  eapply (@simulate_keeps Math_random gaussian Math_exp Math_sqrt fuel g tm opt
            (fun _ s => length (sentLog s) = T opt
                        /\ forall i m, In m (nth i (sentLog s) []) -> m_t m = i)
            (fun _ _ => True));
    [| | | | | | |exact H].
  - intros t s1 s2 Hl _ _ _ Hs. now rewrite Hl.
  - intros t t' s1 _ Hs. exact Hs.
  - intros; exact I.
  - intros t s1 uid q _ Hs. exact Hs.
  - intros t uid reply s1 s2 [Hlen Hm] _ Hout.
    destruct Hout as [Hsc Hn Ht Hl Hc Hq|Hsc Hn Ht Hl Hc Hq Hsel
                      |m Hsc Hn Ht Hl Hsd Hr Hi Hd Hmt Hsel Hq];
      try (rewrite Hl; now split).
    split.
    + apply push_at_perm in Hl. destruct Hl as [_ Hl]. lia.
    + intros i m' Hin.
      destruct (@push_at_nth _ _ _ _ _ _ _ Hl Hin) as [Hold|[-> ->]];
        [now apply Hm|exact Hmt].
  - intros t src s1 s2 [Hlen Hm] Hout.
    destruct Hout as [Hl Hn Ht Hq|m Hl Hsd Hi Hmt Hlk Hn Ht Hsel Hq];
      [rewrite Hl; now split|].
    split.
    + apply push_at_perm in Hl. destruct Hl as [_ Hl]. lia.
    + intros i m' Hin.
      destruct (@push_at_nth _ _ _ _ _ _ _ Hl Hin) as [Hold|[-> ->]];
        [now apply Hm|exact Hmt].
  - intros rng0. cbn [sentLog initialState]. split; [apply repeat_length|].
    intros i m Hin. rewrite nth_repeat_nil in Hin. contradiction.
Qed.

(** X1 on the line of twelve hours: twelve buckets, and the three replies
    stand at the epochs 1, 2 and 7. *)
Lemma X1_log_is_indexed_witness :
  exists s, Scenario.twoThreads = Ok s
            /\ map (map m_t) (sentLog s)
               = [[]; [1]; [2]; []; []; []; []; [7]; []; []; []; []]
            /\ length (sentLog s) = 12
            /\ forall i m, In m (nth i (sentLog s) []) -> m_t m = i /\ i < 12.
Proof.
  eexists. split; [vm_compute; reflexivity|].
  split; [vm_compute; reflexivity|].
  refine (@X1_log_is_indexed_by_epoch
            (fun _ => 0%Q) Scenario.noGaussian Scenario.noMath
            Scenario.noMath 100 Scenario.line4 []
            (Scenario.plain 12 42 1)
            [[mkReply 6 1 instant]; []; [mkReply 66 3 instant]; []]
            [] None _ _).
  vm_compute. reflexivity.
Defined.

End LogShape.

Section Bookkeeping.
Import Network.
Variable Math_random : nat -> Q.
Variable gaussian : Q -> Q -> Q.
Variables Math_exp Math_sqrt : Q -> Q.
Variable fuel : nat.
Variable g : Graph.
Variable tm : SocialGraph.TierMap.
Variable opt : Options.

Definition isNoteSend (c : Call) : bool :=
  match c with NoteSend _ _ => true | _ => false end.

(** The number of [noteSend] calls among the calls on the adversary. *)
Definition sends (cs : list Call) : nat := length (filter isNoteSend cs).

Definition attached (s : State) : bool :=
  match adv s with Some _ => true | None => false end.

Definition covering (s : State) : bool :=
  match coverMgr s with Some _ => true | None => false end.

(** Nothing is logged and the adversary hears of no send. *)
Definition quiet (s s' : State) : Prop :=
  sentLog s' = sentLog s /\ sends (calls s') = sends (calls s)
  /\ (attached s = false -> calls s' = calls s)
  /\ attached s' = attached s /\ covering s' = covering s.

(** One record is logged, with [dummy = d], and the adversary, when there
    is one, hears of one send. *)
Definition logged (d : bool) (s s' : State) : Prop :=
  (exists t m, push_at t m (sentLog s) = Some (sentLog s') /\ dummy m = d)
  /\ sends (calls s') = sends (calls s) + (if attached s then 1 else 0)
  /\ (attached s = false -> calls s' = calls s)
  /\ attached s' = attached s /\ covering s' = covering s.

Lemma quiet_refl : forall s, quiet s s.
Proof. intros s. repeat split. Qed.

Lemma quiet_trans : forall s1 s2 s3, quiet s1 s2 -> quiet s2 s3 -> quiet s1 s3.
Proof.
  intros s1 s2 s3 [A1 [A2 [A3 [A4 A5]]]] [B1 [B2 [B3 [B4 B5]]]].
  repeat split; try congruence.
  intros H. rewrite B3 by congruence. auto.
Qed.

Lemma quiet_logged : forall d s1 s2 s3,
  quiet s1 s2 -> logged d s2 s3 -> logged d s1 s3.
Proof.
  intros d s1 s2 s3 [A1 [A2 [A3 [A4 A5]]]] [[t [m [B0 Bd]]] [B2 [B3 [B4 B5]]]].
  split; [exists t, m; rewrite <- A1; auto|].
  split; [rewrite B2, A2, A4; reflexivity|].
  split; [intros H; rewrite B3 by congruence; auto|].
  split; congruence.
Qed.

Lemma logged_quiet : forall d s1 s2 s3,
  logged d s1 s2 -> quiet s2 s3 -> logged d s1 s3.
Proof.
  intros d s1 s2 s3 [[t [m [B0 Bd]]] [B2 [B3 [B4 B5]]]] [A1 [A2 [A3 [A4 A5]]]].
  split; [exists t, m; rewrite A1; auto|].
  split; [rewrite A2, B2; reflexivity|].
  split; [intros H; rewrite A3 by congruence; auto|].
  split; congruence.
Qed.

Lemma sends_app : forall cs c,
  sends (cs ++ [c]) = sends cs + (if isNoteSend c then 1 else 0).
Proof.
  intros cs c. unfold sends. rewrite filter_app, length_app. cbn [filter].
  destruct (isNoteSend c); reflexivity.
Qed.

Lemma call_adv_quiet : forall s c f,
  isNoteSend c = false -> quiet s (call_adv s c f).
Proof.
  intros s c f Hc. unfold quiet, call_adv, attached, covering.
  destruct (adv s) eqn:E; cbn [sentLog calls adv coverMgr]; rewrite ?E;
    repeat split; try discriminate.
  rewrite sends_app, Hc. lia.
Qed.

Lemma noteSend_sends : forall s t u,
  sentLog (noteSend s t u) = sentLog s
  /\ sends (calls (noteSend s t u))
     = sends (calls s) + (if attached s then 1 else 0)
  /\ (attached s = false -> calls (noteSend s t u) = calls s)
  /\ attached (noteSend s t u) = attached s
  /\ covering (noteSend s t u) = covering s.
Proof.
  intros s t u. unfold noteSend, call_adv, attached, covering.
  destruct (adv s) eqn:E; cbn [sentLog calls adv coverMgr]; rewrite ?E;
    repeat split; try discriminate; try lia.
  rewrite sends_app. reflexivity.
Qed.

Lemma recordReal_quiet : forall s a b t, quiet s (recordReal s a b t).
Proof.
  intros s a b t. unfold recordReal, quiet, attached, covering.
  destruct (coverMgr s) eqn:E; cbn; rewrite ?E; repeat split.
Qed.

Lemma logMessage_logged : forall t s a b idd p d r s',
  logMessage (T opt) t s a b idd p d r = Ok s' ->
  (exists m, push_at t m (sentLog s) = Some (sentLog s') /\ dummy m = d)
  /\ calls s' = calls s /\ attached s' = attached s
  /\ covering s' = covering s.
Proof.
  intros t s a b idd p d r s' H. unfold logMessage in H.
  destruct (recordHops (T opt) t p (futureLinkCounts s) []) as [flc hops].
  destruct (push_at t _ (sentLog s)) as [log|] eqn:Hp; [|discriminate].
  inversion H; subst. cbn. split; [|repeat split].
  eexists. split; [exact Hp|reflexivity].
Qed.

Lemma queueReply_quiet : forall t s a b s',
  queueReply tm t s a b = Ok s' -> quiet s s'.
Proof.
  intros t s a b s' H. unfold queueReply in H.
  destruct (scheduleReply a b t tm (rng s)) as [[[ty ep]|] rng1].
  - destruct (Rng.next rng1) as [u rng2].
    destruct (push_at a _ (replyQueues s)) as [q|]; [|discriminate].
    inversion H; subst. repeat split.
  - inversion H; subst. repeat split.
Qed.

Lemma lookupThread_quiet : forall s key t, quiet s (lookupThread s key t).
Proof.
  intros s key t. unfold lookupThread.
  destruct (map_get String.eqb (activeThreads s) key); repeat split.
Qed.

(** A reply entry is dropped, or one real record is logged. *)
Lemma processReply_book : forall t uid s reply s',
  processReply Math_random g tm opt t uid s reply = Ok s' ->
  quiet s s' \/ logged false s s'.
Proof.
  intros t uid s reply s' H. unfold processReply in H.
  set (key := sortedPairKey uid (to reply)) in *.
  set (s1 := set_draws s (S (draws s))) in *.
  assert (Q1 : quiet s s1) by repeat split.
  pose proof (lookupThread_quiet s1 key t) as Q2.
  set (s2 := lookupThread s1 key t) in *.
  pose proof (quiet_trans Q1 Q2) as Q12. clearbody s2. clear Q1 Q2.
  destruct (shouldContinue (threadOf s1 key) t (rng s2)) as [cont rng1].
  assert (Q3 : forall n, quiet s (add_note (set_rng s2 rng1) n)).
  { intros n. eapply quiet_trans; [exact Q12|]. repeat split. }
  destruct cont; [|inversion H; subst; left; apply Q3].
  match type of H with
  | (if ?c then _ else _) = _ => destruct c; [discriminate|]
  end.
  match type of H with
  | bind ?c _ = _ => destruct c as [[[p|] rng2]| |]
  end; cbn [bind fst snd] in H; try discriminate.
  - destruct (logMessage (T opt) t _ uid (to reply) _ p false true)
      as [s4| |] eqn:Hlog; cbn [bind] in H; try discriminate.
    apply logMessage_logged in Hlog.
    destruct Hlog as [[m [Hpush Hd]] [Hc [Ha Hcv]]].
    apply queueReply_quiet in H.
    right. eapply logged_quiet; [|exact H].
    eapply logged_quiet;
      [|eapply quiet_trans; [apply recordReal_quiet|]; repeat split].
    apply quiet_logged
      with (s2 := set_rng (add_note (set_rng s2 rng1) (Accepted key t)) rng2);
      [eapply quiet_trans; [apply (Q3 (Accepted key t))|]; repeat split|].
    destruct (noteSend_sends s4 t uid) as [N1 [N2 [N3 [N4 N5]]]].
    split; [exists t, m; rewrite N1; auto|].
    split; [rewrite N2, Hc, Ha; reflexivity|].
    split; [intros Hf; rewrite N3 by congruence; exact Hc|].
    split; congruence.
  - inversion H; subst. left. eapply quiet_trans; [apply (Q3 (Accepted key t))|].
    repeat split.
Qed.

(** A new send does nothing or logs one real record. *)
Lemma processNewSend_book : forall t s uId s',
  processNewSend Math_random g tm opt t s uId = Ok s' ->
  quiet s s' \/ logged false s s'.
Proof.
  intros t s uId s' H. unfold processNewSend in H.
  destruct (userCount s <=? uId).
  { inversion H; subst. left. apply quiet_refl. }
  destruct (length (graph_get g uId) =? 0).
  { inversion H; subst. left. apply quiet_refl. }
  cbv zeta in H.
  destruct (pickWeighted (graph_get g uId) _ (Math_random (draws s)))
    as [recipientId|].
  2:{ inversion H; subst. left. repeat split. }
  match type of H with
  | (if ?c then _ else _) = _ => destruct c; [discriminate|]
  end.
  match type of H with
  | bind ?c _ = _ => destruct c as [[[p|] rng2]| |]
  end; cbn [bind fst snd] in H; try discriminate.
  destruct (logMessage (T opt) t _ uId recipientId _ p false false)
    as [s3| |] eqn:Hlog; cbn [bind] in H; try discriminate.
  apply logMessage_logged in Hlog.
  destruct Hlog as [[m [Hpush Hd]] [Hc [Ha Hcv]]].
  apply queueReply_quiet in H.
  right. eapply logged_quiet; [|exact H].
  eapply logged_quiet; [|apply recordReal_quiet].
  match type of Hpush with
  | push_at _ _ (sentLog ?x) = _ =>
      apply quiet_logged with (s2 := x); [repeat split|]
  end.
  destruct (noteSend_sends s3 t uId) as [N1 [N2 [N3 [N4 N5]]]].
  split; [exists t, m; rewrite N1; auto|].
  split; [rewrite N2, Hc, Ha; reflexivity|].
  split; [intros Hf; rewrite N3 by congruence; exact Hc|].
  split; congruence.
Qed.

(** A cover message logs one dummy record. *)
Lemma injectCover_book : forall t s cm s',
  injectCover Math_random g opt t s cm = Ok s' -> logged true s s'.
Proof.
  intros t s [senderId recipientId] s' H. unfold injectCover in H.
  match type of H with
  | bind ?c _ = _ => destruct c as [[[p|] rng2]| |]
  end; cbn [bind fst snd] in H; try discriminate.
  destruct (logMessage (T opt) t _ senderId recipientId _ p true false)
    as [s2| |] eqn:Hlog; cbn [bind] in H; try discriminate.
  apply logMessage_logged in Hlog.
  destruct Hlog as [[m [Hpush Hd]] [Hc [Ha Hcv]]].
  inversion H; subst; clear H.
  match type of Hpush with
  | push_at _ _ (sentLog ?x) = _ =>
      apply quiet_logged with (s2 := x); [repeat split|]
  end.
  destruct (noteSend_sends s2 t senderId) as [N1 [N2 [N3 [N4 N5]]]].
  split; [exists t, m; rewrite N1; auto|].
  split; [rewrite N2, Hc, Ha; reflexivity|].
  split; [intros Hf; rewrite N3 by congruence; exact Hc|].
  split; congruence.
Qed.

Lemma contacts_quiet : forall t es s, quiet s (fold_left (contactOf t) es s).
Proof.
  induction es as [|e es IH]; intros s; cbn [fold_left];
    [apply quiet_refl|].
  eapply quiet_trans; [|apply IH]. now apply call_adv_quiet.
Qed.

Lemma materialize_quiet : forall t s s',
  materialize Math_sqrt g opt t s = Ok s' -> quiet s s'.
Proof.
  intros t s s' H. unfold materialize in H.
  destruct (noiseEdges g (userCount s) (noiseEdgesPerEpoch opt) _ (rng s))
    as [[pl r]| |]; cbn [bind] in H; try discriminate.
  inversion H; subst; clear H.
  eapply quiet_trans; [|now apply call_adv_quiet].
  eapply quiet_trans; [|apply contacts_quiet].
  repeat split.
Qed.

(** The books of a run with or without an adversary ([a0]) and with or
    without a cover manager ([c0]): without an adversary no call is made,
    with one the [noteSend] calls are as many as the records; without a
    cover manager no record is a dummy. *)
Definition books (a0 c0 : bool) (s : State) : Prop :=
  attached s = a0 /\ covering s = c0
  /\ (a0 = false -> calls s = [])
  /\ (a0 = true -> sends (calls s) = length (allMessages s))
  /\ (c0 = false -> forall m, In m (allMessages s) -> dummy m = false).

Lemma quiet_books : forall a0 c0 s s',
  quiet s s' -> books a0 c0 s -> books a0 c0 s'.
Proof.
  intros a0 c0 s s' [A1 [A2 [A3 [A4 A5]]]] [Ba [Bc [B1 [B2 B3]]]].
  unfold books, allMessages. rewrite A1, A2, A4, A5.
  split; [exact Ba|]. split; [exact Bc|]. split; [|split]; auto.
  intros H. rewrite A3 by congruence. auto.
Qed.

Lemma logged_books : forall a0 c0 d s s',
  logged d s s' -> (d = true -> c0 = true) ->
  books a0 c0 s -> books a0 c0 s'.
Proof.
  intros a0 c0 d s s' [[t [m [Hp Hd]]] [A2 [A3 [A4 A5]]]] Hcov
         [Ba [Bc [B1 [B2 B3]]]].
  apply push_at_perm in Hp. destruct Hp as [Hperm _].
  unfold books, allMessages in *. rewrite A4, A5.
  split; [exact Ba|]. split; [exact Bc|]. split; [|split].
  - intros H. rewrite A3 by congruence. auto.
  - intros H. rewrite A2, (Permutation_length Hperm), Ba, H. cbn [length].
    rewrite B2 by assumption. lia.
  - intros H m' Hm'. eapply Permutation_in in Hm'; [|exact Hperm].
    destruct Hm' as [<-|Hm']; [|now apply B3].
    destruct d; [|exact Hd]. rewrite Hcov in H by reflexivity. discriminate.
Qed.

Lemma processUser_books : forall a0 c0 se t s uid s',
  processUser Math_random g tm opt se t s uid = Ok s' ->
  books a0 c0 s -> books a0 c0 s'.
Proof.
  intros a0 c0 se t s uid s' H Hb. unfold processUser in H. cbv zeta in H.
  destruct (foldM (processReply Math_random g tm opt t uid) _ s)
    as [s1| |] eqn:Hf; cbn [bind] in H; try discriminate.
  inversion H; subst; clear H.
  apply (@quiet_books a0 c0 s1); [repeat split|].
  eapply (@foldM_invariant _ _ (books a0 c0)); [|exact Hb|exact Hf].
  intros s2 reply s3 _ Hs2 Hstep.
  destruct (processReply_book _ _ _ _ Hstep) as [Hq|Hl];
    [now apply (quiet_books Hq)|].
  apply (logged_books Hl); [discriminate|exact Hs2].
Qed.

Lemma coverPhase_books : forall a0 c0 t s s',
  coverPhase Math_random gaussian Math_exp Math_sqrt fuel g opt t s = Ok s' ->
  books a0 c0 s -> books a0 c0 s'.
Proof.
  intros a0 c0 t s s' H Hb. unfold coverPhase in H.
  destruct (coverMgr s) as [c|] eqn:Hc; [|now inversion H; subst].
  destruct (generateCoverTraffic Math_random gaussian Math_exp Math_sqrt fuel
                                 g c t (rng s) (draws s))
    as [[[[msgs c'] r'] d']| |]; cbn [bind] in H; try discriminate.
  set (s0 := set_cover (set_draws (set_rng s r') d') (Some c')) in *.
  assert (Q0 : quiet s s0).
  { unfold quiet, attached, covering. cbn. rewrite Hc. repeat split. }
  assert (Hc0 : c0 = true).
  { destruct Hb as [_ [Bc _]]. rewrite <- Bc. unfold covering.
    now rewrite Hc. }
  eapply (@foldM_invariant _ _ (books a0 c0)); [| |exact H].
  - intros s2 cm s3 _ Hs2 Hstep.
    pose proof (injectCover_book _ _ _ Hstep) as Hl.
    apply (logged_books Hl); auto.
  - apply (quiet_books Q0 Hb).
Qed.

Lemma subEpochStep_books : forall a0 c0 bk s se s',
  subEpochStep Math_random gaussian Math_exp Math_sqrt fuel g tm opt bk s se
  = Ok s' ->
  books a0 c0 s -> books a0 c0 s'.
Proof.
  intros a0 c0 bk s se s' H Hb. unfold subEpochStep in H. cbv zeta in H.
  destruct (foldM (processUser Math_random g tm opt se _) _ s)
    as [s1| |] eqn:E1; cbn [bind] in H; try discriminate.
  assert (B1 : books a0 c0 s1).
  { eapply (@foldM_invariant _ _ (books a0 c0)); [|exact Hb|exact E1].
    intros x u y _ Hx Hstep. eapply processUser_books; eassumption. }
  destruct (foldM (processNewSend Math_random g tm opt _) _ s1)
    as [s2| |] eqn:E2; cbn [bind] in H; try discriminate.
  assert (B2 : books a0 c0 s2).
  { eapply (@foldM_invariant _ _ (books a0 c0)); [|exact B1|exact E2].
    intros x u y _ Hx Hstep.
    destruct (processNewSend_book _ _ _ Hstep) as [Hq|Hl];
      [now apply (quiet_books Hq)|].
    apply (logged_books Hl); [discriminate|exact Hx]. }
  assert (B3 : exists s3, books a0 c0 s3 /\
             (if (se mod subEpochsPerHour =? subEpochsPerHour - 1)
                 || (se =? T opt * subEpochsPerHour - 1)
              then materialize Math_sqrt g opt (se / subEpochsPerHour) s3
              else Ok s3) = Ok s').
  { destruct (se mod subEpochsPerHour =? 0).
    - destruct (coverPhase Math_random gaussian Math_exp Math_sqrt fuel g opt
                           _ s2) as [s3| |] eqn:E3;
        cbn [bind] in H; try discriminate.
      exists s3. split; [eapply coverPhase_books; eassumption|exact H].
    - cbn [bind] in H. exists s2. split; [exact B2|exact H]. }
  destruct B3 as [s3 [B3 H3]].
  destruct (_ || _) in H3.
  - apply materialize_quiet in H3. now apply (quiet_books H3).
  - now inversion H3; subst.
Qed.

Lemma books_run : forall users events a s,
  simulate Math_random gaussian Math_exp Math_sqrt fuel g tm opt users events a
  = Ok s ->
  books (match a with Some _ => true | None => false end)
        (match cover opt with Some _ => true | None => false end) s.
Proof.
  intros users events a s H. unfold simulate in H.
  destruct (distributeEventsToSubEpochs events (T opt) subEpochsPerHour
                                        (seed opt))
    as [[bk r]| |]; cbn [bind] in H; try discriminate.
  destruct (addMessageBursts fuel _ _) as [[bk' r']| |];
    cbn [bind] in H; try discriminate.
  eapply (@foldM_invariant _ _ (books _ _)); [| |exact H].
  - intros x se y _ Hx Hstep. eapply subEpochStep_books; eassumption.
  - unfold books, attached, covering, allMessages. cbn.
    rewrite concat_repeat_nil. repeat split; auto. intros _ m [].
Qed.

End Bookkeeping.

(** * The cost report of the driver *)

Section CostFacts.
Import Network.

Lemma cost_fold_epoch : forall (msgs : list Message) (acc : nat * nat),
  fold_left
    (fun acc' msg =>
       (S (fst acc'), if dummy msg then S (snd acc') else snd acc'))
    msgs acc
  = (fst acc + length msgs, snd acc + length (filter dummy msgs)).
Proof.
  induction msgs as [|m msgs IH]; intros [n d]; cbn [fold_left].
  - cbn. f_equal; lia.
  - rewrite IH. cbn [fst snd length filter].
    destruct (dummy m); cbn [length]; f_equal; lia.
Qed.

Lemma cost_fold_log : forall (log : list (list Message)) (acc : nat * nat),
  fold_left
    (fun acc msgs =>
       fold_left
         (fun acc' msg =>
            (S (fst acc'), if dummy msg then S (snd acc') else snd acc'))
         msgs acc)
    log acc
  = (fst acc + length (concat log),
     snd acc + length (filter dummy (concat log))).
Proof.
  induction log as [|e log IH]; intros [n d]; cbn [fold_left concat].
  - cbn. f_equal; lia.
  - rewrite cost_fold_epoch, IH. cbn [fst snd].
    rewrite filter_app, !length_app. f_equal; lia.
Qed.

Lemma computeCost_counts : forall log,
  Driver.totalMessages (Driver.computeCost log) = length (concat log)
  /\ Driver.dummyMessages (Driver.computeCost log)
     = length (filter dummy (concat log)).
Proof.
  intros log. unfold Driver.computeCost. rewrite cost_fold_log. cbn. auto.
Qed.

Lemma filter_none : forall (A : Type) (f : A -> bool) l,
  (forall x, In x l -> f x = false) -> filter f l = [].
Proof.
  induction l as [|x l IH]; intros H; [reflexivity|]. cbn [filter].
  rewrite (H x (or_introl eq_refl)). apply IH. intros y Hy. apply H. now right.
Qed.

(** X2: when cover traffic is disabled, no record of a run that returns is
    a dummy, and the cost report of the driver counts every record and
    gives zero dummies and a dummy fraction of zero. *)
Theorem X2_no_cover_no_dummy :
  forall Math_random gaussian Math_exp Math_sqrt fuel g tm opt users events
         a s,
  cover opt = None ->
  simulate Math_random gaussian Math_exp Math_sqrt fuel g tm opt users events a
  = Ok s ->
  (forall m, In m (allMessages s) -> dummy m = false)
  /\ Driver.totalMessages (Driver.computeCost (sentLog s))
     = length (allMessages s)
  /\ Driver.dummyMessages (Driver.computeCost (sentLog s)) = 0
  /\ (Driver.dummyFraction (Driver.computeCost (sentLog s)) == 0)%Q.
Proof.
  intros Math_random gaussian Math_exp Math_sqrt fuel g tm opt users events
         a s Hc H.
  destruct (@books_run Math_random gaussian Math_exp Math_sqrt fuel g tm opt
                       users events a s H) as [_ [_ [_ [_ Hd]]]].
  rewrite Hc in Hd. specialize (Hd eq_refl).
  destruct (computeCost_counts (sentLog s)) as [Ht Hdm].
  split; [exact Hd|]. split; [exact Ht|].
  assert (Hz : Driver.dummyMessages (Driver.computeCost (sentLog s)) = 0).
  { rewrite Hdm. fold (allMessages s). now rewrite filter_none. }
  split; [exact Hz|].
  revert Hz Ht. unfold Driver.computeCost.
  destruct (fold_left _ (sentLog s) (0, 0)) as [total dm].
  cbn [Driver.dummyMessages Driver.totalMessages Driver.dummyFraction].
  intros -> _. destruct (total =? 0); [reflexivity|].
  unfold Qdiv. cbn. apply Qmult_0_l.
Qed.

(** X2 on the line of twelve hours: three records, none a dummy. *)
Lemma X2_no_cover_witness :
  exists s, Scenario.twoThreads = Ok s
            /\ (forall m, In m (allMessages s) -> dummy m = false)
            /\ Driver.totalMessages (Driver.computeCost (sentLog s)) = 3
            /\ Driver.dummyMessages (Driver.computeCost (sentLog s)) = 0
            /\ (Driver.dummyFraction (Driver.computeCost (sentLog s)) == 0)%Q.
Proof.
  eexists. split; [vm_compute; reflexivity|].
  destruct (@X2_no_cover_no_dummy
              (fun _ => 0%Q) Scenario.noGaussian Scenario.noMath
              Scenario.noMath 100 Scenario.line4 []
              (Scenario.plain 12 42 1)
              [[mkReply 6 1 instant]; []; [mkReply 66 3 instant]; []]
              [] None _ eq_refl ltac:(vm_compute; reflexivity))
    as [H1 [H2 [H3 H4]]].
  split; [exact H1|]. split; [vm_compute; reflexivity|].
  split; [exact H3|exact H4].
Defined.

(** X3: with an adversary attached, [noteSend] is called once for every
    record that a run logs, new send, reply or dummy alike; without an
    adversary no call is made at all. *)
Theorem X3_adversary_hears_every_send :
  forall Math_random gaussian Math_exp Math_sqrt fuel g tm opt users events
         a s,
  simulate Math_random gaussian Math_exp Math_sqrt fuel g tm opt users events a
  = Ok s ->
  match a with
  | Some _ => sends (calls s) = length (allMessages s)
  | None => calls s = []
  end.
Proof.
  intros Math_random gaussian Math_exp Math_sqrt fuel g tm opt users events
         a s H.
  destruct (@books_run Math_random gaussian Math_exp Math_sqrt fuel g tm opt
                       users events a s H) as [_ [_ [Hn [Hs _]]]].
  destruct a; auto.
Qed.

(** X3 on the watched triangle: one record and one [noteSend]. *)
Lemma X3_adversary_hears_witness :
  exists s, Scenario.watchedSend = Ok s
            /\ calls s = [NoteSend 0 0; NoteContact 0 0 1 1; InferEpoch 0]
            /\ sends (calls s) = length (allMessages s).
Proof.
  eexists. split; [vm_compute; reflexivity|].
  split; [vm_compute; reflexivity|].
  refine (@X3_adversary_hears_every_send
            (fun _ => 0%Q) Scenario.noGaussian Scenario.noMath
            Scenario.noMath 100 Scenario.triangle []
            (Scenario.plain 1 42 1) [[]; []; []] Scenario.lateEvent
            (Some (AdversaryLP.create [0] 1)) _ _).
  vm_compute. reflexivity.
Defined.

End CostFacts.

(** * Further properties of path selection *)

Section PathShape.
Import Network.
Variable g : Graph.

Lemma pickLoop_total_In : forall items weights r x,
  pickLoop items weights r = Some x -> In x items.
Proof.
  induction items as [|i items IH]; intros [|w weights] r x H;
    cbn [pickLoop] in H; try discriminate.
  destruct (Qle_bool (r - w) 0); [inversion H; now left|].
  right. eapply IH; eassumption.
Qed.

(** X4: [pickWeighted] returns [undefined] only for an empty list of items:
    for a list that is not empty it returns one of the items, whatever the
    weights (missing, zero or negative) and whatever the draw. *)
Theorem X4_pickWeighted_picks_an_item :
  forall items weights u,
  items <> [] ->
  exists x, pickWeighted items weights u = Some x /\ In x items.
Proof.
  intros items weights u Hne. unfold pickWeighted.
  destruct (pickLoop items weights (u * Qsum weights)) as [x|] eqn:Hp.
  - exists x. split; [reflexivity|]. eapply pickLoop_total_In; eassumption.
  - destruct (nth_error items (length items - 1)) as [x|] eqn:Hn.
    + exists x. split; [reflexivity|]. eapply nth_error_In; eassumption.
    + exfalso. apply nth_error_None in Hn.
      destruct items; [congruence|]. cbn [length] in Hn. lia.
Qed.

(** X4 with a negative weight: no item is reached by the loop and the last
    item is returned. *)
Lemma X4_pickWeighted_witness :
  [4; 7; 9] <> []
  /\ pickWeighted [4; 7; 9] [(-2)%Q; (1 # 2)%Q; (1 # 4)%Q] (1 # 2) = Some 9
  /\ exists x, pickWeighted [4; 7; 9] [(-2)%Q; (1 # 2)%Q; (1 # 4)%Q] (1 # 2) = Some x
               /\ In x [4; 7; 9].
Proof.
  split; [discriminate|]. split; [vm_compute; reflexivity|].
  apply (@X4_pickWeighted_picks_an_item [4; 7; 9] [(-2)%Q; (1 # 2)%Q; (1 # 4)%Q] (1 # 2)%Q).
  discriminate.
Defined.

(** Every node of a queued path has been seen, and no path repeats a
    node. *)
Definition fresh_paths (q : list (list nat)) (seen : list nat) : Prop :=
  forall p, In p q -> NoDup p /\ incl p seen.

Lemma NoDup_snoc : forall (p : list nat) n,
  NoDup p -> ~ In n p -> NoDup (p ++ [n]).
Proof.
  intros p n Hp Hn. apply NoDup_app; [exact Hp|repeat constructor; auto|].
  intros x Hx [<-|[]]. contradiction.
Qed.

Lemma scanShortest_shape : forall path dst ns q seen,
  NoDup path -> incl path seen -> fresh_paths q seen ->
  match scanShortest ns path dst q seen with
  | inl p => NoDup p /\ length p = S (length path)
  | inr (q', seen') => fresh_paths q' seen' /\ incl seen seen'
  end.
Proof.
  intros path dst. induction ns as [|n ns IH]; intros q seen Hp Hi Hq;
    cbn [scanShortest].
  - split; [exact Hq|apply incl_refl].
  - destruct (nat_has seen n) eqn:Hs; [now apply IH|].
    assert (Hn : ~ In n path).
    { intros Hin. apply Hi in Hin. apply nat_has_In in Hin. congruence. }
    destruct (n =? dst).
    + split; [now apply NoDup_snoc|]. rewrite length_app. cbn. lia.
    + assert (Hinc : incl seen (nat_add seen n)).
      { intros x Hx. apply nat_add_In. now left. }
      specialize (IH (q ++ [path ++ [n]]) (nat_add seen n) Hp
                     (incl_tran Hi Hinc)).
      destruct (scanShortest ns path dst (q ++ [path ++ [n]])
                             (nat_add seen n)) as [p|[q' seen']].
      * apply IH. intros p0 Hp0. apply in_app_or in Hp0.
        destruct Hp0 as [Hp0|[<-|[]]].
        -- destruct (Hq p0 Hp0) as [A B]. split; [exact A|].
           eapply incl_tran; eassumption.
        -- split; [now apply NoDup_snoc|].
           intros x Hx. apply in_app_or in Hx. apply nat_add_In.
           destruct Hx as [Hx|[<-|[]]]; [left; now apply Hi|now right].
      * destruct IH as [A B].
        { intros p0 Hp0. apply in_app_or in Hp0.
          destruct Hp0 as [Hp0|[<-|[]]].
          - destruct (Hq p0 Hp0) as [A B]. split; [exact A|].
            eapply incl_tran; eassumption.
          - split; [now apply NoDup_snoc|].
            intros x Hx. apply in_app_or in Hx. apply nat_add_In.
            destruct Hx as [Hx|[<-|[]]]; [left; now apply Hi|now right]. }
        split; [exact A|]. eapply incl_tran; eassumption.
Qed.

Lemma bfsShortest_shape : forall dst Hmax fuel q seen p,
  fresh_paths q seen ->
  bfsShortest fuel g dst Hmax q seen = Ok (Some p) ->
  NoDup p /\ (Z.of_nat (length p) <= Hmax + 2)%Z.
Proof.
  intros dst Hmax. induction fuel as [|fuel IH]; intros q seen p Hq H;
    cbn [bfsShortest] in H; [discriminate|].
  destruct q as [|path q]; [discriminate|].
  assert (Hq' : fresh_paths q seen) by (intros x Hx; apply Hq; now right).
  destruct (Hq path (or_introl eq_refl)) as [Hnd Hinc].
  destruct (Z.ltb_spec (Hmax + 1) (Z.of_nat (length path)));
    [now apply (IH q seen)|].
  pose proof (@scanShortest_shape path dst (graph_get g (last path 0)) q seen
                Hnd Hinc Hq') as Hs.
  destruct (scanShortest (graph_get g (last path 0)) path dst q seen)
    as [newPath|[q'' seen']].
  - inversion H; subst. destruct Hs as [A B]. split; [exact A|]. lia.
  - destruct Hs as [A _]. now apply (IH q'' seen').
Qed.

(** X5: a path returned by [shortestPath] leads from [src] to [dst] along
    edges and visits no node twice; when [src] and [dst] differ it has at
    most [Hmax + 2] nodes, one more than [Hmax + 1], since the length of a
    queued path is tested before the path is extended. *)
Theorem X5_shortestPath_shape :
  forall src dst Hmax p,
  shortestPath g src dst Hmax = Ok (Some p) ->
  isRoute g src dst p = true
  /\ NoDup p
  /\ (src = dst -> p = [src])
  /\ (src <> dst -> (2 <= Z.of_nat (length p) <= Hmax + 2)%Z).
Proof.
  intros src dst Hmax p H.
  pose proof (@shortestPath_route _ _ _ _ _ H) as Hr.
  split; [exact Hr|]. unfold shortestPath in H.
  destruct (Nat.eqb_spec src dst) as [<-|Hne].
  - inversion H; subst. split; [repeat constructor; intros []|].
    split; [reflexivity|congruence].
  - apply bfsShortest_shape in H.
    + destruct H as [A B]. split; [exact A|]. split; [congruence|].
      intros _. split; [|exact B].
      apply route_parts in Hr. destruct Hr as [Hh [Hl _]].
      destruct p as [|a [|b p]]; cbn in *; try discriminate; [|lia].
      inversion Hh; subst. congruence.
    + intros p0 [<-|[]]. split; [repeat constructor; intros []|].
      apply incl_refl.
Qed.

End PathShape.

(** X5 on the line with [Hmax = 1]: the path from 0 to 2 has three
    nodes. *)
Lemma X5_shortestPath_witness :
  Network.shortestPath Scenario.line4 0 2 1 = Ok (Some [0; 1; 2])
  /\ Network.isRoute Scenario.line4 0 2 [0; 1; 2] = true
  /\ NoDup [0; 1; 2]
  /\ (0 = 2 -> [0; 1; 2] = [0])
  /\ (0 <> 2 -> (2 <= Z.of_nat (length [0; 1; 2]) <= 1 + 2)%Z).
Proof.
  split; [vm_compute; reflexivity|].
  apply (@X5_shortestPath_shape Scenario.line4 0 2 1 [0; 1; 2]).
  vm_compute. reflexivity.
Defined.

Section PathFailure.
Import Network.

(** X6: [selectPath] returns [null] exactly when [shortestPath] does, and
    has then made one draw: the diverse search and the random walk never
    turn a destination that can be reached into a failure. *)
Theorem X6_selectPath_fails_with_shortestPath :
  forall g src dst Hmax tr rng rng',
  selectPath g src dst Hmax tr rng = Ok (None, rng')
  <-> (shortestPath g src dst Hmax = Ok None /\ rng' = snd (Rng.next rng)).
Proof.
  intros g src dst Hmax tr rng rng'. split.
  - intros H. pose proof (@selectPath_none _ _ _ _ _ _ _ H) as Hs.
    split; [exact Hs|].
    rewrite (@shortestPath_none_select g src dst Hmax tr rng Hs) in H.
    now inversion H.
  - intros [Hs ->]. now apply shortestPath_none_select.
Qed.

End PathFailure.

(** * The seeded generators and what is drawn from them *)

Section DrawRanges.
Import Network.

Lemma rng_stuck : forall n, Rng.skip n 0 = 0%Z.
Proof.
  induction n as [|n IH]; [reflexivity|]. cbn [Rng.skip]. exact IH.
Qed.

(** X7: [makeRNG] of the graph and of the temporal model turns a seed into
    a state between 1 and 2^31 - 2, from which every later draw lies in
    [0, 1), for every seed but those whose remainder by 2^31 - 1 is
    -(2^31 - 2): these give the state 0, where the generator stays and
    returns the negative number -1/(2^31 - 2) at every draw.  Seeds that
    are not negative are never of that kind. *)
Theorem X7_makeRNG_states : forall seed n,
  (Z.rem seed 2147483647 <> (-2147483646)%Z ->
   Rng.valid (Rng.skip n (Rng.makeRNG seed))
   /\ (0 <= fst (Rng.next (Rng.skip n (Rng.makeRNG seed))))%Q
   /\ (fst (Rng.next (Rng.skip n (Rng.makeRNG seed))) < 1)%Q)
  /\ (Z.rem seed 2147483647 = (-2147483646)%Z ->
      Rng.skip n (Rng.makeRNG seed) = 0%Z
      /\ Rng.next (Rng.skip n (Rng.makeRNG seed))
         = (Qmake (-1) 2147483646, 0%Z))
  /\ ((0 <= seed)%Z -> Z.rem seed 2147483647 <> (-2147483646)%Z).
Proof.
  intros seed n. split; [|split].
  - intros Hne.
    assert (Hv : Rng.valid (Rng.makeRNG seed)).
    { unfold Rng.valid, Rng.makeRNG.
      pose proof (Z.rem_bound_abs seed 2147483647 ltac:(lia)) as Hb.
      destruct (Z.leb_spec (Z.rem seed 2147483647) 0); lia. }
    pose proof (rng_skip_valid n Hv) as Hs. split; [exact Hs|].
    now apply rng_next_valid.
  - intros He. unfold Rng.makeRNG. rewrite He. cbn.
    rewrite rng_stuck. split; reflexivity.
  - intros Hs. pose proof (Z.rem_bound_pos seed 2147483647 Hs ltac:(lia)).
    lia.
Qed.

Lemma floor_scaled : forall (u : Q) (k : Z),
  (0 < k)%Z -> (0 <= u)%Q -> (u < 1)%Q ->
  (0 <= Math_floor (u * inject_Z k)%Q <= k - 1)%Z.
Proof.
  intros u k Hk H0 H1. unfold Math_floor. split.
  - rewrite <- (Qfloor_Z 0). apply Qfloor_resp_le.
    apply Qmult_le_0_compat; [exact H0|].
    change 0%Q with (inject_Z 0). rewrite <- Zle_Qle. lia.
  - cut (Qfloor (u * inject_Z k) < k)%Z; [lia|].
    rewrite Zlt_Qlt. eapply Qle_lt_trans; [apply Qfloor_le|].
    rewrite <- (Qmult_1_l (inject_Z k)) at 2.
    apply Qmult_lt_compat_r; [|exact H1].
    change 0%Q with (inject_Z 0). rewrite <- Zlt_Qlt. lia.
Qed.

(** X8: a reply is never scheduled into the past.  For a generator state
    between 1 and 2^31 - 2, an instant reply is set at the epoch of the
    message, a delayed one 1 to 5 epochs later and an eventual one 5 to 19
    epochs later. *)
Theorem X8_scheduleReply_epochs :
  forall recipientId senderId t tierMap rng ty ep rng',
  Rng.valid rng ->
  scheduleReply recipientId senderId t tierMap rng = (Some (ty, ep), rng') ->
  match ty with
  | instant => ep = Z.of_nat t
  | delayed => (Z.of_nat t + 1 <= ep <= Z.of_nat t + 5)%Z
  | eventual => (Z.of_nat t + 5 <= ep <= Z.of_nat t + 19)%Z
  end.
Proof.
  intros recipientId senderId t tierMap rng ty ep rng' Hv H.
  unfold scheduleReply in H. cbv zeta in H.
  pose proof (rng_next_valid Hv) as [Hv1 _].
  destruct (Rng.next rng) as [r rng1]. cbn [snd] in Hv1.
  pose proof (rng_next_valid Hv1) as [_ [Hu0 Hu1]].
  destruct (Qltb r _);
    [assert (Hty : ty = instant) by congruence;
     assert (Hep : ep = Z.of_nat t) by congruence; now subst|].
  destruct (Qltb r _).
  { destruct (Rng.next rng1) as [u rng2]. cbn [fst] in Hu0, Hu1.
    assert (Hty : ty = delayed) by congruence.
    assert (Hep : ep = (Z.of_nat t + (1 + Math_floor (u * 5)%Q))%Z)
      by congruence.
    subst ty ep.
    pose proof (@floor_scaled u 5 ltac:(lia) Hu0 Hu1) as Hf.
    change (inject_Z 5) with 5%Q in Hf. lia. }
  destruct (Qltb r _); [|discriminate].
  destruct (Rng.next rng1) as [u rng2]. cbn [fst] in Hu0, Hu1.
  assert (Hty : ty = eventual) by congruence.
  assert (Hep : ep = (Z.of_nat t + (5 + Math_floor (u * 15)%Q))%Z)
    by congruence.
  subst ty ep.
  pose proof (@floor_scaled u 15 ltac:(lia) Hu0 Hu1) as Hf.
  change (inject_Z 15) with 15%Q in Hf. lia.
Qed.

(** X8 for seed 42 at epoch 3 between two users without a tier. *)
Lemma X8_scheduleReply_witness :
  scheduleReply 1 0 3 [] 42 = (Some (instant, 3%Z), 705894%Z)
  /\ 3%Z = Z.of_nat 3.
Proof.
  split; [vm_compute; reflexivity|].
  refine (@X8_scheduleReply_epochs 1 0 3 [] 42 instant 3 705894 _ _).
  - unfold Rng.valid. lia.
  - vm_compute. reflexivity.
Defined.

End DrawRanges.

(** * Sub-epochs: distribution and bursts *)

Section BucketFacts.
Import Network.

Lemma push_atZ_perm : forall (A : Type) (i : Z) (x : A) l l',
  push_atZ i x l = Some l' ->
  Permutation (concat l') (x :: concat l) /\ length l' = length l.
Proof.
  intros A i x l l' H. unfold push_atZ in H.
  destruct (i <? 0)%Z; [discriminate|]. now apply push_at_perm in H.
Qed.

Lemma push_at_some : forall (A : Type) (l : list (list A)) i (x : A),
  i < length l -> exists l', push_at i x l = Some l'.
Proof.
  induction l as [|b l IH]; intros i x Hi; [cbn in Hi; lia|].
  destruct i as [|i]; cbn [push_at]; [eauto|].
  destruct (IH i x) as [l' Hl']; [cbn in Hi; lia|]. rewrite Hl'. eauto.
Qed.

Lemma distributeLoop_keeps : forall events total buckets rng,
  0 < total -> length buckets = total ->
  exists buckets',
    distributeLoop events total buckets rng
    = Ok (buckets', Rng.skip (length events) rng)
    /\ length buckets' = total
    /\ Permutation (concat buckets')
                   (concat buckets ++ map Temporal.userId events).
Proof.
  induction events as [|ev events IH]; intros total buckets rng Hpos Hlen.
  - exists buckets. cbn. rewrite app_nil_r. auto.
  - cbn [distributeLoop Rng.skip length].
    destruct (Rng.next rng) as [u rng1] eqn:Hn. cbn [snd].
    assert (Hb : (0 <= subEpochOf total (Temporal.t ev) u < Z.of_nat total)%Z).
    { unfold subEpochOf. lia. }
    unfold push_atZ. destruct (Z.ltb_spec (subEpochOf total (Temporal.t ev) u) 0);
      [lia|].
    destruct (@push_at_some _ buckets
                (Z.to_nat (subEpochOf total (Temporal.t ev) u))
                (Temporal.userId ev)) as [b1 Hb1]; [lia|].
    rewrite Hb1. apply push_at_perm in Hb1. destruct Hb1 as [Hp Hl].
    destruct (IH total b1 rng1 Hpos) as [b2 [E [L P]]]; [lia|].
    exists b2. split; [exact E|]. split; [exact L|].
    rewrite P, Hp. cbn [map]. rewrite <- Permutation_middle. reflexivity.
Qed.

(** X9: with at least one sub-epoch, [distributeEventsToSubEpochs] never
    fails and loses no event: it returns [T * subEpochsPerHour] buckets that
    together hold the user of every event exactly once, after one draw per
    event, whatever the timestamps and whatever the draws. *)
Theorem X9_distribution_keeps_every_event :
  forall events T sph rng,
  0 < T * sph ->
  exists buckets,
    distributeEventsToSubEpochs events T sph rng
    = Ok (buckets, Rng.skip (length events) rng)
    /\ length buckets = T * sph
    /\ Permutation (concat buckets) (map Temporal.userId events).
Proof.
  intros events T sph rng Hpos. unfold distributeEventsToSubEpochs.
  destruct (@distributeLoop_keeps events (T * sph) (repeat [] (T * sph)) rng
              Hpos (repeat_length _ _)) as [b [E [L P]]].
  exists b. split; [exact E|]. split; [exact L|].
  now rewrite concat_repeat_nil in P.
Qed.

(** X9 for two early events of users 3 and 1 in a run of one hour. *)
Lemma X9_distribution_witness :
  exists buckets,
    distributeEventsToSubEpochs
      [Temporal.mkEvent 3 0; Temporal.mkEvent 1 (40000000 # 1)] 1 6 42
    = Ok (buckets, Rng.skip 2 42)
    /\ length buckets = 1 * 6
    /\ Permutation (concat buckets) [3; 1].
Proof.
  apply (@X9_distribution_keeps_every_event
           [Temporal.mkEvent 3 0; Temporal.mkEvent 1 (40000000 # 1)] 1 6 42).
  cbn. lia.
Defined.

(** X10: with no sub-epoch at all ([T = 0]) the first event makes
    [distributeEventsToSubEpochs] throw: the clamped index is 0 and there
    is no bucket 0. *)
Theorem X10_distribution_without_buckets_throws :
  forall ev events T sph rng,
  T * sph = 0 ->
  distributeEventsToSubEpochs (ev :: events) T sph rng
  = Throw "TypeError: subEpochEvents[subEpoch] is undefined".
Proof.
  intros ev events T sph rng Hz. unfold distributeEventsToSubEpochs.
  rewrite Hz. cbn [repeat distributeLoop].
  destruct (Rng.next rng) as [u rng1]. unfold push_atZ.
  destruct (_ <? 0)%Z; [reflexivity|].
  destruct (Z.to_nat _); reflexivity.
Qed.

(** X10 for an event stamped like [Date.now()]. *)
Lemma X10_distribution_witness :
  distributeEventsToSubEpochs Scenario.lateEvent 0 6 42
  = Throw "TypeError: subEpochEvents[subEpoch] is undefined".
Proof.
  apply (@X10_distribution_without_buckets_throws
           (Temporal.mkEvent 0 1700000000000) [] 0 6 42).
  reflexivity.
Defined.

(** [l'] has the buckets of [l], each with further elements of [pool] at
    its end. *)
Definition extends (pool : list nat) (l l' : list (list nat)) : Prop :=
  length l' = length l
  /\ forall i, exists extra,
       nth i l' [] = nth i l [] ++ extra /\ incl extra pool.

Lemma extends_refl : forall pool l, extends pool l l.
Proof.
  intros pool l. split; [reflexivity|]. intros i. exists [].
  split; [now rewrite app_nil_r|]. intros x [].
Qed.

Lemma extends_trans : forall pool l1 l2 l3,
  extends pool l1 l2 -> extends pool l2 l3 -> extends pool l1 l3.
Proof.
  intros pool l1 l2 l3 [L1 E1] [L2 E2]. split; [congruence|].
  intros i. destruct (E1 i) as [x1 [H1 I1]]. destruct (E2 i) as [x2 [H2 I2]].
  exists (x1 ++ x2). split; [rewrite H2, H1, app_assoc; reflexivity|].
  now apply incl_app.
Qed.

Lemma push_at_extends : forall pool (l l' : list (list nat)) i x,
  In x pool -> push_at i x l = Some l' -> extends pool l l'.
Proof.
  intros pool l l' i x Hx H. split; [now apply push_at_perm in H|].
  revert l' i H. induction l as [|b l IH]; intros l' i H;
    [destruct i; discriminate|].
  destruct i as [|i]; cbn [push_at] in H.
  - inversion H; subst. intros [|j]; cbn [nth].
    + exists [x]. split; [reflexivity|]. intros y [<-|[]]. exact Hx.
    + exists []. split; [now rewrite app_nil_r|]. intros y [].
  - destruct (push_at i x l) as [l1|] eqn:E; [|discriminate].
    inversion H; subst. intros [|j]; cbn [nth].
    + exists []. split; [now rewrite app_nil_r|]. intros y [].
    + apply (IH l1 i E).
Qed.

Lemma burstCopies_extends : forall pool count se userId buckets rng b' rng',
  In userId pool ->
  burstCopies count se userId buckets rng = Ok (b', rng') ->
  extends pool buckets b'.
Proof.
  intros pool. induction count as [|k IH];
    intros se userId buckets rng b' rng' Hu H; cbn [burstCopies] in H.
  - inversion H; subst. apply extends_refl.
  - destruct (Rng.next rng) as [u rng1].
    destruct (_ <? Z.of_nat (length buckets))%Z; [|eapply IH; eassumption].
    unfold push_atZ in H. destruct (_ <? 0)%Z; [discriminate|].
    destruct (push_at _ userId buckets) as [b1|] eqn:E; [|discriminate].
    eapply extends_trans; [eapply push_at_extends; eassumption|].
    eapply IH; eassumption.
Qed.

Lemma extends_In : forall pool l l' i x,
  extends pool l l' -> incl (concat l) pool ->
  nth_error (nth i l' []) x <> None ->
  forall u, nth_error (nth i l' []) x = Some u -> In u pool.
Proof.
  intros pool l l' i x [_ E] Hl _ u Hu. destruct (E i) as [extra [Hn Hi]].
  apply nth_error_In in Hu. rewrite Hn in Hu. apply in_app_or in Hu.
  destruct Hu as [Hu|Hu]; [|now apply Hi].
  apply Hl. destruct (Nat.lt_ge_cases i (length l)) as [Hlt|Hge].
  - apply in_concat. exists (nth i l []). split; [now apply nth_In|exact Hu].
  - rewrite nth_overflow in Hu by lia. contradiction.
Qed.

Lemma burstBucket_extends : forall pool l fuel se j buckets rng b' rng',
  extends pool l buckets -> incl (concat l) pool ->
  burstBucket fuel se j buckets rng = Ok (b', rng') ->
  extends pool l b'.
Proof.
  intros pool l. induction fuel as [|fuel IH];
    intros se j buckets rng b' rng' He Hl H; cbn [burstBucket] in H;
    [discriminate|].
  destruct (nth_error (nth se buckets []) j) as [userId|] eqn:Hu.
  2:{ inversion H; subst. exact He. }
  assert (Hin : In userId pool).
  { eapply (@extends_In pool l buckets se j); eauto. congruence. }
  destruct (Rng.next rng) as [u rng1].
  destruct (Qltb u (2 # 10)); [|eapply IH; eassumption].
  destruct (Rng.next rng1) as [v rng2].
  destruct (burstCopies _ se userId buckets rng2) as [[b1 r1]| |] eqn:E;
    cbn [bind fst snd] in H; try discriminate.
  apply (@burstCopies_extends pool) in E; [|exact Hin].
  eapply IH; [|exact Hl|exact H]. eapply extends_trans; eassumption.
Qed.

Lemma burstsFrom_extends : forall pool l fuel count se buckets rng b' rng',
  extends pool l buckets -> incl (concat l) pool ->
  burstsFrom fuel count se buckets rng = Ok (b', rng') ->
  extends pool l b'.
Proof.
  intros pool l fuel. induction count as [|k IH];
    intros se buckets rng b' rng' He Hl H; cbn [burstsFrom] in H.
  - inversion H; subst. exact He.
  - destruct (burstBucket fuel se 0 buckets rng) as [[b1 r1]| |] eqn:E;
      cbn [bind fst snd] in H; try discriminate.
    eapply IH; [|exact Hl|exact H].
    eapply burstBucket_extends; eassumption.
Qed.

(** X11: [addMessageBursts] only adds: when it returns, there are as many
    buckets as before, every bucket starts with its former content in its
    former order, and what was appended are users that already had an
    event. *)
Theorem X11_bursts_only_append :
  forall fuel subEpochEvents rng buckets rng',
  addMessageBursts fuel subEpochEvents rng = Ok (buckets, rng') ->
  length buckets = length subEpochEvents
  /\ forall i, exists extra,
       nth i buckets [] = nth i subEpochEvents [] ++ extra
       /\ incl extra (concat subEpochEvents).
Proof.
  intros fuel subEpochEvents rng buckets rng' H.
  unfold addMessageBursts in H.
  apply (@burstsFrom_extends (concat subEpochEvents) subEpochEvents) in H;
    [exact H|apply extends_refl|apply incl_refl].
Qed.

(** X11 for one bucket with the users 5 and 8 and seed 3. *)
Lemma X11_bursts_witness :
  exists buckets rng',
    addMessageBursts 50 [[5; 8]; []] 3 = Ok (buckets, rng')
    /\ length buckets = 2
    /\ forall i, exists extra,
         nth i buckets [] = nth i [[5; 8]; []] [] ++ extra
         /\ incl extra (concat [[5; 8]; []]).
Proof.
  eexists. eexists. split; [vm_compute; reflexivity|].
  refine (@X11_bursts_only_append 50 [[5; 8]; []] 3 _ _ _).
  vm_compute. reflexivity.
Defined.

End BucketFacts.

(** * Hop times, the diversity tracker and the reply queues *)

Section HopFacts.
Import Network.

Lemma recordHops_step : forall T e a b (p : list nat) flc hops,
  recordHops T e (a :: b :: p) flc hops
  = if T <=? e then (flc, hops)
    else recordHops T (S e) (b :: p) (bumpLink flc e (linkKey a b))
                    (hops ++ [e]).
Proof. reflexivity. Qed.

Lemma recordHops_times : forall T (p : list nat) epochIdx flc hops,
  snd (recordHops T epochIdx p flc hops)
  = hops ++ seq_from epochIdx (Nat.min (length p - 1) (T - epochIdx)).
Proof.
  intros T p. induction p as [|a p IH]; intros epochIdx flc hops.
  - cbn. now rewrite app_nil_r.
  - destruct p as [|b p].
    + cbn. now rewrite app_nil_r.
    + rewrite recordHops_step.
      destruct (Nat.leb_spec T epochIdx) as [Hle|Hlt].
      * cbn [snd]. replace (T - epochIdx) with 0 by lia.
        rewrite Nat.min_0_r. cbn. now rewrite app_nil_r.
      * rewrite IH. rewrite <- app_assoc. f_equal.
        cbn [length]. replace (T - epochIdx) with (S (T - S epochIdx)) by lia.
        replace (S (S (length p)) - 1) with (S (S (length p) - 1)) by lia.
        rewrite <- Nat.succ_min_distr. reflexivity.
Qed.

Lemma bumpLink_length : forall flc epochIdx key,
  length (bumpLink flc epochIdx key) = length flc.
Proof.
  induction flc as [|m flc IH]; intros [|i] key; cbn [bumpLink length]; auto.
Qed.

Lemma recordHops_length : forall T (p : list nat) epochIdx flc hops,
  length (fst (recordHops T epochIdx p flc hops)) = length flc.
Proof.
  intros T p. induction p as [|a p IH]; intros epochIdx flc hops;
    [reflexivity|].
  destruct p as [|b p]; [reflexivity|].
  rewrite recordHops_step. destruct (T <=? epochIdx); [reflexivity|].
  rewrite IH. apply bumpLink_length.
Qed.

(** X12: the record that [run] logs for a message sent at epoch [t] along
    [path] carries the hop times [t, t + 1, ...], one for each hop of the
    path, cut off at the horizon [T]; a path of one node has no hop. *)
Theorem X12_hop_times :
  forall T t s senderId recipientId idd p isDummy isRep s',
  logMessage T t s senderId recipientId idd p isDummy isRep = Ok s' ->
  exists m,
    push_at t m (sentLog s) = Some (sentLog s')
    /\ path m = p /\ m_t m = t
    /\ hopTimes m = seq_from t (Nat.min (length p - 1) (T - t))
    /\ length (futureLinkCounts s') = length (futureLinkCounts s).
Proof.
  intros T t s senderId recipientId idd p isDummy isRep s' H.
  unfold logMessage in H.
  pose proof (recordHops_times T p t (futureLinkCounts s) []) as Hh.
  pose proof (recordHops_length T p t (futureLinkCounts s) []) as Hl.
  destruct (recordHops T t p (futureLinkCounts s) []) as [flc hops].
  cbn [fst snd app] in Hh, Hl.
  destruct (push_at t _ (sentLog s)) as [log|] eqn:Hp; [|discriminate].
  inversion H; subst. eexists. split; [exact Hp|].
  cbn [path m_t hopTimes futureLinkCounts]. auto.
Qed.

(** X12 for a path of four nodes sent at epoch 1 with [T = 3]: the hops of
    the epochs 1 and 2 are kept, the third is cut off. *)
Lemma X12_hop_times_witness :
  let s0 := initialState (Scenario.plain 3 42 3) [[]; []; []; []] None 42 in
  exists s',
    logMessage 3 1 s0 0 3 0 [0; 1; 2; 3] false false = Ok s'
    /\ exists m,
         push_at 1 m (sentLog s0) = Some (sentLog s')
         /\ path m = [0; 1; 2; 3] /\ m_t m = 1
         /\ hopTimes m = seq_from 1 (Nat.min (length [0; 1; 2; 3] - 1) (3 - 1))
         /\ length (futureLinkCounts s') = length (futureLinkCounts s0).
Proof.
  intros s0. eexists. split; [vm_compute; reflexivity|].
  refine (@X12_hop_times 3 1 s0 0 3 0%Q [0; 1; 2; 3] false false _ _).
  vm_compute. reflexivity.
Defined.

(** [nodeUsage.get(n) || 0]. *)
Definition usage (tr : Tracker) (n : nat) : nat :=
  or_else (map_get Nat.eqb (nodeUsage tr) n) 0.

Lemma usage_fold : forall (p : list nat) nu n,
  or_else (map_get Nat.eqb
             (fold_left
                (fun nu node =>
                   map_set Nat.eqb nu node
                           (or_else (map_get Nat.eqb nu node) 0 + 1))
                p nu) n) 0
  = or_else (map_get Nat.eqb nu n) 0 + count_occ Nat.eq_dec p n.
Proof.
  induction p as [|a p IH]; intros nu n; cbn [fold_left count_occ]; [lia|].
  rewrite IH. destruct (Nat.eq_dec a n) as [->|Hne].
  - rewrite map_get_set_same_nat. cbn [or_else]. lia.
  - rewrite map_get_set_other_nat by congruence. reflexivity.
Qed.

Lemma usageScore_pos : forall u,
  (0 < 1 + inject_Z (Z.of_nat u) * (1 # 10))%Q.
Proof.
  intros u. apply Qlt_le_trans with 1%Q; [reflexivity|].
  rewrite <- (Qplus_0_r 1) at 1. apply Qplus_le_r.
  apply Qmult_le_0_compat; [|discriminate].
  change 0%Q with (inject_Z 0). rewrite <- Zle_Qle. lia.
Qed.

Lemma usageScore_range : forall u,
  (0 < usageScore u)%Q /\ (usageScore u <= 1)%Q.
Proof.
  intros u. unfold usageScore, Qdiv. rewrite Qmult_1_l. split.
  - apply Qinv_lt_0_compat, usageScore_pos.
  - apply Qle_shift_inv_r; [apply usageScore_pos|].
    rewrite Qmult_1_l. rewrite <- (Qplus_0_r 1) at 1. apply Qplus_le_r.
    apply Qmult_le_0_compat; [|discriminate].
    change 0%Q with (inject_Z 0). rewrite <- Zle_Qle. lia.
Qed.

Lemma usageScore_decreases : forall u u',
  u < u' -> (usageScore u' < usageScore u)%Q.
Proof.
  intros u u' H. unfold usageScore, Qdiv. rewrite !Qmult_1_l.
  apply (proj1 (Qinv_lt_contravar _ _ (usageScore_pos u) (usageScore_pos u'))).
  apply Qplus_lt_r. apply Qmult_lt_compat_r; [reflexivity|].
  rewrite <- Zlt_Qlt. lia.
Qed.

(** X13: recording a path raises the usage count of each node by the
    number of times it occurs in the path; the diversity score of a node
    lies in (0, 1], drops strictly for every node of the path and is
    unchanged for every other node. *)
Theorem X13_recordPath_lowers_scores : forall tr (p : list nat) n,
  usage (recordPath tr p) n = usage tr n + count_occ Nat.eq_dec p n
  /\ (0 < getNodeScore (recordPath tr p) n)%Q
  /\ (getNodeScore (recordPath tr p) n <= 1)%Q
  /\ (In n p -> (getNodeScore (recordPath tr p) n < getNodeScore tr n)%Q)
  /\ (~ In n p -> getNodeScore (recordPath tr p) n = getNodeScore tr n).
Proof.
  intros tr p n.
  assert (Hu : usage (recordPath tr p) n
               = usage tr n + count_occ Nat.eq_dec p n).
  { unfold usage, recordPath. cbn [nodeUsage]. apply usage_fold. }
  split; [exact Hu|]. unfold getNodeScore. fold (usage (recordPath tr p) n).
  fold (usage tr n). split; [apply usageScore_range|].
  split; [apply usageScore_range|]. split.
  - intros Hin. apply usageScore_decreases. rewrite Hu.
    apply (count_occ_In Nat.eq_dec) in Hin. lia.
  - intros Hnot. rewrite Hu.
    apply (count_occ_not_In Nat.eq_dec) in Hnot. rewrite Hnot.
    now rewrite Nat.add_0_r.
Qed.

End HopFacts.

Section QueueFacts.
Import Network.

Lemma nth_set_nth : forall (A : Type) (l : list (list A)) i q,
  nth i (set_nth i q l) [] = if i <? length l then q else [].
Proof.
  induction l as [|b l IH]; intros [|i] q; cbn [set_nth nth length];
    try reflexivity.
  rewrite IH. reflexivity.
Qed.

(** X14: after the turn of a user at sub-epoch [se], its queue holds only
    entries due after [se].  An entry due before [se] (a reply can be
    scheduled into a sub-epoch of the current epoch that is already over)
    is thus discarded without being sent: when no entry is due at [se], the
    turn leaves the log, the calls on the adversary and the threads as they
    are. *)
Theorem X14_queue_after_a_turn :
  forall Math_random g tm opt se t s uid s',
  processUser Math_random g tm opt se t s uid = Ok s' ->
  (forall e, In e (queue_of s' uid) -> (Z.of_nat se < subEpoch e)%Z)
  /\ ((forall e, In e (queue_of s uid) -> subEpoch e <> Z.of_nat se) ->
      sentLog s' = sentLog s /\ calls s' = calls s
      /\ activeThreads s' = activeThreads s /\ draws s' = draws s).
Proof.
  intros Math_random g tm opt se t s uid s' H. unfold processUser in H.
  cbv zeta in H.
  destruct (foldM (processReply Math_random g tm opt t uid) _ s)
    as [s1| |] eqn:Hf; cbn [bind] in H; try discriminate.
  inversion H; subst; clear H. split.
  - intros e He. unfold queue_of in He at 1.
    cbn [replyQueues set_queues] in He. rewrite nth_set_nth in He.
    destruct (uid <? length (replyQueues s1)); [|contradiction].
    apply filter_In in He. destruct He as [_ He].
    now apply Z.ltb_lt in He.
  - intros Hno. rewrite filter_none in Hf.
    + cbn [foldM] in Hf. inversion Hf; subst. repeat split.
    + intros e He. apply Z.eqb_neq. now apply Hno.
Qed.

(** X14 on the triangle: the reply that user 1 owes user 0 after the run
    with seed 21 is due at sub-epoch 3 while the message was sent at
    sub-epoch 5; a turn of user 1 at sub-epoch 6 removes it and logs
    nothing. *)
Lemma X14_queue_witness :
  exists s s',
    Scenario.oneSend 0 21 1 = Ok s
    /\ queue_of s 1 = [mkReply 3 0 instant]
    /\ processUser (fun _ => 0%Q) Scenario.triangle []
                   (Scenario.plain 1 21 1) 6 1 s 1 = Ok s'
    /\ queue_of s' 1 = []
    /\ (forall e, In e (queue_of s' 1) -> (Z.of_nat 6 < subEpoch e)%Z)
    /\ ((forall e, In e (queue_of s 1) -> subEpoch e <> Z.of_nat 6) ->
        sentLog s' = sentLog s /\ calls s' = calls s
        /\ activeThreads s' = activeThreads s /\ draws s' = draws s).
Proof.
  eexists. eexists. split; [vm_compute; reflexivity|].
  split; [vm_compute; reflexivity|].
  split; [vm_compute; reflexivity|].
  split; [vm_compute; reflexivity|].
  refine (@X14_queue_after_a_turn (fun _ => 0%Q) Scenario.triangle []
            (Scenario.plain 1 21 1) 6 1 _ 1 _ _).
  vm_compute. reflexivity.
Defined.

End QueueFacts.

(** * The social graph: what an edge can be *)

Section WellFormedGraph.
Import SocialGraph.
Variable ids : list nat.

(** Every edge joins two different ids of [ids], and no adjacency list
    repeats a neighbour. *)
Definition well_formed (a : Adj) : Prop :=
  (forall u v, edge a u v -> u <> v /\ In u ids /\ In v ids)
  /\ forall u, NoDup (adj_get a u).

Lemma nat_add_NoDup : forall s x, NoDup s -> NoDup (nat_add s x).
Proof.
  intros s x Hs. unfold nat_add, set_add.
  destruct (set_has Nat.eqb s x) eqn:E; [exact Hs|].
  apply NoDup_app; [exact Hs|repeat constructor; intros []|].
  intros y Hy [Heq|[]]. subst y.
  apply (nat_has_In s x) in Hy. unfold nat_has in Hy. congruence.
Qed.

Lemma well_formed_add : forall a x y,
  well_formed a -> x <> y -> In x ids -> In y ids ->
  well_formed (adj_add a x y).
Proof.
  intros a x y [He Hn] Hxy Hx Hy. split.
  - intros u v Huv. apply edge_add in Huv.
    destruct Huv as [Huv|[-> ->]]; [now apply He|auto].
  - intros u. rewrite adj_get_add.
    destruct (u =? x); [apply nat_add_NoDup|]; apply Hn.
Qed.

Lemma pickAll_well_formed : forall uId tierName sel s,
  (forall c, In c sel -> fst c <> uId /\ In (fst c) ids) -> In uId ids ->
  well_formed (adj s) ->
  well_formed (adj (fold_left (pickOne uId tierName) sel s)).
Proof.
  intros uId tierName. induction sel as [|c sel IH]; intros s Hsel Hu Hs;
    cbn [fold_left]; [exact Hs|].
  apply IH; [intros c' Hc'; apply Hsel; now right|exact Hu|].
  unfold pickOne. cbn [adj].
  destruct (Hsel c (or_introl eq_refl)) as [Hne Hin].
  apply well_formed_add; auto.
Qed.

Section WithPow.
Variable Math_pow : Q -> Q -> Q.

Lemma sample_from_candidates : forall o cands kTier pk r c,
  (0 < kTier)%Z ->
  In c (fst (weightedSample Math_pow
               (formBand pk
                  (Z.max kTier (Math_floor (bandMultiplier o * inject_Z kTier)))
                  cands [])
               kTier r)) ->
  In (fst c) (map fst cands).
Proof.
  intros o cands kTier pk r c Hk Hc.
  destruct (@weightedSample_prefix Math_pow
              (formBand pk
                 (Z.max kTier (Math_floor (bandMultiplier o * inject_Z kTier)))
                 cands []) kTier r Hk) as [l [Hperm Hsel]].
  rewrite Hsel in Hc.
  assert (Hl : In c l).
  { rewrite <- (firstn_skipn (Z.to_nat kTier) l). apply in_or_app. now left. }
  eapply Permutation_in in Hl; [|exact Hperm].
  apply (in_map fst) in Hl. rewrite band_ids in Hl by lia.
  apply firstn_In in Hl. apply filter_In in Hl. tauto.
Qed.

Lemma pickTier_well_formed : forall o cands uId kTier tierName s,
  (forall x, In x (map fst cands) -> x <> uId /\ In x ids) -> In uId ids ->
  well_formed (adj s) ->
  well_formed (adj (pickTier Math_pow o cands uId kTier tierName s)).
Proof.
  intros o cands uId kTier tierName s Hc Hu Hs. unfold pickTier.
  destruct (Z.leb_spec kTier 0) as [|Hk]; [exact Hs|]. cbv zeta.
  pose proof (fun c => @sample_from_candidates o cands kTier (picked s)
                         (rng s) c Hk) as Hsel.
  destruct (weightedSample Math_pow _ kTier (rng s)) as [sel rng'].
  cbn [fst] in Hsel.
  apply pickAll_well_formed; [|exact Hu|exact Hs].
  intros c Hin. apply Hc. now apply Hsel.
Qed.

Lemma candidates_others : forall users i u x,
  NoDup (map id users) -> nth_error users i = Some u ->
  In x (map fst (candidates users i)) ->
  x <> id u /\ In x (map id users).
Proof.
  intros users i u x Hnd Hu Hx.
  unfold candidates in Hx.
  eapply Permutation_in in Hx;
    [|apply Permutation_map, js_sort_perm].
  apply in_map_iff in Hx. destruct Hx as [[y d] [Hy Hin]]. cbn [fst] in Hy.
  subst y. apply in_flat_map in Hin. destruct Hin as [j [_ Hj]].
  destruct (Nat.eqb_spec i j) as [->|Hne]; [contradiction|].
  destruct (nth_error users j) as [uj|] eqn:Huj; [|contradiction].
  destruct Hj as [Hj|[]]. inversion Hj; subst. split.
  - intros Heq. apply Hne.
    apply (proj1 (NoDup_nth_error (map id users)) Hnd).
    + apply nth_error_Some. rewrite nth_error_map, Hu. discriminate.
    + rewrite !nth_error_map, Hu, Huj. cbn. now rewrite Heq.
  - apply in_map. eapply nth_error_In. exact Huj.
Qed.

Lemma selection_well_formed : forall o users idx a tm r a' tm' r',
  ids = map id users -> NoDup ids ->
  well_formed a ->
  fold_left (selectFor Math_pow o users) idx (a, tm, r) = (a', tm', r') ->
  well_formed a'.
Proof.
  intros o users. induction idx as [|i idx IH];
    intros a tm r a' tm' r' Hids Hnd Hs Hf; cbn [fold_left] in Hf.
  - inversion Hf; subst. exact Hs.
  - destruct (selectFor Math_pow o users (a, tm, r) i) as [[a1 tm1] r1] eqn:H1.
    eapply IH; [exact Hids|exact Hnd| |exact Hf].
    unfold selectFor in H1.
    destruct (nth_error users i) as [u|] eqn:Hu;
      [|inversion H1; subst; exact Hs].
    assert (Hin : In (id u) ids).
    { rewrite Hids. apply in_map. eapply nth_error_In. exact Hu. }
    assert (Hc : forall x, In x (map fst (candidates users i)) ->
                           x <> id u /\ In x ids).
    { intros x Hx. rewrite Hids.
      apply (@candidates_others users i u x); auto. now rewrite <- Hids. }
    inversion H1; subst a1 tm1 r1; clear H1.
    repeat apply pickTier_well_formed; auto.
Qed.

Lemma reconcile_well_formed : forall u vs a tm,
  (forall v, In v vs -> v <> u /\ In v ids) -> In u ids ->
  well_formed a ->
  well_formed (fst (fold_left (reconcile u) vs (a, tm))).
Proof.
  intros u. induction vs as [|v vs IH]; intros a tm Hvs Hu Hs;
    cbn [fold_left]; [exact Hs|].
  destruct (Hvs v (or_introl eq_refl)) as [Hne Hv].
  assert (Hw : well_formed (adj_add a v u))
    by (apply well_formed_add; auto).
  unfold reconcile at 2.
  destruct (tier_get tm u v), (tier_get tm v u);
    apply IH; auto; intros x Hx; apply Hvs; now right.
Qed.

Lemma symmetrize_well_formed : forall users a tm a' tm',
  well_formed a ->
  fold_left symmetrize users (a, tm) = (a', tm') ->
  well_formed a'.
Proof.
  induction users as [|u users IH]; intros a tm a' tm' Hs Hf;
    cbn [fold_left] in Hf.
  - inversion Hf; subst. exact Hs.
  - destruct (symmetrize (a, tm) u) as [a1 tm1] eqn:H1.
    eapply IH; [|exact Hf].
    unfold symmetrize in H1. cbn [fst] in H1.
    destruct (adj_get a (id u)) as [|v0 vs] eqn:Hadj.
    + cbn in H1. inversion H1; subst. exact Hs.
    + assert (Hvs : forall v, In v (v0 :: vs) ->
                              v <> id u /\ In v ids /\ In (id u) ids).
      { intros v Hv. destruct Hs as [He _].
        destruct (He (id u) v) as [A [B C]];
          [unfold edge; now rewrite Hadj|]. auto. }
      pose proof (@reconcile_well_formed (id u) (v0 :: vs) a tm) as Hr.
      rewrite H1 in Hr. cbn [fst] in Hr. apply Hr; auto.
      * intros v Hv. destruct (Hvs v Hv) as [A [B _]]. auto.
      * destruct (Hvs v0 (or_introl eq_refl)) as [_ [_ C]]. exact C.
Qed.

Lemma bridgeLoop_well_formed :
  forall sample uId len far index toAdd a tm r a' tm' r',
  (forall v, In v far -> v <> uId /\ In v ids) -> In uId ids ->
  well_formed a ->
  bridgeLoop sample uId len far index toAdd (a, tm, r) = (a', tm', r') ->
  well_formed a'.
Proof.
  intros sample uId len. induction far as [|v far IH];
    intros index toAdd a tm r a' tm' r' Hfar Hu Hs Hb; cbn [bridgeLoop] in Hb.
  - inversion Hb; subst. exact Hs.
  - destruct (toAdd <? sample)%Z; [|inversion Hb; subst; exact Hs].
    destruct (Rng.next r) as [x r1].
    destruct (Hfar v (or_introl eq_refl)) as [Hne Hv].
    assert (Hfar' : forall w, In w far -> w <> uId /\ In w ids)
      by (intros w Hw; apply Hfar; now right).
    destruct (Qltb x _).
    + eapply IH; [exact Hfar'|exact Hu| |exact Hb].
      apply well_formed_add; auto. apply well_formed_add; auto.
    + eapply IH; [exact Hfar'|exact Hu|exact Hs|exact Hb].
Qed.

Lemma bridges_well_formed : forall o users us a tm r a' tm' r',
  ids = map id users -> incl us users ->
  well_formed a ->
  fold_left (bridgeFor o users) us (a, tm, r) = (a', tm', r') ->
  well_formed a'.
Proof.
  intros o users. induction us as [|u us IH];
    intros a tm r a' tm' r' Hids Hus Hs Hf; cbn [fold_left] in Hf.
  - inversion Hf; subst. exact Hs.
  - destruct (bridgeFor o users (a, tm, r) u) as [[a1 tm1] r1] eqn:Hb.
    eapply IH; [exact Hids|intros x Hx; apply Hus; now right| |exact Hf].
    unfold bridgeFor in Hb. destruct (Rng.next r) as [x r0].
    destruct (Qltb x (pBridge o)); [|inversion Hb; subst; exact Hs].
    eapply bridgeLoop_well_formed; [| |exact Hs|exact Hb].
    + intros v Hv. apply in_map_iff in Hv. destruct Hv as [w [<- Hw]].
      apply filter_In in Hw. destruct Hw as [Hw Hc].
      apply andb_prop in Hc. destruct Hc as [Hc _].
      apply negb_true_iff, Nat.eqb_neq in Hc. split; [exact Hc|].
      rewrite Hids. now apply in_map.
    + rewrite Hids. apply in_map. apply Hus. now left.
Qed.

Lemma mesh_well_formed : forall users o,
  ids = map id users -> NoDup ids ->
  well_formed (fst (getTieredMeshGraph Math_pow users o)).
Proof.
  intros users o Hids Hnd. unfold getTieredMeshGraph. cbv zeta.
  assert (H0 : well_formed
                 (fold_left (fun a u => map_set Nat.eqb a (id u) []) users [])).
  { split.
    - intros x y. unfold edge. rewrite empty_adj by reflexivity. intros [].
    - intros u. rewrite empty_adj by reflexivity. constructor. }
  match goal with
  | |- context [@fold_left ?A ?B (selectFor Math_pow o users) ?l ?s0] =>
      destruct (@fold_left A B (selectFor Math_pow o users) l s0)
        as [[a1 tm1] r1] eqn:H1
  end.
  apply selection_well_formed in H1; auto.
  match goal with
  | |- context [@fold_left ?A ?B symmetrize users ?s0] =>
      destruct (@fold_left A B symmetrize users s0) as [a2 tm2] eqn:H2
  end.
  apply symmetrize_well_formed in H2; [|exact H1].
  destruct (Qltb 0 (pBridge o) && (0 <? bridgeSample o)%Z).
  - match goal with
    | |- context [@fold_left ?A ?B (bridgeFor o users) users ?s0] =>
        destruct (@fold_left A B (bridgeFor o users) users s0)
          as [[a3 tm3] r3] eqn:H3
    end.
    cbn [fst]. eapply bridges_well_formed;
      [exact Hids|apply incl_refl|exact H2|exact H3].
  - exact H2.
Qed.

End WithPow.
End WellFormedGraph.

Section GraphShape.
Import SocialGraph.

(** X15: when the users have different ids, the graph returned by
    [getTieredMeshGraph] has no self-loop, links only users of the input,
    lists no neighbour twice, and records a tier for a pair exactly when
    the pair is an edge. *)
Theorem X15_graph_is_simple :
  forall (Math_pow : Q -> Q -> Q) (users : list User) (o : Options),
  NoDup (map id users) ->
  let graph := fst (getTieredMeshGraph Math_pow users o) in
  let tiers := snd (getTieredMeshGraph Math_pow users o) in
  (forall u v, In v (adj_get graph u) ->
               u <> v /\ In u (map id users) /\ In v (map id users))
  /\ (forall u, NoDup (adj_get graph u))
  /\ (forall u v, In v (adj_get graph u) <-> tier_get tiers u v <> None).
Proof.
  intros Math_pow users o Hnd graph tiers.
  destruct (@mesh_well_formed (map id users) Math_pow users o eq_refl Hnd)
    as [He Hn].
  destruct (mesh_symmetric Math_pow users o) as [Hl _].
  split; [exact He|]. split; [exact Hn|exact Hl].
Qed.

End GraphShape.

(** X15 on three users with ids 0, 1, 2 and the default options: the
    triangle. *)
Lemma X15_graph_is_simple_witness :
  let users := [SocialGraph.mkUser 0 None; SocialGraph.mkUser 1 None;
                SocialGraph.mkUser 2 None] in
  let graph :=
    fst (SocialGraph.getTieredMeshGraph (fun u _ => u) users
                                        SocialGraph.defaults) in
  let tiers :=
    snd (SocialGraph.getTieredMeshGraph (fun u _ => u) users
                                        SocialGraph.defaults) in
  (forall u v, In v (SocialGraph.adj_get graph u) ->
               u <> v /\ In u [0; 1; 2] /\ In v [0; 1; 2])
  /\ (forall u, NoDup (SocialGraph.adj_get graph u))
  /\ (forall u v, In v (SocialGraph.adj_get graph u)
                  <-> SocialGraph.tier_get tiers u v <> None).
Proof.
  intros users graph tiers.
  refine (@X15_graph_is_simple (fun u _ => u) users SocialGraph.defaults _).
  cbn. repeat constructor; cbn; intuition discriminate.
Defined.

(** * The temporal model: what it generates *)

Section SortedOutput.
Variable A : Type.
Variable le : A -> A -> Prop.
Variable before : A -> A -> bool.
Hypothesis before_le : forall x y, before x y = true -> le x y.
Hypothesis after_le : forall x y, before x y = false -> le y x.

Lemma sort_insert_HdRel : forall x y l,
  le y x -> HdRel le y l -> HdRel le y (sort_insert before x l).
Proof.
  intros x y [|z l] Hyx Hl; cbn [sort_insert]; [now constructor|].
  destruct (before z x); constructor; auto.
  now inversion Hl.
Qed.

Lemma sort_insert_Sorted : forall x l,
  Sorted le l -> Sorted le (sort_insert before x l).
Proof.
  intros x. induction l as [|y l IH]; intros Hs; cbn [sort_insert].
  - repeat constructor.
  - inversion Hs as [|? ? Hs' Hd]; subst.
    destruct (before y x) eqn:E.
    + constructor; [now apply IH|].
      apply sort_insert_HdRel; [|exact Hd]. now apply before_le.
    + constructor; [exact Hs|]. constructor. now apply after_le.
Qed.

(** A sort whose comparator decides a total order leaves the list in that
    order. *)
Lemma js_sort_Sorted : forall l, Sorted le (js_sort before l).
Proof.
  induction l as [|x l IH]; cbn [js_sort]; [constructor|].
  now apply sort_insert_Sorted.
Qed.
End SortedOutput.

Lemma Qltb_lt : forall x y : Q, Qltb x y = true <-> (x < y)%Q.
Proof.
  intros x y. unfold Qltb. rewrite negb_true_iff.
  split; intros H.
  - apply Qnot_le_lt. intros Hle. apply Qle_bool_iff in Hle. congruence.
  - destruct (Qle_bool y x) eqn:E; [|reflexivity].
    apply Qle_bool_iff in E. exfalso. now apply (Qlt_not_le x y).
Qed.


Section TemporalFacts.
Import Temporal.






End TemporalFacts.

Section MeanFacts.
Import Temporal.
Variable Math_pow : Q -> Q -> Q.

Lemma Math_round_le : forall x y : Q, (x <= y)%Q -> (Math_round x <= Math_round y)%Z.
Proof.
  intros x y H. unfold Math_round. apply Qfloor_resp_le. lra.
Qed.

(** X17: [sampleUserMeans] returns one rate for each user and uses two draws
    for each.  When the generator state is between 1 and 2^31 - 2,
    [minPerDay <= maxPerDay], and the power function keeps a number of
    [[0, 1)] within [[0, 1]], every rate lies between the rounded minimum and
    the rounded value four fifths of the way up to the maximum. *)
Theorem X17_sampled_means :
  forall numUsers o rng,
  Rng.valid rng ->
  (minPerDay o <= maxPerDay o)%Q ->
  (forall v, (0 <= v)%Q -> (v < 1)%Q ->
     (0 <= Math_pow v (skew o))%Q /\ (Math_pow v (skew o) <= 1)%Q) ->
  let means := fst (sampleUserMeans Math_pow numUsers o rng) in
  length means = numUsers
  /\ snd (sampleUserMeans Math_pow numUsers o rng) = Rng.skip (2 * numUsers) rng
  /\ forall r, In r means ->
       (Math_round (minPerDay o) <= r)%Z
       /\ (r <= Math_round (minPerDay o
                            + (maxPerDay o - minPerDay o) * (8 # 10)))%Z.
Proof.
  intros numUsers o rng Hv Hmm Hpow. cbv zeta. revert rng Hv.
  induction numUsers as [|k IH]; intros rng Hv.
  - cbn. split; [reflexivity|]. split; [reflexivity|intros r []].
  - cbn [sampleUserMeans].
    replace (2 * S k) with (S (S (2 * k))) by lia. cbn [Rng.skip].
    pose proof (rng_next_valid Hv) as [Hv1 _].
    destruct (Rng.next rng) as [u rng1]. cbn [fst snd] in *.
    pose proof (rng_next_valid Hv1) as [Hv2 [Hw0 Hw1]].
    destruct (Rng.next rng1) as [v rng2]. cbn [fst snd] in *.
    specialize (IH rng2 Hv2).
    destruct (sampleUserMeans Math_pow k o rng2) as [rest rng3].
    cbn [fst snd] in *. destruct IH as [IHl [IHs IHr]].
    split; [cbn [length]; congruence|]. split; [exact IHs|].
    intros r [<-|Hin]; [|now apply IHr].
    destruct (Hpow v Hw0 Hw1) as [Hp0 Hp1].
    set (p := Math_pow v (skew o)) in *.
    set (d := (maxPerDay o - minPerDay o)%Q).
    assert (Hd : (0 <= d)%Q) by (unfold d; lra).
    destruct (Qltb u (heavyUserFraction o)); split; apply Math_round_le.
    + assert (0 <= v * d)%Q by now apply Qmult_le_0_compat. lra.
    + assert (v * d <= 1 * d)%Q
        by (apply Qmult_le_compat_r; [now apply Qlt_le_weak|exact Hd]). lra.
    + assert (0 <= p * d)%Q by now apply Qmult_le_0_compat. lra.
    + assert (p * d <= 1 * d)%Q by now apply Qmult_le_compat_r. lra.
Qed.

End MeanFacts.

(** X17 for four users with the default options and seed 42, the power
    function replaced by the identity on its first argument. *)
Lemma X17_sampled_means_witness :
  let o := Temporal.mkMeanOpts 5 120 (6 # 10) (15 # 100) in
  let means := fst (Temporal.sampleUserMeans (fun x _ => x) 4 o 42) in
  length means = 4
  /\ snd (Temporal.sampleUserMeans (fun x _ => x) 4 o 42) = Rng.skip (2 * 4) 42
  /\ forall r, In r means -> (5 <= r)%Z /\ (r <= 97)%Z.
Proof.
  refine (@X17_sampled_means (fun x _ => x) 4
            (Temporal.mkMeanOpts 5 120 (6 # 10) (15 # 100)) 42 _ _ _).
  - unfold Rng.valid. lia.
  - discriminate.
  - intros v H0 H1. split; [exact H0|now apply Qlt_le_weak].
Defined.

(** * The adversary's keys *)

Section KeyFacts.
Import AdversaryLP.
Local Open Scope string_scope.

Fixpoint all_digits (s : string) : bool :=
  match s with
  | EmptyString => true
  | String c s' => is_digit c && all_digits s'
  end.

Lemma append_assoc : forall s1 s2 s3 : string,
  (s1 ++ s2) ++ s3 = s1 ++ (s2 ++ s3).
Proof.
  induction s1 as [|c s1 IH]; intros s2 s3; cbn [append];
    [reflexivity|now rewrite IH].
Qed.

Lemma string_of_uint_digits : forall u,
  all_digits (NilEmpty.string_of_uint u) = true.
Proof.
  induction u; cbn [NilEmpty.string_of_uint all_digits]; try reflexivity;
    rewrite IHu; reflexivity.
Qed.

Lemma to_little_uint_nonnil : forall n acc,
  acc <> Decimal.Nil -> Nat.to_little_uint n acc <> Decimal.Nil.
Proof.
  induction n as [|n IH]; intros acc H; cbn [Nat.to_little_uint]; [exact H|].
  apply IH. destruct acc; cbn; discriminate.
Qed.

Lemma to_uint_nonnil : forall n, Nat.to_uint n <> Decimal.Nil.
Proof.
  intros n H. unfold Nat.to_uint in H. apply DecimalFacts.rev_nil_inv in H.
  revert H. apply to_little_uint_nonnil. discriminate.
Qed.

Lemma str_digits : forall n, all_digits (str n) = true.
Proof.
  intros n. unfold str, NilZero.string_of_uint.
  destruct (Nat.to_uint n); try apply string_of_uint_digits. reflexivity.
Qed.

Lemma str_nonempty : forall n, exists c s, str n = String c s.
Proof.
  intros n. unfold str, NilZero.string_of_uint.
  pose proof (to_uint_nonnil n) as H.
  destruct (Nat.to_uint n); try congruence;
    cbn [NilEmpty.string_of_uint]; eauto.
Qed.

(** Reading back the decimal form of a number gives the number. *)
Lemma Number_of_str : forall n, Number_of (str n) = n.
Proof.
  intros n. unfold Number_of, str.
  rewrite NilZero.usu by apply to_uint_nonnil.
  apply DecimalNat.Unsigned.of_to.
Qed.

Lemma take_digits_dash : forall s r,
  all_digits s = true ->
  take_digits (s ++ String "-" r) = (s, String "-" r).
Proof.
  induction s as [|c s IH]; intros r H; cbn [append take_digits].
  - reflexivity.
  - cbn [all_digits] in H. apply andb_true_iff in H. destruct H as [Hc Hs].
    rewrite Hc, (IH r Hs). reflexivity.
Qed.

Lemma digit_not_dash : forall c, is_digit c = true -> Ascii.eqb c "-" = false.
Proof.
  intros c H. destruct (Ascii.eqb c "-") eqn:E; [|reflexivity].
  apply Ascii.eqb_eq in E. subst c. discriminate H.
Qed.

Lemma split_dash_nonempty : forall s, split_dash s <> [].
Proof.
  induction s as [|c s IH]; cbn [split_dash]; [discriminate|].
  destruct (split_dash s); [congruence|].
  destruct (Ascii.eqb c "-"); discriminate.
Qed.

Lemma split_dash_digits : forall s,
  all_digits s = true -> split_dash s = [s].
Proof.
  induction s as [|c s IH]; intros H; cbn [split_dash]; [reflexivity|].
  cbn [all_digits] in H. apply andb_true_iff in H. destruct H as [Hc Hs].
  rewrite (IH Hs), (digit_not_dash _ Hc). reflexivity.
Qed.

Lemma split_dash_app : forall s r,
  all_digits s = true ->
  split_dash (s ++ String "-" r) = s :: split_dash r.
Proof.
  induction s as [|c s IH]; intros r H; cbn [append].
  - cbn [split_dash]. pose proof (split_dash_nonempty r) as Hne.
    destruct (split_dash r); [congruence|]. reflexivity.
  - cbn [all_digits] in H. apply andb_true_iff in H. destruct H as [Hc Hs].
    cbn [split_dash]. rewrite (IH r Hs), (digit_not_dash _ Hc). reflexivity.
Qed.

Lemma edgeKey_min_max : forall a b,
  _edgeKey a b = str (Nat.min a b) ++ "-" ++ str (Nat.max a b).
Proof.
  intros a b. unfold _edgeKey. destruct (a <? b)%nat eqn:E.
  - apply Nat.ltb_lt in E.
    rewrite Nat.min_l, Nat.max_r by lia. reflexivity.
  - apply Nat.ltb_ge in E.
    rewrite Nat.min_r, Nat.max_l by lia. reflexivity.
Qed.

Lemma timeKey_parts : forall a b t,
  map Number_of (split_dash (_timeKey a b t))
  = [Nat.min a b; Nat.max a b; t].
Proof.
  intros a b t. unfold _timeKey. rewrite edgeKey_min_max.
  rewrite !append_assoc. cbn [append].
  rewrite (@split_dash_app _ _ (str_digits _)).
  rewrite (@split_dash_app _ _ (str_digits _)).
  rewrite (@split_dash_digits _ (str_digits _)).
  cbn [map]. now rewrite !Number_of_str.
Qed.

(** X18: the adversary's keys can be read back.  The pattern that
    [buildSocialGraphEstimate] applies to a time key finds the two node ids,
    smaller first; splitting a pair key at the dashes and reading the parts
    as numbers gives the same two ids; and two time keys are equal only for
    the same unordered pair and the same epoch. *)
Theorem X18_keys_read_back : forall a b t,
  match_pair (_timeKey a b t)
  = Some (str (Nat.min a b), str (Nat.max a b))
  /\ map Number_of (split_dash (_edgeKey a b)) = [Nat.min a b; Nat.max a b]
  /\ forall a' b' t',
       _timeKey a b t = _timeKey a' b' t'
       <-> Nat.min a b = Nat.min a' b' /\ Nat.max a b = Nat.max a' b'
           /\ t = t'.
Proof.
  intros a b t. split; [|split].
  - unfold _timeKey, match_pair. rewrite edgeKey_min_max.
    rewrite !append_assoc. cbn [append].
    rewrite (@take_digits_dash _ _ (str_digits _)).
    destruct (str_nonempty (Nat.min a b)) as [c [s Hs]]. rewrite Hs.
    rewrite (@take_digits_dash _ _ (str_digits _)).
    destruct (str_nonempty (Nat.max a b)) as [c' [s' Hs']]. rewrite Hs'.
    reflexivity.
  - rewrite edgeKey_min_max. cbn [append].
    rewrite (@split_dash_app _ _ (str_digits _)).
    rewrite (@split_dash_digits _ (str_digits _)).
    cbn [map]. now rewrite !Number_of_str.
  - intros a' b' t'. split.
    + intros H. apply (f_equal (fun k => map Number_of (split_dash k))) in H.
      rewrite !timeKey_parts in H. now inversion H.
    + intros [H1 [H2 ->]]. unfold _timeKey.
      now rewrite !edgeKey_min_max, H1, H2.
Qed.

End KeyFacts.

(** * The statistics of the cover manager *)

Section CoverBooks.
Import Network.
Variable Math_random : nat -> Q.
Variable gaussian : Q -> Q -> Q.
Variable Math_exp : Q -> Q.
Variable Math_sqrt : Q -> Q.
Variable fuel : nat.
Variable g : Graph.
Variable tm : SocialGraph.TierMap.
Variable opt : Options.

Definition realCounted (s : State) : nat :=
  match coverMgr s with Some c => realTrafficCounted c | None => 0 end.

Definition coverGenerated (s : State) : nat :=
  match coverMgr s with Some c => coverTrafficGenerated c | None => 0 end.

Definition isReal (m : Message) : bool := negb (dummy m).

Definition reals (s : State) : nat := length (filter isReal (allMessages s)).

Definition dummies (s : State) : nat := length (filter dummy (allMessages s)).

(** From [s] to [s'] the log gains [dr] real records and [dd] dummies, and a
    manager, when there is one, counts [dr] more real messages and [dg] more
    cover messages. *)
Definition moved (dr dd dg : nat) (s s' : State) : Prop :=
  covering s' = covering s
  /\ reals s' = reals s + dr /\ dummies s' = dummies s + dd
  /\ realCounted s' = realCounted s + (if covering s then dr else 0)
  /\ coverGenerated s' = coverGenerated s + (if covering s then dg else 0).

Lemma moved_same : forall s s',
  coverMgr s' = coverMgr s -> sentLog s' = sentLog s -> moved 0 0 0 s s'.
Proof.
  intros s s' Hc Hl.
  unfold moved, covering, reals, dummies, realCounted, coverGenerated,
    allMessages.
  rewrite Hc, Hl. destruct (coverMgr s); repeat split; lia.
Qed.

Lemma moved_trans : forall a b c a' b' c' s1 s2 s3,
  moved a b c s1 s2 -> moved a' b' c' s2 s3 ->
  moved (a + a') (b + b') (c + c') s1 s3.
Proof.
  intros a b c a' b' c' s1 s2 s3 [A1 [A2 [A3 [A4 A5]]]] [B1 [B2 [B3 [B4 B5]]]].
  unfold moved. rewrite B1, A1, B2, A2, B3, A3, B4, A4, B5, A5, A1.
  destruct (covering s1); repeat split; lia.
Qed.

Lemma moved_real : forall s s' t m a b t',
  push_at t m (sentLog s) = Some (sentLog s') -> dummy m = false ->
  coverMgr s'
  = option_map (fun c => recordRealMessage c a b t') (coverMgr s) ->
  moved 1 0 0 s s'.
Proof.
  intros s s' t m a b t' Hp Hd Hc.
  apply push_at_perm in Hp. destruct Hp as [Hperm _].
  unfold moved, covering, reals, dummies, realCounted, coverGenerated,
    allMessages.
  rewrite Hc, (filter_length_perm isReal Hperm),
    (filter_length_perm dummy Hperm).
  cbn [filter]. unfold isReal at 1. rewrite Hd. cbn [negb length].
  destruct (coverMgr s); cbn; repeat split; lia.
Qed.

Lemma moved_dummy : forall s s' t m,
  push_at t m (sentLog s) = Some (sentLog s') -> dummy m = true ->
  coverMgr s' = coverMgr s -> moved 0 1 0 s s'.
Proof.
  intros s s' t m Hp Hd Hc.
  apply push_at_perm in Hp. destruct Hp as [Hperm _].
  unfold moved, covering, reals, dummies, realCounted, coverGenerated,
    allMessages.
  rewrite Hc, (filter_length_perm isReal Hperm),
    (filter_length_perm dummy Hperm).
  cbn [filter]. unfold isReal at 1. rewrite Hd. cbn [negb length].
  destruct (coverMgr s); cbn; repeat split; lia.
Qed.

Lemma logMessage_cover : forall t s a b idd p d r s',
  logMessage (T opt) t s a b idd p d r = Ok s' ->
  (exists m, push_at t m (sentLog s) = Some (sentLog s') /\ dummy m = d)
  /\ coverMgr s' = coverMgr s /\ adv s' = adv s.
Proof.
  intros t s a b idd p d r s' H. unfold logMessage in H.
  destruct (recordHops (T opt) t p (futureLinkCounts s) []) as [flc hops].
  destruct (push_at t _ (sentLog s)) as [log|] eqn:Hp; [|discriminate].
  inversion H; subst. cbn. split; [|split; reflexivity].
  eexists. split; [exact Hp|reflexivity].
Qed.

Lemma queueReply_cover : forall t s a b s',
  queueReply tm t s a b = Ok s' ->
  coverMgr s' = coverMgr s /\ sentLog s' = sentLog s.
Proof.
  intros t s a b s' H. unfold queueReply in H.
  destruct (scheduleReply a b t tm (rng s)) as [[[ty ep]|] rng1].
  - destruct (Rng.next rng1) as [u rng2].
    destruct (push_at a _ (replyQueues s)) as [q|]; [|discriminate].
    inversion H; subst. split; reflexivity.
  - inversion H; subst. split; reflexivity.
Qed.

Lemma call_adv_cover : forall s c f,
  coverMgr (call_adv s c f) = coverMgr s
  /\ sentLog (call_adv s c f) = sentLog s.
Proof.
  intros s c f. unfold call_adv. destruct (adv s); split; reflexivity.
Qed.

Lemma recordReal_cover : forall s a b t,
  coverMgr (recordReal s a b t)
  = option_map (fun c => recordRealMessage c a b t) (coverMgr s)
  /\ sentLog (recordReal s a b t) = sentLog s.
Proof.
  intros s a b t. unfold recordReal.
  destruct (coverMgr s) eqn:E; cbn; rewrite ?E; split; reflexivity.
Qed.

Lemma lookupThread_cover : forall s key t,
  coverMgr (lookupThread s key t) = coverMgr s
  /\ sentLog (lookupThread s key t) = sentLog s.
Proof.
  intros s key t. unfold lookupThread.
  destruct (map_get String.eqb (activeThreads s) key); split; reflexivity.
Qed.

(** A reply entry leaves the manager and the log alone, or adds one real
    record that the manager counts. *)
Lemma processReply_moved : forall t uid s reply s',
  processReply Math_random g tm opt t uid s reply = Ok s' ->
  exists dr, moved dr 0 0 s s'.
Proof.
  intros t uid s reply s' H. unfold processReply in H.
  set (key := sortedPairKey uid (to reply)) in *.
  set (s1 := set_draws s (S (draws s))) in *.
  destruct (lookupThread_cover s1 key t) as [L1 L2].
  set (s2 := lookupThread s1 key t) in *.
  cbn [s1 set_draws coverMgr sentLog] in L1, L2. clearbody s2.
  destruct (shouldContinue (threadOf s1 key) t (rng s2)) as [cont rng1].
  destruct cont.
  2:{ inversion H; subst. exists 0. now apply moved_same. }
  match type of H with
  | (if ?c then _ else _) = _ => destruct c; [discriminate|]
  end.
  match type of H with
  | bind ?c _ = _ => destruct c as [[[p|] rng2]| |]
  end; cbn [bind fst snd] in H; try discriminate.
  - destruct (logMessage (T opt) t _ uid (to reply) _ p false true)
      as [s4| |] eqn:Hlog; cbn [bind] in H; try discriminate.
    apply logMessage_cover in Hlog.
    destruct Hlog as [[m [Hpush Hd]] [Hc _]].
    cbn [set_rng add_note coverMgr sentLog] in Hpush, Hc.
    apply queueReply_cover in H. destruct H as [Q1 Q2].
    cbn [set_threads coverMgr sentLog] in Q1, Q2.
    destruct (recordReal_cover (noteSend s4 t uid) uid (to reply) t)
      as [R1 R2].
    destruct (call_adv_cover s4 (NoteSend t uid)
                (fun a => AdversaryLP.noteSend a t uid)) as [N1 N2].
    fold (noteSend s4 t uid) in N1, N2.
    exists 1. apply (@moved_real s s' t m uid (to reply) t).
    + rewrite Q2, R2, N2, <- L2. exact Hpush.
    + exact Hd.
    + rewrite Q1, R1, N1, Hc, L1. reflexivity.
  - inversion H; subst. exists 0. now apply moved_same.
Qed.

(** A new send does nothing or adds one real record that the manager
    counts. *)
Lemma processNewSend_moved : forall t s uId s',
  processNewSend Math_random g tm opt t s uId = Ok s' ->
  exists dr, moved dr 0 0 s s'.
Proof.
  intros t s uId s' H. unfold processNewSend in H.
  destruct (userCount s <=? uId).
  { inversion H; subst. exists 0. now apply moved_same. }
  destruct (length (graph_get g uId) =? 0).
  { inversion H; subst. exists 0. now apply moved_same. }
  cbv zeta in H.
  destruct (pickWeighted (graph_get g uId) _ (Math_random (draws s)))
    as [recipientId|].
  2:{ inversion H; subst. exists 0. now apply moved_same. }
  match type of H with
  | (if ?c then _ else _) = _ => destruct c; [discriminate|]
  end.
  match type of H with
  | bind ?c _ = _ => destruct c as [[[p|] rng2]| |]
  end; cbn [bind fst snd] in H; try discriminate.
  destruct (logMessage (T opt) t _ uId recipientId _ p false false)
    as [s3| |] eqn:Hlog; cbn [bind] in H; try discriminate.
  apply logMessage_cover in Hlog.
  destruct Hlog as [[m [Hpush Hd]] [Hc _]].
  cbn [set_rng set_draws coverMgr sentLog] in Hpush, Hc.
  apply queueReply_cover in H. destruct H as [Q1 Q2].
  destruct (recordReal_cover (noteSend s3 t uId) uId recipientId t)
    as [R1 R2].
  destruct (call_adv_cover s3 (NoteSend t uId)
              (fun a => AdversaryLP.noteSend a t uId)) as [N1 N2].
  fold (noteSend s3 t uId) in N1, N2.
  exists 1. apply (@moved_real s s' t m uId recipientId t).
  - rewrite Q2, R2, N2. exact Hpush.
  - exact Hd.
  - rewrite Q1, R1, N1, Hc. reflexivity.
Qed.

(** A cover message adds one dummy record and leaves the manager alone. *)
Lemma injectCover_moved : forall t s cm s',
  injectCover Math_random g opt t s cm = Ok s' -> moved 0 1 0 s s'.
Proof.
  intros t s [senderId recipientId] s' H. unfold injectCover in H.
  match type of H with
  | bind ?c _ = _ => destruct c as [[[p|] rng2]| |]
  end; cbn [bind fst snd] in H; try discriminate.
  destruct (logMessage (T opt) t _ senderId recipientId _ p true false)
    as [s2| |] eqn:Hlog; cbn [bind] in H; try discriminate.
  apply logMessage_cover in Hlog.
  destruct Hlog as [[m [Hpush Hd]] [Hc _]].
  cbn [set_rng set_draws coverMgr sentLog] in Hpush, Hc.
  inversion H; subst; clear H.
  destruct (call_adv_cover s2 (NoteSend t senderId)
              (fun a => AdversaryLP.noteSend a t senderId)) as [N1 N2].
  fold (noteSend s2 t senderId) in N1, N2.
  apply (@moved_dummy s _ t m).
  - rewrite N2. exact Hpush.
  - exact Hd.
  - rewrite N1. exact Hc.
Qed.

Lemma injectAll_moved : forall t msgs s s',
  foldM (injectCover Math_random g opt t) msgs s = Ok s' ->
  moved 0 (length msgs) 0 s s'.
Proof.
  intros t. induction msgs as [|cm msgs IH]; intros s s' H;
    cbn [foldM] in H.
  - inversion H; subst. now apply moved_same.
  - destruct (injectCover Math_random g opt t s cm) as [s1| |] eqn:H1;
      cbn [bind] in H; try discriminate.
    apply injectCover_moved in H1. apply IH in H.
    exact (moved_trans H1 H).
Qed.

(** The counters of the manager while [generateCoverTraffic] runs. *)
Definition tallied (G R : nat) (acc : CoverAcc) : Prop :=
  coverTrafficGenerated (snd (fst (fst acc)))
  = G + length (fst (fst (fst acc)))
  /\ realTrafficCounted (snd (fst (fst acc))) = R.

Lemma addCover_tallied : forall G R count nodeId neighborId ep acc,
  tallied G R acc -> tallied G R (addCover count nodeId neighborId ep acc).
Proof.
  intros G R. induction count as [|count IH];
    intros nodeId neighborId ep acc Hacc; cbn [addCover]; [exact Hacc|].
  destruct acc as [[[msgs c] r] d].
  destruct (Rng.next r) as [u r1].
  destruct (Qltb u (probabilityThreshold c)); apply IH; [|exact Hacc].
  destruct Hacc as [A1 A2]. unfold tallied in *. cbn [fst snd] in *.
  cbn. rewrite length_app. cbn [length]. split; lia.
Qed.

Lemma generateCoverTraffic_tallied : forall c ep r d msgs c' r' d',
  generateCoverTraffic Math_random gaussian Math_exp Math_sqrt fuel g c ep r d
  = Ok (msgs, c', r', d') ->
  coverTrafficGenerated c' = coverTrafficGenerated c + length msgs
  /\ realTrafficCounted c' = realTrafficCounted c.
Proof.
  intros c ep r d msgs c' r' d' H. unfold generateCoverTraffic in H.
  match type of H with
  | foldM ?f g ?a0 = _ =>
      pose proof (@foldM_invariant _ _
                    (tallied (coverTrafficGenerated c) (realTrafficCounted c))
                    f g a0 (msgs, c', r', d')) as Hinv
  end.
  apply Hinv; [| |exact H]; clear Hinv H.
  - intros acc1 e acc2 He Hacc1 Hstep.
    eapply (@foldM_invariant _ _
              (tallied (coverTrafficGenerated c) (realTrafficCounted c)));
      [|exact Hacc1|exact Hstep].
    intros a1 nb a2 Hnb Ha1 Hlink. unfold coverLink in Hlink.
    destruct (fst e <? nb); [|inversion Hlink; subst; exact Ha1].
    destruct a1 as [[[msgs1 c1] r1] d1].
    destruct (_sampleTarget gaussian c1 r1) as [target r2].
    destruct (_calculateCoverAmount Math_random gaussian Math_exp Math_sqrt
                                    fuel _ target d1) as [amt| |];
      cbn [bind] in Hlink; try discriminate.
    inversion Hlink; subst. apply addCover_tallied. exact Ha1.
  - unfold tallied. cbn [fst snd length].
    destruct (windowSize _ <=? ep); [unfold _updateAdaptiveBaseline|];
      cbv zeta; try destruct (0 <? length _); cbn; split; lia.
Qed.

Lemma coverPhase_moved : forall t s s',
  coverPhase Math_random gaussian Math_exp Math_sqrt fuel g opt t s = Ok s' ->
  exists n, moved 0 n n s s'.
Proof.
  intros t s s' H. unfold coverPhase in H.
  destruct (coverMgr s) as [c|] eqn:Hc.
  2:{ inversion H; subst. exists 0. now apply moved_same. }
  destruct (generateCoverTraffic Math_random gaussian Math_exp Math_sqrt fuel
                                 g c t (rng s) (draws s))
    as [[[[msgs c'] r'] d']| |] eqn:Hgen; cbn [bind] in H; try discriminate.
  apply generateCoverTraffic_tallied in Hgen. destruct Hgen as [G1 G2].
  apply injectAll_moved in H. exists (length msgs).
  assert (H0 : moved 0 0 (length msgs) s
                     (set_cover (set_draws (set_rng s r') d') (Some c'))).
  { unfold moved, covering, reals, dummies, realCounted, coverGenerated,
      allMessages. cbn. rewrite Hc. repeat split; lia. }
  pose proof (moved_trans H0 H) as Hm.
  cbn [Nat.add] in Hm. rewrite Nat.add_0_r in Hm. exact Hm.
Qed.

(** The manager's counters agree with the log. *)
Definition in_balance (R G : nat) (s : State) : Prop :=
  covering s = true ->
  realCounted s = R + reals s /\ coverGenerated s = G + dummies s.

Lemma moved_in_balance : forall R G dr dd s s',
  moved dr dd dd s s' -> in_balance R G s -> in_balance R G s'.
Proof.
  intros R G dr dd s s' [A1 [A2 [A3 [A4 A5]]]] Hb Hc.
  rewrite A1 in Hc. destruct (Hb Hc) as [B1 B2].
  rewrite A2, A3, A4, A5, Hc. lia.
Qed.

Lemma processUser_in_balance : forall R G se t s uid s',
  processUser Math_random g tm opt se t s uid = Ok s' ->
  in_balance R G s -> in_balance R G s'.
Proof.
  intros R G se t s uid s' H Hb. unfold processUser in H. cbv zeta in H.
  destruct (foldM (processReply Math_random g tm opt t uid) _ s)
    as [s1| |] eqn:Hf; cbn [bind] in H; try discriminate.
  inversion H; subst; clear H.
  apply (@moved_in_balance R G 0 0 s1); [now apply moved_same|].
  eapply (@foldM_invariant _ _ (in_balance R G)); [|exact Hb|exact Hf].
  intros s2 reply s3 _ Hs2 Hstep.
  destruct (processReply_moved _ _ _ _ Hstep) as [dr Hm].
  exact (moved_in_balance Hm Hs2).
Qed.

Lemma contacts_cover : forall t es s,
  coverMgr (fold_left (contactOf t) es s) = coverMgr s
  /\ sentLog (fold_left (contactOf t) es s) = sentLog s.
Proof.
  induction es as [|e es IH]; intros s; cbn [fold_left];
    [split; reflexivity|].
  destruct (IH (contactOf t s e)) as [A B]. rewrite A, B.
  apply call_adv_cover.
Qed.

Lemma materialize_cover : forall t s s',
  materialize Math_sqrt g opt t s = Ok s' ->
  coverMgr s' = coverMgr s /\ sentLog s' = sentLog s.
Proof.
  intros t s s' H. unfold materialize in H.
  destruct (noiseEdges g (userCount s) (noiseEdgesPerEpoch opt) _ (rng s))
    as [[pl r]| |]; cbn [bind] in H; try discriminate.
  inversion H; subst; clear H.
  rewrite (proj1 (call_adv_cover _ _ _)), (proj2 (call_adv_cover _ _ _)).
  rewrite (proj1 (contacts_cover _ _ _)), (proj2 (contacts_cover _ _ _)).
  split; reflexivity.
Qed.

Lemma subEpochStep_in_balance : forall R G bk s se s',
  subEpochStep Math_random gaussian Math_exp Math_sqrt fuel g tm opt bk s se
  = Ok s' ->
  in_balance R G s -> in_balance R G s'.
Proof.
  intros R G bk s se s' H Hb. unfold subEpochStep in H. cbv zeta in H.
  destruct (foldM (processUser Math_random g tm opt se _) _ s)
    as [s1| |] eqn:E1; cbn [bind] in H; try discriminate.
  assert (B1 : in_balance R G s1).
  { eapply (@foldM_invariant _ _ (in_balance R G)); [|exact Hb|exact E1].
    intros x u y _ Hx Hstep. eapply processUser_in_balance; eassumption. }
  destruct (foldM (processNewSend Math_random g tm opt _) _ s1)
    as [s2| |] eqn:E2; cbn [bind] in H; try discriminate.
  assert (B2 : in_balance R G s2).
  { eapply (@foldM_invariant _ _ (in_balance R G)); [|exact B1|exact E2].
    intros x u y _ Hx Hstep.
    destruct (processNewSend_moved _ _ _ Hstep) as [dr Hm].
    exact (moved_in_balance Hm Hx). }
  assert (B3 : exists s3, in_balance R G s3 /\
             (if (se mod subEpochsPerHour =? subEpochsPerHour - 1)
                 || (se =? T opt * subEpochsPerHour - 1)
              then materialize Math_sqrt g opt (se / subEpochsPerHour) s3
              else Ok s3) = Ok s').
  { destruct (se mod subEpochsPerHour =? 0).
    - destruct (coverPhase Math_random gaussian Math_exp Math_sqrt fuel g opt
                           _ s2) as [s3| |] eqn:E3;
        cbn [bind] in H; try discriminate.
      exists s3. split; [|exact H].
      destruct (coverPhase_moved _ _ E3) as [n Hm].
      exact (moved_in_balance Hm B2).
    - cbn [bind] in H. exists s2. split; [exact B2|exact H]. }
  destruct B3 as [s3 [B3 H3]].
  destruct (_ || _) in H3; [|now inversion H3; subst].
  apply materialize_cover in H3. destruct H3 as [C1 C2].
  apply (@moved_in_balance R G 0 0 s3); [|exact B3].
  now apply moved_same.
Qed.

Lemma in_balance_run : forall users events a s,
  simulate Math_random gaussian Math_exp Math_sqrt fuel g tm opt users events a
  = Ok s ->
  in_balance (match cover opt with Some c => realTrafficCounted c | None => 0 end)
           (match cover opt with
            | Some c => coverTrafficGenerated c
            | None => 0
            end) s
  /\ covering s = match cover opt with Some _ => true | None => false end.
Proof.
  intros users events a s H.
  pose proof (@books_run Math_random gaussian Math_exp Math_sqrt fuel g tm opt
                         users events a s H) as [_ [Hcov _]].
  split; [|exact Hcov].
  unfold simulate in H.
  destruct (distributeEventsToSubEpochs events (T opt) subEpochsPerHour
                                        (seed opt))
    as [[bk r]| |]; cbn [bind] in H; try discriminate.
  destruct (addMessageBursts fuel _ _) as [[bk' r']| |];
    cbn [bind] in H; try discriminate.
  eapply (@foldM_invariant _ _ (in_balance _ _)); [| |exact H].
  - intros x se y _ Hx Hstep. eapply subEpochStep_in_balance; eassumption.
  - unfold in_balance, covering, realCounted, coverGenerated, reals, dummies,
      allMessages. cbn. rewrite concat_repeat_nil. cbn.
    destruct (cover opt); [split; lia|discriminate].
Qed.

End CoverBooks.

Section CoverStatistics.
Import Network.

(** X19: at the end of a run with cover traffic the manager's two counters
    agree with the log.  [realTrafficCounted] has grown by the number of
    records that are not dummies, and [coverTrafficGenerated] by the number
    of dummies, which is the dummy count of the driver's cost report: every
    cover message that the manager generated was logged. *)
Theorem X19_cover_statistics :
  forall Math_random gaussian Math_exp Math_sqrt fuel g tm opt users events
         a c0 s,
  cover opt = Some c0 ->
  simulate Math_random gaussian Math_exp Math_sqrt fuel g tm opt users events a
  = Ok s ->
  exists c,
    coverMgr s = Some c
    /\ realTrafficCounted c
       = realTrafficCounted c0
         + length (filter (fun m => negb (dummy m)) (allMessages s))
    /\ coverTrafficGenerated c
       = coverTrafficGenerated c0
         + Driver.dummyMessages (Driver.computeCost (sentLog s)).
Proof.
  intros Math_random gaussian Math_exp Math_sqrt fuel g tm opt users events
         a c0 s Hc H.
  destruct (@in_balance_run Math_random gaussian Math_exp Math_sqrt fuel g tm
                            opt users events a s H) as [Hb Hcov].
  rewrite Hc in Hb, Hcov. specialize (Hb Hcov). destruct Hb as [B1 B2].
  unfold covering in Hcov. unfold realCounted in B1.
  unfold coverGenerated in B2.
  destruct (coverMgr s) as [c|]; [|discriminate].
  exists c. split; [reflexivity|]. split; [exact B1|].
  rewrite B2. now rewrite (proj2 (computeCost_counts (sentLog s))).
Qed.

(** X19 on the covered hour: twenty dummies and one real record. *)
Lemma X19_cover_statistics_witness :
  exists s c,
    Scenario.coveredHour = Ok s
    /\ coverMgr s = Some c
    /\ realTrafficCounted c = 1 /\ coverTrafficGenerated c = 20
    /\ Driver.dummyMessages (Driver.computeCost (sentLog s)) = 20.
Proof.
  eexists.
  destruct (@X19_cover_statistics
              (fun _ => (9 # 10)%Q) (fun _ _ => 3%Q) (fun _ => (1 # 3)%Q)
              Scenario.noMath 100 Scenario.triangle []
              (mkOptions 1 42 1 defaultWeights 0 (Some Scenario.lightCover))
              [[]; []; []] Scenario.lateEvent None Scenario.lightCover _
              eq_refl ltac:(vm_compute; reflexivity))
    as [c [E1 [E2 E3]]].
  exists c. split; [vm_compute; reflexivity|]. split; [exact E1|].
  split; [rewrite E2; vm_compute; reflexivity|].
  split; [rewrite E3; vm_compute; reflexivity|vm_compute; reflexivity].
Defined.

End CoverStatistics.

(** * The driver's comparison of two graphs *)

Section CompareFacts.
Import Driver.

Lemma set_has_In : forall (s : list string) x,
  set_has String.eqb s x = true <-> In x s.
Proof.
  intros s x. unfold set_has. rewrite existsb_exists. split.
  - intros [y [Hy He]]. apply String.eqb_eq in He. now subst.
  - intros H. exists x. split; [exact H|apply String.eqb_refl].
Qed.

Lemma set_add_In : forall (s : list string) x y,
  In y (set_add String.eqb s x) <-> In y s \/ y = x.
Proof.
  intros s x y. unfold set_add.
  destruct (set_has String.eqb s x) eqn:E.
  - apply set_has_In in E. split; [auto|]. intros [H| ->]; auto.
  - rewrite in_app_iff. cbn [In]. split.
    + intros [H|[H|[]]]; auto.
    + intros [H| ->]; auto.
Qed.

Lemma set_add_NoDup : forall (s : list string) x,
  NoDup s -> NoDup (set_add String.eqb s x).
Proof.
  intros s x H. unfold set_add.
  destruct (set_has String.eqb s x) eqn:E; [exact H|].
  apply (@Permutation_NoDup _ (x :: s)); [apply Permutation_cons_append|].
  constructor; [|exact H].
  intros Hin. apply set_has_In in Hin. congruence.
Qed.

(** The key of the pair [(a, b)] as the driver writes it. *)
Definition pairKey (a b : nat) : string := (str a ++ "-" ++ str b)%string.

Lemma pairKey_parts : forall a b,
  map Number_of (AdversaryLP.split_dash (pairKey a b)) = [a; b].
Proof.
  intros a b. unfold pairKey. cbn [append].
  rewrite (@split_dash_app _ _ (str_digits _)).
  rewrite (@split_dash_digits _ (str_digits _)).
  cbn [map]. now rewrite !Number_of_str.
Qed.

Lemma pairKey_inj : forall a b a' b',
  pairKey a b = pairKey a' b' -> a = a' /\ b = b'.
Proof.
  intros a b a' b' H.
  apply (f_equal (fun k => map Number_of (AdversaryLP.split_dash k))) in H.
  rewrite !pairKey_parts in H. now inversion H.
Qed.

(** The keys that the inner loop adds for the entry [(a, ns)]. *)
Lemma edges_of_entry : forall a ns acc k,
  In k (fold_left
          (fun acc' neighbor =>
             if a <? neighbor
             then set_add String.eqb acc' (pairKey a neighbor)
             else acc')
          ns acc)
  <-> In k acc \/ exists b, In b ns /\ a < b /\ k = pairKey a b.
Proof.
  intros a. induction ns as [|n ns IH]; intros acc k; cbn [fold_left].
  - split; [auto|]. intros [H|[b [[] _]]]. exact H.
  - rewrite IH. destruct (Nat.ltb_spec a n) as [Hlt|Hge].
    + rewrite set_add_In. split.
      * intros [[H|Hk]|[b [Hb [Hab Hk]]]].
        -- now left.
        -- right. exists n. cbn [In]. auto.
        -- right. exists b. cbn [In]. auto.
      * intros [H|[b [[Hn|Hb] [Hab Hk]]]].
        -- left. now left.
        -- left. right. now subst.
        -- right. exists b. auto.
    + split.
      * intros [H|[b [Hb [Hab Hk]]]].
        -- now left.
        -- right. exists b. cbn [In]. auto.
      * intros [H|[b [[Hn|Hb] [Hab Hk]]]].
        -- now left.
        -- subst. lia.
        -- right. exists b. auto.
Qed.

Lemma edges_of_entry_NoDup : forall a ns acc,
  NoDup acc ->
  NoDup (fold_left
           (fun acc' neighbor =>
              if a <? neighbor
              then set_add String.eqb acc' (pairKey a neighbor)
              else acc')
           ns acc).
Proof.
  intros a. induction ns as [|n ns IH]; intros acc H; cbn [fold_left];
    [exact H|].
  apply IH. destruct (a <? n); [now apply set_add_NoDup|exact H].
Qed.

Lemma edgeSet_fold : forall graph acc k,
  In k (fold_left
          (fun acc e =>
             fold_left
               (fun acc' neighbor =>
                  if fst e <? neighbor
                  then set_add String.eqb acc' (pairKey (fst e) neighbor)
                  else acc')
               (snd e) acc)
          graph acc)
  <-> In k acc
      \/ exists a ns b, In (a, ns) graph /\ In b ns /\ a < b
                        /\ k = pairKey a b.
Proof.
  induction graph as [|[a ns] graph IH]; intros acc k; cbn [fold_left].
  - split; [auto|]. intros [H|[a [ns [b [[] _]]]]]. exact H.
  - rewrite IH. cbn [fst snd]. rewrite edges_of_entry. split.
    + intros [[H|[b [Hb [Hab Hk]]]]|[a' [ns' [b [Hg [Hb [Hab Hk]]]]]]].
      * now left.
      * right. exists a, ns, b. cbn [In]. auto.
      * right. exists a', ns', b. cbn [In]. auto.
    + intros [H|[a' [ns' [b [[Heq|Hg] [Hb [Hab Hk]]]]]]].
      * left. now left.
      * inversion Heq; subst. left. right. exists b. auto.
      * right. exists a', ns', b. auto.
Qed.

Lemma edgeSet_fold_NoDup : forall graph acc,
  NoDup acc ->
  NoDup (fold_left
           (fun acc e =>
              fold_left
                (fun acc' neighbor =>
                   if fst e <? neighbor
                   then set_add String.eqb acc' (pairKey (fst e) neighbor)
                   else acc')
                (snd e) acc)
           graph acc).
Proof.
  induction graph as [|e graph IH]; intros acc H; cbn [fold_left];
    [exact H|].
  apply IH. now apply edges_of_entry_NoDup.
Qed.

Lemma edgeSet_NoDup : forall graph, NoDup (edgeSet graph).
Proof. intros graph. apply edgeSet_fold_NoDup. constructor. Qed.

(** X20: the edges that [compareGraphs] compares.  The pair [(a, b)] is an
    edge of a graph exactly when [a < b] and [b] is listed under [a]; an
    edge listed only under its larger endpoint is not counted.  No edge is
    held twice. *)
Theorem X20_compared_edges : forall graph,
  NoDup (edgeSet graph)
  /\ (forall a b,
        In (pairKey a b) (edgeSet graph)
        <-> a < b /\ exists ns, In (a, ns) graph /\ In b ns)
  /\ (forall k, In k (edgeSet graph) -> exists a b, k = pairKey a b).
Proof.
  intros graph. split; [|split].
  - apply edgeSet_NoDup.
  - intros a b. unfold edgeSet. fold pairKey.
    change (fun acc e => fold_left _ (snd e) acc)
      with (fun acc (e : nat * list nat) =>
              fold_left
                (fun acc' neighbor =>
                   if fst e <? neighbor
                   then set_add String.eqb acc' (pairKey (fst e) neighbor)
                   else acc')
                (snd e) acc).
    rewrite edgeSet_fold. split.
    + intros [[]|[a' [ns [b' [Hg [Hb [Hab Hk]]]]]]].
      apply pairKey_inj in Hk. destruct Hk as [-> ->]. eauto.
    + intros [Hab [ns [Hg Hb]]]. right. exists a, ns, b. auto.
  - intros k Hk. apply (proj1 (edgeSet_fold graph [] k)) in Hk.
    destruct Hk as [[]|[a [ns [b [_ [_ [_ ->]]]]]]]. eauto.
Qed.

Lemma filter_split_length : forall (A : Type) (f : A -> bool) l,
  length (filter f l) + length (filter (fun x => negb (f x)) l) = length l.
Proof.
  induction l as [|x l IH]; [reflexivity|]. cbn [filter].
  destruct (f x); cbn [negb length]; lia.
Qed.

Lemma common_length : forall l1 l2 : list string,
  NoDup l1 -> NoDup l2 ->
  length (filter (fun e => set_has String.eqb l2 e) l1)
  = length (filter (fun e => set_has String.eqb l1 e) l2).
Proof.
  intros l1 l2 H1 H2. apply Permutation_length.
  apply NoDup_Permutation; try now apply NoDup_filter.
  intros x. rewrite !filter_In, !set_has_In. tauto.
Qed.

Lemma ratio_range : forall a b, a <= b -> (0 <= ratio a b)%Q /\ (ratio a b <= 1)%Q.
Proof.
  intros a b H. unfold ratio. destruct (Nat.eqb_spec b 0) as [->|Hb].
  - split; discriminate.
  - assert (Hpos : (0 < inject_Z (Z.of_nat b))%Q).
    { change 0%Q with (inject_Z 0). rewrite <- Zlt_Qlt. lia. }
    split.
    + apply Qle_shift_div_l; [exact Hpos|]. rewrite Qmult_0_l.
      change 0%Q with (inject_Z 0). rewrite <- Zle_Qle. lia.
    + apply Qle_shift_div_r; [exact Hpos|]. rewrite Qmult_1_l.
      rewrite <- Zle_Qle. lia.
Qed.

Lemma ratio_full : forall a, a <> 0 -> (ratio a a == 1)%Q.
Proof.
  intros a H. unfold ratio. destruct (Nat.eqb_spec a 0) as [->|_]; [lia|].
  apply Qmult_inv_r. change 0%Q with (inject_Z 0). rewrite inject_Z_injective.
  lia.
Qed.

Lemma f1_range : forall p r : Q,
  (0 <= p)%Q -> (p <= 1)%Q -> (0 <= r)%Q -> (r <= 1)%Q ->
  let f1 := if Qltb 0 (p + r) then (2 * (p * r) / (p + r))%Q else 0%Q in
  (0 <= f1)%Q /\ (f1 <= 1)%Q.
Proof.
  intros p r Hp0 Hp1 Hr0 Hr1. cbv zeta.
  destruct (Qltb 0 (p + r)) eqn:E; [|split; discriminate].
  apply Qltb_lt in E. split.
  - apply Qle_shift_div_l; [exact E|]. rewrite Qmult_0_l.
    assert (0 <= p * r)%Q by now apply Qmult_le_0_compat. lra.
  - apply Qle_shift_div_r; [exact E|]. nra.
Qed.

(** X21: the counts and scores of [compareGraphs].  True and false positives
    add up to the estimated edges, true positives and false negatives to the
    actual edges; precision, recall and F1 lie between 0 and 1; exchanging
    the two graphs keeps the true positives and exchanges false positives
    with false negatives. *)
Theorem X21_compareGraphs_scores : forall estimatedGraph actualGraph,
  let r := compareGraphs estimatedGraph actualGraph in
  let r' := compareGraphs actualGraph estimatedGraph in
  truePositives r + falsePositives r = length (edgeSet estimatedGraph)
  /\ truePositives r + falseNegatives r = length (edgeSet actualGraph)
  /\ (0 <= precision r)%Q /\ (precision r <= 1)%Q
  /\ (0 <= recall r)%Q /\ (recall r <= 1)%Q
  /\ (0 <= f1Score r)%Q /\ (f1Score r <= 1)%Q
  /\ truePositives r' = truePositives r
  /\ falsePositives r' = falseNegatives r
  /\ falseNegatives r' = falsePositives r.
Proof.
  intros est act. cbv zeta. unfold compareGraphs.
  cbn [truePositives falsePositives falseNegatives precision recall f1Score].
  pose proof (edgeSet_NoDup est) as Ne.
  pose proof (edgeSet_NoDup act) as Na.
  set (E := edgeSet est) in *. set (A := edgeSet act) in *.
  pose proof (filter_split_length (fun e => set_has String.eqb A e) E) as H1.
  pose proof (filter_split_length (fun e => set_has String.eqb E e) A) as H2.
  pose proof (common_length Ne Na) as Hc.
  set (tp := length (filter (fun e => set_has String.eqb A e) E)) in *.
  set (fp := length (filter (fun e => negb (set_has String.eqb A e)) E)) in *.
  set (fn := length (filter (fun e => negb (set_has String.eqb E e)) A)) in *.
  destruct (@ratio_range tp (tp + fp) ltac:(lia)) as [P0 P1].
  destruct (@ratio_range tp (tp + fn) ltac:(lia)) as [R0 R1].
  destruct (f1_range P0 P1 R0 R1) as [F0 F1].
  repeat (split; [first [assumption | lia]|]). reflexivity.
Qed.

Lemma filter_all : forall (A : Type) (f : A -> bool) l,
  (forall x, In x l -> f x = true) -> filter f l = l.
Proof.
  induction l as [|x l IH]; intros H; [reflexivity|]. cbn [filter].
  rewrite (H x (or_introl eq_refl)). f_equal. apply IH.
  intros y Hy. apply H. now right.
Qed.

Lemma filter_nil_none : forall (A : Type) (f : A -> bool) l,
  length (filter f l) = 0 -> forall x, In x l -> f x = false.
Proof.
  induction l as [|y l IH]; intros H x Hx; [inversion Hx|].
  cbn [filter] in H. destruct (f y) eqn:E; [discriminate|].
  destruct Hx as [<-|Hx]; [exact E|now apply IH].
Qed.

(** X22: [compareGraphs] reports no false positive and no false negative
    exactly when the two graphs have the same edges.  Then, if there is an
    edge at all, precision, recall and F1 are 1; two graphs without edges
    score 0 on all three. *)
Theorem X22_compareGraphs_perfect : forall estimatedGraph actualGraph,
  let r := compareGraphs estimatedGraph actualGraph in
  (falsePositives r = 0 /\ falseNegatives r = 0
   <-> forall k, In k (edgeSet estimatedGraph) <-> In k (edgeSet actualGraph))
  /\ (falsePositives r = 0 -> falseNegatives r = 0 ->
      if length (edgeSet actualGraph) =? 0
      then (precision r == 0 /\ recall r == 0 /\ f1Score r == 0)%Q
      else (precision r == 1 /\ recall r == 1 /\ f1Score r == 1)%Q).
Proof.
  intros est act. cbv zeta.
  unfold compareGraphs.
  cbn [truePositives falsePositives falseNegatives precision recall f1Score].
  set (E := edgeSet est). set (A := edgeSet act).
  pose proof (filter_split_length (fun e => set_has String.eqb A e) E) as H1.
  pose proof (filter_split_length (fun e => set_has String.eqb E e) A) as H2.
  pose proof (common_length (edgeSet_NoDup est) (edgeSet_NoDup act)) as Hc.
  fold E A in Hc. rewrite <- Hc in H2. clear Hc.
  set (tp := length (filter (fun e => set_has String.eqb A e) E)) in *.
  set (fp := length (filter (fun e => negb (set_has String.eqb A e)) E)) in *.
  set (fn := length (filter (fun e => negb (set_has String.eqb E e)) A)) in *.
  split.
  - split.
    + intros [Hfp Hfn] k. split; intros Hk.
      * apply (filter_nil_none _ _ Hfp) in Hk.
        apply negb_false_iff in Hk. now apply set_has_In.
      * apply (filter_nil_none _ _ Hfn) in Hk.
        apply negb_false_iff in Hk. now apply set_has_In.
    + intros Heq. unfold fp, fn. split.
      * rewrite filter_none; [reflexivity|]. intros k Hk.
        apply negb_false_iff, set_has_In, Heq, Hk.
      * rewrite filter_none; [reflexivity|]. intros k Hk.
        apply negb_false_iff, set_has_In, Heq, Hk.
  - intros Hfp Hfn. rewrite Hfp, Hfn, !Nat.add_0_r in *.
    rewrite <- H2. destruct (Nat.eqb_spec tp 0) as [Hz|Hnz].
    + rewrite Hz. cbn. repeat split; reflexivity.
    + pose proof (ratio_full Hnz) as Hr.
      split; [exact Hr|]. split; [exact Hr|].
      assert (Hlt : Qltb 0 (ratio tp tp + ratio tp tp) = true)
        by (apply Qltb_lt; rewrite Hr; reflexivity).
      rewrite Hlt, Hr. reflexivity.
Qed.

End CompareFacts.

(** * The placement of observers by degree *)

Section ObserverFacts.
Import Driver.

Lemma sorted_app_le : forall (A : Type) (le : A -> A -> Prop) (l1 l2 : list A),
  StronglySorted le (l1 ++ l2) ->
  forall x y, In x l1 -> In y l2 -> le x y.
Proof.
  intros A le. induction l1 as [|a l1 IH]; intros l2 H x y Hx Hy;
    [inversion Hx|].
  cbn [app] in H. inversion H as [|? ? Hs Hall]; subst.
  destruct Hx as [<-|Hx].
  - rewrite Forall_forall in Hall. apply Hall, in_or_app. now right.
  - now apply (IH l2).
Qed.

Lemma degrees_sorted : forall (l : list (nat * nat)),
  StronglySorted (fun a b => snd b <= snd a)
                 (js_sort (fun a b => snd b <? snd a) l).
Proof.
  intros l. apply Sorted_StronglySorted.
  - intros a b c Hab Hbc. lia.
  - apply js_sort_Sorted; intros x y H.
    + apply Nat.ltb_lt in H. lia.
    + apply Nat.ltb_ge in H. exact H.
Qed.

(** X23: on a graph that lists every node once, [pickHighDegreeObservers]
    returns [count] distinct nodes of the graph, or all of them when there
    are fewer, and no node left out has more neighbours than a node
    returned. *)
Theorem X23_high_degree_observers : forall (graph : Network.Graph) count,
  NoDup (map fst graph) ->
  let obs := pickHighDegreeObservers graph count in
  length obs = Nat.min count (length graph)
  /\ NoDup obs
  /\ (forall x, In x obs -> In x (map fst graph))
  /\ (forall x y, In x obs -> In y (map fst graph) -> ~ In y obs ->
        length (Network.graph_get graph y)
        <= length (Network.graph_get graph x)).
Proof.
  intros graph count Hnd. cbv zeta. unfold pickHighDegreeObservers.
  set (degrees := map (fun e : nat * list nat => (fst e, length (snd e)))
                      graph).
  set (sorted := js_sort (fun a b : nat * nat => snd b <? snd a) degrees).
  assert (Hperm : Permutation sorted degrees) by apply js_sort_perm.
  assert (Hkeys : map fst degrees = map fst graph).
  { unfold degrees. rewrite map_map. reflexivity. }
  assert (Hdeg : forall x d, In (x, d) degrees ->
                   d = length (Network.graph_get graph x)).
  { intros x d Hin. unfold degrees in Hin. apply in_map_iff in Hin.
    destruct Hin as [[k ns] [Heq Hin]]. inversion Heq; subst.
    unfold Network.graph_get.
    now rewrite (@map_get_NoDup_nat _ _ _ _ Hnd Hin). }
  pose proof (degrees_sorted degrees) as Hs. fold sorted in Hs.
  rewrite <- (firstn_skipn count sorted) in Hs.
  pose proof (@sorted_app_le _ _ _ _ Hs) as Hle.
  assert (Hnd' : NoDup (map fst (firstn count sorted)
                        ++ map fst (skipn count sorted))).
  { rewrite <- map_app, firstn_skipn.
    apply (Permutation_NoDup (l := map fst degrees));
      [symmetry; now apply Permutation_map|].
    now rewrite Hkeys. }
  split; [|split; [|split]].
  - rewrite length_map, length_firstn.
    rewrite (Permutation_length Hperm). unfold degrees.
    now rewrite length_map.
  - eapply NoDup_app_remove_r. exact Hnd'.
  - intros x Hx. rewrite <- Hkeys.
    apply (Permutation_in (l := map fst sorted));
      [now apply Permutation_map|].
    rewrite <- (firstn_skipn count sorted), map_app.
    apply in_or_app. now left.
  - intros x y Hx Hy Hny.
    apply in_map_iff in Hx. destruct Hx as [[x' dx] [Heq Hx]].
    cbn [fst] in Heq. subst x'.
    rewrite <- Hkeys in Hy. apply in_map_iff in Hy.
    destruct Hy as [[y' dy] [Heq Hy]]. cbn [fst] in Heq. subst y'.
    assert (Hy' : In (y, dy) sorted)
      by (eapply Permutation_in; [symmetry; exact Hperm|exact Hy]).
    rewrite <- (firstn_skipn count sorted) in Hy'.
    apply in_app_or in Hy'. destruct Hy' as [Hy'|Hy'].
    + exfalso. apply Hny. apply in_map_iff. now exists (y, dy).
    + specialize (Hle _ _ Hx Hy'). cbn [snd] in Hle.
      assert (Hx' : In (x, dx) degrees).
      { eapply Permutation_in; [exact Hperm|].
        rewrite <- (firstn_skipn count sorted). apply in_or_app. now left. }
      rewrite <- (Hdeg _ _ Hy), <- (Hdeg _ _ Hx'). exact Hle.
Qed.

(** X23 on the line of four users: the two inner nodes are picked. *)
Lemma X23_high_degree_witness :
  pickHighDegreeObservers Scenario.line4 2 = [1; 2]
  /\ let obs := pickHighDegreeObservers Scenario.line4 2 in
     length obs = Nat.min 2 (length Scenario.line4)
     /\ NoDup obs
     /\ (forall x, In x obs -> In x (map fst Scenario.line4))
     /\ (forall x y, In x obs -> In y (map fst Scenario.line4) ->
           ~ In y obs ->
           length (Network.graph_get Scenario.line4 y)
           <= length (Network.graph_get Scenario.line4 x)).
Proof.
  split; [vm_compute; reflexivity|].
  refine (@X23_high_degree_observers Scenario.line4 2 _).
  cbn. repeat constructor; cbn; intuition lia.
Defined.

End ObserverFacts.

(** * The adversary's estimate of the graph *)

Section EstimateFacts.
Import AdversaryLP.
Variable Math_sqrt : Q -> Q.

(** The neighbours of [a] in an estimate. *)
Definition est_get (g : list (nat * list nat)) (a : nat) : list nat :=
  or_else (map_get Nat.eqb g a) [].

Lemma est_get_set : forall g k v x,
  est_get (map_set Nat.eqb g k v) x = if x =? k then v else est_get g x.
Proof.
  intros g k v x. unfold est_get. destruct (Nat.eqb_spec x k) as [->|Hne].
  - now rewrite map_get_set_same_nat.
  - now rewrite map_get_set_other_nat.
Qed.

Lemma est_get_touch : forall g a x,
  est_get (if map_has Nat.eqb g a then g else map_set Nat.eqb g a []) x
  = est_get g x.
Proof.
  intros g a x. unfold map_has.
  destruct (map_get Nat.eqb g a) eqn:E; [reflexivity|].
  rewrite est_get_set. destruct (Nat.eqb_spec x a) as [->|_]; [|reflexivity].
  unfold est_get. now rewrite E.
Qed.

Lemma graph_link_In : forall g a b x y,
  In y (est_get (graph_link g a b) x)
  <-> In y (est_get g x) \/ (x = a /\ y = b) \/ (x = b /\ y = a).
Proof.
  intros g a b x y. unfold graph_link. cbv zeta.
  set (g1 := if map_has Nat.eqb g a then g else map_set Nat.eqb g a []).
  set (g2 := if map_has Nat.eqb g1 b then g1 else map_set Nat.eqb g1 b []).
  assert (H2 : forall z, est_get g2 z = est_get g z).
  { intros z. unfold g2, g1. now rewrite !est_get_touch. }
  fold (est_get g2 a).
  set (g3 := map_set Nat.eqb g2 a (nat_add (est_get g2 a) b)).
  fold (est_get g3 b). rewrite est_get_set.
  assert (H3 : forall z, est_get g3 z
                         = if z =? a then nat_add (est_get g a) b
                           else est_get g z).
  { intros z. unfold g3. rewrite est_get_set, !H2. reflexivity. }
  rewrite !H3.
  destruct (Nat.eqb_spec x b) as [->|Hxb].
  - rewrite nat_add_In. destruct (Nat.eqb_spec b a) as [->|Hba].
    + rewrite nat_add_In. intuition.
    + intuition.
  - destruct (Nat.eqb_spec x a) as [->|Hxa].
    + rewrite nat_add_In. intuition.
    + intuition.
Qed.

(** The two numbers that the loop of [buildSocialGraphEstimate] reads off a
    pair key. *)
Definition ends (pairKey : string) : nat * nat :=
  let ns := map Number_of (split_dash pairKey) in (nth 0 ns 0, nth 1 ns 0).

(** The analysis of the pair is confident enough for an edge. *)
Definition confident (A : Adv) (pairKey : string) : bool :=
  Qgeb (confidence (_analyzeRelationship Math_sqrt A (fst (ends pairKey))
                                         (snd (ends pairKey))))
       (3 # 10).

Lemma estimatePair_graph : forall A acc pk,
  estimatedGraph (estimatePair Math_sqrt A acc pk)
  = if confident A pk
    then graph_link (estimatedGraph acc) (fst (ends pk)) (snd (ends pk))
    else estimatedGraph acc.
Proof.
  intros A acc pk. unfold estimatePair, confident, ends. cbv zeta.
  cbn [fst snd]. destruct (Qgeb _ _); reflexivity.
Qed.

Lemma estimate_fold_In : forall A pks acc a b,
  In b (est_get (estimatedGraph (fold_left (estimatePair Math_sqrt A) pks acc))
                a)
  <-> In b (est_get (estimatedGraph acc) a)
      \/ exists pk, In pk pks /\ confident A pk = true
                    /\ (ends pk = (a, b) \/ ends pk = (b, a)).
Proof.
  intros A. induction pks as [|pk pks IH]; intros acc a b; cbn [fold_left].
  - split; [auto|]. intros [H|[pk [[] _]]]. exact H.
  - rewrite IH, estimatePair_graph. destruct (confident A pk) eqn:Hc.
    + rewrite graph_link_In. split.
      * intros [[H|H]|[pk' [Hin [Hc' He]]]].
        -- now left.
        -- right. exists pk. split; [now left|]. split; [exact Hc|].
           destruct (ends pk) as [x y]. cbn [fst snd] in H.
           destruct H as [[-> ->]|[-> ->]]; auto.
        -- right. exists pk'. split; [now right|]. auto.
      * intros [H|[pk' [[->|Hin] [Hc' He]]]].
        -- left. now left.
        -- left. right. destruct (ends pk') as [x y]. cbn [fst snd].
           destruct He as [He|He]; inversion He; subst; auto.
        -- right. exists pk'. auto.
    + split.
      * intros [H|[pk' [Hin [Hc' He]]]]; [now left|].
        right. exists pk'. split; [now right|]. auto.
      * intros [H|[pk' [[->|Hin] [Hc' He]]]]; [now left|congruence|].
        right. exists pk'. auto.
Qed.

(** Every recorded confidence is at least 0.3 and comes with a tier and a
    strength under the same key. *)
Definition recorded (A : Adv) : Prop :=
  forall k c,
    map_get String.eqb (confidenceScores A) k = Some c ->
    (3 # 10 <= c)%Q
    /\ map_has String.eqb (relationshipTiers A) k = true
    /\ map_has String.eqb (relationshipStrengths A) k = true.

Lemma estimatePair_recorded : forall A acc pk,
  recorded acc -> recorded (estimatePair Math_sqrt A acc pk).
Proof.
  intros A acc pk Hacc. unfold estimatePair. cbv zeta.
  destruct (Qgeb _ _) eqn:Hc; [|exact Hacc].
  intros k c Hk. cbn [confidenceScores relationshipTiers
                      relationshipStrengths] in *.
  unfold map_has. destruct (String.eqb_spec k pk) as [->|Hne].
  - rewrite map_get_set_same_str in Hk. inversion Hk; subst.
    rewrite !map_get_set_same_str. split; [|split; reflexivity].
    unfold Qgeb in Hc. now apply Qle_bool_iff in Hc.
  - rewrite map_get_set_other_str in Hk by exact Hne.
    rewrite !map_get_set_other_str by exact Hne. now apply Hacc.
Qed.

Lemma estimate_fold_recorded : forall A pks acc,
  recorded acc -> recorded (fold_left (estimatePair Math_sqrt A) pks acc).
Proof.
  intros A. induction pks as [|pk pks IH]; intros acc H; cbn [fold_left];
    [exact H|].
  apply IH. now apply estimatePair_recorded.
Qed.

(** X24: the graph that [buildSocialGraphEstimate] leaves behind, whatever
    the estimate was before.  [b] is a neighbour of [a] exactly when some
    observed pair key reads as [a] and [b], in either order, and its
    analysis has a confidence of at least 0.3; so the estimate is symmetric.
    Every confidence score that is recorded is at least 0.3 and has a tier
    and a strength under the same key. *)
Theorem X24_estimated_graph : forall A a b,
  let A' := buildSocialGraphEstimate Math_sqrt A in
  (In b (est_get (estimatedGraph A') a)
   <-> exists pk, In pk (nodePairs A) /\ confident A pk = true
                  /\ (ends pk = (a, b) \/ ends pk = (b, a)))
  /\ (In b (est_get (estimatedGraph A') a)
      <-> In a (est_get (estimatedGraph A') b))
  /\ recorded A'.
Proof.
  intros A a b. cbv zeta. unfold buildSocialGraphEstimate. cbv zeta.
  assert (Hchar : forall x y,
            In y (est_get (estimatedGraph
                     (fold_left (estimatePair Math_sqrt A) (nodePairs A)
                        (mkAdv (observed A) (delta A) (linkCounts A)
                               (sendEvents A) (guesses A) (contactLog A)
                               (recipientHistory A) (activityLog A)
                               [] [] [] []))) x)
            <-> exists pk, In pk (nodePairs A) /\ confident A pk = true
                           /\ (ends pk = (x, y) \/ ends pk = (y, x))).
  { intros x y. rewrite estimate_fold_In. cbn [estimatedGraph]. split.
    - intros [[]|H]. exact H.
    - intros H. now right. }
  split; [apply Hchar|]. split.
  - rewrite !Hchar. split; intros [pk [H1 [H2 H3]]]; exists pk; tauto.
  - apply estimate_fold_recorded. intros k c Hk. discriminate Hk.
Qed.

End EstimateFacts.

(** * Thread keys and the driver's metrics *)

Section MetricFacts.
Import Network Driver.

Lemma sortedPairKey_cases : forall a b,
  (String.ltb (str b) (str a) = true /\ sortedPairKey a b = pairKey b a)
  \/ (String.ltb (str b) (str a) = false /\ sortedPairKey a b = pairKey a b).
Proof.
  intros a b. unfold sortedPairKey, pairKey.
  destruct (String.ltb (str b) (str a)); auto.
Qed.

Lemma str_inj : forall a b, str a = str b -> a = b.
Proof.
  intros a b H. rewrite <- (Number_of_str a), <- (Number_of_str b).
  now rewrite H.
Qed.

Lemma sortedPairKey_sym : forall a b, sortedPairKey a b = sortedPairKey b a.
Proof.
  intros a b. unfold sortedPairKey, String.ltb.
  rewrite (String.compare_antisym (str a) (str b)).
  destruct (String.compare (str b) (str a)) eqn:E; cbn [CompOpp];
    try reflexivity.
  apply String.compare_eq_iff, str_inj in E. now subst.
Qed.

(** X25: the key of a thread names the unordered pair of its two users.
    Both directions of a conversation have the same key, and two pairs have
    the same key only when they are the same pair, in either order.  The
    two ids appear in the order of their decimal renderings as strings, so
    the pair of 9 and 10 has the key of 10 followed by 9. *)
Theorem X25_thread_key : forall a b c d,
  sortedPairKey a b = sortedPairKey b a
  /\ (sortedPairKey a b = pairKey a b \/ sortedPairKey a b = pairKey b a)
  /\ (sortedPairKey a b = sortedPairKey c d
      <-> (a = c /\ b = d) \/ (a = d /\ b = c))
  /\ sortedPairKey 9 10 = pairKey 10 9.
Proof.
  intros a b c d. split; [apply sortedPairKey_sym|].
  split; [destruct (sortedPairKey_cases a b) as [[_ H]|[_ H]]; auto|].
  split; [|vm_compute; reflexivity].
  split.
  - intros H.
    destruct (sortedPairKey_cases a b) as [[_ H1]|[_ H1]];
      destruct (sortedPairKey_cases c d) as [[_ H2]|[_ H2]];
      rewrite H1, H2 in H; apply pairKey_inj in H; lia.
  - intros [[-> ->]|[-> ->]]; [reflexivity|apply sortedPairKey_sym].
Qed.

(** ** Conversations *)

Lemma group_perm : forall (m : list (string * list Message)) k x,
  Permutation
    (flat_map snd
       (map_set String.eqb m k (or_else (map_get String.eqb m k) [] ++ [x])))
    (x :: flat_map snd m).
Proof.
  induction m as [|[k0 v0] m IH]; intros k x; cbn [map_set map_get].
  - cbn. constructor. constructor.
  - destruct (String.eqb k0 k); cbn [flat_map snd or_else].
    + rewrite <- app_assoc. cbn [app].
      symmetry. apply Permutation_middle.
    + eapply Permutation_trans;
        [apply Permutation_app_head, IH|].
      symmetry. apply Permutation_middle.
Qed.

Lemma group_length : forall (m : list (string * list Message)) k v,
  length m <= length (map_set String.eqb m k v)
  /\ length (map_set String.eqb m k v) <= S (length m)
  /\ 1 <= length (map_set String.eqb m k v).
Proof.
  induction m as [|[k0 v0] m IH]; intros k v; cbn [map_set].
  - cbn. lia.
  - destruct (String.eqb k0 k); cbn [length]; [lia|].
    destruct (IH k v) as [A [B C]]. lia.
Qed.

Lemma group_nonempty : forall (m : list (string * list Message)) k x,
  (forall e, In e m -> snd e <> []) ->
  forall e,
    In e (map_set String.eqb m k (or_else (map_get String.eqb m k) [] ++ [x]))
    -> snd e <> [].
Proof.
  induction m as [|[k0 v0] m IH]; intros k x Hm e He;
    cbn [map_set map_get] in He.
  - destruct He as [<-|[]]. discriminate.
  - destruct (String.eqb k0 k).
    + destruct He as [<-|He]; [|apply Hm; now right].
      cbn [snd or_else]. intros H. apply app_eq_nil in H.
      destruct H as [_ H]. discriminate.
    + destruct He as [<-|He]; [apply Hm; now left|].
      apply (IH k x); [|exact He]. intros e' He'. apply Hm. now right.
Qed.

Lemma conversations_fold : forall msgs (acc : list (string * list Message)),
  (forall e, In e acc -> snd e <> []) ->
  let c :=
    fold_left
      (fun conversations msg =>
         map_set String.eqb conversations (threadKeyOf msg)
                 (or_else (map_get String.eqb conversations (threadKeyOf msg))
                          [] ++ [msg]))
      msgs acc in
  Permutation (flat_map snd c) (rev msgs ++ flat_map snd acc)
  /\ (forall e, In e c -> snd e <> [])
  /\ length acc <= length c
  /\ (msgs <> [] -> 1 <= length c).
Proof.
  induction msgs as [|m msgs IH]; intros acc Hacc; cbv zeta;
    cbn [fold_left rev].
  - split; [reflexivity|]. split; [exact Hacc|]. split; [lia|congruence].
  - set (acc' := map_set String.eqb acc (threadKeyOf m) _).
    destruct (IH acc') as [P [N [L _]]].
    { apply group_nonempty. exact Hacc. }
    cbv zeta in P, N, L. split; [|split; [exact N|split]].
    + eapply Permutation_trans; [exact P|].
      rewrite <- app_assoc. apply Permutation_app_head.
      cbn [app]. apply group_perm.
    + destruct (group_length acc (threadKeyOf m)
                  (or_else (map_get String.eqb acc (threadKeyOf m)) []
                   ++ [m])) as [G _].
      fold acc' in G. lia.
    + intros _.
      destruct (group_length acc (threadKeyOf m)
                  (or_else (map_get String.eqb acc (threadKeyOf m)) []
                   ++ [m])) as [_ [_ G]].
      fold acc' in G. lia.
Qed.

Lemma conversations_groups : forall msgs,
  Permutation (flat_map snd (conversationsOf msgs)) msgs
  /\ (forall e, In e (conversationsOf msgs) -> snd e <> [])
  /\ (msgs <> [] -> 1 <= length (conversationsOf msgs)).
Proof.
  intros msgs. unfold conversationsOf.
  destruct (@conversations_fold msgs [] ltac:(intros e [])) as [P [N [_ L]]].
  cbv zeta in P, N, L. split; [|split; assumption].
  eapply Permutation_trans; [exact P|].
  cbn [flat_map]. rewrite app_nil_r. symmetry. apply Permutation_rev.
Qed.

Lemma groups_count : forall (c : list (string * list Message)),
  (forall e, In e c -> snd e <> []) -> length c <= length (flat_map snd c).
Proof.
  induction c as [|[k v] c IH]; intros H; [cbn; lia|].
  cbn [flat_map snd length]. rewrite length_app.
  assert (Hv : v <> []) by (apply (H (k, v)); now left).
  assert (length c <= length (flat_map snd c))
    by (apply IH; intros e He; apply H; now right).
  destruct v; [congruence|]. cbn [length]. lia.
Qed.

Lemma replyDelays_nonneg : forall rest prev,
  Sorted (fun a b => m_t a <= m_t b) (prev :: rest) ->
  Forall (fun d => (0 <= d)%Z) (replyDelays prev rest).
Proof.
  induction rest as [|m rest IH]; intros prev Hs; cbn [replyDelays];
    [constructor|].
  inversion Hs as [|? ? Hs' Hd]; subst. inversion Hd as [|? ? Hle]; subst.
  apply Forall_app. split; [|now apply IH].
  destruct (isReply m); constructor; [lia|constructor].
Qed.

Lemma delaysOf_nonneg : forall messages,
  Forall (fun d => (0 <= d)%Z) (delaysOf messages).
Proof.
  intros messages. unfold delaysOf.
  assert (Hs : Sorted (fun a b => m_t a <= m_t b)
                      (js_sort (fun a b => m_t a <? m_t b) messages)).
  { apply js_sort_Sorted; intros x y H.
    - apply Nat.ltb_lt in H. lia.
    - apply Nat.ltb_ge in H. exact H. }
  destruct (js_sort _ messages) as [|m rest]; [constructor|].
  now apply replyDelays_nonneg.
Qed.

Lemma Zsum_nonneg : forall l,
  Forall (fun d => (0 <= d)%Z) l -> (0 <= Zsum l)%Z.
Proof.
  intros l H. unfold Zsum.
  assert (G : forall a, (0 <= a)%Z -> (0 <= fold_left Z.add l a)%Z).
  { induction H as [|d l Hd Hl IH]; intros a Ha; cbn [fold_left];
      [exact Ha|].
    apply IH. lia. }
  apply G. lia.
Qed.

Lemma count_ratio_ge_1 : forall n k,
  0 < k -> k <= n ->
  (1 <= inject_Z (Z.of_nat n) / inject_Z (Z.of_nat k))%Q.
Proof.
  intros n k Hk Hn. apply Qle_shift_div_l.
  - change 0%Q with (inject_Z 0). rewrite <- Zlt_Qlt. lia.
  - rewrite Qmult_1_l, <- Zle_Qle. lia.
Qed.

(** X26: the conversation metrics of the driver.  The records are split
    into conversations without loss: every record lies in exactly one
    conversation, and no conversation is empty.  The average reply delay
    is never negative.  An empty log gives no thread and zero averages; any
    other log gives at least one thread, not more threads than records, and
    at least one record for each thread on average. *)
Theorem X26_conversation_metrics : forall sentLog,
  let r := calculateConversationMetrics sentLog in
  Permutation (flat_map snd (conversationsOf (concat sentLog)))
              (concat sentLog)
  /\ (0 <= avgReplyDelay r)%Q
  /\ totalReplies r <= length (concat sentLog)
  /\ conversationThreads r <= length (concat sentLog)
  /\ match concat sentLog with
     | [] => conversationThreads r = 0
             /\ (avgMessagesPerThread r == 0)%Q /\ (avgReplyDelay r == 0)%Q
     | _ :: _ => 1 <= conversationThreads r
                 /\ (1 <= avgMessagesPerThread r)%Q
     end.
Proof.
  intros sentLog. cbv zeta. unfold calculateConversationMetrics.
  cbn [totalReplies avgReplyDelay conversationThreads avgMessagesPerThread].
  set (flat := concat sentLog).
  destruct (conversations_groups flat) as [P [N L]].
  pose proof (groups_count _ N) as Hc.
  rewrite (Permutation_length P) in Hc.
  split; [exact P|]. split; [|split; [|split; [exact Hc|]]].
  - destruct (0 <? _) eqn:E; [|discriminate].
    apply Nat.ltb_lt in E. apply Qle_shift_div_l.
    + change 0%Q with (inject_Z 0). rewrite <- Zlt_Qlt. lia.
    + rewrite Qmult_0_l. change 0%Q with (inject_Z 0). rewrite <- Zle_Qle.
      apply Zsum_nonneg. apply Forall_flat_map, Forall_forall.
      intros conv _. apply delaysOf_nonneg.
  - apply filter_length_le.
  - destruct flat as [|m flat'] eqn:Hf.
    + cbn. repeat split; reflexivity.
    + assert (H1 : 1 <= length (conversationsOf (m :: flat')))
        by (apply L; discriminate).
      split; [exact H1|].
      destruct (0 <? _) eqn:E; [|apply Nat.ltb_ge in E; lia].
      apply count_ratio_ge_1; lia.
Qed.

(** ** Routing *)

Lemma pathSet_length : forall (keys acc : list string),
  length acc <= length (fold_left (set_add String.eqb) keys acc)
  /\ length (fold_left (set_add String.eqb) keys acc)
     <= length acc + length keys.
Proof.
  induction keys as [|k keys IH]; intros acc; cbn [fold_left length];
    [lia|].
  destruct (IH (set_add String.eqb acc k)) as [A B].
  assert (length acc <= length (set_add String.eqb acc k)
          /\ length (set_add String.eqb acc k) <= S (length acc)).
  { unfold set_add. destruct (set_has String.eqb acc k); [lia|].
    rewrite length_app. cbn [length]. lia. }
  lia.
Qed.

Lemma pathSet_nonempty : forall (k : string) keys,
  1 <= length (fold_left (set_add String.eqb) (k :: keys) []).
Proof.
  intros k keys. cbn [fold_left].
  destruct (pathSet_length keys (set_add String.eqb [] k)) as [A _].
  cbn in A. exact A.
Qed.

(** X27: the routing metrics of the driver.  On a log without records the
    three averages are 0 / 0, that is [NaN], and no path is counted.  On any
    other log they are numbers: the average path length is not negative,
    the path diversity is above 0 and at most 1, the share of short paths
    lies between 0 and 1, and the distinct paths are at least one and at
    most as many as the records. *)
Theorem X27_routing_metrics : forall sentLog,
  let r := calculateRoutingMetrics sentLog in
  match concat sentLog with
  | [] => avgPathLength r = NaN /\ pathDiversity r = NaN
          /\ shortestPathUsage r = NaN /\ totalPaths r = 0
  | _ :: _ =>
      exists a d u,
        avgPathLength r = Finite a /\ pathDiversity r = Finite d
        /\ shortestPathUsage r = Finite u
        /\ (0 <= a)%Q /\ (0 < d)%Q /\ (d <= 1)%Q
        /\ (0 <= u)%Q /\ (u <= 1)%Q
        /\ 1 <= totalPaths r <= length (concat sentLog)
  end.
Proof.
  intros sentLog. cbv zeta. unfold calculateRoutingMetrics.
  cbn [avgPathLength pathDiversity shortestPathUsage totalPaths].
  destruct (concat sentLog) as [|m msgs] eqn:Hf.
  - cbn. repeat split; reflexivity.
  - set (all := m :: msgs).
    set (keys := map (fun x => join_dash (path x)) all).
    pose proof (pathSet_nonempty (join_dash (path m))
                  (map (fun x => join_dash (path x)) msgs)) as H1.
    destruct (pathSet_length keys []) as [_ H2].
    change (join_dash (path m) :: map (fun x => join_dash (path x)) msgs)
      with keys in H1.
    unfold keys in H2 at 2. rewrite length_map in H2. cbn [length] in H2.
    set (n := length (fold_left (set_add String.eqb) keys [])) in *.
    pose proof (filter_length_le (fun x => length (path x) <=? 3) all) as H3.
    set (c := length (filter (fun x => length (path x) <=? 3) all)) in *.
    unfold js_div. rewrite length_map.
    change (length all) with (S (length msgs)) in *. cbn [Nat.eqb].
    assert (Hpos : (0 < inject_Z (Z.of_nat (S (length msgs))))%Q).
    { change 0%Q with (inject_Z 0). rewrite <- Zlt_Qlt. lia. }
    do 3 eexists. repeat (split; [reflexivity|]).
    split; [|split; [|split; [|split; [|split; [|lia]]]]].
    + apply Qle_shift_div_l; [exact Hpos|]. rewrite Qmult_0_l.
      change 0%Q with (inject_Z 0). rewrite <- Zle_Qle. lia.
    + apply Qlt_shift_div_l; [exact Hpos|]. rewrite Qmult_0_l.
      change 0%Q with (inject_Z 0). rewrite <- Zlt_Qlt. lia.
    + apply Qle_shift_div_r; [exact Hpos|]. rewrite Qmult_1_l.
      rewrite <- Zle_Qle. lia.
    + apply Qle_shift_div_l; [exact Hpos|]. rewrite Qmult_0_l.
      change 0%Q with (inject_Z 0). rewrite <- Zle_Qle. lia.
    + apply Qle_shift_div_r; [exact Hpos|]. rewrite Qmult_1_l.
      rewrite <- Zle_Qle. lia.
Qed.

End MetricFacts.

(** * The direction of cover traffic *)

Section CoverDirection.
Import Network.
Variable Math_random : nat -> Q.
Variable gaussian : Q -> Q -> Q.
Variable Math_exp : Q -> Q.
Variable Math_sqrt : Q -> Q.
Variable fuel : nat.
Variable g : Graph.
Variable tm : SocialGraph.TierMap.
Variable opt : Options.

(** Every dummy record goes from the lower to the higher id of a listed
    link. *)
Definition upward (s : State) : Prop :=
  forall m, In m (allMessages s) -> dummy m = true ->
    sender m < recipient m /\ linked g (sender m) (recipient m).

Lemma quiet_upward : forall s s', quiet s s' -> upward s -> upward s'.
Proof.
  intros s s' [Hl _] Hu m Hm. unfold allMessages in Hm. rewrite Hl in Hm.
  now apply Hu.
Qed.

Lemma logged_real_upward : forall s s',
  logged false s s' -> upward s -> upward s'.
Proof.
  intros s s' [[t [m0 [Hp Hd]]] _] Hu m Hm Hdm.
  apply push_at_perm in Hp. destruct Hp as [Hperm _].
  eapply Permutation_in in Hm; [|exact Hperm].
  destruct Hm as [<-|Hm]; [congruence|now apply Hu].
Qed.

Lemma addCover_upward : forall count nodeId neighborId ep acc,
  nodeId < neighborId ->
  (forall cm, In cm (fst (fst (fst acc))) -> fst cm < snd cm) ->
  forall cm,
    In cm (fst (fst (fst (addCover count nodeId neighborId ep acc)))) ->
    fst cm < snd cm.
Proof.
  induction count as [|count IH]; intros nodeId neighborId ep acc Hl Hacc;
    cbn [addCover]; [exact Hacc|].
  destruct acc as [[[msgs c] r] d].
  destruct (Rng.next r) as [u r1].
  destruct (Qltb u (probabilityThreshold c)).
  - apply IH; [exact Hl|]. cbn [fst]. intros cm Hin.
    apply in_app_or in Hin. destruct Hin as [Hin|[<-|[]]].
    + now apply Hacc.
    + exact Hl.
  - apply IH; [exact Hl|]. exact Hacc.
Qed.

Lemma generateCoverTraffic_upward : forall c ep r d msgs c' r' d',
  generateCoverTraffic Math_random gaussian Math_exp Math_sqrt fuel g c ep r d
  = Ok (msgs, c', r', d') ->
  forall cm, In cm msgs -> fst cm < snd cm.
Proof.
  intros c ep r d msgs c' r' d' H. unfold generateCoverTraffic in H.
  match type of H with
  | foldM ?f g ?a0 = _ =>
      pose proof (@foldM_invariant _ _
                    (fun acc : CoverAcc =>
                       forall cm, In cm (fst (fst (fst acc))) ->
                                  fst cm < snd cm)
                    f g a0 (msgs, c', r', d')) as Hinv
  end.
  cbn [fst] in Hinv. apply Hinv; [|intros cm []|exact H].
  intros acc1 e acc2 He Hacc1 Hstep.
  eapply (@foldM_invariant _ _
            (fun acc : CoverAcc =>
               forall cm, In cm (fst (fst (fst acc))) -> fst cm < snd cm));
    [|exact Hacc1|exact Hstep].
  intros a1 nb a2 Hnb Ha1 Hlink. unfold coverLink in Hlink.
  destruct (Nat.ltb_spec (fst e) nb) as [Hlt|_];
    [|inversion Hlink; subst; exact Ha1].
  destruct a1 as [[[msgs1 c1] r1] d1].
  destruct (_sampleTarget gaussian c1 r1) as [target r2].
  destruct (_calculateCoverAmount Math_random gaussian Math_exp Math_sqrt fuel
                                  _ target d1) as [amt| |];
    cbn [bind] in Hlink; try discriminate.
  inversion Hlink; subst.
  apply addCover_upward; [exact Hlt|exact Ha1].
Qed.

Lemma injectCover_record : forall t s cm s',
  injectCover Math_random g opt t s cm = Ok s' ->
  exists m, push_at t m (sentLog s) = Some (sentLog s')
            /\ sender m = fst cm /\ recipient m = snd cm.
Proof.
  intros t s [senderId recipientId] s' H. unfold injectCover in H.
  match type of H with
  | bind ?c _ = _ => destruct c as [[[p|] rng2]| |]
  end; cbn [bind fst snd] in H; try discriminate.
  destruct (logMessage (T opt) t _ senderId recipientId _ p true false)
    as [s2| |] eqn:Hlog; cbn [bind] in H; try discriminate.
  apply logMessage_ok in Hlog. destruct Hlog as [[hops Hpush] _].
  cbn [set_rng set_draws sentLog] in Hpush.
  inversion H; subst; clear H.
  eexists. split; [|split].
  - unfold noteSend. rewrite (proj2 (call_adv_cover _ _ _)). exact Hpush.
  - reflexivity.
  - reflexivity.
Qed.

Lemma coverPhase_upward : forall t s s',
  coverPhase Math_random gaussian Math_exp Math_sqrt fuel g opt t s = Ok s' ->
  upward s -> upward s'.
Proof.
  intros t s s' H Hu. unfold coverPhase in H.
  destruct (coverMgr s) as [c|] eqn:Hc; [|now inversion H; subst].
  destruct (generateCoverTraffic Math_random gaussian Math_exp Math_sqrt fuel
                                 g c t (rng s) (draws s))
    as [[[[msgs c'] r'] d']| |] eqn:Hgen; cbn [bind] in H; try discriminate.
  pose proof (generateCoverTraffic_upward _ _ _ _ Hgen) as Hup.
  pose proof (@generateCoverTraffic_linked Math_random gaussian Math_exp
                Math_sqrt fuel g c t (rng s) (draws s) _ _ _ _ Hgen) as Hlk.
  eapply (@foldM_invariant _ _ upward); [| |exact H].
  - intros s1 cm s2 Hin Hs1 Hstep.
    apply injectCover_record in Hstep.
    destruct Hstep as [m0 [Hp [Hsd Hrc]]].
    intros m Hm Hdm. apply push_at_perm in Hp. destruct Hp as [Hperm _].
    eapply Permutation_in in Hm; [|exact Hperm].
    destruct Hm as [<-|Hm]; [|now apply Hs1].
    rewrite Hsd, Hrc. split; [now apply Hup|now apply Hlk].
  - intros m Hm. apply Hu. exact Hm.
Qed.

Lemma processUser_upward : forall se t s uid s',
  processUser Math_random g tm opt se t s uid = Ok s' ->
  upward s -> upward s'.
Proof.
  intros se t s uid s' H Hb. unfold processUser in H. cbv zeta in H.
  destruct (foldM (processReply Math_random g tm opt t uid) _ s)
    as [s1| |] eqn:Hf; cbn [bind] in H; try discriminate.
  inversion H; subst; clear H.
  assert (H1 : upward s1).
  { eapply (@foldM_invariant _ _ upward); [|exact Hb|exact Hf].
    intros s2 reply s3 _ Hs2 Hstep.
    destruct (processReply_book _ _ _ _ _ _ _ _ Hstep) as [Hq|Hl];
      [now apply (quiet_upward Hq)|now apply (logged_real_upward Hl)]. }
  intros m Hm. apply H1. exact Hm.
Qed.

Lemma subEpochStep_upward : forall bk s se s',
  subEpochStep Math_random gaussian Math_exp Math_sqrt fuel g tm opt bk s se
  = Ok s' ->
  upward s -> upward s'.
Proof.
  intros bk s se s' H Hb. unfold subEpochStep in H. cbv zeta in H.
  destruct (foldM (processUser Math_random g tm opt se _) _ s)
    as [s1| |] eqn:E1; cbn [bind] in H; try discriminate.
  assert (B1 : upward s1).
  { eapply (@foldM_invariant _ _ upward); [|exact Hb|exact E1].
    intros x u y _ Hx Hstep. eapply processUser_upward; eassumption. }
  destruct (foldM (processNewSend Math_random g tm opt _) _ s1)
    as [s2| |] eqn:E2; cbn [bind] in H; try discriminate.
  assert (B2 : upward s2).
  { eapply (@foldM_invariant _ _ upward); [|exact B1|exact E2].
    intros x u y _ Hx Hstep.
    destruct (processNewSend_book _ _ _ _ _ _ _ Hstep) as [Hq|Hl];
      [now apply (quiet_upward Hq)|now apply (logged_real_upward Hl)]. }
  assert (B3 : exists s3, upward s3 /\
             (if (se mod subEpochsPerHour =? subEpochsPerHour - 1)
                 || (se =? T opt * subEpochsPerHour - 1)
              then materialize Math_sqrt g opt (se / subEpochsPerHour) s3
              else Ok s3) = Ok s').
  { destruct (se mod subEpochsPerHour =? 0).
    - destruct (coverPhase Math_random gaussian Math_exp Math_sqrt fuel g opt
                           _ s2) as [s3| |] eqn:E3;
        cbn [bind] in H; try discriminate.
      exists s3. split; [eapply coverPhase_upward; eassumption|exact H].
    - cbn [bind] in H. exists s2. split; [exact B2|exact H]. }
  destruct B3 as [s3 [B3 H3]].
  destruct (_ || _) in H3; [|now inversion H3; subst].
  apply materialize_quiet in H3. now apply (quiet_upward H3).
Qed.

Lemma upward_run : forall users events a s,
  simulate Math_random gaussian Math_exp Math_sqrt fuel g tm opt users events a
  = Ok s ->
  upward s.
Proof.
  intros users events a s H. unfold simulate in H.
  destruct (distributeEventsToSubEpochs events (T opt) subEpochsPerHour
                                        (seed opt))
    as [[bk r]| |]; cbn [bind] in H; try discriminate.
  destruct (addMessageBursts fuel _ _) as [[bk' r']| |];
    cbn [bind] in H; try discriminate.
  eapply (@foldM_invariant _ _ upward); [| |exact H].
  - intros x se y _ Hx Hstep. eapply subEpochStep_upward; eassumption.
  - intros m Hm. unfold allMessages in Hm. cbn in Hm.
    rewrite concat_repeat_nil in Hm. inversion Hm.
Qed.

End CoverDirection.

Section CoverDirectionResult.
Import Network.

(** X28: cover traffic runs one way.  In a run that returns, every dummy
    record has a sender with a lower id than its recipient, and the
    recipient is listed under the sender in the graph: on each link the
    dummies are sent by the node with the lower id. *)
Theorem X28_dummies_go_upward :
  forall Math_random gaussian Math_exp Math_sqrt fuel g tm opt users events
         a s,
  simulate Math_random gaussian Math_exp Math_sqrt fuel g tm opt users events a
  = Ok s ->
  forall m, In m (allMessages s) -> dummy m = true ->
    sender m < recipient m
    /\ exists ns, In (sender m, ns) g /\ In (recipient m) ns.
Proof.
  intros Math_random gaussian Math_exp Math_sqrt fuel g tm opt users events
         a s H m Hm Hd.
  exact (@upward_run Math_random gaussian Math_exp Math_sqrt fuel g tm opt
                     users events a s H m Hm Hd).
Qed.

(** X28 on the covered hour: twenty dummies, on the links 0-1, 0-2, 1-2. *)
Lemma X28_dummies_go_upward_witness :
  exists s,
    Scenario.coveredHour = Ok s
    /\ length (filter dummy (allMessages s)) = 20
    /\ forall m, In m (allMessages s) -> dummy m = true ->
         sender m < recipient m
         /\ exists ns, In (sender m, ns) Scenario.triangle
                       /\ In (recipient m) ns.
Proof.
  eexists. split; [vm_compute; reflexivity|].
  split; [vm_compute; reflexivity|].
  refine (@X28_dummies_go_upward
            (fun _ => (9 # 10)%Q) (fun _ _ => 3%Q) (fun _ => (1 # 3)%Q)
            Scenario.noMath 100 Scenario.triangle []
            (mkOptions 1 42 1 defaultWeights 0 (Some Scenario.lightCover))
            [[]; []; []] Scenario.lateEvent None _ _).
  vm_compute. reflexivity.
Defined.

End CoverDirectionResult.

(** * The breadth-first search finds a shortest route *)

Section BfsCorrect.
Import Network.
Variable g : Graph.
Variables src dst : nat.
Variable Hmax : Z.

Lemma isWalk_unsnoc : forall p n,
  isWalk g (p ++ [n]) = true ->
  isWalk g p = true /\ (p <> [] -> In n (graph_get g (last p 0))).
Proof.
  induction p as [|a p IH]; intros n H; [split; [reflexivity|congruence]|].
  destruct p as [|b p].
  - cbn in H. rewrite andb_true_r in H. apply nat_has_In in H.
    split; [reflexivity|]. intros _. exact H.
  - cbn [app isWalk] in H. apply andb_prop in H. destruct H as [Hab H].
    destruct (IH n H) as [Hw Hn]. split.
    + cbn [isWalk]. rewrite Hab. exact Hw.
    + intros _. cbn [last]. apply Hn. discriminate.
Qed.

Lemma route_unsnoc : forall v r,
  route g src v r -> 2 <= length r ->
  exists r' u, r = r' ++ [v] /\ route g src u r' /\ In v (graph_get g u).
Proof.
  intros v r Hr Hlen. apply route_parts in Hr. destruct Hr as [Hh [Hl Hw]].
  destruct (@exists_last _ r) as [r' [x ->]].
  { intros ->. cbn in Hlen. lia. }
  rewrite last_last in Hl. subst x.
  assert (Hne : r' <> []).
  { intros ->. cbn in Hlen. lia. }
  destruct (isWalk_unsnoc _ _ Hw) as [Hw' Hn].
  exists r', (last r' 0). split; [reflexivity|]. split; [|now apply Hn].
  apply route_parts. split; [|split; [reflexivity|exact Hw']].
  destruct r' as [|a r']; [congruence|]. exact Hh.
Qed.

Lemma route_nonempty : forall v r, route g src v r -> 1 <= length r.
Proof.
  intros v [|a r] H; [discriminate H|]. cbn. lia.
Qed.

Lemma route_one : forall v r, route g src v r -> length r <= 1 -> v = src.
Proof.
  intros v r H Hlen. apply route_parts in H. destruct H as [Hh [Hl _]].
  destruct r as [|a [|b r]]; cbn in *; try lia; congruence.
Qed.

(** [p] is a route from [src] to [v], and no route to [v] is shorter. *)
Definition best (v : nat) (p : list nat) : Prop :=
  route g src v p /\ forall r, route g src v r -> length p <= length r.

(** Every seen node is the end of a queued path, or all its neighbours are
    seen; for the node [u] that is being expanded the neighbours still to
    come, [ns], are excused. *)
Definition explored (q : list (list nat)) (seen : list nat) (u : nat)
           (ns : list nat) : Prop :=
  forall u', In u' seen ->
    (exists p, In p q /\ last p 0 = u')
    \/ (forall v, In v (graph_get g u') ->
                  In v seen \/ (u' = u /\ In v ns)).

(** The state of the search between two turns of the [while] loop: the
    queue holds paths of [L] nodes, [A], then paths of [L + 1] nodes, [B]. *)
Definition Inv (L : nat) (A B : list (list nat)) (seen : list nat) : Prop :=
  1 <= L
  /\ (forall p, In p A -> length p = L)
  /\ (forall p, In p B -> length p = S L)
  /\ (forall r v, route g src v r -> length r <= L -> In v seen)
  /\ explored (A ++ B) seen 0 []
  /\ (forall p, In p (A ++ B) -> best (last p 0) p)
  /\ ~ In dst seen.

(** The state inside the loop over the neighbours of the end of [path]. *)
Definition ScanInv (L : nat) (path : list nat) (A B : list (list nat))
           (seen ns : list nat) : Prop :=
  1 <= L
  /\ (forall p, In p A -> length p = L)
  /\ (forall p, In p B -> length p = S L)
  /\ (forall r v, route g src v r -> length r <= L -> In v seen)
  /\ explored (A ++ B) seen (last path 0) ns
  /\ (forall p, In p (A ++ B) -> best (last p 0) p)
  /\ ~ In dst seen
  /\ best (last path 0) path /\ length path = L
  /\ (forall x, In x ns -> In x (graph_get g (last path 0))).

Lemma best_snoc : forall L path seen n,
  (forall r v, route g src v r -> length r <= L -> In v seen) ->
  best (last path 0) path -> length path = L ->
  In n (graph_get g (last path 0)) -> ~ In n seen ->
  best n (path ++ [n]).
Proof.
  intros L path seen n Hnear [Hr _] Hlen Hn Hns. split.
  - eapply route_snoc; eassumption.
  - intros r Hroute. rewrite length_app. cbn [length].
    destruct (Nat.le_gt_cases (length r) L) as [Hle|Hgt]; [|lia].
    exfalso. apply Hns. eapply Hnear; eassumption.
Qed.

Lemma scan_ok : forall L path ns A B seen,
  ScanInv L path A B seen ns ->
  match scanShortest ns path dst (A ++ B) seen with
  | inl p => best dst p
  | inr (q', seen') => exists B', q' = A ++ B' /\ Inv L A B' seen'
  end.
Proof.
  intros L path. induction ns as [|n ns IH]; intros A B seen
    [HL [HA [HB [Hnear [Hset [Hopt [Hdst [Hbest [Hlen Hns]]]]]]]]];
    cbn [scanShortest].
  - exists B. split; [reflexivity|].
    repeat (split; [assumption|]). split; [|split; assumption].
    intros u' Hu'. destruct (Hset u' Hu') as [Hp|Hv]; [now left|].
    right. intros v Hv'. destruct (Hv v Hv') as [H|[_ []]]. now left.
  - destruct (nat_has seen n) eqn:Hseen.
    + apply nat_has_In in Hseen. apply IH.
      repeat (split; [assumption|]).
      split; [|repeat (split; [assumption|]); intros x Hx; apply Hns;
               now right].
      intros u' Hu'. destruct (Hset u' Hu') as [Hp|Hv]; [now left|].
      right. intros v Hv'. destruct (Hv v Hv') as [H|[Hu [<-|H]]]; auto.
    + assert (Hnot : ~ In n seen).
      { intros H. apply nat_has_In in H. congruence. }
      assert (Hn : In n (graph_get g (last path 0))) by (apply Hns; now left).
      pose proof (@best_snoc L path seen n Hnear Hbest Hlen Hn Hnot) as Hnew.
      destruct (Nat.eqb_spec n dst) as [->|Hne]; [exact Hnew|].
      rewrite <- app_assoc. apply IH.
      split; [exact HL|]. split; [exact HA|]. split; [|split; [|split]].
      * intros p Hp. apply in_app_or in Hp. destruct Hp as [Hp|[<-|[]]].
        -- now apply HB.
        -- rewrite length_app. cbn [length]. lia.
      * intros r v Hr Hle. apply nat_add_In. left. eapply Hnear; eassumption.
      * intros u' Hu'. apply nat_add_In in Hu'. destruct Hu' as [Hu'| ->].
        -- destruct (Hset u' Hu') as [[p [Hp Hl]]|Hv].
           ++ left. exists p. split; [|exact Hl].
              rewrite app_assoc. apply in_or_app. now left.
           ++ right. intros v Hv'. destruct (Hv v Hv') as [H|[Hu [<-|H]]].
              ** left. apply nat_add_In. now left.
              ** left. apply nat_add_In. now right.
              ** right. auto.
        -- left. exists (path ++ [n]). split; [|apply last_last].
           rewrite app_assoc. apply in_or_app. right. now left.
      * split; [|split; [|split; [exact Hbest|split; [exact Hlen|]]]].
        -- intros p Hp. rewrite app_assoc in Hp. apply in_app_or in Hp.
           destruct Hp as [Hp|[<-|[]]]; [now apply Hopt|].
           rewrite last_last. exact Hnew.
        -- intros H. apply nat_add_In in H. destruct H as [H|H]; auto.
        -- intros x Hx. apply Hns. now right.
Qed.

Lemma Inv_next : forall L B seen, Inv L [] B seen -> Inv (S L) B [] seen.
Proof.
  intros L B seen [HL [HA [HB [Hnear [Hset [Hopt Hdst]]]]]].
  cbn [app] in Hset, Hopt.
  split; [lia|]. split; [exact HB|]. split; [intros p []|].
  split; [|split; [|split; [|exact Hdst]]].
  - intros r v Hr Hle.
    destruct (Nat.le_gt_cases (length r) L) as [Hle'|Hgt];
      [eapply Hnear; eassumption|].
    destruct (@route_unsnoc v r Hr ltac:(lia)) as [r' [u [-> [Hr' Hv]]]].
    rewrite length_app in Hle, Hgt. cbn [length] in Hle, Hgt.
    assert (Hu : In u seen) by (apply (Hnear r' u Hr'); lia).
    destruct (Hset u Hu) as [[p [Hp Hl]]|Hall].
    + exfalso. destruct (Hopt p Hp) as [_ Hmin]. rewrite Hl in Hmin.
      specialize (Hmin r' Hr'). rewrite (HB p Hp) in Hmin. lia.
    + destruct (Hall v Hv) as [H|[_ []]]. exact H.
  - rewrite app_nil_r. exact Hset.
  - rewrite app_nil_r. exact Hopt.
Qed.

Lemma Inv_empty : forall K L seen,
  Inv L [] [] seen -> L <= K -> Inv K [] [] seen.
Proof.
  intros K L seen H Hle. induction Hle as [|K Hle IH]; [exact H|].
  now apply Inv_next.
Qed.

Lemma Inv_far : forall L A B seen r,
  Inv L A B seen -> route g src dst r -> L < length r.
Proof.
  intros L A B seen r [_ [_ [_ [Hnear [_ [_ Hdst]]]]]] Hr.
  destruct (Nat.le_gt_cases (length r) L) as [Hle|Hgt]; [|exact Hgt].
  exfalso. apply Hdst. eapply Hnear; eassumption.
Qed.

Lemma bfs_drain : forall fuel q seen,
  (forall p, In p q -> (Hmax + 1 < Z.of_nat (length p))%Z) ->
  bfsShortest fuel g dst Hmax q seen = Ok None
  \/ bfsShortest fuel g dst Hmax q seen = OutOfFuel.
Proof.
  induction fuel as [|fuel IH]; intros q seen Hq; cbn [bfsShortest];
    [now right|].
  destruct q as [|p q]; [now left|].
  assert (Hp : (Hmax + 1 <? Z.of_nat (length p))%Z = true)
    by (apply Z.ltb_lt, Hq; now left).
  rewrite Hp. apply IH. intros p' Hp'. apply Hq. now right.
Qed.

Lemma bfs_correct : forall fuel L A B seen,
  Inv L A B seen ->
  match bfsShortest fuel g dst Hmax (A ++ B) seen with
  | Ok (Some p) => best dst p
  | Ok None =>
      forall r, route g src dst r -> (Hmax + 2 < Z.of_nat (length r))%Z
  | Throw _ => False
  | OutOfFuel => True
  end.
Proof.
  induction fuel as [|fuel IH]; intros L A B seen HI; [exact I|].
  assert (Hhead : forall L p A B seen,
            Inv L (p :: A) B seen ->
            match bfsShortest (S fuel) g dst Hmax ((p :: A) ++ B) seen with
            | Ok (Some p) => best dst p
            | Ok None =>
                forall r, route g src dst r ->
                          (Hmax + 2 < Z.of_nat (length r))%Z
            | Throw _ => False
            | OutOfFuel => True
            end).
  { clear L A B seen HI. intros L p A B seen HI.
    pose proof HI as [HL [HA [HB [Hnear [Hset [Hopt Hdst]]]]]].
    cbn [app bfsShortest].
    assert (Hlen : length p = L) by (apply HA; now left).
    destruct (Z.ltb_spec (Hmax + 1) (Z.of_nat (length p))) as [Hlong|Hshort].
    - destruct (@bfs_drain fuel (A ++ B) seen) as [E|E].
      + intros p' Hp'. apply in_app_or in Hp'. destruct Hp' as [Hp'|Hp'].
        * rewrite (HA p') by now right. lia.
        * rewrite (HB p' Hp'). lia.
      + rewrite E. intros r Hr. pose proof (Inv_far HI Hr). lia.
      + now rewrite E.
    - pose proof (@scan_ok L p (graph_get g (last p 0)) A B seen) as Hscan.
      destruct (scanShortest (graph_get g (last p 0)) p dst (A ++ B) seen)
        as [newPath|[q' seen']].
      + apply Hscan.
        split; [exact HL|]. split; [intros x Hx; apply HA; now right|].
        split; [exact HB|]. split; [exact Hnear|]. split; [|split; [|split]].
        * intros u' Hu'. destruct (Hset u' Hu') as [[x [[<-|Hx] Hl]]|Hall].
          -- right. intros v Hv. right. split; [now symmetry|].
             now rewrite Hl.
          -- left. now exists x.
          -- right. intros v Hv. destruct (Hall v Hv) as [H|[_ []]].
             now left.
        * intros x Hx. apply Hopt. now right.
        * exact Hdst.
        * split; [apply Hopt; now left|]. split; [exact Hlen|auto].
      + destruct Hscan as [B' [-> HI']].
        * split; [exact HL|]. split; [intros x Hx; apply HA; now right|].
          split; [exact HB|]. split; [exact Hnear|].
          split; [|split; [|split]].
          -- intros u' Hu'.
             destruct (Hset u' Hu') as [[x [[<-|Hx] Hl]]|Hall].
             ++ right. intros v Hv. right. split; [now symmetry|].
                now rewrite Hl.
             ++ left. now exists x.
             ++ right. intros v Hv. destruct (Hall v Hv) as [H|[_ []]].
                now left.
          -- intros x Hx. apply Hopt. now right.
          -- exact Hdst.
          -- split; [apply Hopt; now left|]. split; [exact Hlen|auto].
        * apply (IH L A B' seen' HI'). }
  destruct A as [|p A]; [|now apply (Hhead L p A B seen)].
  destruct B as [|p B].
  - cbn [app bfsShortest]. intros r Hr. exfalso.
    pose proof (@Inv_empty (Nat.max L (length r)) L seen HI ltac:(lia)) as HK.
    pose proof (Inv_far HK Hr). lia.
  - apply Inv_next in HI.
    pose proof (Hhead (S L) p B [] seen HI) as H.
    rewrite app_nil_r in H. exact H.
Qed.

Lemma Inv_start : src <> dst -> Inv 1 [[src]] [] [src].
Proof.
  intros Hne. split; [lia|]. split; [intros p [<-|[]]; reflexivity|].
  split; [intros p []|]. split; [|split; [|split]].
  - intros r v Hr Hle. left. symmetry. eapply route_one; eassumption.
  - intros u' [<-|[]]. left. exists [src]. split; [now left|reflexivity].
  - intros p [<-|[]]. cbn [last]. split; [apply route_single|].
    intros r Hr. cbn [length]. eapply route_nonempty. exact Hr.
  - intros [H|[]]. congruence.
Qed.

End BfsCorrect.

Section ShortestResult.
Import Network.

(** X29: [shortestPath] is a shortest-path search with a cut-off.  It
    always returns.  A path that it returns is a route from [src] to [dst]
    and no route between them has fewer nodes; when it returns [null], every
    route from [src] to [dst], if there is one, has more than [Hmax + 2]
    nodes. *)
Theorem X29_shortestPath_is_shortest : forall g src dst Hmax,
  match shortestPath g src dst Hmax with
  | Ok (Some p) =>
      isRoute g src dst p = true
      /\ forall r, isRoute g src dst r = true -> length p <= length r
  | Ok None =>
      forall r, isRoute g src dst r = true ->
                (Hmax + 2 < Z.of_nat (length r))%Z
  | _ => False
  end.
Proof.
  intros g src dst Hmax.
  pose proof (@shortestPath_total g src dst Hmax) as Htot.
  unfold shortestPath in *.
  destruct (Nat.eqb_spec src dst) as [->|Hne].
  - split; [apply route_single|]. intros r Hr.
    cbn [length]. eapply route_nonempty. exact Hr.
  - pose proof (@bfs_correct g src dst Hmax (2 + length (universe g))
                  1 [[src]] [] [src] (@Inv_start g src dst Hne)) as H.
    cbn [app] in H.
    destruct (bfsShortest _ g dst Hmax [[src]] [src]) as [[p|]|m|];
      [exact H|exact H|exact H|congruence].
Qed.

End ShortestResult.

(** * What the adversary is told about contacts *)

Section ContactFacts.
Import Network.
Variable Math_random : nat -> Q.
Variable gaussian : Q -> Q -> Q.
Variable Math_exp : Q -> Q.
Variable Math_sqrt : Q -> Q.
Variable fuel : nat.
Variable g : Graph.
Variable tm : SocialGraph.TierMap.
Variable opt : Options.































End ContactFacts.

Section ContactResult.
Import Network.



End ContactResult.
